(** * A region-based free-list allocator: model of [allocator.c]

    The allocator keeps one global doubly-linked list of block headers
    ([struct mem_block], 100 bytes each) that live inside the memory
    they describe.  The model keeps the headers in a finite map from
    addresses to records, the two list ends and the three counters as
    the C globals, and threads that state through every function in a
    small state-and-failure monad.  The operating system ([mmap],
    [munmap], [getpagesize], [getenv]) is an explicit input of each
    call. *)

From Stdlib Require Import ZArith Lia.
From stdpp Require Import base tactics option list gmap strings pretty.

Local Open Scope Z_scope.

(** ** Machine integers *)

(** [size_t], [unsigned long] and pointers are 64 bits wide. *)
Definition wrap64 (z : Z) : Z := z mod 2 ^ 64.

(** Reading a 64-bit pattern as [ssize_t]. *)
Definition to_ssize (z : Z) : Z := if z <? 2 ^ 63 then z else z - 2 ^ 64.

Definition INT_MAX : Z := 2147483647.
Definition INT_MIN : Z := -2147483648.

Definition NULL : Z := 0.
(** [MAP_FAILED] is [(void * ) -1]. *)
Definition MAP_FAILED : Z := 2 ^ 64 - 1.

Definition ALIGN_SIZE : Z := 8.
Definition BLOCK_ALIGN : Z := 4.

(** ** Block headers *)

(** [struct mem_block] of [allocator.h], which is declared packed:
    [char name[32]] at offset 0, [size_t size] at 32, [bool free] at 40,
    [unsigned long region_id] at 41, [next] at 49, [prev] at 57 and
    [char padding[35]] from 65 to 99.  The record has the six fields
    the code reads and writes; [padding] is never touched.  [name] is
    the string held in the 32-byte array, which is why it has at most
    31 characters in every header the model describes: a longer one has
    no room for its terminator and runs into [size] (see
    [malloc_name]). *)
Record mem_block : Type := MemBlock {
  name : string;
  size : Z;
  free : bool;
  region_id : Z;
  next : Z;
  prev : Z
}.

(** [sizeof(struct mem_block)]: the packed fields take
    32 + 8 + 1 + 8 + 8 + 8 + 35 bytes. *)
Definition sizeof_mem_block : Z := 100.

(** Anonymous mappings are zero-filled. *)
Definition zero_block : mem_block :=
  MemBlock EmptyString 0 false 0 NULL NULL.

Definition with_name (v : string) (b : mem_block) : mem_block :=
  MemBlock v (size b) (free b) (region_id b) (next b) (prev b).
Definition with_size (v : Z) (b : mem_block) : mem_block :=
  MemBlock (name b) v (free b) (region_id b) (next b) (prev b).
Definition with_free (v : bool) (b : mem_block) : mem_block :=
  MemBlock (name b) (size b) v (region_id b) (next b) (prev b).
Definition with_region_id (v : Z) (b : mem_block) : mem_block :=
  MemBlock (name b) (size b) (free b) v (next b) (prev b).
Definition with_next (v : Z) (b : mem_block) : mem_block :=
  MemBlock (name b) (size b) (free b) (region_id b) v (prev b).
Definition with_prev (v : Z) (b : mem_block) : mem_block :=
  MemBlock (name b) (size b) (free b) (region_id b) (next b) v.

(** ** Allocator state *)

(** What the allocator hands to libc besides the list itself: the
    diagnostic written by [perror] and the bulk memory calls, recorded
    with their arguments (the bytes of the data areas are not modelled). *)
Inductive event : Type :=
  | Perror (msg : string)
  | Memset (p c n : Z)
  | Memcpy (dst src n : Z)
  | Strcpy (dst : Z) (s : string).

Record state : Type := State {
  heap : gmap Z mem_block;   (* the headers in mapped memory, by address *)
  mapped : Z → bool;         (* which addresses are currently mapped *)
  g_head : Z;
  g_tail : Z;
  g_allocations : Z;
  g_regions : Z;
  g_splits : Z;
  trace : list event         (* most recent first *)
}.

Definition initial_state : state :=
  State ∅ (λ _, false) NULL NULL 0 0 0 [].

Definition set_heap (h : gmap Z mem_block) (st : state) : state :=
  State h (mapped st) (g_head st) (g_tail st)
        (g_allocations st) (g_regions st) (g_splits st) (trace st).
Definition set_mapped (m : Z → bool) (st : state) : state :=
  State (heap st) m (g_head st) (g_tail st)
        (g_allocations st) (g_regions st) (g_splits st) (trace st).
Definition set_g_head (v : Z) (st : state) : state :=
  State (heap st) (mapped st) v (g_tail st)
        (g_allocations st) (g_regions st) (g_splits st) (trace st).
Definition set_g_tail (v : Z) (st : state) : state :=
  State (heap st) (mapped st) (g_head st) v
        (g_allocations st) (g_regions st) (g_splits st) (trace st).
Definition set_g_allocations (v : Z) (st : state) : state :=
  State (heap st) (mapped st) (g_head st) (g_tail st)
        v (g_regions st) (g_splits st) (trace st).
Definition set_g_regions (v : Z) (st : state) : state :=
  State (heap st) (mapped st) (g_head st) (g_tail st)
        (g_allocations st) v (g_splits st) (trace st).
Definition set_g_splits (v : Z) (st : state) : state :=
  State (heap st) (mapped st) (g_head st) (g_tail st)
        (g_allocations st) (g_regions st) v (trace st).
Definition emit (e : event) (st : state) : state :=
  State (heap st) (mapped st) (g_head st) (g_tail st)
        (g_allocations st) (g_regions st) (g_splits st) (e :: trace st).

(** ** The monad *)

(** A call either returns, or leaves what C defines (an access through
    a null or unmapped address, a read of memory holding no header, a
    write past the end of an array: undefined behaviour, for the
    accesses a segmentation fault on the reference platform), or never
    returns (a list walk caught in a cycle). *)
Inductive outcome (A : Type) : Type :=
  | Done (a : A)
  | Crash
  | Hang.
Arguments Done {A} a.
Arguments Crash {A}.
Arguments Hang {A}.

Definition M (A : Type) : Type := state → outcome (A * state).

Global Instance M_ret : MRet M := λ A a st, Done (a, st).
Global Instance M_bind : MBind M := λ A B k m st,
  match m st with
  | Done (a, st') => k a st'
  | Crash => Crash
  | Hang => Hang
  end.
Definition ret {A} (a : A) : M A := mret a.
Definition crash {A} : M A := λ _, Crash.
Definition hang {A} : M A := λ _, Hang.
Definition get {A} (f : state → A) : M A := λ st, Done (f st, st).
Definition modify (f : state → state) : M unit := λ st, Done (tt, f st).

(** ** Memory access *)

(** Reading through a block pointer, [p->f]. *)
Definition load {A} (f : mem_block → A) (p : Z) : M A := λ st,
  if decide (p = NULL) then Crash
  else match heap st !! p with
       | Some b => Done (f b, st)
       | None => Crash
       end.

(** Writing one field through a block pointer, [p->f = v].  A first
    write into mapped memory that holds no header yet starts from the
    bytes found there; every such header has all six fields written
    before it is read, so the starting bytes are taken to be zero. *)
Definition store (p : Z) (f : mem_block → mem_block) : M unit := λ st,
  if decide (p = NULL) then Crash
  else match heap st !! p with
       | Some b => Done (tt, set_heap (<[p := f b]> (heap st)) st)
       | None =>
           if mapped st p && mapped st (p + sizeof_mem_block - 1)
           then Done (tt, set_heap (<[p := f zero_block]> (heap st)) st)
           else Crash
       end.

(** [snprintf(name, 32, fmt "%lu", n)]: at most 31 characters are kept. *)
Definition snprintf32 (prefix : string) (n : Z) : string :=
  String.substring 0 31 (prefix +:+ pretty (Z.to_N n)).

(** [perror]. *)
Definition perror (msg : string) : M unit := modify (emit (Perror msg)).

(** The [n] bytes from [p] exist and are mapped. *)
Definition range_mapped (st : state) (p n : Z) : bool :=
  if p + n <=? 2 ^ 64 then forallb (mapped st) (seqZ p n) else false.

(** [memset(p, c, n)] and [memcpy(dst, src, n)]: the call is recorded
    with its arguments.  Touching a byte through a null pointer, or a
    byte that is not mapped, is an invalid access: the call faults as
    soon as its range leaves mapped memory.  The bytes of the data
    areas are not part of the state; a write that stays in mapped
    memory but runs past the block it was meant for would overwrite
    what lies behind it, and the calls that sequences of operations are
    made of (see [op_ok]) are those whose writes stay inside their
    block. *)
Definition memset (p c n : Z) : M unit := λ st,
  if decide (n = 0) then Done (tt, emit (Memset p c n) st)
  else if decide (p = NULL) then Crash
  else if range_mapped st p n then Done (tt, emit (Memset p c n) st)
  else Crash.

Definition memcpy (dst src n : Z) : M unit := λ st,
  if decide (n = 0) then Done (tt, emit (Memcpy dst src n) st)
  else if decide (dst = NULL ∨ src = NULL) then Crash
  else if range_mapped st dst n && range_mapped st src n
       then Done (tt, emit (Memcpy dst src n) st)
  else Crash.

(** ** The operating system *)

(** What the process sees of its environment at one call:
    [getenv("ALLOCATOR_ALGORITHM")], whether
    [getenv("ALLOCATOR_SCRIBBLE")] is set and reads as 1,
    and [getpagesize()]. *)
Record env : Type := Env {
  ALLOCATOR_ALGORITHM : option string;
  ALLOCATOR_SCRIBBLE : bool;
  pagesize : Z
}.

Definition in_range (a len x : Z) : bool := (a <=? x) && (x <? a + len).

(** [mmap(NULL, len, ...)]: the kernel either refuses ([answer = None],
    and always for a zero length) or picks the address. *)
Definition mmap (len : Z) (answer : option Z) : M Z := λ st,
  if decide (len = 0) then Done (MAP_FAILED, st)
  else match answer with
       | None => Done (MAP_FAILED, st)
       | Some a =>
           Done (a, set_mapped (λ x, in_range a len x || mapped st x) st)
       end.

(** [munmap(addr, len)]: on success the range is gone, and with it
    every header stored in it; on failure nothing changes and -1 is
    returned. *)
Definition munmap (addr len : Z) (ok : bool) : M Z := λ st,
  if ok then
    Done (0, set_heap (filter (λ kv, in_range addr len kv.1 = false) (heap st))
               (set_mapped (λ x, negb (in_range addr len x) && mapped st x) st))
  else Done (-1, st).

(** ** split_block *)

Definition split_block (block : Z) (sz : Z) : M Z :=
  let min_sz := sizeof_mem_block + BLOCK_ALIGN in
  if sz <? min_sz then ret NULL else
  is_free ← load free block;
  if negb (is_free : bool) then ret NULL else
  bsize ← load size block;
  let rm_sz := wrap64 (bsize - sz) in
  if rm_sz <? 104 then ret NULL else
  let new_block := wrap64 (block + sz) in
  tl ← get g_tail;
  (if decide (block = tl) then
     store block (with_next new_block);;
     store new_block (with_prev block);;
     store new_block (with_next NULL);;
     modify (set_g_tail new_block)
   else
     n ← load next block;
     store new_block (with_next n);;
     n' ← load next block;
     store n' (with_prev new_block);;
     store new_block (with_prev block);;
     store block (with_next new_block));;
  k ← get g_splits;
  modify (set_g_splits (wrap64 (k + 1)));;
  store new_block (with_name (snprintf32 "Split block " k));;
  store new_block (with_size rm_sz);;
  store new_block (with_free true);;
  r ← load region_id block;
  store new_block (with_region_id r);;
  store block (with_size sz);;
  ret new_block.

(** ** merge_block *)

(** C's short-circuit conjunction: the right operand is evaluated, and
    its pointers followed, only when the left one holds. *)
Definition andM (a b : M bool) : M bool :=
  x ← a; if (x : bool) then b else ret false.

Definition nonnull (p : Z) : bool := negb (p =? NULL).

(** [munmap(block, block->size) == -1], with the [perror] and the
    [return NULL] that follow it; otherwise control falls through to the
    final [return block]. *)
Definition unmap_or_report (block : Z) (ok : bool) : M Z :=
  bsize ← load size block;
  r ← munmap block bsize ok;
  if decide ((r : Z) = -1) then perror "munmap";; ret NULL
  else ret block.

(** [merge_block] is three statements in a row; each is a definition of
    its own here.  First statement: the block absorbs a free successor
    of its region. *)
Definition merge_with_next (block : Z) : M unit :=
  n ← load next block;
  if nonnull n then
    c ← andM (n ← load next block; load free n)
             (n ← load next block; nreg ← load region_id n;
              breg ← load region_id block; ret (bool_decide (nreg = breg)));
    if (c : bool) then
      bsize ← load size block;
      n ← load next block;
      nsize ← load size n;
      store block (with_size (wrap64 (bsize + nsize)));;
      n ← load next block;
      tl ← get g_tail;
      if decide (n = tl) then
        modify (set_g_tail block);;
        n ← load next block;
        store n (with_prev NULL);;
        store block (with_next NULL)
      else
        n ← load next block;
        nn ← load next n;
        store block (with_next nn);;
        n ← load next block;
        store n (with_prev block)
    else ret tt
  else ret tt.

(** Second statement: a free predecessor of its region absorbs the
    block. *)
Definition merge_with_prev (block : Z) : M unit :=
  p ← load prev block;
  if nonnull p then
    c ← andM (p ← load prev block; load free p)
             (p ← load prev block; preg ← load region_id p;
              breg ← load region_id block; ret (bool_decide (preg = breg)));
    if (c : bool) then
      p ← load prev block;
      psize ← load size p;
      bsize ← load size block;
      store p (with_size (wrap64 (psize + bsize)));;
      tl ← get g_tail;
      if decide (block = tl) then
        p ← load prev block;
        modify (set_g_tail p);;
        p ← load prev block;
        store p (with_next NULL);;
        store block (with_prev NULL)
      else
        p ← load prev block;
        n ← load next block;
        store p (with_next n);;
        p ← load prev block;
        pn ← load next p;
        p ← load prev block;
        store pn (with_prev p)
    else ret tt
  else ret tt.

(** Third statement: the [if]/[else if] chain that unlinks and unmaps a
    block left alone in its region, and the final [return block]. *)
Definition unmap_if_alone (block : Z) (ok : bool) : M Z :=
  hd ← get g_head;
  tl ← get g_tail;
  if bool_decide (block = hd) && bool_decide (block = tl) then
    modify (set_g_head NULL);;
    modify (set_g_tail NULL);;
    unmap_or_report block ok
  else
  c ← andM (andM (n ← load next block; ret (nonnull n))
                 (n ← load next block; nreg ← load region_id n;
                  breg ← load region_id block;
                  ret (negb (bool_decide (nreg = breg)))))
           (andM (p ← load prev block; ret (nonnull p))
                 (p ← load prev block; preg ← load region_id p;
                  breg ← load region_id block;
                  ret (negb (bool_decide (preg = breg)))));
  if (c : bool) then
    p ← load prev block;
    n ← load next block;
    store p (with_next n);;
    n ← load next block;
    p ← load prev block;
    store n (with_prev p);;
    unmap_or_report block ok
  else
  c ← andM (andM (p ← load prev block; ret (nonnull p))
                 (tl ← get g_tail; ret (bool_decide (block = tl))))
           (p ← load prev block; preg ← load region_id p;
            breg ← load region_id block;
            ret (negb (bool_decide (preg = breg))));
  if (c : bool) then
    p ← load prev block;
    modify (set_g_tail p);;
    p ← load prev block;
    store p (with_next NULL);;
    store block (with_prev NULL);;
    unmap_or_report block ok
  else
  c ← andM (andM (n ← load next block; ret (nonnull n))
                 (hd ← get g_head; ret (bool_decide (block = hd))))
           (n ← load next block; nreg ← load region_id n;
            breg ← load region_id block;
            ret (negb (bool_decide (nreg = breg))));
  if (c : bool) then
    n ← load next block;
    modify (set_g_head n);;
    n ← load next block;
    store n (with_prev NULL);;
    store block (with_next NULL);;
    unmap_or_report block ok
  else ret block.

Definition merge_block (block : Z) (ok : bool) : M Z :=
  merge_with_next block;;
  merge_with_prev block;;
  unmap_if_alone block ok.

(** ** The fit strategies *)

(** The [while (current != NULL)] walks.  [fuel] bounds the number of
    headers visited; the callers pass the number of headers in memory,
    so that a walk which outlives its fuel is revisiting a header and
    the C loop never ends. *)
Fixpoint first_fit_loop (fuel : nat) (sz current : Z) : M Z :=
  if decide (current = NULL) then ret NULL else
  match fuel with
  | O => load size current;; hang
  | S fuel' =>
      bsize ← load size current;
      c ← (if sz <=? bsize then load free current else ret false);
      if (c : bool) then ret current
      else n ← load next current; first_fit_loop fuel' sz n
  end.

Definition first_fit (sz : Z) : M Z :=
  current ← get g_head;
  fuel ← get (λ st, base.size (heap st));
  first_fit_loop fuel sz current.

Fixpoint worst_fit_loop (fuel : nat) (sz current worst worst_size : Z) : M Z :=
  if decide (current = NULL) then ret worst else
  match fuel with
  | O => load size current;; hang
  | S fuel' =>
      bsize ← load size current;
      c ← (if sz <=? bsize then load free current else ret false);
      n ← load next current;
      if (c : bool) then
        (* (ssize_t) current->size - size, stored in an ssize_t *)
        let diff := to_ssize (wrap64 (bsize - sz)) in
        if worst_size <? diff
        then worst_fit_loop fuel' sz n current diff
        else worst_fit_loop fuel' sz n worst worst_size
      else worst_fit_loop fuel' sz n worst worst_size
  end.

Definition worst_fit (sz : Z) : M Z :=
  current ← get g_head;
  fuel ← get (λ st, base.size (heap st));
  worst_fit_loop fuel sz current NULL INT_MIN.

Fixpoint best_fit_loop (fuel : nat) (sz current best best_size : Z) : M Z :=
  if decide (current = NULL) then ret best else
  match fuel with
  | O => load size current;; hang
  | S fuel' =>
      bsize ← load size current;
      c ← (if sz <=? bsize then load free current else ret false);
      n ← load next current;
      if (c : bool) then
        let diff := to_ssize (wrap64 (bsize - sz)) in
        (* diff < best_size compares an ssize_t with a size_t: both
           operands are taken as unsigned *)
        if wrap64 diff <? best_size
        then best_fit_loop fuel' sz n current (wrap64 diff)
        else best_fit_loop fuel' sz n best best_size
      else best_fit_loop fuel' sz n best best_size
  end.

Definition best_fit (sz : Z) : M Z :=
  current ← get g_head;
  fuel ← get (λ st, base.size (heap st));
  best_fit_loop fuel sz current NULL INT_MAX.

(** ** reuse *)

Definition reuse (e : env) (sz : Z) : M Z :=
  let algo := default "first_fit" (ALLOCATOR_ALGORITHM e) in
  reused_block ←
    (if String.eqb algo "first_fit" then first_fit sz
     else if String.eqb algo "best_fit" then best_fit sz
     else if String.eqb algo "worst_fit" then worst_fit sz
     else ret NULL);
  (if nonnull reused_block then split_block reused_block sz;; ret tt
   else ret tt);;
  ret reused_block.

(** ** The public entry points *)

(** The sizes [malloc] computes before it touches the list. *)
Definition total_size (sz : Z) : Z := wrap64 (sz + sizeof_mem_block).

Definition aligned_size (sz : Z) : Z :=
  if decide (total_size sz mod ALIGN_SIZE ≠ 0)
  then wrap64 (total_size sz + ALIGN_SIZE - total_size sz mod ALIGN_SIZE)
  else total_size sz.

Definition num_pages (page_size sz : Z) : Z :=
  if decide (aligned_size sz mod page_size ≠ 0)
  then wrap64 (aligned_size sz / page_size + 1)
  else aligned_size sz / page_size.

Definition region_size (page_size sz : Z) : Z :=
  wrap64 (num_pages page_size sz * page_size).

Definition malloc (e : env) (os : option Z) (sz : Z) : M Z :=
  let scribbles := ALLOCATOR_SCRIBBLE e in
  reused_block ← reuse e (aligned_size sz);
  if nonnull reused_block then
    store reused_block (with_free false);;
    (if scribbles
     then memset (wrap64 (reused_block + sizeof_mem_block)) 170 sz
     else ret tt);;
    ret (wrap64 (reused_block + sizeof_mem_block))
  else
  let page_size := pagesize e in
  new_block ← mmap (region_size page_size sz) os;
  if decide (new_block = MAP_FAILED) then
    perror "mmap";;
    ret NULL
  else
  k ← get g_allocations;
  modify (set_g_allocations (wrap64 (k + 1)));;
  store new_block (with_name (snprintf32 "Allocation " k));;
  r ← get g_regions;
  modify (set_g_regions (wrap64 (r + 1)));;
  store new_block (with_region_id r);;
  hd ← get g_head;
  tl ← get g_tail;
  (if bool_decide (hd = NULL) && bool_decide (tl = NULL) then
     modify (set_g_head new_block);;
     hd ← get g_head;
     modify (set_g_tail hd);;
     store new_block (with_prev NULL)
   else
     tl ← get g_tail;
     store tl (with_next new_block);;
     tl ← get g_tail;
     store new_block (with_prev tl);;
     modify (set_g_tail new_block));;
  store new_block (with_free true);;
  store new_block (with_size (region_size page_size sz));;
  store new_block (with_next NULL);;
  split_block new_block (aligned_size sz);;
  store new_block (with_free false);;
  (if scribbles
   then memset (wrap64 (new_block + sizeof_mem_block)) 170 sz
   else ret tt);;
  ret (wrap64 (new_block + sizeof_mem_block)).

(** [strcpy(new_block->name, name)] copies the name and its
    terminator into the array of 32 bytes at the start of the header.
    A name of 32 characters or more does not fit: the copy writes past
    the array, which is undefined behaviour.  On the reference platform
    the call returns all the same, with the bytes of [size] (from the
    terminator of a 32-character name on), then [free], [region_id],
    [next], [prev] and, from 100 characters on, the data area
    overwritten by the name.  The model stops at the overrun and does
    not follow the program there; sequences of operations (see
    [op_ok]) are made of calls whose name is shorter than 32
    characters. *)
Definition malloc_name (e : env) (os : option Z) (sz : Z) (nm : string) : M Z :=
  alloc ← malloc e os sz;
  if decide (alloc = NULL) then ret NULL else
  let new_block := wrap64 (alloc - sizeof_mem_block) in
  (if decide (String.length nm < 32)%nat
   then store new_block (with_name nm)
   else crash);;
  ret alloc.

Definition free_ (ok : bool) (ptr : Z) : M unit :=
  if decide (ptr = NULL) then ret tt else
  let block := wrap64 (ptr - sizeof_mem_block) in
  store block (with_free true);;
  merge_block block ok;;
  ret tt.

Definition calloc (e : env) (os : option Z) (nmemb sz : Z) : M Z :=
  mem_block ← malloc e os (wrap64 (nmemb * sz));
  memset mem_block 0 (wrap64 (nmemb * sz));;
  ret mem_block.

Definition realloc (e : env) (os : option Z) (ok : bool) (ptr sz : Z) : M Z :=
  if decide (ptr = NULL) then malloc e os sz else
  if decide (sz = 0) then free_ ok ptr;; ret NULL else
  block ← malloc e os sz;
  memcpy block ptr sz;;
  ret block.

(** ** Walking the list *)

(** The addresses met by following [next] from [g_head], as
    [print_memory] does. *)
Fixpoint walk (fuel : nat) (h : gmap Z mem_block) (p : Z) : list Z :=
  match fuel with
  | O => []
  | S fuel' =>
      if decide (p = NULL) then []
      else match h !! p with
           | Some b => p :: walk fuel' h (next b)
           | None => []
           end
  end.

Definition blocks (st : state) : list Z :=
  walk (base.size (heap st)) (heap st) (g_head st).


(** * Reasoning about the monad *)

Definition cur (h : gmap Z mem_block) (p : Z) : mem_block :=
  default zero_block (h !! p).
Definition fld {A} (f : mem_block → A) (h : gmap Z mem_block) (p : Z) : A :=
  f (cur h p).

(** A header at [p] can be written: one is there, or the 100 bytes are
    mapped. *)
Definition writable (st : state) (p : Z) : Prop :=
  p ≠ NULL ∧
  (is_Some (heap st !! p) ∨
   (mapped st p = true ∧ mapped st (p + sizeof_mem_block - 1) = true)).

Section monad_lemmas.
Context {A B : Type}.
Implicit Types (m : M A) (k : A → M B) (st : state).

Lemma bind_Done m k st a st' :
  m st = Done (a, st') → (m ≫= k) st = k a st'.
Proof. unfold mbind, M_bind. by intros ->. Qed.

Lemma bind_inv m k st (r : B * state) :
  (m ≫= k) st = Done r → ∃ a st', m st = Done (a, st') ∧ k a st' = Done r.
Proof.
  unfold mbind, M_bind. destruct (m st) as [[a st']| |]; [eauto|done..].
Qed.
End monad_lemmas.

Lemma load_ok {A} (f : mem_block → A) p st :
  p ≠ NULL → is_Some (heap st !! p) →
  load f p st = Done (fld f (heap st) p, st).
Proof.
  intros Hp [b Hb]. unfold load, fld, cur. rewrite decide_False by done.
  by rewrite Hb.
Qed.

Lemma load_inv {A} (f : mem_block → A) p st r :
  load f p st = Done r →
  p ≠ NULL ∧ is_Some (heap st !! p) ∧ r = (fld f (heap st) p, st).
Proof.
  unfold load, fld, cur. case_decide; [done|].
  destruct (heap st !! p) eqn:E; [|done]. intros [= <-]. eauto.
Qed.

Lemma store_ok p f st :
  writable st p →
  store p f st = Done (tt, set_heap (<[p := f (cur (heap st) p)]> (heap st)) st).
Proof.
  intros [Hp Hw]. unfold store, cur. rewrite decide_False by done.
  destruct (heap st !! p) eqn:E; [done|].
  destruct Hw as [[? [=]]|[-> ->]]. done.
Qed.

Lemma store_inv p f st r :
  store p f st = Done r →
  writable st p ∧
  r = (tt, set_heap (<[p := f (cur (heap st) p)]> (heap st)) st).
Proof.
  unfold store, writable, cur. case_decide; [done|].
  destruct (heap st !! p) eqn:E.
  - intros [= <-]. split; [|done]. eauto.
  - destruct (mapped st p) eqn:E1,
      (mapped st (p + sizeof_mem_block - 1)) eqn:E2; try done.
    intros [= <-]. eauto.
Qed.

Lemma fld_insert {A} (f : mem_block → A) h p b a :
  fld f (<[p := b]> h) a = if decide (p = a) then f b else fld f h a.
Proof. unfold fld, cur. rewrite lookup_insert. by case_decide. Qed.

Lemma cur_insert h p b a :
  cur (<[p := b]> h) a = if decide (p = a) then b else cur h a.
Proof. unfold cur. rewrite lookup_insert. by case_decide. Qed.

(** * Lists with a property of neighbours *)

Section adjacent.
Context {A : Type}.
Implicit Types (P Q : A → A → Prop) (l : list A).

Fixpoint adjacent P l : Prop :=
  match l with
  | x :: (y :: _) as t => P x y ∧ adjacent P t
  | _ => True
  end.

Lemma adjacent_cons P x l :
  adjacent P (x :: l) ↔ (∀ y, head l = Some y → P x y) ∧ adjacent P l.
Proof.
  destruct l as [|y l]; simpl.
  - split; [intros _; split; [intros ? [=]|done]|done].
  - split.
    + intros [? ?]. split; [by intros ? [= <-]|done].
    + intros [H ?]. split; [by apply H|done].
Qed.

Lemma adjacent_app P l1 l2 :
  adjacent P (l1 ++ l2) ↔
  adjacent P l1 ∧ adjacent P l2 ∧
  (∀ x y, last l1 = Some x → head l2 = Some y → P x y).
Proof.
  induction l1 as [|a l1 IH]; simpl.
  - naive_solver.
  - destruct l1 as [|b l1].
    + destruct l2 as [|c l2]; simpl; naive_solver.
    + rewrite <-app_comm_cons in *. rewrite IH. simpl. naive_solver.
Qed.

Lemma adjacent_mid P l1 x l2 :
  adjacent P (l1 ++ x :: l2) ↔
  adjacent P l1 ∧ adjacent P l2 ∧
  (∀ z, last l1 = Some z → P z x) ∧ (∀ y, head l2 = Some y → P x y).
Proof.
  rewrite adjacent_app, adjacent_cons. simpl head. split.
  - intros (H1 & (H2 & H3) & H4). split_and!; try done. intros. by apply H4.
  - intros (H1 & H2 & H3 & H4). split_and!; try done.
    intros ?? ? [= <-]. by apply H3.
Qed.

Lemma adjacent_impl P Q l :
  (∀ x y, x ∈ l → y ∈ l → P x y → Q x y) → adjacent P l → adjacent Q l.
Proof.
  induction l as [|x l IH]; [done|]. intros HPQ.
  rewrite !adjacent_cons. intros [H1 H2]. split.
  - intros y Hy. apply HPQ; [left| |by apply H1].
    right. destruct l; simplify_eq/=. left.
  - apply IH; [|done]. intros ????. apply HPQ; by right.
Qed.

Lemma option_list_Some (x : A) : option_list (Some x) = [x].
Proof. done. Qed.

Lemma option_list_None : option_list (@None A) = [].
Proof. done. Qed.

Lemma head_option_list (o : option A) : head (option_list o) = o.
Proof. by destruct o. Qed.

Lemma last_option_list (o : option A) : last (option_list o) = o.
Proof. by destruct o. Qed.

Lemma adjacent_option_list P (o : option A) : adjacent P (option_list o).
Proof. by destruct o. Qed.

Lemma head_app_option l1 l2 :
  head (l1 ++ l2) = match head l1 with Some x => Some x | None => head l2 end.
Proof. by destruct l1. Qed.

(** Replacing the middle of a list only concerns the two elements next
    to it. *)
Lemma adjacent_splice P l1 m l2 :
  adjacent P (l1 ++ m ++ l2) ↔
  adjacent P l1 ∧ adjacent P l2 ∧
  adjacent P (option_list (last l1) ++ m ++ option_list (head l2)).
Proof.
  rewrite !adjacent_app.
  rewrite !head_app_option, !head_option_list, !last_option_list.
  pose proof (adjacent_option_list P (last l1)).
  pose proof (adjacent_option_list P (head l2)).
  destruct (head m); naive_solver.
Qed.

Lemma adjacent_impl_NoDup P Q l :
  NoDup l →
  (∀ x y, x ∈ l → y ∈ l → Some x ≠ last l → Some y ≠ head l →
          P x y → Q x y) →
  adjacent P l → adjacent Q l.
Proof.
  induction l as [|x l IH]; [done|]. intros Hnd HPQ.
  apply NoDup_cons in Hnd as [Hx Hnd].
  rewrite !adjacent_cons. intros [H1 H2]. split.
  - intros y Hy. destruct l as [|y' l]; simplify_eq/=.
    apply HPQ; [left|right; left| | |by apply H1].
    + change (Some x ≠ last (y :: l)). intros Hl. symmetry in Hl.
      apply last_Some_elem_of in Hl. done.
    + intros [= ->]. apply Hx. left.
  - apply IH; [done| |done]. intros a b Ha Hb Hla Hhb. apply HPQ.
    + by right.
    + by right.
    + destruct l; [by apply elem_of_nil in Ha|]. by rewrite last_cons_cons.
    + simpl. intros [= ->]. done.
Qed.
End adjacent.

(** * The invariant of the block list *)

Definition link (h : gmap Z mem_block) (x y : Z) : Prop :=
  fld next h x = y ∧ fld prev h y = x.

(** Neighbours in the list: region numbers never decrease, and two
    blocks of one region touch. *)
Definition pair_wf (h : gmap Z mem_block) (x y : Z) : Prop :=
  fld region_id h x ≤ fld region_id h y ∧
  (fld region_id h x = fld region_id h y → y = x + fld size h x).

(** Neighbours of one region are not both free. *)
Definition pair_nf (h : gmap Z mem_block) (x y : Z) : Prop :=
  fld region_id h x = fld region_id h y →
  ¬ (fld free h x = true ∧ fld free h y = true).

Definition disjoint (h : gmap Z mem_block) (x y : Z) : Prop :=
  x + fld size h x ≤ y ∨ y + fld size h y ≤ x.

Record block_ok (st : state) (a : Z) : Prop := BlockOk {
  bo_header : is_Some (heap st !! a);
  bo_pos : 0 < a;
  bo_size : 104 ≤ fld size (heap st) a;
  bo_top : a + fld size (heap st) a ≤ 2 ^ 64;
  bo_mapped : ∀ x, a ≤ x < a + fld size (heap st) a → mapped st x = true;
  bo_region : 0 ≤ fld region_id (heap st) a < g_regions st
}.

(** [wf l st]: the list of [st] is the chain [l], from [g_head] to
    [g_tail]. *)
Record wf (l : list Z) (st : state) : Prop := Wf {
  wf_nodup : NoDup l;
  wf_blocks : Forall (block_ok st) l;
  wf_links : adjacent (link (heap st)) l;
  wf_first : ∀ a, head l = Some a → fld prev (heap st) a = NULL;
  wf_last : ∀ a, last l = Some a → fld next (heap st) a = NULL;
  wf_head : g_head st = default NULL (head l);
  wf_tail : g_tail st = default NULL (last l);
  wf_pairs : adjacent (pair_wf (heap st)) l;
  wf_disjoint : ∀ x y, x ∈ l → y ∈ l → x ≠ y → disjoint (heap st) x y;
  wf_regions : 0 ≤ g_regions st
}.

(** [E x y] exempts the pair from the rule while a release is under way. *)
Definition nofree (E : Z → Z → Prop) (h : gmap Z mem_block) (l : list Z) : Prop :=
  adjacent (λ x y, E x y ∨ pair_nf h x y) l.

Definition never : Z → Z → Prop := λ _ _, False.

Lemma wf_initial : wf [] initial_state.
Proof.
  split; try done; [constructor|].
  intros ?? H. by apply elem_of_nil in H.
Qed.

Lemma wf_block_ok l1 a l2 st : wf (l1 ++ a :: l2) st → block_ok st a.
Proof.
  intros Hwf. eapply Forall_forall; [apply (wf_blocks _ _ Hwf)|].
  apply elem_of_app. right. left.
Qed.

Lemma wf_nonnull l1 a l2 st : wf (l1 ++ a :: l2) st → a ≠ NULL.
Proof.
  intros Hwf. pose proof (bo_pos _ _ (wf_block_ok _ _ _ _ Hwf)).
  unfold NULL. lia.
Qed.

Lemma wf_prev l1 a l2 st :
  wf (l1 ++ a :: l2) st → fld prev (heap st) a = default NULL (last l1).
Proof.
  intros Hwf. pose proof (wf_links _ _ Hwf) as H. apply adjacent_mid in H.
  destruct H as (_ & _ & H & _).
  destruct (last l1) as [z|] eqn:E.
  - specialize (H z eq_refl). apply H.
  - apply last_None in E. subst l1. by apply (wf_first _ _ Hwf).
Qed.

Lemma wf_next l1 a l2 st :
  wf (l1 ++ a :: l2) st → fld next (heap st) a = default NULL (head l2).
Proof.
  intros Hwf. pose proof (wf_links _ _ Hwf) as H. apply adjacent_mid in H.
  destruct H as (_ & _ & _ & H).
  destruct (head l2) as [z|] eqn:E.
  - specialize (H z eq_refl). apply H.
  - apply head_None in E. subst l2. apply (wf_last _ _ Hwf).
    by rewrite last_snoc.
Qed.

Lemma wf_not_in_l1 l1 a l2 st : wf (l1 ++ a :: l2) st → a ∉ l1.
Proof.
  intros Hwf. pose proof (wf_nodup _ _ Hwf) as H. apply NoDup_app in H.
  destruct H as (_ & H & _). intros Hin. apply (H _ Hin). left.
Qed.

Lemma wf_not_in_l2 l1 a l2 st : wf (l1 ++ a :: l2) st → a ∉ l2.
Proof.
  intros Hwf. pose proof (wf_nodup _ _ Hwf) as H. apply NoDup_app in H.
  destruct H as (_ & _ & H). by apply NoDup_cons in H as [? _].
Qed.

Lemma wf_is_tail l1 a l2 st :
  wf (l1 ++ a :: l2) st → a = g_tail st ↔ l2 = [].
Proof.
  intros Hwf. rewrite (wf_tail _ _ Hwf). split.
  - intros Ha. rewrite last_app, last_cons in Ha.
    destruct (last l2) as [b|] eqn:E; [|by apply last_None in E].
    exfalso. simpl in Ha. subst b. apply (wf_not_in_l2 _ _ _ _ Hwf).
    by apply last_Some_elem_of.
  - intros ->. by rewrite last_snoc.
Qed.

Lemma wf_is_head l1 a l2 st :
  wf (l1 ++ a :: l2) st → a = g_head st ↔ l1 = [].
Proof.
  intros Hwf. rewrite (wf_head _ _ Hwf). split.
  - intros Ha. destruct l1 as [|b l1]; [done|].
    exfalso. simpl in Ha. subst b. apply (wf_not_in_l1 _ _ _ _ Hwf). left.
  - by intros ->.
Qed.

Lemma wf_elem l st a : wf l st → a ∈ l → block_ok st a.
Proof. intros Hwf. by apply Forall_forall, (wf_blocks _ _ Hwf). Qed.

(** * Stepping through the code *)

Lemma wrap64_small z : 0 ≤ z < 2 ^ 64 → wrap64 z = z.
Proof. intros. unfold wrap64. by apply Z.mod_small. Qed.

Lemma wrap64_range z : 0 ≤ wrap64 z < 2 ^ 64.
Proof. unfold wrap64. apply Z.mod_pos_bound. lia. Qed.

Global Arguments wrap64 : simpl never.
Global Arguments snprintf32 : simpl never.

Section steps.
Context {A B : Type}.
Implicit Types (k : A → M B) (st : state).

Lemma bind_load (f : mem_block → A) p k st :
  p ≠ NULL → is_Some (heap st !! p) →
  (load f p ≫= k) st = k (fld f (heap st) p) st.
Proof. intros. erewrite bind_Done; [done|]. by apply load_ok. Qed.

Lemma bind_get (f : state → A) k st : (get f ≫= k) st = k (f st) st.
Proof. done. Qed.

Lemma bind_ret (a : A) k st : (ret a ≫= k) st = k a st.
Proof. done. Qed.

Lemma bind_assoc {C} (m : M C) (g : C → M A) k st :
  ((m ≫= g) ≫= k) st = (m ≫= (λ x, g x ≫= k)) st.
Proof. unfold mbind, M_bind. by destruct (m st) as [[]| |]. Qed.
End steps.

Lemma bind_store {B} p f (k : unit → M B) st :
  writable st p →
  (store p f ≫= k) st =
  k tt (set_heap (<[p := f (cur (heap st) p)]> (heap st)) st).
Proof. intros. erewrite bind_Done; [done|]. by apply store_ok. Qed.

Lemma bind_modify {B} f (k : unit → M B) st :
  (modify f ≫= k) st = k tt (f st).
Proof. done. Qed.

Lemma fld_insert_eq {A} (f : mem_block → A) h p b :
  fld f (<[p := b]> h) p = f b.
Proof. rewrite fld_insert. by rewrite decide_True. Qed.

Lemma fld_insert_ne {A} (f : mem_block → A) h p b a :
  p ≠ a → fld f (<[p := b]> h) a = fld f h a.
Proof. intros. rewrite fld_insert. by rewrite decide_False. Qed.

Lemma cur_insert_eq h p b : cur (<[p := b]> h) p = b.
Proof. rewrite cur_insert. by rewrite decide_True. Qed.

Lemma cur_insert_ne h p b a : p ≠ a → cur (<[p := b]> h) a = cur h a.
Proof. intros. rewrite cur_insert. by rewrite decide_False. Qed.

Lemma writable_insert st p q b :
  q ≠ NULL → writable st p ∨ p = q →
  writable (set_heap (<[q := b]> (heap st)) st) p.
Proof.
  intros Hq [[Hp Hw]| ->].
  - split; [done|]. destruct Hw as [Hs|Hm]; [left|by right].
    simpl. apply lookup_insert_is_Some'. by right.
  - split; [done|]. left. simpl. apply lookup_insert_is_Some'. by left.
Qed.

Lemma writable_header st p :
  p ≠ NULL → is_Some (heap st !! p) → writable st p.
Proof. intros. split; [done|by left]. Qed.

Lemma writable_mono st st' p :
  writable st p → mapped st' = mapped st →
  (is_Some (heap st !! p) → is_Some (heap st' !! p)) →
  writable st' p.
Proof.
  intros [Hp Hw] Hm Hs. split; [done|].
  destruct Hw as [?|?]; [left; auto|right; by rewrite Hm].
Qed.

Ltac solve_ne := first [ done | lia | congruence ].

Ltac solve_some :=
  cbn [heap];
  rewrite ?lookup_insert_is_Some';
  first [ done | tauto | solve [eauto 6] ].

Ltac solve_writable :=
  first [ assumption
        | apply writable_header; [solve_ne | solve_some]
        | eapply writable_mono; [eassumption | reflexivity | intro; solve_some] ].

(** States are kept in constructor form while stepping, so that every
    update is carried out at once. *)
Ltac norm_setters :=
  repeat match goal with
  | |- context [set_heap ?v (State ?a ?b ?c ?d ?e ?f ?g ?i)] =>
      change (set_heap v (State a b c d e f g i)) with (State v b c d e f g i)
  | |- context [set_mapped ?v (State ?a ?b ?c ?d ?e ?f ?g ?i)] =>
      change (set_mapped v (State a b c d e f g i)) with (State a v c d e f g i)
  | |- context [set_g_head ?v (State ?a ?b ?c ?d ?e ?f ?g ?i)] =>
      change (set_g_head v (State a b c d e f g i)) with (State a b v d e f g i)
  | |- context [set_g_tail ?v (State ?a ?b ?c ?d ?e ?f ?g ?i)] =>
      change (set_g_tail v (State a b c d e f g i)) with (State a b c v e f g i)
  | |- context [set_g_allocations ?v (State ?a ?b ?c ?d ?e ?f ?g ?i)] =>
      change (set_g_allocations v (State a b c d e f g i))
        with (State a b c d v f g i)
  | |- context [set_g_regions ?v (State ?a ?b ?c ?d ?e ?f ?g ?i)] =>
      change (set_g_regions v (State a b c d e f g i))
        with (State a b c d e v g i)
  | |- context [set_g_splits ?v (State ?a ?b ?c ?d ?e ?f ?g ?i)] =>
      change (set_g_splits v (State a b c d e f g i))
        with (State a b c d e f v i)
  | |- context [emit ?v (State ?a ?b ?c ?d ?e ?f ?g ?i)] =>
      change (emit v (State a b c d e f g i))
        with (State a b c d e f g (v :: i))
  end.

Ltac norm_state :=
  cbn beta;
  norm_setters;
  cbn [heap mapped g_head g_tail g_allocations g_regions g_splits trace
       name size free region_id next prev
       with_name with_size with_free with_region_id with_next with_prev].

Ltac open_state st :=
  destruct st as [?h ?m ?hd ?tl ?ga ?gr ?gs ?tr];
  cbn [heap mapped g_head g_tail g_allocations g_regions g_splits trace] in *.

Ltac refold :=
  repeat match goal with
  | |- context [name (cur ?h ?p)] =>
      change (name (cur h p)) with (fld name h p)
  | |- context [size (cur ?h ?p)] =>
      change (size (cur h p)) with (fld size h p)
  | |- context [free (cur ?h ?p)] =>
      change (free (cur h p)) with (fld free h p)
  | |- context [region_id (cur ?h ?p)] =>
      change (region_id (cur h p)) with (fld region_id h p)
  | |- context [next (cur ?h ?p)] =>
      change (next (cur h p)) with (fld next h p)
  | |- context [prev (cur ?h ?p)] =>
      change (prev (cur h p)) with (fld prev h p)
  end.

Ltac fsimpl :=
  repeat first
    [ rewrite insert_insert_eq
    | rewrite fld_insert_eq
    | rewrite cur_insert_eq
    | rewrite fld_insert_ne by solve_ne
    | rewrite cur_insert_ne by solve_ne ];
  norm_state; refold.

Ltac step :=
  first
    [ rewrite bind_get
    | rewrite bind_modify
    | rewrite bind_ret
    | rewrite bind_load by first [solve_ne | solve_some]
    | rewrite bind_store by solve_writable
    | rewrite bind_assoc ];
  norm_state; fsimpl.

Lemma nonnull_true p : p ≠ NULL → nonnull p = true.
Proof. unfold nonnull. intros. apply negb_true_iff, Z.eqb_neq. done. Qed.

Lemma nonnull_NULL : nonnull NULL = false.
Proof. done. Qed.

(** Stepping as far as possible; [tac] rewrites with the facts at hand. *)
Ltac steps_with tac :=
  repeat first
    [ step
    | tac
    | rewrite nonnull_NULL
    | rewrite nonnull_true by done
    | rewrite bool_decide_eq_true_2 by done
    | rewrite bool_decide_eq_false_2 by done
    | progress cbn [andb negb orb] ].

Ltac resolve_decides :=
  repeat match goal with
  | |- context [decide ?P] =>
      first [ rewrite (decide_True (P := P)) by solve_ne
            | rewrite (decide_False (P := P)) by solve_ne ]
  end.

(** The last statement of a sequence. *)
Ltac last_step :=
  first
    [ rewrite store_ok by solve_writable
    | rewrite load_ok by first [solve_ne | solve_some]
    | unfold ret, mret, M_ret
    | unfold modify ];
  norm_state; fsimpl.

(** Two descriptions of the same header map. *)
Ltac unfold_with :=
  unfold with_name, with_size, with_free, with_region_id, with_next, with_prev;
  cbn [name size free region_id next prev].

Ltac heap_eq :=
  apply map_eq; intros ?i;
  rewrite ?lookup_insert;
  repeat case_decide; subst;
  try solve [ done | lia | congruence | unfold_with; done ].

Lemma state_eq h m hd tl ga gr gs tr h' m' hd' tl' ga' gr' gs' tr' :
  h = h' → m = m' → hd = hd' → tl = tl' → ga = ga' → gr = gr' → gs = gs' →
  tr = tr' →
  State h m hd tl ga gr gs tr = State h' m' hd' tl' ga' gr' gs' tr'.
Proof. by intros; subst. Qed.

Ltac close_states :=
  first [ reflexivity
        | do 2 f_equal; apply state_eq; try done; unfold fld; heap_eq ].

(** ** Bulk memory calls *)

Lemma range_mapped_true st p n :
  p + n ≤ 2 ^ 64 → (∀ x, p ≤ x < p + n → mapped st x = true) →
  range_mapped st p n = true.
Proof.
  intros Htop Hall. unfold range_mapped.
  destruct (Z.leb_spec (p + n) (2 ^ 64)); [|lia].
  apply forallb_forall. intros x Hx. apply Hall.
  apply list_elem_of_In, elem_of_seqZ in Hx. lia.
Qed.

Lemma range_mapped_inv st p n :
  range_mapped st p n = true →
  p + n ≤ 2 ^ 64 ∧ ∀ x, p ≤ x < p + n → mapped st x = true.
Proof.
  unfold range_mapped. destruct (Z.leb_spec (p + n) (2 ^ 64)); [|done].
  intros Hall. split; [done|]. intros x Hx.
  rewrite forallb_forall in Hall. apply Hall.
  apply list_elem_of_In, elem_of_seqZ. lia.
Qed.

Lemma range_mapped_same st st' p n :
  mapped st' = mapped st → range_mapped st' p n = range_mapped st p n.
Proof. intros H. unfold range_mapped. by rewrite H. Qed.

Lemma memset_ok p c n st :
  n = 0 ∨ (p ≠ NULL ∧ range_mapped st p n = true) →
  memset p c n st = Done (tt, emit (Memset p c n) st).
Proof.
  intros H. unfold memset. case_decide; [done|].
  destruct H as [?|[Hp ->]]; [done|]. by rewrite decide_False.
Qed.

Lemma memset_inv p c n st u st' :
  memset p c n st = Done (u, st') → st' = emit (Memset p c n) st.
Proof.
  unfold memset. repeat case_decide; try done; [congruence|].
  case_match; [congruence|done].
Qed.

Lemma memcpy_inv dst src n st u st' :
  memcpy dst src n st = Done (u, st') → st' = emit (Memcpy dst src n) st.
Proof.
  unfold memcpy. repeat case_decide; try done; [congruence|].
  case_match; [congruence|done].
Qed.

(** * split_block on a well-formed list *)

(** The state a successful split leaves behind. *)
Definition split_result (block sz : Z) (st : state) : state :=
  let h := heap st in
  let nb := block + sz in
  let n := fld next h block in
  let h1 := if decide (n = NULL) then h
            else <[n := with_prev nb (cur h n)]> h in
  let h2 := <[nb := MemBlock (snprintf32 "Split block " (g_splits st))
                       (fld size h block - sz) true
                       (fld region_id h block) n block]> h1 in
  let h3 := <[block := with_size sz (with_next nb (cur h block))]> h2 in
  State h3 (mapped st) (g_head st)
        (if decide (block = g_tail st) then nb else g_tail st)
        (g_allocations st) (g_regions st) (wrap64 (g_splits st + 1))
        (trace st).

Lemma wf_fresh_inside l st a x :
  wf l st → a ∈ l → a < x < a + fld size (heap st) a → x ∉ l.
Proof.
  intros Hwf Ha Hx Hin.
  assert (x ≠ a) as Hne by lia.
  pose proof (wf_disjoint _ _ Hwf x a Hin Ha Hne) as [H|H]; [|lia].
  pose proof (bo_size _ _ (wf_elem _ _ _ Hwf Hin)). lia.
Qed.

Lemma wf_head_elem l1 a l2 st n :
  wf (l1 ++ a :: l2) st → head l2 = Some n →
  n ≠ NULL ∧ n ≠ a ∧ is_Some (heap st !! n) ∧ n ∈ l1 ++ a :: l2.
Proof.
  intros Hwf Hn. apply head_Some in Hn as [l2' ->].
  assert (n ∈ l1 ++ a :: n :: l2') as Hin.
  { apply elem_of_app. right. right. left. }
  pose proof (wf_elem _ _ _ Hwf Hin) as Hok.
  split_and!; [|intros ->|apply Hok|done].
  - pose proof (bo_pos _ _ Hok). unfold NULL. lia.
  - apply (wf_not_in_l2 _ _ _ _ Hwf). left.
Qed.

Lemma split_block_effect l1 block l2 st sz :
  wf (l1 ++ block :: l2) st →
  fld free (heap st) block = true →
  104 ≤ sz → sz + 104 ≤ fld size (heap st) block →
  split_block block sz st = Done (block + sz, split_result block sz st).
Proof.
  intros Hwf Hfree Hsz Hrm.
  pose proof (wf_block_ok _ _ _ _ Hwf) as [Hhdr Hpos Hsize Htop Hmap Hreg].
  pose proof (wf_nonnull _ _ _ _ Hwf) as Hnn.
  pose proof (wf_next _ _ _ _ Hwf) as Hnext.
  pose proof (wf_is_tail _ _ _ _ Hwf) as Htl.
  assert (block ∈ l1 ++ block :: l2) as Hin.
  { apply elem_of_app. right. left. }
  assert (block + sz ∉ l1 ++ block :: l2) as Hfresh.
  { eapply wf_fresh_inside; [done..|lia]. }
  assert (block + sz ≠ NULL) as Hnb0 by (unfold NULL; lia).
  assert (writable st (block + sz)) as Hw.
  { split; [done|]. right. unfold sizeof_mem_block.
    split; apply Hmap; lia. }
  unfold split_block, split_result.
  open_state st.
  replace (sz <? sizeof_mem_block + BLOCK_ALIGN) with false
    by (symmetry; apply Z.ltb_ge; unfold sizeof_mem_block, BLOCK_ALIGN; lia).
  step. rewrite Hfree. cbn [negb].
  step.
  rewrite (wrap64_small (_ - _)) by lia.
  replace (_ <? 104) with false by (symmetry; apply Z.ltb_ge; lia).
  rewrite (wrap64_small (block + sz)) by lia.
  step.
  case_decide as Ht.
  - repeat step.
    assert (l2 = []) as -> by (by apply Htl).
    simpl in Hnext. unfold ret, mret, M_ret.
    rewrite Hnext. rewrite !decide_True by done.
    do 2 f_equal. apply state_eq; try done.
    unfold fld. heap_eq.
  - assert (l2 ≠ []) as Hl2 by (intros ?; by apply Ht, Htl).
    destruct l2 as [|n l2]; [done|]. clear Hl2. simpl in Hnext.
    pose proof (wf_head_elem _ _ _ _ n Hwf eq_refl) as (Hn0 & Hnb & Hns & Hnin).
    assert (n ≠ block + sz) as Hnnb by (by intros ->).
    repeat (step || rewrite Hnext).
    unfold ret, mret, M_ret.
    rewrite !decide_False by done.
    do 2 f_equal. apply state_eq; try done.
    unfold fld. heap_eq.
Qed.

(** ** Headers that keep their attributes *)

Definition same_attrs (h h' : gmap Z mem_block) (a : Z) : Prop :=
  is_Some (h' !! a) ∧ fld size h' a = fld size h a ∧
  fld region_id h' a = fld region_id h a ∧ fld free h' a = fld free h a.

Lemma block_ok_frame st st' a :
  block_ok st a → same_attrs (heap st) (heap st') a →
  (∀ x, mapped st x = true → mapped st' x = true) →
  g_regions st ≤ g_regions st' →
  block_ok st' a.
Proof.
  intros [H1 H2 H3 H4 H5 H6] (Hs & Hsz & Hr & _) Hm Hg.
  split; rewrite ?Hsz, ?Hr; auto with lia.
Qed.

Lemma pair_wf_frame h h' x y :
  pair_wf h x y → same_attrs h h' x → same_attrs h h' y → pair_wf h' x y.
Proof.
  intros Hp (_ & Hsx & Hrx & _) (_ & Hsy & Hry & _).
  unfold pair_wf in *. by rewrite Hsx, Hrx, Hry.
Qed.

Lemma pair_nf_frame h h' x y :
  pair_nf h x y → same_attrs h h' x → same_attrs h h' y → pair_nf h' x y.
Proof.
  intros Hp (_ & _ & Hrx & Hfx) (_ & _ & Hry & Hfy).
  unfold pair_nf in *. by rewrite Hrx, Hry, Hfx, Hfy.
Qed.

Lemma disjoint_frame h h' x y :
  disjoint h x y → same_attrs h h' x → same_attrs h h' y → disjoint h' x y.
Proof.
  intros Hp (_ & Hsx & _) (_ & Hsy & _).
  unfold disjoint in *. by rewrite Hsx, Hsy.
Qed.

Lemma same_attrs_insert_ne h p b a :
  p ≠ a → is_Some (h !! a) → same_attrs h (<[p := b]> h) a.
Proof.
  intros Hne Hs. unfold same_attrs. rewrite !fld_insert_ne by done.
  split_and!; try done. apply lookup_insert_is_Some'. by right.
Qed.

Lemma same_attrs_trans h1 h2 h3 a :
  same_attrs h1 h2 a → same_attrs h2 h3 a → same_attrs h1 h3 a.
Proof.
  intros (_ & A1 & A2 & A3) (B0 & B1 & B2 & B3).
  unfold same_attrs. by rewrite B1, B2, B3.
Qed.

Lemma same_attrs_refl h a : is_Some (h !! a) → same_attrs h h a.
Proof. by intros. Qed.


Lemma disjoint_sym h x y : disjoint h x y → disjoint h y x.
Proof. unfold disjoint. tauto. Qed.

(** ** Replacing a stretch of the list *)

(** Every operation rewrites a short stretch [mid] of the chain into
    [mid'] and leaves the blocks before and after it alone, except for
    the link fields of the two blocks next to the stretch. *)
Lemma wf_splice l1 mid mid' l2 st st' :
  wf (l1 ++ mid ++ l2) st →
  (∀ a, a ∈ l1 ++ l2 → same_attrs (heap st) (heap st') a) →
  (∀ a, a ∈ l1 → fld prev (heap st') a = fld prev (heap st) a) →
  (∀ a, a ∈ l1 → Some a ≠ last l1 →
        fld next (heap st') a = fld next (heap st) a) →
  (∀ a, a ∈ l2 → fld next (heap st') a = fld next (heap st) a) →
  (∀ a, a ∈ l2 → Some a ≠ head l2 →
        fld prev (heap st') a = fld prev (heap st) a) →
  (∀ a x, a ∈ l1 ++ l2 → a ≤ x < a + fld size (heap st) a →
          mapped st' x = true) →
  g_regions st ≤ g_regions st' →
  NoDup mid' → (∀ a, a ∈ mid' → a ∉ l1 ++ l2) →
  Forall (block_ok st') mid' →
  adjacent (link (heap st'))
           (option_list (last l1) ++ mid' ++ option_list (head l2)) →
  adjacent (pair_wf (heap st'))
           (option_list (last l1) ++ mid' ++ option_list (head l2)) →
  (l1 = [] → ∀ a, head (mid' ++ l2) = Some a → fld prev (heap st') a = NULL) →
  (l2 = [] → ∀ a, last (l1 ++ mid') = Some a → fld next (heap st') a = NULL) →
  g_head st' = default NULL (head (l1 ++ mid' ++ l2)) →
  g_tail st' = default NULL (last (l1 ++ mid' ++ l2)) →
  (∀ x y, x ∈ mid' → y ∈ l1 ++ mid' ++ l2 → x ≠ y → disjoint (heap st') x y) →
  wf (l1 ++ mid' ++ l2) st'.
Proof.
  intros Hwf Hattr Hprev1 Hnext1 Hnext2 Hprev2 Hmap Hreg Hnd' Hfresh Hok'
    Hlink' Hpair' Hfirst' Hlast' Hhead' Htail' Hdisj'.
  destruct Hwf as [Hnd Hok Hlink Hfirst Hlast Hhead Htail Hpair Hdisj Hrg].
  apply NoDup_app in Hnd as (Hnd1 & Hnd12 & Hnd2).
  apply NoDup_app in Hnd2 as (_ & _ & Hnd2).
  assert (∀ x, x ∈ l1 → x ∉ l2) as Hl12.
  { intros x Hx Hx2. apply (Hnd12 x Hx). apply elem_of_app. by right. }
  apply Forall_app in Hok as (Hok1 & Hok2).
  apply Forall_app in Hok2 as (_ & Hok2).
  apply adjacent_splice in Hlink as (Hlink1 & Hlink2 & _).
  apply adjacent_splice in Hpair as (Hpair1 & Hpair2 & _).
  assert (∀ a, a ∈ l1 ++ l2 → block_ok st a) as Hokf.
  { intros a [Ha|Ha]%elem_of_app.
    - by eapply Forall_forall in Hok1.
    - by eapply Forall_forall in Hok2. }
  split.
  - apply NoDup_app. split_and!; [done| |].
    + intros x Hx [Hx'|Hx']%elem_of_app; [|by eapply Hl12].
      apply (Hfresh x Hx'). apply elem_of_app. by left.
    + apply NoDup_app. split_and!; [done| |done].
      intros x Hx Hx'. apply (Hfresh x Hx). apply elem_of_app. by right.
  - rewrite !Forall_app. split_and!; [|done|].
    + apply Forall_forall. intros a Ha.
      assert (a ∈ l1 ++ l2) as Ha' by (apply elem_of_app; by left).
      destruct (Hokf a Ha') as [H1 H2 H3 H4 H5 H6].
      destruct (Hattr a Ha') as (Hs & Hsz & Hr & _).
      split; rewrite ?Hsz, ?Hr; eauto with lia.
    + apply Forall_forall. intros a Ha.
      assert (a ∈ l1 ++ l2) as Ha' by (apply elem_of_app; by right).
      destruct (Hokf a Ha') as [H1 H2 H3 H4 H5 H6].
      destruct (Hattr a Ha') as (Hs & Hsz & Hr & _).
      split; rewrite ?Hsz, ?Hr; eauto with lia.
  - apply adjacent_splice. split_and!; [| |done].
    + eapply (adjacent_impl_NoDup (link (heap st))); [done| |done].
      intros x y Hx Hy Hxl _ [Hn Hp]. split.
      * by rewrite Hnext1.
      * by rewrite Hprev1.
    + eapply (adjacent_impl_NoDup (link (heap st))); [done| |done].
      intros x y Hx Hy _ Hyh [Hn Hp]. split.
      * by rewrite Hnext2.
      * by rewrite Hprev2.
  - intros a Ha. destruct l1 as [|b l1]; [by apply Hfirst'|].
    simpl in Ha. simplify_eq. rewrite Hprev1 by left. by apply Hfirst.
  - intros a Ha. destruct (decide (l2 = [])) as [->|Hne].
    + apply Hlast'; [done|]. by rewrite app_nil_r in Ha.
    + rewrite !last_app in Ha. rewrite !last_app in Hlast.
      destruct (last l2) as [z|] eqn:E; [|by apply last_None in E].
      simplify_eq. rewrite Hnext2 by (by apply last_Some_elem_of).
      by apply Hlast.
  - done.
  - done.
  - apply adjacent_splice. split_and!; [| |done].
    + eapply (adjacent_impl (pair_wf (heap st))); [|done]. intros x y Hx Hy Hp.
      eapply pair_wf_frame; [done|apply Hattr..]; apply elem_of_app; by left.
    + eapply (adjacent_impl (pair_wf (heap st))); [|done]. intros x y Hx Hy Hp.
      eapply pair_wf_frame; [done|apply Hattr..]; apply elem_of_app; by right.
  - assert (∀ x y, x ∈ l1 ++ l2 → y ∈ l1 ++ l2 → x ≠ y →
                   disjoint (heap st') x y) as Hff.
    { intros x y Hx Hy Hne. eapply disjoint_frame; [|by apply Hattr..].
      apply Hdisj; [| |done].
      - apply elem_of_app in Hx as [?|?]; rewrite !elem_of_app; auto.
      - apply elem_of_app in Hy as [?|?]; rewrite !elem_of_app; auto. }
    intros x y Hx Hy Hne.
    destruct (decide (x ∈ mid')) as [Hxm|Hxm]; [by apply Hdisj'|].
    destruct (decide (y ∈ mid')) as [Hym|Hym].
    { apply disjoint_sym. by apply Hdisj'. }
    apply Hff; [| |done].
    + rewrite !elem_of_app in Hx. rewrite elem_of_app. tauto.
    + rewrite !elem_of_app in Hy. rewrite elem_of_app. tauto.
  - lia.
Qed.

Global Arguments split_result : simpl never.

Lemma same_attrs_with_prev h a v :
  is_Some (h !! a) → same_attrs h (<[a := with_prev v (cur h a)]> h) a.
Proof.
  intros Hs. unfold same_attrs. rewrite !fld_insert_eq, lookup_insert_eq.
  by split_and!.
Qed.

Lemma same_attrs_with_next h a v :
  is_Some (h !! a) → same_attrs h (<[a := with_next v (cur h a)]> h) a.
Proof.
  intros Hs. unfold same_attrs. rewrite !fld_insert_eq, lookup_insert_eq.
  by split_and!.
Qed.

Lemma split_result_other block sz st a :
  a ≠ block → a ≠ block + sz → is_Some (heap st !! a) →
  same_attrs (heap st) (heap (split_result block sz st)) a ∧
  fld next (heap (split_result block sz st)) a = fld next (heap st) a ∧
  (a ≠ fld next (heap st) block →
   fld prev (heap (split_result block sz st)) a = fld prev (heap st) a).
Proof.
  intros Hb Hnb Hs. unfold split_result, same_attrs. cbn [heap].
  case_decide as Hn.
  - fsimpl. rewrite !lookup_insert_is_Some'. auto 10.
  - destruct (decide (fld next (heap st) block = a)) as [<-|Hne].
    + fsimpl. rewrite !lookup_insert_is_Some'. split_and!; auto 10. done.
    + fsimpl. rewrite !lookup_insert_is_Some'. auto 10.
Qed.

Lemma split_result_block {A} (f : mem_block → A) block sz st :
  fld f (heap (split_result block sz st)) block =
  f (with_size sz (with_next (block + sz) (cur (heap st) block))).
Proof. unfold split_result. cbn [heap]. by fsimpl. Qed.

Lemma split_result_new {A} (f : mem_block → A) block sz st :
  block ≠ block + sz →
  fld f (heap (split_result block sz st)) (block + sz) =
  f (MemBlock (snprintf32 "Split block " (g_splits st))
       (fld size (heap st) block - sz) true
       (fld region_id (heap st) block) (fld next (heap st) block) block).
Proof. intros. unfold split_result. cbn [heap]. by fsimpl. Qed.

Lemma split_result_next_prev block sz st n :
  fld next (heap st) block = n → n ≠ NULL → n ≠ block → n ≠ block + sz →
  fld prev (heap (split_result block sz st)) n = block + sz.
Proof.
  intros Hn ???. unfold split_result. cbn [heap]. rewrite Hn.
  rewrite decide_False by done. by fsimpl.
Qed.

Lemma split_result_is_Some block sz st a :
  is_Some (heap st !! a) ∨ a = block ∨ a = block + sz →
  is_Some (heap (split_result block sz st) !! a).
Proof.
  intros H. unfold split_result. cbn [heap]. case_decide;
    rewrite !lookup_insert_is_Some'; naive_solver.
Qed.

Lemma elem_of_mid {A} (l1 l2 : list A) x : x ∈ l1 ++ x :: l2.
Proof. apply elem_of_app. right. left. Qed.

Lemma wf_around l1 a l2 st :
  wf (l1 ++ a :: l2) st →
  (∀ z, last l1 = Some z →
        z ∈ l1 ∧ link (heap st) z a ∧ pair_wf (heap st) z a) ∧
  (∀ n, head l2 = Some n →
        n ∈ l2 ∧ link (heap st) a n ∧ pair_wf (heap st) a n).
Proof.
  intros Hwf.
  pose proof (wf_links _ _ Hwf) as H1. apply adjacent_mid in H1.
  pose proof (wf_pairs _ _ Hwf) as H2. apply adjacent_mid in H2.
  split.
  - intros z Hz. split_and!; [by apply last_Some_elem_of|naive_solver..].
  - intros n Hn. split_and!; [|naive_solver..].
    apply head_Some in Hn as [? ->]. left.
Qed.

Lemma split_result_wf l1 block l2 st sz :
  wf (l1 ++ block :: l2) st →
  104 ≤ sz → sz + 104 ≤ fld size (heap st) block →
  wf (l1 ++ block :: (block + sz) :: l2) (split_result block sz st).
Proof.
  intros Hwf Hsz Hrm.
  pose proof (wf_block_ok _ _ _ _ Hwf) as [Hhdr Hpos Hsize Htop Hmap Hreg].
  pose proof (wf_nonnull _ _ _ _ Hwf) as Hnn.
  pose proof (wf_next _ _ _ _ Hwf) as Hnext.
  pose proof (wf_prev _ _ _ _ Hwf) as Hprev.
  pose proof (wf_is_tail _ _ _ _ Hwf) as Htl.
  pose proof (wf_not_in_l1 _ _ _ _ Hwf) as Hnl1.
  pose proof (wf_not_in_l2 _ _ _ _ Hwf) as Hnl2.
  assert (block + sz ∉ l1 ++ block :: l2) as Hfresh.
  { eapply wf_fresh_inside; [done|apply elem_of_mid|lia]. }
  assert (block ≠ block + sz) as Hne by lia.
  assert (∀ a, a ∈ l1 ++ l2 →
               a ≠ block ∧ a ≠ block + sz ∧ a ≠ NULL ∧ block_ok st a) as Hel.
  { intros a Ha.
    assert (a ∈ l1 ++ block :: l2) as Ha'.
    { rewrite elem_of_app, elem_of_cons. rewrite elem_of_app in Ha. tauto. }
    pose proof (wf_elem _ _ _ Hwf Ha') as Hok.
    split_and!; [| | |done].
    - intros ->. apply elem_of_app in Ha as [?|?]; done.
    - by intros ->.
    - pose proof (bo_pos _ _ Hok). unfold NULL. lia. }
  assert (∀ a, a ∈ l1 → a ≠ fld next (heap st) block) as Hl1n.
  { intros a Ha. rewrite Hnext. destruct l2 as [|n l2]; simpl.
    - apply Hel. apply elem_of_app. by left.
    - intros ->. pose proof (wf_nodup _ _ Hwf) as Hnd.
      apply NoDup_app in Hnd as (_ & Hnd & _). apply (Hnd n Ha).
      right. left. }
  apply (wf_splice l1 [block] [block; block + sz] l2 st); try done.
  - intros a Ha. destruct (Hel a Ha) as (? & ? & ? & Hok).
    apply split_result_other; [done..|apply Hok].
  - intros a Ha. assert (a ∈ l1 ++ l2) as Ha' by (apply elem_of_app; by left).
    destruct (Hel a Ha') as (? & ? & ? & Hok).
    apply split_result_other; [done..|apply Hok|by apply Hl1n].
  - intros a Ha _. assert (a ∈ l1 ++ l2) as Ha' by (apply elem_of_app; by left).
    destruct (Hel a Ha') as (? & ? & ? & Hok).
    apply split_result_other; [done..|apply Hok].
  - intros a Ha. assert (a ∈ l1 ++ l2) as Ha' by (apply elem_of_app; by right).
    destruct (Hel a Ha') as (? & ? & ? & Hok).
    apply split_result_other; [done..|apply Hok].
  - intros a Ha Hh.
    assert (a ∈ l1 ++ l2) as Ha' by (apply elem_of_app; by right).
    destruct (Hel a Ha') as (? & ? & ? & Hok).
    apply split_result_other; [done..|apply Hok|].
    rewrite Hnext. destruct l2; simpl in *; congruence.
  - intros a x Ha Hx. destruct (Hel a Ha) as (? & ? & ? & Hok).
    by apply (bo_mapped _ _ Hok).
  - repeat constructor; set_solver.
  - intros a Ha Ha'. apply elem_of_cons in Ha as [->|Ha].
    + apply elem_of_app in Ha' as [?|?]; done.
    + apply list_elem_of_singleton in Ha as ->. apply Hfresh.
      rewrite elem_of_app, elem_of_cons. rewrite elem_of_app in Ha'. tauto.
  - repeat constructor.
    + apply split_result_is_Some. auto.
    + done.
    + rewrite split_result_block. cbn. lia.
    + rewrite split_result_block. cbn. lia.
    + rewrite split_result_block. cbn. intros x Hx. apply Hmap. lia.
    + rewrite split_result_block. cbn. apply Hreg.
    + rewrite split_result_block. cbn. apply Hreg.
    + apply split_result_is_Some. auto.
    + lia.
    + rewrite split_result_new by done. cbn. lia.
    + rewrite split_result_new by done. cbn. lia.
    + rewrite split_result_new by done. cbn. intros x Hx. apply Hmap. lia.
    + rewrite split_result_new by done. cbn. apply Hreg.
    + rewrite split_result_new by done. cbn. apply Hreg.
  - pose proof (wf_around _ _ _ _ Hwf) as [Hz Hn].
    assert (∀ z, last l1 = Some z →
              fld next (heap (split_result block sz st)) z = block) as Hz'.
    { intros z Hlz. destruct (Hz z Hlz) as (Hzin & [Hz1 Hz2] & _).
      assert (z ∈ l1 ++ l2) as Ha' by (apply elem_of_app; by left).
      destruct (Hel z Ha') as (? & ? & ? & Hok).
      destruct (split_result_other block sz st z) as (_ & Hnx & _);
        [done..|apply Hok|]. by rewrite Hnx. }
    assert (∀ n, head l2 = Some n →
              fld next (heap st) block = n ∧
              fld prev (heap (split_result block sz st)) n = block + sz)
      as Hn'.
    { intros n Hln. destruct (Hn n Hln) as (Hnin & [Hn1 Hn2] & _).
      assert (n ∈ l1 ++ l2) as Ha' by (apply elem_of_app; by right).
      destruct (Hel n Ha') as (? & ? & ? & Hok).
      split; [done|]. by apply split_result_next_prev. }
    destruct (last l1) as [z|]; destruct (head l2) as [n|];
      rewrite ?option_list_Some, ?option_list_None;
      cbn [app adjacent default];
      unfold link; rewrite ?split_result_block, ?split_result_new by done;
      cbn [next prev with_size with_next];
      try specialize (Hz' z eq_refl); try specialize (Hn' n eq_refl);
      naive_solver.
  - pose proof (wf_around _ _ _ _ Hwf) as [Hz Hn].
    assert (∀ z, last l1 = Some z →
              pair_wf (heap (split_result block sz st)) z block) as Hz'.
    { intros z Hlz. destruct (Hz z Hlz) as (Hzin & _ & [Hz1 Hz2]).
      assert (z ∈ l1 ++ l2) as Ha' by (apply elem_of_app; by left).
      destruct (Hel z Ha') as (? & ? & ? & Hok).
      destruct (split_result_other block sz st z) as ((_ & Hs & Hr & _) & _);
        [done..|apply Hok|].
      unfold pair_wf. rewrite Hs, Hr, split_result_block. done. }
    assert (∀ n, head l2 = Some n →
              pair_wf (heap (split_result block sz st)) (block + sz) n)
      as Hn'.
    { intros n Hln. destruct (Hn n Hln) as (Hnin & _ & [Hn1 Hn2]).
      assert (n ∈ l1 ++ l2) as Ha' by (apply elem_of_app; by right).
      destruct (Hel n Ha') as (? & ? & ? & Hok).
      destruct (split_result_other block sz st n) as ((_ & Hs & Hr & _) & _);
        [done..|apply Hok|].
      unfold pair_wf. rewrite Hr, !split_result_new by done. cbn.
      split; [done|]. intros Heq. specialize (Hn2 Heq). lia. }
    assert (pair_wf (heap (split_result block sz st)) block (block + sz))
      as Hmid.
    { unfold pair_wf. rewrite !split_result_block, !split_result_new by done.
      cbn. done. }
    destruct (last l1) as [z|]; destruct (head l2) as [n|];
      rewrite ?option_list_Some, ?option_list_None;
      cbn [app adjacent default];
      try specialize (Hz' z eq_refl); try specialize (Hn' n eq_refl);
      naive_solver.
  - intros -> a [= <-]. rewrite split_result_block. apply Hprev.
  - intros -> a. rewrite last_app. cbn. intros [= <-].
    rewrite split_result_new by done. apply Hnext.
  - unfold split_result. cbn [g_head]. rewrite (wf_head _ _ Hwf).
    by rewrite !head_app_option.
  - unfold split_result. cbn [g_tail]. case_decide as Ht.
    + apply Htl in Ht as ->. by rewrite last_app.
    + rewrite (wf_tail _ _ Hwf). rewrite !last_app.
      destruct (last l2) eqn:E.
      * by rewrite !last_cons, E.
      * apply last_None in E. by apply Htl in E.
  - intros x y Hx Hy Hxy.
    assert (y = block ∨ y = block + sz ∨ y ∈ l1 ++ l2) as Hy'.
    { rewrite !elem_of_app, !elem_of_cons, elem_of_nil in Hy.
      rewrite elem_of_app. tauto. }
    assert (x = block ∨ x = block + sz) as Hx'.
    { rewrite !elem_of_cons, elem_of_nil in Hx. tauto. }
    assert (∀ y, y ∈ l1 ++ l2 →
              fld size (heap (split_result block sz st)) y
              = fld size (heap st) y ∧ disjoint (heap st) block y) as Hd.
    { intros y' Hy''. destruct (Hel y' Hy'') as (? & ? & ? & Hok).
      destruct (split_result_other block sz st y') as ((_ & Hs & _) & _);
        [done..|apply Hok|]. split; [done|].
      apply (wf_disjoint _ _ Hwf); [apply elem_of_mid| |done].
      rewrite elem_of_app, elem_of_cons. rewrite elem_of_app in Hy''. tauto. }
    unfold disjoint in *.
    destruct Hx' as [->| ->]; destruct Hy' as [->|[->|Hy']]; try done;
      rewrite ?split_result_block, ?split_result_new by done;
      cbn [size with_size with_next]; try lia.
    + destruct (Hd y Hy') as [-> ?]. lia.
    + destruct (Hd y Hy') as [-> ?]. lia.
Qed.


(** * merge_block on a well-formed list *)

(** ** The block absorbs its successor *)

Definition absorbs_next (st : state) (block : Z) : bool :=
  let h := heap st in
  let n := fld next h block in
  nonnull n && fld free h n &&
  bool_decide (fld region_id h n = fld region_id h block).

Definition merge_next_result (block : Z) (st : state) : state :=
  let h := heap st in
  let n := fld next h block in
  let nn := fld next h n in
  let h1 := <[block := with_next nn
                (with_size (fld size h block + fld size h n) (cur h block))]> h in
  let h2 := if decide (nn = NULL) then <[n := with_prev NULL (cur h n)]> h1
            else <[nn := with_prev block (cur h nn)]> h1 in
  State h2 (mapped st) (g_head st)
        (if decide (n = g_tail st) then block else g_tail st)
        (g_allocations st) (g_regions st) (g_splits st) (trace st).

Global Arguments merge_next_result : simpl never.

Lemma wf_second l1 a n l2 st :
  wf (l1 ++ a :: n :: l2) st →
  n ≠ NULL ∧ n ≠ a ∧ is_Some (heap st !! n) ∧ fld next (heap st) a = n ∧
  fld prev (heap st) n = a ∧ fld next (heap st) n = default NULL (head l2) ∧
  pair_wf (heap st) a n ∧ block_ok st n.
Proof.
  intros Hwf.
  pose proof (wf_head_elem _ _ _ _ n Hwf eq_refl) as (? & ? & ? & Hin).
  pose proof (wf_next _ _ _ _ Hwf) as Hn.
  destruct (wf_around _ _ _ _ Hwf) as [_ Ha].
  destruct (Ha n eq_refl) as (_ & [? ?] & ?).
  split_and!; try done.
  - assert (l1 ++ a :: n :: l2 = (l1 ++ [a]) ++ n :: l2) as Heq
      by (by rewrite <-app_assoc).
    rewrite Heq in Hwf. apply (wf_next _ _ _ _ Hwf).
  - by apply (wf_elem _ _ _ Hwf).
Qed.

Lemma merge_with_next_effect l1 block l2 st :
  wf (l1 ++ block :: l2) st →
  merge_with_next block st =
  Done (tt, if absorbs_next st block then merge_next_result block st else st).
Proof.
  intros Hwf.
  pose proof (wf_block_ok _ _ _ _ Hwf) as [Hhdr Hpos Hsize Htop Hmap Hreg].
  pose proof (wf_nonnull _ _ _ _ Hwf) as Hnn.
  pose proof (wf_next _ _ _ _ Hwf) as Hnext.
  unfold merge_with_next, absorbs_next, merge_next_result.
  destruct l2 as [|n l2].
  { simpl in Hnext. rewrite Hnext. open_state st. step. by rewrite Hnext. }
  pose proof (wf_second _ _ _ _ _ Hwf)
    as (Hn0 & Hnb & Hns & _ & Hnp & Hnn' & [Hr1 Hr2] & Hnok).
  simpl in Hnext. rewrite Hnext. rewrite (nonnull_true n) by done.
  assert (n :: l2 ≠ []) as Hl2 by done.
  pose proof (wf_is_tail _ _ _ _ Hwf) as Htl.
  assert (l1 ++ block :: n :: l2 = (l1 ++ [block]) ++ n :: l2) as Heq
      by (by rewrite <-app_assoc).
  rewrite Heq in Hwf.
  pose proof (wf_is_tail _ _ _ _ Hwf) as Htl'.
  destruct Hnok as [_ Hnpos Hnsize Hntop _ _].
  open_state st.
  step. rewrite Hnext. rewrite (nonnull_true n) by done.
  unfold andM. repeat (step || rewrite Hnext).
  destruct (fld free h n) eqn:Hfree; cbn [andb]; [|by step].
  repeat (step || rewrite Hnext).
  case_bool_decide as Hreg'; [|done].
  repeat (step || rewrite Hnext).
  symmetry in Hreg'. specialize (Hr2 Hreg').
  rewrite wrap64_small by lia.
  case_decide as Ht.
  - assert (l2 = []) as -> by (by apply (proj1 Htl')).
    simpl in Hnn'. rewrite Hnn'.
    repeat (step || rewrite Hnext).
    last_step.
    rewrite !decide_True by done.
    close_states.
  - destruct l2 as [|nn l2]; [by destruct Ht; apply (proj2 Htl')|].
    pose proof (wf_second _ _ _ _ _ Hwf)
      as (Hnn0 & Hnnn & Hnns & _ & _ & _ & _ & _).
    simpl in Hnn'. rewrite Hnn'.
    assert (nn ≠ block) as Hnnb.
    { intros ->. pose proof (wf_nodup _ _ Hwf) as Hnd.
      rewrite <-Heq in Hnd. apply NoDup_app in Hnd as (_ & _ & Hnd).
      apply NoDup_cons in Hnd as [Hnd _]. apply Hnd. right. left. }
    repeat (step || rewrite Hnext || rewrite Hnn').
    last_step.
    rewrite !decide_False by done.
    close_states.
Qed.

Lemma merge_next_result_other block st a :
  a ≠ block → a ≠ fld next (heap st) block → is_Some (heap st !! a) →
  same_attrs (heap st) (heap (merge_next_result block st)) a ∧
  fld next (heap (merge_next_result block st)) a = fld next (heap st) a ∧
  (a ≠ fld next (heap st) (fld next (heap st) block) →
   fld prev (heap (merge_next_result block st)) a = fld prev (heap st) a).
Proof.
  intros Hb Hn Hs. unfold merge_next_result, same_attrs. cbn [heap].
  case_decide as Hnn.
  - fsimpl. rewrite !lookup_insert_is_Some'. auto 10.
  - destruct (decide (fld next (heap st) (fld next (heap st) block) = a))
      as [<-|Hne].
    + fsimpl. rewrite !lookup_insert_is_Some'. split_and!; auto 10. done.
    + fsimpl. rewrite !lookup_insert_is_Some'. auto 10.
Qed.

Lemma merge_next_result_block {A} (f : mem_block → A) block st :
  fld next (heap st) block ≠ block →
  fld next (heap st) (fld next (heap st) block) ≠ block →
  fld f (heap (merge_next_result block st)) block =
  f (with_next (fld next (heap st) (fld next (heap st) block))
       (with_size (fld size (heap st) block
                   + fld size (heap st) (fld next (heap st) block))
          (cur (heap st) block))).
Proof.
  intros. unfold merge_next_result. cbn [heap]. case_decide; by fsimpl.
Qed.

Lemma merge_next_result_is_Some block st a :
  is_Some (heap st !! a) →
  is_Some (heap (merge_next_result block st) !! a).
Proof.
  intros H. unfold merge_next_result. cbn [heap]. case_decide;
    rewrite !lookup_insert_is_Some'; naive_solver.
Qed.

Lemma merge_next_result_nn block st nn :
  fld next (heap st) (fld next (heap st) block) = nn → nn ≠ NULL →
  fld prev (heap (merge_next_result block st)) nn = block.
Proof.
  intros Hn ?. unfold merge_next_result. cbn [heap]. rewrite Hn.
  rewrite decide_False by done. by fsimpl.
Qed.

Lemma elem_of_outer {A} (l1 l2 : list A) (m : list A) x :
  x ∈ l1 ++ l2 → x ∈ l1 ++ m ++ l2.
Proof. rewrite !elem_of_app. tauto. Qed.

Lemma wf_outer l1 mid l2 st a :
  wf (l1 ++ mid ++ l2) st → a ∈ l1 ++ l2 →
  a ∉ mid ∧ a ≠ NULL ∧ block_ok st a.
Proof.
  intros Hwf Ha.
  pose proof (wf_elem _ _ _ Hwf (elem_of_outer _ _ mid _ Ha)) as Hok.
  split_and!; [| |done].
  - intros Hm. pose proof (wf_nodup _ _ Hwf) as Hnd.
    apply NoDup_app in Hnd as (_ & H1 & Hnd).
    apply NoDup_app in Hnd as (_ & H2 & _).
    apply elem_of_app in Ha as [Ha|Ha].
    + apply (H1 a Ha). apply elem_of_app. by left.
    + by apply (H2 a Hm).
  - pose proof (bo_pos _ _ Hok). unfold NULL. lia.
Qed.

Lemma merge_next_result_wf l1 block n l2 st :
  wf (l1 ++ block :: n :: l2) st →
  fld region_id (heap st) n = fld region_id (heap st) block →
  wf (l1 ++ block :: l2) (merge_next_result block st).
Proof.
  intros Hwf Hsame.
  pose proof (wf_block_ok _ _ _ _ Hwf) as [Hhdr Hpos Hsize Htop Hmap Hreg].
  pose proof (wf_nonnull _ _ _ _ Hwf) as Hnn.
  pose proof (wf_prev _ _ _ _ Hwf) as Hprev.
  pose proof (wf_second _ _ _ _ _ Hwf)
    as (Hn0 & Hnb & Hns & Hnext & Hnp & Hnn' & [Hr1 Hr2] & Hnok).
  symmetry in Hsame. specialize (Hr2 Hsame).
  destruct Hnok as [_ Hnpos Hnsize Hntop Hnmap Hnreg].
  assert (∀ a, a ∈ l1 ++ l2 →
            a ≠ block ∧ a ≠ n ∧ a ≠ NULL ∧ block_ok st a) as Hel.
  { intros a Ha.
    destruct (wf_outer l1 [block; n] l2 st a Hwf Ha) as (Hm & ? & ?).
    split_and!; try done; intros ->; apply Hm; set_solver. }
  assert (fld next (heap st) n ≠ block) as Hnnb.
  { rewrite Hnn'. destruct l2 as [|nn l2]; [done|]. simpl.
    apply (Hel nn). apply elem_of_app. right. left. }
  assert (∀ a, a ∈ l1 → a ≠ fld next (heap st) n) as Hl1n.
  { intros a Ha. rewrite Hnn'. destruct l2 as [|nn l2]; simpl.
    - apply Hel. apply elem_of_app. by left.
    - intros ->. pose proof (wf_nodup _ _ Hwf) as Hnd.
      apply NoDup_app in Hnd as (_ & Hnd & _). apply (Hnd nn Ha).
      right. right. left. }
  assert (∀ {A} (f : mem_block → A),
    fld f (heap (merge_next_result block st)) block =
    f (with_next (fld next (heap st) n)
         (with_size (fld size (heap st) block + fld size (heap st) n)
            (cur (heap st) block)))) as Hblk.
  { intros A f. rewrite merge_next_result_block; rewrite Hnext; done. }
  assert (∀ a, a ∈ l1 ++ l2 →
    same_attrs (heap st) (heap (merge_next_result block st)) a ∧
    fld next (heap (merge_next_result block st)) a = fld next (heap st) a ∧
    (a ≠ fld next (heap st) n →
     fld prev (heap (merge_next_result block st)) a = fld prev (heap st) a))
    as Hother.
  { intros a Ha. destruct (Hel a Ha) as (? & ? & ? & Hok).
    pose proof (merge_next_result_other block st a) as Hoth.
    rewrite Hnext in Hoth. apply Hoth; [done..|apply Hok]. }
  apply (wf_splice l1 [block; n] [block] l2 st); try done.
  - intros a Ha. by apply Hother.
  - intros a Ha. apply Hother; [apply elem_of_app; by left|by apply Hl1n].
  - intros a Ha _. apply Hother. apply elem_of_app; by left.
  - intros a Ha. apply Hother. apply elem_of_app; by right.
  - intros a Ha Hh. apply Hother; [apply elem_of_app; by right|].
    rewrite Hnn'. destruct l2; simpl in *; [|congruence].
    by apply elem_of_nil in Ha.
  - intros a x Ha Hx. destruct (Hel a Ha) as (? & ? & ? & Hok).
    by apply (bo_mapped _ _ Hok).
  - repeat constructor; set_solver.
  - intros a Ha Ha'. apply list_elem_of_singleton in Ha as ->.
    by destruct (Hel _ Ha') as (? & _).
  - repeat constructor.
    + by apply merge_next_result_is_Some.
    + done.
    + rewrite Hblk. cbn. lia.
    + rewrite Hblk. cbn. lia.
    + rewrite Hblk. cbn. intros x Hx.
      destruct (decide (x < n)); [apply Hmap|apply Hnmap]; lia.
    + rewrite Hblk. cbn. apply Hreg.
    + rewrite Hblk. cbn. apply Hreg.
  - pose proof (wf_around _ _ _ _ Hwf) as [Hz _].
    assert (∀ z, last l1 = Some z →
              fld next (heap (merge_next_result block st)) z = block) as Hz'.
    { intros z Hlz. destruct (Hz z Hlz) as (Hzin & [Hz1 Hz2] & _).
      assert (z ∈ l1 ++ l2) as Ha' by (apply elem_of_app; by left).
      destruct (Hother z Ha') as (_ & Hnx & _). by rewrite Hnx. }
    assert (∀ nn, head l2 = Some nn →
              fld next (heap st) n = nn ∧
              fld prev (heap (merge_next_result block st)) nn = block)
      as Hn'.
    { intros nn Hln. rewrite Hln in Hnn'. simpl in Hnn'. split; [done|].
      apply merge_next_result_nn; [by rewrite Hnext|].
      apply head_Some in Hln as [? ->].
      apply (Hel nn). apply elem_of_app. right. left. }
    destruct (last l1) as [z|]; destruct (head l2) as [nn|];
      rewrite ?option_list_Some, ?option_list_None;
      cbn [app adjacent default];
      unfold link; rewrite ?Hblk;
      cbn [next prev with_size with_next];
      try specialize (Hz' z eq_refl); try specialize (Hn' nn eq_refl);
      naive_solver.
  - pose proof (wf_around _ _ _ _ Hwf) as [Hz _].
    assert (∀ z, last l1 = Some z →
              pair_wf (heap (merge_next_result block st)) z block) as Hz'.
    { intros z Hlz. destruct (Hz z Hlz) as (Hzin & _ & [Hz1 Hz2]).
      assert (z ∈ l1 ++ l2) as Ha' by (apply elem_of_app; by left).
      destruct (Hother z Ha') as ((_ & Hs & Hr & _) & _).
      unfold pair_wf. rewrite Hs, Hr, Hblk. done. }
    assert (∀ nn, head l2 = Some nn →
              pair_wf (heap (merge_next_result block st)) block nn)
      as Hn'.
    { intros nn Hln.
      assert (l1 ++ block :: n :: l2 = (l1 ++ [block]) ++ n :: l2) as Heq
        by (by rewrite <-app_assoc).
      rewrite Heq in Hwf.
      destruct (wf_around _ _ _ _ Hwf) as [_ Hn].
      destruct (Hn nn Hln) as (Hnin & _ & [Hn1 Hn2]).
      assert (nn ∈ l1 ++ l2) as Ha' by (apply elem_of_app; by right).
      destruct (Hother nn Ha') as ((_ & Hs & Hr & _) & _).
      unfold pair_wf. rewrite Hr, !Hblk. cbn.
      change (region_id (cur (heap st) block))
        with (fld region_id (heap st) block).
      split; [lia|]. intros Heq'. rewrite Hsame in Heq'.
      specialize (Hn2 Heq'). lia. }
    destruct (last l1) as [z|]; destruct (head l2) as [nn|];
      rewrite ?option_list_Some, ?option_list_None;
      cbn [app adjacent default];
      try specialize (Hz' z eq_refl); try specialize (Hn' nn eq_refl);
      naive_solver.
  - intros -> a [= <-]. rewrite Hblk. apply Hprev.
  - intros -> a. rewrite last_app. cbn. intros [= <-].
    rewrite Hblk. apply Hnn'.
  - unfold merge_next_result. cbn [g_head]. rewrite (wf_head _ _ Hwf).
    by rewrite !head_app_option.
  - unfold merge_next_result. cbn [g_tail]. rewrite Hnext.
    assert (l1 ++ block :: n :: l2 = (l1 ++ [block]) ++ n :: l2) as Heq
      by (by rewrite <-app_assoc).
    pose proof Hwf as Hwf'. rewrite Heq in Hwf'.
    pose proof (wf_is_tail _ _ _ _ Hwf') as Htl.
    case_decide as Ht.
    + apply Htl in Ht as ->. by rewrite last_app.
    + rewrite (wf_tail _ _ Hwf). rewrite !last_app.
      destruct (last l2) eqn:E.
      * by rewrite !last_cons, E.
      * apply last_None in E. by apply Htl in E.
  - intros x y Hx Hy Hxy.
    apply list_elem_of_singleton in Hx as ->.
    assert (y ∈ l1 ++ l2) as Hy'.
    { rewrite !elem_of_app, !elem_of_cons, elem_of_nil in Hy.
      rewrite elem_of_app. naive_solver. }
    destruct (Hel y Hy') as (? & ? & ? & Hok).
    destruct (Hother y Hy') as ((_ & Hs & _) & _).
    assert (disjoint (heap st) block y) as Hd1.
    { apply (wf_disjoint _ _ Hwf); [apply elem_of_mid| |done].
      by apply (elem_of_outer _ _ [block; n]). }
    assert (disjoint (heap st) n y) as Hd2.
    { apply (wf_disjoint _ _ Hwf); [| |done].
      - apply elem_of_app. right. right. left.
      - by apply (elem_of_outer _ _ [block; n]). }
    pose proof (bo_size _ _ Hok).
    unfold disjoint in *. rewrite Hs, Hblk. cbn.
    change (size (cur (heap st) block)) with (fld size (heap st) block).
    lia.
Qed.


(** ** The predecessor absorbs the block *)

Definition absorbed_by_prev (st : state) (block : Z) : bool :=
  let h := heap st in
  let p := fld prev h block in
  nonnull p && fld free h p &&
  bool_decide (fld region_id h p = fld region_id h block).

Definition merge_prev_result (block : Z) (st : state) : state :=
  let h := heap st in
  let p := fld prev h block in
  let n := fld next h block in
  let h1 := <[p := with_next n
                (with_size (fld size h p + fld size h block) (cur h p))]> h in
  let h2 := if decide (n = NULL) then <[block := with_prev NULL (cur h block)]> h1
            else <[n := with_prev p (cur h n)]> h1 in
  State h2 (mapped st) (g_head st)
        (if decide (block = g_tail st) then p else g_tail st)
        (g_allocations st) (g_regions st) (g_splits st) (trace st).

Global Arguments merge_prev_result : simpl never.

Lemma app_cons_assoc {A} (l1 : list A) x l2 :
  l1 ++ x :: l2 = (l1 ++ [x]) ++ l2.
Proof. by rewrite <-app_assoc. Qed.

Lemma merge_with_prev_effect l1 block l2 st :
  wf (l1 ++ block :: l2) st →
  merge_with_prev block st =
  Done (tt, if absorbed_by_prev st block then merge_prev_result block st
            else st).
Proof.
  intros Hwf.
  pose proof (wf_block_ok _ _ _ _ Hwf) as [Hhdr Hpos Hsize Htop Hmap Hreg].
  pose proof (wf_nonnull _ _ _ _ Hwf) as Hnn.
  pose proof (wf_prev _ _ _ _ Hwf) as Hprev.
  pose proof (wf_next _ _ _ _ Hwf) as Hnext.
  pose proof (wf_is_tail _ _ _ _ Hwf) as Htl.
  unfold merge_with_prev, absorbed_by_prev, merge_prev_result.
  destruct l1 as [|p l1 _] using rev_ind.
  { simpl in Hprev. rewrite Hprev. open_state st. step. by rewrite Hprev. }
  rewrite last_snoc in Hprev. simpl in Hprev.
  rewrite <-app_assoc in Hwf. simpl in Hwf.
  pose proof (wf_second _ _ _ _ _ Hwf)
    as (_ & Hpb & _ & Hpn & _ & _ & [Hr1 Hr2] & _).
  pose proof (wf_block_ok _ _ _ _ Hwf) as [Hphdr Hppos Hpsize Hptop _ _].
  pose proof (wf_nonnull _ _ _ _ Hwf) as Hp0.
  rewrite Hprev. rewrite (nonnull_true p) by done.
  open_state st.
  step. rewrite Hprev. rewrite (nonnull_true p) by done.
  unfold andM. repeat (step || rewrite Hprev).
  destruct (fld free h p) eqn:Hfree; cbn [andb]; [|by step].
  repeat (step || rewrite Hprev).
  case_bool_decide as Hreg'; [|done].
  repeat (step || rewrite Hprev).
  specialize (Hr2 Hreg').
  rewrite wrap64_small by lia.
  case_decide as Ht.
  - assert (l2 = []) as -> by (by apply (proj1 Htl)).
    simpl in Hnext.
    repeat (step || rewrite Hprev).
    last_step. rewrite Hnext.
    rewrite !decide_True by done.
    close_states.
  - destruct l2 as [|n l2]; [by destruct Ht; apply (proj2 Htl)|].
    rewrite app_cons_assoc in Hwf.
    pose proof (wf_second _ _ _ _ _ Hwf)
      as (Hn0 & Hnb & Hns & _ & _ & _ & _ & _).
    simpl in Hnext.
    assert (n ≠ p) as Hnp.
    { intros ->. pose proof (wf_nodup _ _ Hwf) as Hnd.
      rewrite <-!app_assoc in Hnd. apply NoDup_app in Hnd as (_ & _ & Hnd).
      apply NoDup_cons in Hnd as [Hnd _]. apply Hnd. right. left. }
    repeat (step || rewrite Hprev || rewrite Hnext).
    last_step.
    rewrite !decide_False by done.
    close_states.
Qed.

Lemma merge_prev_result_other block st a :
  a ≠ fld prev (heap st) block → a ≠ block → is_Some (heap st !! a) →
  same_attrs (heap st) (heap (merge_prev_result block st)) a ∧
  fld next (heap (merge_prev_result block st)) a = fld next (heap st) a ∧
  (a ≠ fld next (heap st) block →
   fld prev (heap (merge_prev_result block st)) a = fld prev (heap st) a).
Proof.
  intros Hp Hb Hs. unfold merge_prev_result, same_attrs. cbn [heap].
  case_decide as Hnn.
  - fsimpl. rewrite !lookup_insert_is_Some'. auto 10.
  - destruct (decide (fld next (heap st) block = a)) as [<-|Hne].
    + fsimpl. rewrite !lookup_insert_is_Some'. split_and!; auto 10. done.
    + fsimpl. rewrite !lookup_insert_is_Some'. auto 10.
Qed.

Lemma merge_prev_result_p {A} (f : mem_block → A) block st :
  fld prev (heap st) block ≠ block →
  fld next (heap st) block ≠ fld prev (heap st) block →
  fld f (heap (merge_prev_result block st)) (fld prev (heap st) block) =
  f (with_next (fld next (heap st) block)
       (with_size (fld size (heap st) (fld prev (heap st) block)
                   + fld size (heap st) block)
          (cur (heap st) (fld prev (heap st) block)))).
Proof.
  intros. unfold merge_prev_result. cbn [heap]. case_decide; by fsimpl.
Qed.

Lemma merge_prev_result_n block st n :
  fld next (heap st) block = n → n ≠ NULL →
  fld prev (heap (merge_prev_result block st)) n = fld prev (heap st) block.
Proof.
  intros Hn ?. unfold merge_prev_result. cbn [heap]. rewrite Hn.
  rewrite decide_False by done. by fsimpl.
Qed.

Lemma merge_prev_result_is_Some block st a :
  is_Some (heap st !! a) →
  is_Some (heap (merge_prev_result block st) !! a).
Proof.
  intros H. unfold merge_prev_result. cbn [heap]. case_decide;
    rewrite !lookup_insert_is_Some'; naive_solver.
Qed.

Lemma merge_prev_result_wf l1 p block l2 st :
  wf (l1 ++ p :: block :: l2) st →
  fld region_id (heap st) p = fld region_id (heap st) block →
  wf (l1 ++ p :: l2) (merge_prev_result block st).
Proof.
  intros Hwf Hsame.
  pose proof (wf_block_ok _ _ _ _ Hwf) as [Hhdr Hpos Hsize Htop Hmap Hreg].
  pose proof (wf_nonnull _ _ _ _ Hwf) as Hp0.
  pose proof (wf_prev _ _ _ _ Hwf) as Hpprev.
  pose proof (wf_second _ _ _ _ _ Hwf)
    as (Hb0 & Hbp & Hbs & Hpnext & Hprev & Hnext & [Hr1 Hr2] & Hbok).
  specialize (Hr2 Hsame).
  destruct Hbok as [_ Hbpos Hbsize Hbtop Hbmap Hbreg].
  assert (∀ a, a ∈ l1 ++ l2 →
            a ≠ p ∧ a ≠ block ∧ a ≠ NULL ∧ block_ok st a) as Hel.
  { intros a Ha.
    destruct (wf_outer l1 [p; block] l2 st a Hwf Ha) as (Hm & ? & ?).
    split_and!; try done; intros ->; apply Hm; set_solver. }
  assert (fld next (heap st) block ≠ p) as Hnp.
  { rewrite Hnext. destruct l2 as [|n l2]; [done|]. simpl.
    apply (Hel n). apply elem_of_app. right. left. }
  assert (∀ a, a ∈ l1 → a ≠ fld next (heap st) block) as Hl1n.
  { intros a Ha. rewrite Hnext. destruct l2 as [|n l2]; simpl.
    - apply Hel. apply elem_of_app. by left.
    - intros ->. pose proof (wf_nodup _ _ Hwf) as Hnd.
      apply NoDup_app in Hnd as (_ & Hnd & _). apply (Hnd n Ha).
      right. right. left. }
  assert (∀ {A} (f : mem_block → A),
    fld f (heap (merge_prev_result block st)) p =
    f (with_next (fld next (heap st) block)
         (with_size (fld size (heap st) p + fld size (heap st) block)
            (cur (heap st) p)))) as Hblk.
  { intros A f. pose proof (merge_prev_result_p f block st) as Hp.
    rewrite Hprev in Hp. apply Hp; [done|]. done. }
  assert (∀ a, a ∈ l1 ++ l2 →
    same_attrs (heap st) (heap (merge_prev_result block st)) a ∧
    fld next (heap (merge_prev_result block st)) a = fld next (heap st) a ∧
    (a ≠ fld next (heap st) block →
     fld prev (heap (merge_prev_result block st)) a = fld prev (heap st) a))
    as Hother.
  { intros a Ha. destruct (Hel a Ha) as (? & ? & ? & Hok).
    apply merge_prev_result_other; [by rewrite Hprev|done|apply Hok]. }
  apply (wf_splice l1 [p; block] [p] l2 st); try done.
  - intros a Ha. by apply Hother.
  - intros a Ha. apply Hother; [apply elem_of_app; by left|by apply Hl1n].
  - intros a Ha _. apply Hother. apply elem_of_app; by left.
  - intros a Ha. apply Hother. apply elem_of_app; by right.
  - intros a Ha Hh. apply Hother; [apply elem_of_app; by right|].
    rewrite Hnext. destruct l2; simpl in *; [|congruence].
    by apply elem_of_nil in Ha.
  - intros a x Ha Hx. destruct (Hel a Ha) as (? & ? & ? & Hok).
    by apply (bo_mapped _ _ Hok).
  - repeat constructor; set_solver.
  - intros a Ha Ha'. apply list_elem_of_singleton in Ha as ->.
    by destruct (Hel _ Ha') as (? & _).
  - repeat constructor.
    + by apply merge_prev_result_is_Some.
    + done.
    + rewrite Hblk. cbn. lia.
    + rewrite Hblk. cbn. lia.
    + rewrite Hblk. cbn. intros x Hx.
      destruct (decide (x < block)); [apply Hmap|apply Hbmap]; lia.
    + rewrite Hblk. cbn. apply Hreg.
    + rewrite Hblk. cbn. apply Hreg.
  - pose proof (wf_around _ _ _ _ Hwf) as [Hz _].
    assert (∀ z, last l1 = Some z →
              fld next (heap (merge_prev_result block st)) z = p) as Hz'.
    { intros z Hlz. destruct (Hz z Hlz) as (Hzin & [Hz1 Hz2] & _).
      assert (z ∈ l1 ++ l2) as Ha' by (apply elem_of_app; by left).
      destruct (Hother z Ha') as (_ & Hnx & _). by rewrite Hnx. }
    assert (∀ n, head l2 = Some n →
              fld next (heap st) block = n ∧
              fld prev (heap (merge_prev_result block st)) n = p)
      as Hn'.
    { intros n Hln. rewrite Hln in Hnext. simpl in Hnext. split; [done|].
      rewrite <-Hprev. apply merge_prev_result_n; [done|].
      apply head_Some in Hln as [? ->].
      apply (Hel n). apply elem_of_app. right. left. }
    destruct (last l1) as [z|]; destruct (head l2) as [n|];
      rewrite ?option_list_Some, ?option_list_None;
      cbn [app adjacent default];
      unfold link; rewrite ?Hblk;
      cbn [next prev with_size with_next];
      try specialize (Hz' z eq_refl); try specialize (Hn' n eq_refl);
      naive_solver.
  - pose proof (wf_around _ _ _ _ Hwf) as [Hz _].
    assert (∀ z, last l1 = Some z →
              pair_wf (heap (merge_prev_result block st)) z p) as Hz'.
    { intros z Hlz. destruct (Hz z Hlz) as (Hzin & _ & [Hz1 Hz2]).
      assert (z ∈ l1 ++ l2) as Ha' by (apply elem_of_app; by left).
      destruct (Hother z Ha') as ((_ & Hs & Hr & _) & _).
      unfold pair_wf. rewrite Hs, Hr, Hblk. done. }
    assert (∀ n, head l2 = Some n →
              pair_wf (heap (merge_prev_result block st)) p n)
      as Hn'.
    { intros n Hln.
      pose proof Hwf as Hwf'. rewrite app_cons_assoc in Hwf'.
      destruct (wf_around _ _ _ _ Hwf') as [_ Hn].
      destruct (Hn n Hln) as (Hnin & _ & [Hn1 Hn2]).
      assert (n ∈ l1 ++ l2) as Ha' by (apply elem_of_app; by right).
      destruct (Hother n Ha') as ((_ & Hs & Hr & _) & _).
      unfold pair_wf. rewrite Hr, !Hblk. cbn.
      change (region_id (cur (heap st) p))
        with (fld region_id (heap st) p).
      split; [lia|]. intros Heq'. rewrite Hsame in Heq'.
      specialize (Hn2 Heq'). lia. }
    destruct (last l1) as [z|]; destruct (head l2) as [n|];
      rewrite ?option_list_Some, ?option_list_None;
      cbn [app adjacent default];
      try specialize (Hz' z eq_refl); try specialize (Hn' n eq_refl);
      naive_solver.
  - intros -> a [= <-]. rewrite Hblk. apply Hpprev.
  - intros -> a. rewrite last_app. cbn. intros [= <-].
    rewrite Hblk. apply Hnext.
  - unfold merge_prev_result. cbn [g_head]. rewrite (wf_head _ _ Hwf).
    by rewrite !head_app_option.
  - unfold merge_prev_result. cbn [g_tail]. rewrite Hprev.
    pose proof Hwf as Hwf'. rewrite app_cons_assoc in Hwf'.
    pose proof (wf_is_tail _ _ _ _ Hwf') as Htl.
    case_decide as Ht.
    + apply Htl in Ht as ->. by rewrite last_app.
    + rewrite (wf_tail _ _ Hwf). rewrite !last_app.
      destruct (last l2) eqn:E.
      * by rewrite !last_cons, E.
      * apply last_None in E. by apply Htl in E.
  - intros x y Hx Hy Hxy.
    apply list_elem_of_singleton in Hx as ->.
    assert (y ∈ l1 ++ l2) as Hy'.
    { rewrite !elem_of_app, !elem_of_cons, elem_of_nil in Hy.
      rewrite elem_of_app. naive_solver. }
    destruct (Hel y Hy') as (? & ? & ? & Hok).
    destruct (Hother y Hy') as ((_ & Hs & _) & _).
    assert (disjoint (heap st) p y) as Hd1.
    { apply (wf_disjoint _ _ Hwf); [apply elem_of_mid| |done].
      by apply (elem_of_outer _ _ [p; block]). }
    assert (disjoint (heap st) block y) as Hd2.
    { apply (wf_disjoint _ _ Hwf); [| |done].
      - apply elem_of_app. right. right. left.
      - by apply (elem_of_outer _ _ [p; block]). }
    pose proof (bo_size _ _ Hok).
    unfold disjoint in *. rewrite Hs, Hblk. cbn.
    change (size (cur (heap st) p)) with (fld size (heap st) p).
    lia.
Qed.

(** ** A block alone in its region leaves the list *)

(** What the [if]/[else if] chain tests, on a well-formed list: no
    neighbour of the block's region on either side. *)
Definition alone (st : state) (block : Z) : bool :=
  let h := heap st in
  let p := fld prev h block in
  let n := fld next h block in
  (negb (nonnull n)
   || negb (bool_decide (fld region_id h n = fld region_id h block))) &&
  (negb (nonnull p)
   || negb (bool_decide (fld region_id h p = fld region_id h block))).

Definition unlink_result (block : Z) (st : state) : state :=
  let h := heap st in
  let p := fld prev h block in
  let n := fld next h block in
  let h1 := if decide (p = NULL) then h else <[p := with_next n (cur h p)]> h in
  let h2 := if decide (n = NULL) then h1
            else <[n := with_prev p (cur h n)]> h1 in
  let h3 := <[block :=
                with_prev (if decide (n = NULL) then NULL else p)
                  (with_next (if decide (p = NULL) then NULL else n)
                     (cur h block))]> h2 in
  State h3 (mapped st)
        (if decide (p = NULL) then n else g_head st)
        (if decide (n = NULL) then p else g_tail st)
        (g_allocations st) (g_regions st) (g_splits st) (trace st).

Definition unmap_result (block : Z) (ok : bool) (st : state) : state :=
  let sz := fld size (heap st) block in
  if ok then
    set_heap (filter (λ kv, in_range block sz kv.1 = false) (heap st))
      (set_mapped (λ x, negb (in_range block sz x) && mapped st x) st)
  else emit (Perror "munmap") st.

Global Arguments unlink_result : simpl never.
Global Arguments unmap_result : simpl never.

Lemma unmap_or_report_effect block ok st :
  block ≠ NULL → is_Some (heap st !! block) →
  unmap_or_report block ok st =
  Done (if ok then block else NULL, unmap_result block ok st).
Proof.
  intros Hb Hs. unfold unmap_or_report, unmap_result.
  rewrite bind_load by done. unfold munmap.
  destruct ok; unfold mbind, M_bind; cbn beta iota.
  - by rewrite decide_False by done.
  - by rewrite decide_True by done.
Qed.

Lemma with_links_id b p n :
  prev b = p → next b = n → with_prev p (with_next n b) = b.
Proof. intros <- <-. by destruct b. Qed.

Lemma with_prev_id b p : prev b = p → with_prev p b = b.
Proof. intros <-. by destruct b. Qed.

Lemma with_next_id b n : next b = n → with_next n b = b.
Proof. intros <-. by destruct b. Qed.

Lemma insert_cur_id (h : gmap Z mem_block) a b :
  is_Some (h !! a) → b = cur h a → <[a := b]> h = h.
Proof.
  intros [x Hx] ->. apply insert_id. unfold cur. by rewrite Hx.
Qed.

Lemma unmap_if_alone_effect l1 block l2 ok st :
  wf (l1 ++ block :: l2) st →
  unmap_if_alone block ok st =
  Done (if alone st block
        then (if ok then block else NULL,
              unmap_result block ok (unlink_result block st))
        else (block, st)).
Proof.
  intros Hwf.
  pose proof (wf_block_ok _ _ _ _ Hwf) as [Hhdr Hpos Hsize Htop Hmap Hreg].
  pose proof (wf_nonnull _ _ _ _ Hwf) as Hnn.
  pose proof (wf_prev _ _ _ _ Hwf) as Hprev.
  pose proof (wf_next _ _ _ _ Hwf) as Hnext.
  pose proof (wf_is_tail _ _ _ _ Hwf) as Htl.
  pose proof (wf_is_head _ _ _ _ Hwf) as Hhd.
  unfold unmap_if_alone, alone, unlink_result.
  destruct l1 as [|p l1 _] using rev_ind; destruct l2 as [|n l2].
  - (* the only block *)
    simpl in Hprev, Hnext. rewrite Hprev, Hnext.
    destruct Htl as [_ Htl]. destruct Hhd as [_ Hhd].
    specialize (Htl eq_refl). specialize (Hhd eq_refl).
    open_state st. subst hd tl.
    do 2 step. rewrite !bool_decide_eq_true_2 by done. cbn [andb].
    do 2 step. rewrite unmap_or_report_effect by done.
    cbn [nonnull NULL Z.eqb negb orb andb]. rewrite !decide_True by done.
    rewrite (insert_cur_id h block); [done|done|].
    by rewrite with_links_id.
  - (* head of the list, with a successor *)
    simpl in Hprev, Hnext.
    pose proof (wf_second _ _ _ _ _ Hwf)
      as (Hn0 & Hnb & Hns & _ & _ & _ & _ & _).
    destruct Hhd as [_ Hhd]. specialize (Hhd eq_refl).
    assert (block ≠ g_tail st) as Hnt by (intros ?; by apply Htl in H).
    open_state st. subst hd.
    do 2 step. rewrite bool_decide_eq_true_2 by done.
    rewrite (bool_decide_eq_false_2 (block = tl)) by done. cbn [andb].
    unfold andM.
    steps_with ltac:(first [rewrite Hprev | rewrite Hnext]).
    case_bool_decide as Hr; cbn [negb andb orb].
    + steps_with ltac:(first [rewrite Hprev | rewrite Hnext]).
      by last_step.
    + steps_with ltac:(first [rewrite Hprev | rewrite Hnext]).
      rewrite unmap_or_report_effect by (first [solve_ne | solve_some]).
      resolve_decides.
      by rewrite (with_prev_id (with_next NULL (cur h block)) NULL)
        by exact Hprev.
  - (* tail of the list, with a predecessor *)
    rewrite last_snoc in Hprev. simpl in Hprev, Hnext.
    rewrite <-app_assoc in Hwf. simpl in Hwf.
    pose proof (wf_second _ _ _ _ _ Hwf)
      as (_ & Hpb & _ & _ & _ & _ & _ & _).
    pose proof (wf_block_ok _ _ _ _ Hwf) as [Hphdr _ _ _ _ _].
    pose proof (wf_nonnull _ _ _ _ Hwf) as Hp0.
    destruct Htl as [_ Htl]. specialize (Htl eq_refl).
    assert (block ≠ g_head st) as Hnh.
    { intros ?. apply Hhd in H. by destruct l1. }
    open_state st. subst tl.
    do 2 step. rewrite (bool_decide_eq_false_2 (block = hd)) by done.
    cbn [andb].
    unfold andM.
    steps_with ltac:(first [rewrite Hprev | rewrite Hnext]).
    case_bool_decide as Hr; cbn [negb andb orb].
    + steps_with ltac:(first [rewrite Hprev | rewrite Hnext]).
      by last_step.
    + steps_with ltac:(first [rewrite Hprev | rewrite Hnext]).
      rewrite unmap_or_report_effect by (first [solve_ne | solve_some]).
      resolve_decides.
      rewrite (with_next_id (cur h block) NULL) by exact Hnext.
      close_states.
  - (* neighbours on both sides *)
    rewrite last_snoc in Hprev. simpl in Hprev, Hnext.
    pose proof (wf_second _ _ _ _ _ Hwf)
      as (Hn0 & Hnb & Hns & _ & _ & _ & _ & _).
    assert (block ≠ g_tail st) as Hnt by (intros ?; by apply Htl in H).
    assert (block ≠ g_head st) as Hnh.
    { intros ?. apply Hhd in H. by destruct l1. }
    rewrite <-app_assoc in Hwf. simpl in Hwf.
    pose proof (wf_second _ _ _ _ _ Hwf)
      as (_ & Hpb & _ & _ & _ & _ & _ & _).
    pose proof (wf_block_ok _ _ _ _ Hwf) as [Hphdr _ _ _ _ _].
    pose proof (wf_nonnull _ _ _ _ Hwf) as Hp0.
    assert (n ≠ p) as Hnp.
    { intros ->. pose proof (wf_nodup _ _ Hwf) as Hnd.
      apply NoDup_app in Hnd as (_ & _ & Hnd).
      apply NoDup_cons in Hnd as [Hnd _]. apply Hnd. right. left. }
    open_state st.
    do 2 step. rewrite (bool_decide_eq_false_2 (block = hd)) by done.
    cbn [andb]. unfold andM.
    steps_with ltac:(first [rewrite Hprev | rewrite Hnext]).
    case_bool_decide as Hr; cbn [negb andb orb].
    { steps_with ltac:(first [rewrite Hprev | rewrite Hnext]).
      by last_step. }
    steps_with ltac:(first [rewrite Hprev | rewrite Hnext]).
    case_bool_decide as Hr'; cbn [negb andb orb].
    { steps_with ltac:(first [rewrite Hprev | rewrite Hnext]).
      by last_step. }
    steps_with ltac:(first [rewrite Hprev | rewrite Hnext]).
    rewrite unmap_or_report_effect by (first [solve_ne | solve_some]).
    resolve_decides.
    rewrite (with_next_id (cur h block) n) by exact Hnext.
    rewrite (with_prev_id (cur h block) p) by exact Hprev.
    rewrite (insert_cur_id _ block); [done| |].
    + rewrite !lookup_insert_is_Some'. auto.
    + by rewrite !cur_insert_ne by done.
Qed.

Lemma unmap_result_lookup block ok st a :
  in_range block (fld size (heap st) block) a = false →
  heap (unmap_result block ok st) !! a = heap st !! a.
Proof.
  intros Hr. unfold unmap_result. destruct ok; [|done]. cbn [heap set_heap].
  destruct (heap st !! a) as [b|] eqn:E.
  - by apply map_lookup_filter_Some.
  - apply map_lookup_filter_None. left. done.
Qed.

Lemma unmap_result_fld {A} (f : mem_block → A) block ok st a :
  in_range block (fld size (heap st) block) a = false →
  fld f (heap (unmap_result block ok st)) a = fld f (heap st) a.
Proof. intros. unfold fld, cur. by rewrite unmap_result_lookup. Qed.

Lemma unmap_result_mapped block ok st x :
  in_range block (fld size (heap st) block) x = false →
  mapped (unmap_result block ok st) x = mapped st x.
Proof.
  intros Hr. unfold unmap_result. destruct ok; [|done].
  cbn [mapped set_heap set_mapped]. by rewrite Hr.
Qed.

Lemma unmap_result_globals block ok st :
  g_head (unmap_result block ok st) = g_head st ∧
  g_tail (unmap_result block ok st) = g_tail st ∧
  g_regions (unmap_result block ok st) = g_regions st ∧
  g_allocations (unmap_result block ok st) = g_allocations st ∧
  g_splits (unmap_result block ok st) = g_splits st.
Proof. unfold unmap_result. by destruct ok. Qed.

Lemma unlink_result_other block st a :
  a ≠ block → is_Some (heap st !! a) →
  same_attrs (heap st) (heap (unlink_result block st)) a ∧
  (a ≠ fld prev (heap st) block →
   fld next (heap (unlink_result block st)) a = fld next (heap st) a) ∧
  (a ≠ fld next (heap st) block →
   fld prev (heap (unlink_result block st)) a = fld prev (heap st) a).
Proof.
  intros Hb Hs. unfold unlink_result, same_attrs. cbn [heap].
  destruct (decide (fld prev (heap st) block = NULL)) as [Hp|Hp];
    destruct (decide (fld next (heap st) block = NULL)) as [Hn|Hn];
    destruct (decide (fld prev (heap st) block = a)) as [Hpa|Hpa];
    destruct (decide (fld next (heap st) block = a)) as [Hna|Hna];
    try (rewrite <-Hpa in * ); try (rewrite <-Hna in * );
    fsimpl; rewrite !lookup_insert_is_Some'; split_and!; auto 10; done.
Qed.

Lemma unlink_result_size block st :
  is_Some (heap st !! block) →
  fld next (heap st) block ≠ block → fld prev (heap st) block ≠ block →
  fld size (heap (unlink_result block st)) block = fld size (heap st) block.
Proof.
  intros. unfold unlink_result. cbn [heap]. by fsimpl.
Qed.

Lemma unlink_result_p block st p :
  fld prev (heap st) block = p → p ≠ NULL → p ≠ block →
  p ≠ fld next (heap st) block →
  fld next (heap (unlink_result block st)) p = fld next (heap st) block.
Proof.
  intros Hp ???. unfold unlink_result. cbn [heap]. rewrite Hp.
  case_decide; resolve_decides; by fsimpl.
Qed.

Lemma unlink_result_n block st n :
  fld next (heap st) block = n → n ≠ NULL → n ≠ block →
  fld prev (heap (unlink_result block st)) n = fld prev (heap st) block.
Proof.
  intros Hn ??. unfold unlink_result. cbn [heap]. rewrite Hn.
  case_decide; resolve_decides; by fsimpl.
Qed.

Lemma in_range_false a len x :
  x < a ∨ a + len ≤ x → in_range a len x = false.
Proof. unfold in_range. intros. apply andb_false_iff. lia. Qed.

Lemma unlink_unmap_wf l1 block l2 ok st :
  wf (l1 ++ block :: l2) st → alone st block = true →
  wf (l1 ++ l2) (unmap_result block ok (unlink_result block st)).
Proof.
  intros Hwf Halone.
  pose proof (wf_block_ok _ _ _ _ Hwf) as [Hhdr Hpos Hsize Htop Hmap Hreg].
  pose proof (wf_nonnull _ _ _ _ Hwf) as Hnn.
  pose proof (wf_prev _ _ _ _ Hwf) as Hprev.
  pose proof (wf_next _ _ _ _ Hwf) as Hnext.
  pose proof (wf_around _ _ _ _ Hwf) as [Hz Hn].
  assert (∀ a, a ∈ l1 ++ l2 →
            a ≠ block ∧ a ≠ NULL ∧ block_ok st a ∧
            disjoint (heap st) block a) as Hel.
  { intros a Ha.
    destruct (wf_outer l1 [block] l2 st a Hwf Ha) as (Hm & ? & ?).
    assert (a ≠ block) by (intros ->; apply Hm; left).
    split_and!; try done.
    apply (wf_disjoint _ _ Hwf); [apply elem_of_mid| |done].
    by apply (elem_of_outer _ _ [block]). }
  assert (fld next (heap st) block ≠ block) as Hnb.
  { rewrite Hnext. destruct l2 as [|n l2]; [done|]. simpl.
    apply (Hel n). apply elem_of_app. right. left. }
  assert (fld prev (heap st) block ≠ block) as Hpb.
  { rewrite Hprev. destruct (last l1) as [p|] eqn:E; [|done]. simpl.
    apply (Hel p). apply elem_of_app. left.
    by apply last_Some_elem_of. }
  set (st1 := unlink_result block st).
  assert (fld size (heap st1) block = fld size (heap st) block) as Hsz1
    by (by apply unlink_result_size).
  assert (∀ a, a ∈ l1 ++ l2 →
            in_range block (fld size (heap st1) block) a = false) as Hout.
  { intros a Ha. destruct (Hel a Ha) as (? & ? & Hok & Hd).
    rewrite Hsz1. apply in_range_false. pose proof (bo_size _ _ Hok).
    unfold disjoint in Hd. lia. }
  assert (∀ a, a ∈ l1 ++ l2 →
    same_attrs (heap st) (heap (unmap_result block ok st1)) a ∧
    (a ≠ fld prev (heap st) block →
     fld next (heap (unmap_result block ok st1)) a = fld next (heap st) a) ∧
    (a ≠ fld next (heap st) block →
     fld prev (heap (unmap_result block ok st1)) a = fld prev (heap st) a))
    as Hother.
  { intros a Ha. destruct (Hel a Ha) as (? & ? & Hok & Hd).
    destruct (unlink_result_other block st a) as (Hsa & Hnx & Hpv);
      [done|apply Hok|].
    unfold same_attrs. rewrite !unmap_result_fld, unmap_result_lookup
      by (by apply Hout). done. }
  apply (wf_splice l1 [block] [] l2 st); try done.
  - intros a Ha. by apply Hother.
  - intros a Ha. apply Hother; [apply elem_of_app; by left|].
    rewrite Hnext. destruct l2 as [|n l2]; simpl.
    + apply Hel. apply elem_of_app. by left.
    + intros ->. pose proof (wf_nodup _ _ Hwf) as Hnd.
      apply NoDup_app in Hnd as (_ & Hnd & _). apply (Hnd n Ha).
      right. left.
  - intros a Ha Hl. apply Hother; [apply elem_of_app; by left|].
    rewrite Hprev. destruct (last l1); simpl; [congruence|].
    apply Hel. apply elem_of_app. by left.
  - intros a Ha. apply Hother; [apply elem_of_app; by right|].
    rewrite Hprev. destruct (last l1) as [p|] eqn:E; simpl.
    + intros ->. pose proof (wf_nodup _ _ Hwf) as Hnd.
      apply NoDup_app in Hnd as (_ & Hnd & _).
      apply (Hnd p); [by apply last_Some_elem_of|by right].
    + apply Hel. apply elem_of_app. by right.
  - intros a Ha Hh. apply Hother; [apply elem_of_app; by right|].
    rewrite Hnext. destruct l2; simpl in *; [|congruence].
    by apply elem_of_nil in Ha.
  - intros a x Ha Hx. destruct (Hel a Ha) as (? & ? & Hok & Hd).
    rewrite unmap_result_mapped; [by apply (bo_mapped _ _ Hok)|].
    rewrite Hsz1. apply in_range_false. unfold disjoint in Hd. lia.
  - destruct (unmap_result_globals block ok st1) as (_ & _ & -> & _). done.
  - constructor.
  - intros a Ha. by apply elem_of_nil in Ha.
  - assert (∀ z n, last l1 = Some z → head l2 = Some n →
              link (heap (unmap_result block ok st1)) z n) as Hzn.
    { intros z n Hlz Hln.
      destruct (Hz z Hlz) as (Hzin & [Hz1 Hz2] & _).
      destruct (Hn n Hln) as (Hnin & [Hn1 Hn2] & _).
      assert (z ∈ l1 ++ l2) as Hz' by (apply elem_of_app; by left).
      assert (n ∈ l1 ++ l2) as Hn' by (apply elem_of_app; by right).
      destruct (Hel z Hz') as (? & ? & _). destruct (Hel n Hn') as (? & ? & _).
      assert (z ≠ n).
      { intros ->. pose proof (wf_nodup _ _ Hwf) as Hnd.
        apply NoDup_app in Hnd as (_ & Hnd & _). apply (Hnd n Hzin).
        by right. }
      unfold link. rewrite !unmap_result_fld by (by apply Hout).
      subst st1. rewrite (unlink_result_p block st z),
        (unlink_result_n block st n); try done; congruence. }
    destruct (last l1) as [z|]; destruct (head l2) as [n|];
      rewrite ?option_list_Some, ?option_list_None;
      cbn [app adjacent default]; try done.
    split; [|done]. by apply Hzn.
  - assert (∀ z n, last l1 = Some z → head l2 = Some n →
              pair_wf (heap (unmap_result block ok st1)) z n) as Hzn.
    { intros z n Hlz Hln.
      destruct (Hz z Hlz) as (Hzin & [Hz1 Hz2] & [Hp1 _]).
      destruct (Hn n Hln) as (Hnin & [Hn1 Hn2] & [Hp2 _]).
      assert (z ∈ l1 ++ l2) as Hz' by (apply elem_of_app; by left).
      assert (n ∈ l1 ++ l2) as Hn' by (apply elem_of_app; by right).
      destruct (Hel z Hz') as (? & ? & _). destruct (Hel n Hn') as (? & ? & _).
      destruct (Hother z Hz') as ((_ & Hsz & Hrz & _) & _).
      destruct (Hother n Hn') as ((_ & Hsn & Hrn & _) & _).
      unfold pair_wf. rewrite Hsz, Hrz, Hrn.
      unfold alone in Halone. rewrite Hz2, Hn1 in Halone.
      rewrite !nonnull_true in Halone by done. cbn [negb orb] in Halone.
      apply andb_true_iff in Halone as [Ha1 Ha2].
      apply negb_true_iff, bool_decide_eq_false in Ha1.
      apply negb_true_iff, bool_decide_eq_false in Ha2.
      split; lia. }
    destruct (last l1) as [z|]; destruct (head l2) as [n|];
      rewrite ?option_list_Some, ?option_list_None;
      cbn [app adjacent default]; try done.
    split; [|done]. by apply Hzn.
  - intros -> a Ha. simpl in Ha, Hprev.
    destruct (Hn a Ha) as (Hnin & [Hn1 Hn2] & _).
    assert (a ∈ [] ++ l2) as Ha' by done.
    destruct (Hel a Ha') as (? & ? & _).
    rewrite unmap_result_fld by (by apply Hout).
    subst st1. rewrite (unlink_result_n block st a); done.
  - intros -> a Ha. rewrite app_nil_r in Ha. simpl in Hnext.
    destruct (Hz a Ha) as (Hzin & [Hz1 Hz2] & _).
    assert (a ∈ l1 ++ []) as Ha' by (by rewrite app_nil_r).
    destruct (Hel a Ha') as (? & ? & _).
    rewrite unmap_result_fld by (by apply Hout).
    subst st1. rewrite (unlink_result_p block st a); try done; congruence.
  - destruct (unmap_result_globals block ok st1) as (-> & _).
    subst st1. unfold unlink_result. cbn [g_head]. rewrite Hprev, Hnext.
    rewrite (wf_head _ _ Hwf). cbn [app].
    destruct (last l1) as [z|] eqn:E; cbn [default].
    + destruct (Hz z eq_refl) as (Hzin & _).
      rewrite decide_False.
      * destruct l1; [by apply elem_of_nil in Hzin|done].
      * apply (Hel z). apply elem_of_app. by left.
    + apply last_None in E as ->. by rewrite decide_True by done.
  - destruct (unmap_result_globals block ok st1) as (_ & -> & _).
    subst st1. unfold unlink_result. cbn [g_tail]. rewrite Hprev, Hnext.
    rewrite (wf_tail _ _ Hwf). cbn [app].
    destruct (head l2) as [n|] eqn:E; cbn [default].
    + destruct (Hn n eq_refl) as (Hnin & _).
      rewrite decide_False.
      * rewrite !last_app. destruct l2 as [|? l2]; [done|].
        injection E as ->. rewrite last_cons_cons.
        destruct (last (n :: l2)) eqn:E2; [done|].
        by apply last_None in E2.
      * apply (Hel n). apply elem_of_app. by right.
    + apply head_None in E as ->. rewrite decide_True by done.
      by rewrite app_nil_r.
  - intros x y Hx. by apply elem_of_nil in Hx.
Qed.

(** * Free neighbours and address order *)

(** The rest of the invariant, again a property of neighbours: two
    neighbours of one region are not both free (unless [E] exempts the
    pair, in the middle of a release), and, when every region so far was
    mapped above the blocks tracked at that time ([up]), addresses
    increase along the list. *)
Definition pair_ex (up : bool) (E : Z → Z → Prop)
    (h : gmap Z mem_block) (x y : Z) : Prop :=
  (E x y ∨ pair_nf h x y) ∧ (up = true → x + fld size h x ≤ y).

Definition extra (up : bool) (E : Z → Z → Prop)
    (h : gmap Z mem_block) (l : list Z) : Prop :=
  adjacent (pair_ex up E h) l.

Definition touching (b : Z) : Z → Z → Prop := λ x y, x = b ∨ y = b.
Definition before (b : Z) : Z → Z → Prop := λ x y, y = b.

Lemma pair_ex_frame up E E' h h' x y :
  pair_ex up E h x y → same_attrs h h' x → same_attrs h h' y →
  (E x y → E' x y) → pair_ex up E' h' x y.
Proof.
  intros [Hnf Hup] Hx Hy HE. split.
  - destruct Hnf as [?|Hnf]; [left; auto|right].
    by eapply pair_nf_frame.
  - destruct Hx as (_ & -> & _). done.
Qed.

Lemma extra_splice up E E' l1 mid mid' l2 h h' :
  extra up E h (l1 ++ mid ++ l2) →
  (∀ a, a ∈ l1 ++ l2 → same_attrs h h' a) →
  (∀ x y, x ∈ l1 ++ l2 → y ∈ l1 ++ l2 → E x y → E' x y) →
  extra up E' h' (option_list (last l1) ++ mid' ++ option_list (head l2)) →
  extra up E' h' (l1 ++ mid' ++ l2).
Proof.
  unfold extra. intros He Hattr HE Hmid.
  apply adjacent_splice in He as (H1 & H2 & _).
  apply adjacent_splice. split_and!; [| |done].
  - eapply (adjacent_impl (pair_ex up E h)); [|done]. intros x y Hx Hy Hp.
    assert (x ∈ l1 ++ l2) by (apply elem_of_app; by left).
    assert (y ∈ l1 ++ l2) by (apply elem_of_app; by left).
    eapply pair_ex_frame; eauto.
  - eapply (adjacent_impl (pair_ex up E h)); [|done]. intros x y Hx Hy Hp.
    assert (x ∈ l1 ++ l2) by (apply elem_of_app; by right).
    assert (y ∈ l1 ++ l2) by (apply elem_of_app; by right).
    eapply pair_ex_frame; eauto.
Qed.

Lemma extra_around up E h l1 a l2 :
  extra up E h (l1 ++ a :: l2) →
  (∀ z, last l1 = Some z → pair_ex up E h z a) ∧
  (∀ n, head l2 = Some n → pair_ex up E h a n).
Proof. unfold extra. intros H. apply adjacent_mid in H. naive_solver. Qed.

(** ** Headers that keep their shape *)

Definition same_shape (h h' : gmap Z mem_block) : Prop :=
  ∀ a, (is_Some (h !! a) → is_Some (h' !! a)) ∧
       fld size h' a = fld size h a ∧
       fld region_id h' a = fld region_id h a ∧
       fld next h' a = fld next h a ∧
       fld prev h' a = fld prev h a.

Lemma wf_shape l st st' :
  wf l st → same_shape (heap st) (heap st') →
  mapped st' = mapped st → g_head st' = g_head st → g_tail st' = g_tail st →
  g_regions st' = g_regions st →
  wf l st'.
Proof.
  intros [Hnd Hok Hlink Hfirst Hlast Hhead Htail Hpair Hdisj Hrg0] Hsh Hm Hh Ht Hr.
  split; try done.
  - eapply Forall_impl; [done|]. intros a [H1 H2 H3 H4 H5 H6].
    destruct (Hsh a) as (Hs & Hsz & Hrg & _).
    split; rewrite ?Hsz, ?Hrg, ?Hm, ?Hr; auto.
  - eapply (adjacent_impl (link (heap st))); [|done]. intros x y _ _ [H1 H2].
    destruct (Hsh x) as (_ & _ & _ & Hn & _).
    destruct (Hsh y) as (_ & _ & _ & _ & Hp). split; congruence.
  - intros a Ha. destruct (Hsh a) as (_ & _ & _ & _ & ->). auto.
  - intros a Ha. destruct (Hsh a) as (_ & _ & _ & -> & _). auto.
  - congruence.
  - congruence.
  - eapply (adjacent_impl (pair_wf (heap st))); [|done].
    intros x y _ _ [H1 H2].
    destruct (Hsh x) as (_ & Hsx & Hrx & _).
    destruct (Hsh y) as (_ & _ & Hry & _).
    unfold pair_wf. by rewrite Hsx, Hrx, Hry.
  - intros x y Hx Hy Hne. specialize (Hdisj x y Hx Hy Hne).
    destruct (Hsh x) as (_ & Hsx & _). destruct (Hsh y) as (_ & Hsy & _).
    unfold disjoint. by rewrite Hsx, Hsy.
  - congruence.
Qed.

(** ** Setting the free flag *)

Definition mark (v : bool) (block : Z) (st : state) : state :=
  set_heap (<[block := with_free v (cur (heap st) block)]> (heap st)) st.

Global Arguments mark : simpl never.

Lemma mark_shape v block st : same_shape (heap st) (heap (mark v block st)).
Proof.
  intros a. unfold mark. cbn [heap set_heap].
  rewrite lookup_insert_is_Some', !fld_insert.
  case_decide; subst; split_and!; auto.
Qed.

Lemma mark_wf v block l st : wf l st → wf l (mark v block st).
Proof. intros. eapply wf_shape; [done|apply mark_shape|done..]. Qed.

Lemma mark_free v block st : fld free (heap (mark v block st)) block = v.
Proof. unfold mark. cbn [heap set_heap]. by rewrite fld_insert_eq. Qed.

Lemma mark_attrs v block st a :
  a ≠ block → is_Some (heap st !! a) →
  same_attrs (heap st) (heap (mark v block st)) a.
Proof.
  intros. unfold mark. cbn [heap set_heap]. by apply same_attrs_insert_ne.
Qed.

Lemma mark_fld {A} (f : mem_block → A) v block st a :
  (∀ b, f (with_free v b) = f b) →
  fld f (heap (mark v block st)) a = fld f (heap st) a.
Proof.
  intros Hf. unfold mark. cbn [heap set_heap]. rewrite fld_insert.
  case_decide; subst; [apply Hf|done].
Qed.

Lemma store_free_effect v block st :
  block ≠ NULL → is_Some (heap st !! block) →
  store block (with_free v) st = Done (tt, mark v block st).
Proof. intros. rewrite store_ok; [done|]. by apply writable_header. Qed.

Lemma mark_extra_free up block st l :
  extra up never (heap st) l →
  extra up (touching block) (heap (mark true block st)) l.
Proof.
  unfold extra. apply adjacent_impl. intros x y _ _ [Hnf Hup]. split.
  - destruct (decide (x = block)) as [->|Hx]; [left; by left|].
    destruct (decide (y = block)) as [->|Hy]; [left; by right|].
    right. destruct Hnf as [[]|Hnf]. unfold pair_nf in *.
    rewrite !(mark_fld region_id) by done.
    unfold mark. cbn [heap set_heap]. by rewrite !fld_insert_ne by done.
  - by rewrite (mark_fld size) by done.
Qed.

Lemma mark_extra_used up block st l :
  extra up (touching block) (heap st) l →
  extra up never (heap (mark false block st)) l.
Proof.
  unfold extra. apply adjacent_impl. intros x y _ _ [Hnf Hup]. split.
  - right. unfold pair_nf. rewrite !(mark_fld region_id) by done.
    intros Hr [Hfx Hfy].
    destruct (decide (x = block)) as [->|Hx];
      [by rewrite mark_free in Hfx|].
    destruct (decide (y = block)) as [->|Hy];
      [by rewrite mark_free in Hfy|].
    destruct Hnf as [[?|?]|Hnf]; [done..|]. apply (Hnf Hr).
    unfold mark in Hfx, Hfy. cbn [heap set_heap] in Hfx, Hfy.
    by rewrite !fld_insert_ne in Hfx, Hfy by done.
  - by rewrite (mark_fld size) by done.
Qed.

(** ** The neighbour rules through a split *)

Lemma split_outer_attrs l1 block l2 st sz a :
  wf (l1 ++ block :: l2) st →
  104 ≤ sz → sz + 104 ≤ fld size (heap st) block →
  a ∈ l1 ++ l2 →
  same_attrs (heap st) (heap (split_result block sz st)) a.
Proof.
  intros Hwf Hsz Hrm Ha.
  pose proof (wf_block_ok _ _ _ _ Hwf) as [Hhdr Hpos Hsize Htop Hmap Hreg].
  destruct (wf_outer l1 [block] l2 st a Hwf Ha) as (Hm & ? & Hok).
  assert (a ∈ l1 ++ block :: l2) as Ha' by (by apply (elem_of_outer _ _ [block])).
  apply split_result_other; [| |apply Hok].
  - intros ->. apply Hm. left.
  - intros ->. eapply wf_fresh_inside; [done|apply elem_of_mid| |done]. lia.
Qed.

Lemma split_extra up l1 block l2 st sz :
  wf (l1 ++ block :: l2) st →
  104 ≤ sz → sz + 104 ≤ fld size (heap st) block →
  fld free (heap st) block = true →
  extra up never (heap st) (l1 ++ block :: l2) →
  extra up (touching block) (heap (split_result block sz st))
        (l1 ++ block :: (block + sz) :: l2).
Proof.
  intros Hwf Hsz Hrm Hfree Hex.
  assert (block ≠ block + sz) as Hne by lia.
  destruct (extra_around _ _ _ _ _ _ Hex) as [Hz Hn].
  apply (extra_splice up never (touching block) l1 [block]
           [block; block + sz] l2 (heap st)); [done| |done|].
  { intros a Ha. by eapply split_outer_attrs. }
  assert (∀ z, last l1 = Some z →
            pair_ex up (touching block) (heap (split_result block sz st))
                    z block) as Hz'.
  { intros z Hlz. destruct (Hz z Hlz) as [_ Hup]. split; [left; by right|].
    assert (z ∈ l1 ++ l2) as Hzin.
    { apply elem_of_app. left. by apply last_Some_elem_of. }
    destruct (split_outer_attrs l1 block l2 st sz z) as (_ & -> & _); done. }
  assert (∀ n, head l2 = Some n →
            pair_ex up (touching block) (heap (split_result block sz st))
                    (block + sz) n) as Hn'.
  { intros n Hln. destruct (Hn n Hln) as [[[]|Hnf] Hup].
    assert (n ∈ l1 ++ l2) as Hnin.
    { apply elem_of_app. right. apply head_Some in Hln as [? ->]. left. }
    destruct (split_outer_attrs l1 block l2 st sz n)
      as (_ & _ & Hr & Hf); [done..|].
    split.
    - right. unfold pair_nf in *. rewrite Hr, Hf.
      rewrite !split_result_new by done. cbn.
      intros Hreq [_ Hfn]. apply (Hnf Hreq). done.
    - rewrite split_result_new by done. cbn. intros Hu. specialize (Hup Hu).
      lia. }
  assert (pair_ex up (touching block) (heap (split_result block sz st))
                  block (block + sz)) as Hmid.
  { split; [left; by left|]. rewrite split_result_block. cbn. lia. }
  unfold extra.
  destruct (last l1) as [z|]; destruct (head l2) as [n|];
    rewrite ?option_list_Some, ?option_list_None;
    cbn [app adjacent default];
    try specialize (Hz' z eq_refl); try specialize (Hn' n eq_refl);
    naive_solver.
Qed.

(** ** ... through the two merges *)

Lemma merge_next_outer_attrs l1 block n l2 st a :
  wf (l1 ++ block :: n :: l2) st → a ∈ l1 ++ l2 →
  same_attrs (heap st) (heap (merge_next_result block st)) a.
Proof.
  intros Hwf Ha.
  pose proof (wf_second _ _ _ _ _ Hwf) as (_ & _ & _ & Hnext & _).
  destruct (wf_outer l1 [block; n] l2 st a Hwf Ha) as (Hm & ? & Hok).
  apply merge_next_result_other; [| |apply Hok].
  - intros ->. apply Hm. left.
  - rewrite Hnext. intros ->. apply Hm. right. left.
Qed.

Lemma merge_next_extra up l1 block n l2 st :
  wf (l1 ++ block :: n :: l2) st →
  fld region_id (heap st) n = fld region_id (heap st) block →
  fld free (heap st) n = true →
  extra up (touching block) (heap st) (l1 ++ block :: n :: l2) →
  extra up (before block) (heap (merge_next_result block st))
        (l1 ++ block :: l2).
Proof.
  intros Hwf Hsame Hfree Hex.
  pose proof (wf_second _ _ _ _ _ Hwf)
    as (Hn0 & Hnb & Hns & Hnext & Hnp & Hnn' & [Hr1 Hr2] & Hnok).
  symmetry in Hsame. specialize (Hr2 Hsame).
  assert (∀ {A} (f : mem_block → A),
    fld f (heap (merge_next_result block st)) block =
    f (with_next (fld next (heap st) n)
         (with_size (fld size (heap st) block + fld size (heap st) n)
            (cur (heap st) block)))) as Hblk.
  { intros A f. rewrite merge_next_result_block; rewrite Hnext; [done..|].
    rewrite Hnn'. destruct l2 as [|nn l2];
      [apply not_eq_sym, (wf_nonnull _ _ _ _ Hwf)|].
    simpl. intros ->. pose proof (wf_nodup _ _ Hwf) as Hnd.
    apply NoDup_app in Hnd as (_ & _ & Hnd).
    apply NoDup_cons in Hnd as [Hnd _]. apply Hnd. right. left. }
  destruct (extra_around _ _ _ _ _ _ Hex) as [Hz _].
  pose proof Hex as Hex'. rewrite app_cons_assoc in Hex'.
  destruct (extra_around _ _ _ _ _ _ Hex') as [_ Hn].
  apply (extra_splice up (touching block) (before block) l1 [block; n]
           [block] l2 (heap st)); [done| | |].
  { intros a Ha. by eapply merge_next_outer_attrs. }
  { intros x y Hx Hy [->| ->]; [|done].
    destruct (wf_outer l1 [block; n] l2 st block Hwf Hx) as (Hm & _).
    destruct Hm. left. }
  assert (∀ z, last l1 = Some z →
            pair_ex up (before block) (heap (merge_next_result block st))
                    z block) as Hz'.
  { intros z Hlz. destruct (Hz z Hlz) as [_ Hup]. split; [by left|].
    assert (z ∈ l1 ++ l2) as Hzin.
    { apply elem_of_app. left. by apply last_Some_elem_of. }
    destruct (merge_next_outer_attrs l1 block n l2 st z) as (_ & -> & _);
      done. }
  assert (∀ nn, head l2 = Some nn →
            pair_ex up (before block) (heap (merge_next_result block st))
                    block nn) as Hn'.
  { intros nn Hln. destruct (Hn nn Hln) as [Hnf Hup].
    assert (nn ∈ l1 ++ l2) as Hnin.
    { apply elem_of_app. right. apply head_Some in Hln as [? ->]. left. }
    destruct (merge_next_outer_attrs l1 block n l2 st nn)
      as (_ & _ & Hr & Hf); [done..|].
    assert (nn ≠ block) as Hnnb.
    { intros ->. destruct (wf_outer l1 [block; n] l2 st block Hwf Hnin)
        as (Hm & _). apply Hm. left. }
    split.
    - right. destruct Hnf as [[?|?]|Hnf]; [done..|].
      unfold pair_nf in *. rewrite Hr, Hf, !Hblk. cbn.
      change (region_id (cur (heap st) block))
        with (fld region_id (heap st) block).
      intros Hreq [_ Hfn]. apply Hnf; [congruence|done].
    - rewrite Hblk. cbn.
      change (size (cur (heap st) block)) with (fld size (heap st) block).
      intros Hu. specialize (Hup Hu). lia. }
  unfold extra.
  destruct (last l1) as [z|]; destruct (head l2) as [nn|];
    rewrite ?option_list_Some, ?option_list_None;
    cbn [app adjacent default];
    try specialize (Hz' z eq_refl); try specialize (Hn' nn eq_refl);
    naive_solver.
Qed.

(** Without a merge the successor is in use or of another region. *)
Lemma merge_next_skip_extra up l1 block l2 st :
  wf (l1 ++ block :: l2) st →
  absorbs_next st block = false →
  extra up (touching block) (heap st) (l1 ++ block :: l2) →
  extra up (before block) (heap st) (l1 ++ block :: l2).
Proof.
  intros Hwf Habs Hex.
  pose proof (wf_next _ _ _ _ Hwf) as Hnext.
  unfold extra in *. apply adjacent_mid in Hex as (H1 & H2 & Hz & Hn).
  apply adjacent_mid. split_and!.
  - eapply adjacent_impl; [|done]. intros x y Hx Hy [[[->| ->]|Hnf] Hup].
    + by destruct (wf_not_in_l1 _ _ _ _ Hwf).
    + split; [by left|done].
    + split; [by right|done].
  - eapply adjacent_impl; [|done]. intros x y Hx Hy [[[->| ->]|Hnf] Hup].
    + by destruct (wf_not_in_l2 _ _ _ _ Hwf).
    + split; [by left|done].
    + split; [by right|done].
  - intros z Hlz. destruct (Hz z Hlz) as [_ Hup]. split; [by left|done].
  - intros n Hln. destruct (Hn n Hln) as [_ Hup]. split; [|done].
    right. unfold absorbs_next in Habs. rewrite Hnext, Hln in Habs.
    simpl in Habs.
    destruct (wf_head_elem _ _ _ _ n Hwf Hln) as (Hn0 & _).
    rewrite (nonnull_true n) in Habs by done. simpl in Habs.
    intros Hreq [_ Hfn]. rewrite Hfn in Habs. simpl in Habs.
    apply bool_decide_eq_false in Habs. congruence.
Qed.

Lemma merge_prev_outer_attrs l1 p block l2 st a :
  wf (l1 ++ p :: block :: l2) st → a ∈ l1 ++ l2 →
  same_attrs (heap st) (heap (merge_prev_result block st)) a.
Proof.
  intros Hwf Ha.
  pose proof (wf_second _ _ _ _ _ Hwf) as (_ & _ & _ & _ & Hprev & _).
  destruct (wf_outer l1 [p; block] l2 st a Hwf Ha) as (Hm & ? & Hok).
  apply merge_prev_result_other; [| |apply Hok].
  - rewrite Hprev. intros ->. apply Hm. left.
  - intros ->. apply Hm. right. left.
Qed.

Lemma merge_prev_extra up l1 p block l2 st :
  wf (l1 ++ p :: block :: l2) st →
  fld region_id (heap st) p = fld region_id (heap st) block →
  fld free (heap st) block = true →
  extra up (before block) (heap st) (l1 ++ p :: block :: l2) →
  extra up never (heap (merge_prev_result block st)) (l1 ++ p :: l2).
Proof.
  intros Hwf Hsame Hfree Hex.
  pose proof (wf_second _ _ _ _ _ Hwf)
    as (Hb0 & Hbp & Hbs & Hpnext & Hprev & Hnext & [Hr1 Hr2] & Hbok).
  specialize (Hr2 Hsame).
  assert (fld next (heap st) block ≠ p) as Hnp.
  { rewrite Hnext. destruct l2 as [|n l2];
      [apply not_eq_sym, (wf_nonnull _ _ _ _ Hwf)|].
    simpl. intros ->. pose proof (wf_nodup _ _ Hwf) as Hnd.
    apply NoDup_app in Hnd as (_ & _ & Hnd).
    apply NoDup_cons in Hnd as [Hnd _]. apply Hnd. right. left. }
  assert (∀ {A} (f : mem_block → A),
    fld f (heap (merge_prev_result block st)) p =
    f (with_next (fld next (heap st) block)
         (with_size (fld size (heap st) p + fld size (heap st) block)
            (cur (heap st) p)))) as Hblk.
  { intros A f. pose proof (merge_prev_result_p f block st) as Hp.
    rewrite Hprev in Hp. apply Hp; [done|]. done. }
  destruct (extra_around _ _ _ _ _ _ Hex) as [Hz _].
  pose proof Hex as Hex'. rewrite app_cons_assoc in Hex'.
  destruct (extra_around _ _ _ _ _ _ Hex') as [_ Hn].
  apply (extra_splice up (before block) never l1 [p; block]
           [p] l2 (heap st)); [done| | |].
  { intros a Ha. by eapply merge_prev_outer_attrs. }
  { intros x y Hx Hy ->.
    destruct (wf_outer l1 [p; block] l2 st block Hwf Hy) as (Hm & _).
    destruct Hm. right. left. }
  assert (∀ z, last l1 = Some z →
            pair_ex up never (heap (merge_prev_result block st)) z p) as Hz'.
  { intros z Hlz. destruct (Hz z Hlz) as [Hnf Hup].
    assert (z ∈ l1 ++ l2) as Hzin.
    { apply elem_of_app. left. by apply last_Some_elem_of. }
    destruct (merge_prev_outer_attrs l1 p block l2 st z)
      as (_ & Hs & Hr & Hf); [done..|].
    split; [|by rewrite Hs]. right.
    destruct Hnf as [->|Hnf]; [done|].
    unfold pair_nf in *. by rewrite Hr, Hf, !Hblk. }
  assert (∀ n, head l2 = Some n →
            pair_ex up never (heap (merge_prev_result block st)) p n) as Hn'.
  { intros n Hln. destruct (Hn n Hln) as [Hnf Hup].
    assert (n ∈ l1 ++ l2) as Hnin.
    { apply elem_of_app. right. apply head_Some in Hln as [? ->]. left. }
    destruct (merge_prev_outer_attrs l1 p block l2 st n)
      as (_ & _ & Hr & Hf); [done..|].
    assert (n ≠ block) as Hnnb.
    { intros ->. destruct (wf_outer l1 [p; block] l2 st block Hwf Hnin)
        as (Hm & _). apply Hm. right. left. }
    split.
    - right. destruct Hnf as [?|Hnf]; [done|].
      unfold pair_nf in *. rewrite Hr, Hf, !Hblk. cbn.
      change (region_id (cur (heap st) p))
        with (fld region_id (heap st) p).
      intros Hreq [_ Hfn]. apply Hnf; [congruence|done].
    - rewrite Hblk. cbn.
      change (size (cur (heap st) p)) with (fld size (heap st) p).
      intros Hu. specialize (Hup Hu). lia. }
  unfold extra.
  destruct (last l1) as [z|]; destruct (head l2) as [n|];
    rewrite ?option_list_Some, ?option_list_None;
    cbn [app adjacent default];
    try specialize (Hz' z eq_refl); try specialize (Hn' n eq_refl);
    naive_solver.
Qed.

Lemma merge_prev_skip_extra up l1 block l2 st :
  wf (l1 ++ block :: l2) st →
  absorbed_by_prev st block = false →
  fld free (heap st) block = true →
  extra up (before block) (heap st) (l1 ++ block :: l2) →
  extra up never (heap st) (l1 ++ block :: l2).
Proof.
  intros Hwf Habs Hfree Hex.
  pose proof (wf_prev _ _ _ _ Hwf) as Hprev.
  unfold extra in *. apply adjacent_mid in Hex as (H1 & H2 & Hz & Hn).
  apply adjacent_mid. split_and!.
  - eapply adjacent_impl; [|done]. intros x y Hx Hy [[->|Hnf] Hup].
    + by destruct (wf_not_in_l1 _ _ _ _ Hwf).
    + split; [by right|done].
  - eapply adjacent_impl; [|done]. intros x y Hx Hy [[->|Hnf] Hup].
    + by destruct (wf_not_in_l2 _ _ _ _ Hwf).
    + split; [by right|done].
  - intros z Hlz. destruct (Hz z Hlz) as [_ Hup]. split; [|done].
    right. unfold absorbed_by_prev in Habs. rewrite Hprev, Hlz in Habs.
    simpl in Habs.
    destruct (wf_around _ _ _ _ Hwf) as [Hza _].
    destruct (Hza z Hlz) as (Hzin & _).
    assert (z ≠ NULL) as Hz0.
    { assert (z ∈ l1 ++ l2) as Hin by (apply elem_of_app; by left).
      by destruct (wf_outer l1 [block] l2 st z Hwf Hin) as (_ & ? & _). }
    rewrite (nonnull_true z) in Habs by done. simpl in Habs.
    intros Hreq [Hfz _]. rewrite Hfz in Habs. simpl in Habs.
    apply bool_decide_eq_false in Habs. congruence.
  - intros n Hln. destruct (Hn n Hln) as [[->|Hnf] Hup].
    + apply head_Some in Hln as [? ->].
      destruct (wf_not_in_l2 _ _ _ _ Hwf). left.
    + split; [by right|done].
Qed.

(** ** ... and through the unlinking of a lone block *)

Lemma unlink_unmap_outer_attrs l1 block l2 ok st a :
  wf (l1 ++ block :: l2) st → a ∈ l1 ++ l2 →
  same_attrs (heap st)
    (heap (unmap_result block ok (unlink_result block st))) a.
Proof.
  intros Hwf Ha.
  pose proof (wf_block_ok _ _ _ _ Hwf) as [Hhdr Hpos Hsize Htop Hmap Hreg].
  pose proof (wf_prev _ _ _ _ Hwf) as Hprev.
  pose proof (wf_next _ _ _ _ Hwf) as Hnext.
  destruct (wf_outer l1 [block] l2 st a Hwf Ha) as (Hm & ? & Hok).
  assert (a ≠ block) as Hab by (intros ->; apply Hm; left).
  assert (disjoint (heap st) block a) as Hd.
  { apply (wf_disjoint _ _ Hwf); [apply elem_of_mid| |done].
    by apply (elem_of_outer _ _ [block]). }
  assert (fld next (heap st) block ≠ block) as Hnb.
  { rewrite Hnext. destruct l2 as [|n l2];
      [apply not_eq_sym, (wf_nonnull _ _ _ _ Hwf)|]. simpl.
    intros ->. apply (wf_not_in_l2 _ _ _ _ Hwf). left. }
  assert (fld prev (heap st) block ≠ block) as Hpb.
  { rewrite Hprev. destruct (last l1) as [p|] eqn:E;
      [|apply not_eq_sym, (wf_nonnull _ _ _ _ Hwf)]. simpl.
    intros ->. apply (wf_not_in_l1 _ _ _ _ Hwf).
    by apply last_Some_elem_of. }
  destruct (unlink_result_other block st a) as (Hsa & _); [done|apply Hok|].
  unfold same_attrs.
  assert (in_range block (fld size (heap (unlink_result block st)) block) a
          = false) as Hout.
  { rewrite unlink_result_size by done. apply in_range_false.
    pose proof (bo_size _ _ Hok). unfold disjoint in Hd. lia. }
  by rewrite !unmap_result_fld, unmap_result_lookup.
Qed.

Lemma unlink_extra up l1 block l2 ok st :
  wf (l1 ++ block :: l2) st → alone st block = true →
  extra up never (heap st) (l1 ++ block :: l2) →
  extra up never (heap (unmap_result block ok (unlink_result block st)))
        (l1 ++ l2).
Proof.
  intros Hwf Halone Hex.
  pose proof (wf_block_ok _ _ _ _ Hwf) as [Hhdr Hpos Hsize Htop Hmap Hreg].
  destruct (extra_around _ _ _ _ _ _ Hex) as [Hz Hn].
  destruct (wf_around _ _ _ _ Hwf) as [Hza Hna].
  apply (extra_splice up never never l1 [block] [] l2 (heap st));
    [done| |done|].
  { intros a Ha. by apply (unlink_unmap_outer_attrs l1 block l2). }
  unfold extra.
  destruct (last l1) as [z|] eqn:Hlz; destruct (head l2) as [n|] eqn:Hln;
    rewrite ?option_list_Some, ?option_list_None;
    cbn [app adjacent default]; try done.
  split; [|done].
  destruct (Hz z eq_refl) as [_ Hup1]. destruct (Hn n eq_refl) as [_ Hup2].
  destruct (Hza z eq_refl) as (Hzin & [Hz1 Hz2] & [Hp1 _]).
  destruct (Hna n eq_refl) as (Hnin & [Hn1 Hn2] & [Hp2 _]).
  assert (z ∈ l1 ++ l2) as Hz' by (apply elem_of_app; by left).
  assert (n ∈ l1 ++ l2) as Hn' by (apply elem_of_app; by right).
  destruct (wf_outer l1 [block] l2 st z Hwf Hz') as (_ & ? & _).
  destruct (wf_outer l1 [block] l2 st n Hwf Hn') as (_ & ? & _).
  destruct (unlink_unmap_outer_attrs l1 block l2 ok st z Hwf Hz')
    as (_ & Hsz & Hrz & _).
  destruct (unlink_unmap_outer_attrs l1 block l2 ok st n Hwf Hn')
    as (_ & _ & Hrn & _).
  unfold alone in Halone. rewrite Hz2, Hn1 in Halone.
  rewrite !nonnull_true in Halone by done. cbn [negb orb] in Halone.
  apply andb_true_iff in Halone as [Ha1 Ha2].
  apply negb_true_iff, bool_decide_eq_false in Ha1.
  apply negb_true_iff, bool_decide_eq_false in Ha2.
  split.
  - right. unfold pair_nf. rewrite Hrz, Hrn. lia.
  - rewrite Hsz. intros Hu. specialize (Hup1 Hu). specialize (Hup2 Hu). lia.
Qed.

(** ** A block that its predecessor absorbed *)

(** The third statement of [merge_block] then tests a block that is no
    longer in the list: none of the four conditions holds. *)
Lemma unmap_if_alone_absorbed l block ok st :
  wf l st → block ∉ l → block ≠ NULL → is_Some (heap st !! block) →
  (fld next (heap st) block = NULL ∨
   is_Some (heap st !! fld next (heap st) block)) →
  (fld prev (heap st) block = NULL ∨
   (fld prev (heap st) block ∈ l ∧
    fld region_id (heap st) (fld prev (heap st) block)
    = fld region_id (heap st) block)) →
  l ≠ [] →
  unmap_if_alone block ok st = Done (block, st).
Proof.
  intros Hwf Hnin Hb0 Hbs Hn Hp Hl.
  assert (block ≠ g_head st) as Hnh.
  { rewrite (wf_head _ _ Hwf). destruct l as [|a l]; [done|]. simpl.
    intros ->. apply Hnin. left. }
  assert (block ≠ g_tail st) as Hnt.
  { rewrite (wf_tail _ _ Hwf). destruct (last l) as [a|] eqn:E.
    - simpl. intros ->. apply Hnin. by apply last_Some_elem_of.
    - by apply last_None in E. }
  assert (fld prev (heap st) block = NULL ∨
          (fld prev (heap st) block ≠ NULL ∧
           is_Some (heap st !! fld prev (heap st) block) ∧
           fld region_id (heap st) (fld prev (heap st) block)
           = fld region_id (heap st) block)) as Hp'.
  { destruct Hp as [?|[Hin Hr]]; [by left|right].
    pose proof (wf_elem _ _ _ Hwf Hin) as Hok.
    split_and!; [|apply Hok|done].
    pose proof (bo_pos _ _ Hok). unfold NULL. lia. }
  clear Hp. unfold unmap_if_alone.
  set (n := fld next (heap st) block) in *.
  set (p := fld prev (heap st) block) in *.
  assert (fld next (heap st) block = n) as Hnext by done.
  assert (fld prev (heap st) block = p) as Hprev by done.
  clearbody n p.
  open_state st.
  do 2 step. rewrite (bool_decide_eq_false_2 (block = hd)) by done.
  cbn [andb]. unfold andM.
  destruct Hn as [->|Hns]; destruct Hp' as [->|(Hp0 & Hps & Hpr)].
  - steps_with ltac:(first [rewrite Hprev | rewrite Hnext]). by last_step.
  - steps_with ltac:(first [rewrite Hprev | rewrite Hnext]). by last_step.
  - destruct (decide (n = NULL)) as [->|Hn0].
    { steps_with ltac:(first [rewrite Hprev | rewrite Hnext]). by last_step. }
    steps_with ltac:(first [rewrite Hprev | rewrite Hnext]).
    case_bool_decide; cbn [negb];
      steps_with ltac:(first [rewrite Hprev | rewrite Hnext]); by last_step.
  - destruct (decide (n = NULL)) as [->|Hn0].
    { steps_with ltac:(first [rewrite Hprev | rewrite Hnext]). by last_step. }
    steps_with ltac:(first [rewrite Hprev | rewrite Hnext]).
    case_bool_decide; cbn [negb];
      steps_with ltac:(first [rewrite Hprev | rewrite Hnext]); by last_step.
Qed.

(** * free keeps the invariant *)

Definition inv (up : bool) (l : list Z) (st : state) : Prop :=
  wf l st ∧ extra up never (heap st) l.

(** What a release never touches. *)
Definition same_globals (st st' : state) : Prop :=
  g_regions st' = g_regions st ∧ g_allocations st' = g_allocations st ∧
  g_splits st' = g_splits st.

Lemma absorbs_next_true l1 block l2 st :
  wf (l1 ++ block :: l2) st → absorbs_next st block = true →
  ∃ n l2', l2 = n :: l2' ∧ fld free (heap st) n = true ∧
           fld region_id (heap st) n = fld region_id (heap st) block.
Proof.
  intros Hwf Habs. pose proof (wf_next _ _ _ _ Hwf) as Hnext.
  unfold absorbs_next in Habs. rewrite Hnext in Habs.
  destruct l2 as [|n l2]; [done|]. simpl in Habs.
  apply andb_true_iff in Habs as [Habs Hr].
  apply andb_true_iff in Habs as [_ Hf].
  apply bool_decide_eq_true in Hr. eauto.
Qed.

Lemma absorbed_by_prev_true l1 block l2 st :
  wf (l1 ++ block :: l2) st → absorbed_by_prev st block = true →
  ∃ l1' p, l1 = l1' ++ [p] ∧ fld free (heap st) p = true ∧
           fld region_id (heap st) p = fld region_id (heap st) block.
Proof.
  intros Hwf Habs. pose proof (wf_prev _ _ _ _ Hwf) as Hprev.
  unfold absorbed_by_prev in Habs. rewrite Hprev in Habs.
  destruct l1 as [|p l1 _] using rev_ind; [done|].
  rewrite last_snoc in Habs. simpl in Habs.
  apply andb_true_iff in Habs as [Habs Hr].
  apply andb_true_iff in Habs as [_ Hf].
  apply bool_decide_eq_true in Hr. eauto.
Qed.

Lemma merge_next_result_free l1 block n l2 st :
  wf (l1 ++ block :: n :: l2) st →
  fld free (heap (merge_next_result block st)) block
  = fld free (heap st) block.
Proof.
  intros Hwf.
  pose proof (wf_second _ _ _ _ _ Hwf)
    as (Hn0 & Hnb & Hns & Hnext & Hnp & Hnn' & _).
  rewrite merge_next_result_block; rewrite Hnext; [done..|].
  rewrite Hnn'. destruct l2 as [|nn l2];
    [apply not_eq_sym, (wf_nonnull _ _ _ _ Hwf)|].
  simpl. intros ->. pose proof (wf_nodup _ _ Hwf) as Hnd.
  apply NoDup_app in Hnd as (_ & _ & Hnd).
  apply NoDup_cons in Hnd as [Hnd _]. apply Hnd. right. left.
Qed.

Lemma merge_with_next_inv up l1 block l2 st :
  wf (l1 ++ block :: l2) st →
  extra up (touching block) (heap st) (l1 ++ block :: l2) →
  ∃ l2' st',
    merge_with_next block st = Done (tt, st') ∧
    wf (l1 ++ block :: l2') st' ∧
    extra up (before block) (heap st') (l1 ++ block :: l2') ∧
    fld free (heap st') block = fld free (heap st) block ∧
    same_globals st st' ∧ mapped st' = mapped st ∧ trace st' = trace st ∧
    (∀ a, a ∈ l2' → a ∈ l2) ∧
    st' = (if absorbs_next st block then merge_next_result block st else st).
Proof.
  intros Hwf Hex. rewrite (merge_with_next_effect _ _ _ _ Hwf).
  destruct (absorbs_next st block) eqn:Habs.
  - destruct (absorbs_next_true _ _ _ _ Hwf Habs) as (n & l2' & -> & Hf & Hr).
    exists l2', (merge_next_result block st). split_and!; try done.
    + by eapply merge_next_result_wf.
    + by eapply merge_next_extra.
    + by eapply merge_next_result_free.
    + intros a Ha. by right.
  - exists l2, st. split_and!; try done.
    by eapply merge_next_skip_extra.
Qed.

Lemma merge_prev_result_stale l1 p block l2 st :
  wf (l1 ++ p :: block :: l2) st →
  is_Some (heap (merge_prev_result block st) !! block) ∧
  fld next (heap (merge_prev_result block st)) block
  = fld next (heap st) block ∧
  fld region_id (heap (merge_prev_result block st)) block
  = fld region_id (heap st) block ∧
  fld free (heap (merge_prev_result block st)) block
  = fld free (heap st) block ∧
  fld size (heap (merge_prev_result block st)) block
  = fld size (heap st) block ∧
  fld prev (heap (merge_prev_result block st)) block
  = (if decide (l2 = []) then NULL else p).
Proof.
  intros Hwf.
  pose proof (wf_second _ _ _ _ _ Hwf)
    as (Hb0 & Hbp & Hbs & Hpnext & Hprev & Hnext & _).
  assert (fld next (heap st) block ≠ block) as Hnb.
  { rewrite Hnext. destruct l2 as [|n l2]; [done|]. simpl.
    intros ->. pose proof (wf_nodup _ _ Hwf) as Hnd.
    apply NoDup_app in Hnd as (_ & _ & Hnd).
    apply NoDup_cons in Hnd as [_ Hnd].
    apply NoDup_cons in Hnd as [Hnd _]. apply Hnd. left. }
  unfold merge_prev_result. cbn [heap]. rewrite Hprev.
  destruct l2 as [|n l2]; simpl in Hnext.
  - rewrite Hnext. resolve_decides. fsimpl.
    rewrite !lookup_insert_is_Some'. split_and!; auto.
  - rewrite Hnext in *.
    assert (n ≠ NULL).
    { apply (wf_nonnull (l1 ++ [p; block]) n l2 st).
      by rewrite <-app_assoc. }
    resolve_decides. fsimpl.
    rewrite !lookup_insert_is_Some'. split_and!; auto.
Qed.

Lemma unmap_result_mapped_le block ok st x :
  mapped (unmap_result block ok st) x = true → mapped st x = true.
Proof.
  unfold unmap_result. destruct ok; [|done]. cbn [mapped set_heap set_mapped].
  by intros [_ ?]%andb_true_iff.
Qed.

(** The state [merge_block] and [free] leave, step by step. *)
Definition merge_block_result (ok : bool) (block : Z) (st : state) : state :=
  let s1 := if absorbs_next st block then merge_next_result block st else st in
  if absorbed_by_prev s1 block then merge_prev_result block s1
  else if alone s1 block then unmap_result block ok (unlink_result block s1)
  else s1.

Definition free_result (ok : bool) (block : Z) (st : state) : state :=
  merge_block_result ok block (mark true block st).

(** What [merge_block] tells of an unmapping: it returns the block and
    the diagnostic is untouched, unless [munmap] failed; then it returns
    NULL after [perror], and the block, already taken off the list,
    keeps its free header in memory that is still mapped. *)
Definition unmap_report (ok : bool) (block r : Z) (l' : list Z)
    (st st' : state) : Prop :=
  (r = block ∧ trace st' = trace st) ∨
  (ok = false ∧ r = NULL ∧ trace st' = Perror "munmap" :: trace st ∧
   block ∉ l' ∧ is_Some (heap st' !! block) ∧
   fld free (heap st') block = true ∧ mapped st' = mapped st).

Lemma unlink_result_free block st :
  fld free (heap (unlink_result block st)) block = fld free (heap st) block.
Proof. unfold unlink_result. cbn [heap]. by fsimpl. Qed.

Lemma merge_prev_unmap_inv up l1 block l2 ok st :
  wf (l1 ++ block :: l2) st →
  extra up (before block) (heap st) (l1 ++ block :: l2) →
  fld free (heap st) block = true →
  ∃ l' st' r,
    (merge_with_prev block;; unmap_if_alone block ok) st = Done (r, st') ∧
    inv up l' st' ∧ same_globals st st' ∧
    (∀ a, a ∈ l' → a ∈ l1 ++ block :: l2) ∧
    (∀ x, mapped st' x = true → mapped st x = true) ∧
    unmap_report ok block r l' st st' ∧
    st' = (if absorbed_by_prev st block then merge_prev_result block st
           else if alone st block
                then unmap_result block ok (unlink_result block st)
                else st).
Proof.
  intros Hwf Hex Hfree.
  rewrite (bind_Done _ _ _ _ _ (merge_with_prev_effect _ _ _ _ Hwf)).
  destruct (absorbed_by_prev st block) eqn:Habs.
  - destruct (absorbed_by_prev_true _ _ _ _ Hwf Habs)
      as (l1' & p & -> & Hf & Hr).
    rewrite <-app_assoc in Hwf, Hex. simpl in Hwf, Hex.
    pose proof (merge_prev_result_wf _ _ _ _ _ Hwf Hr) as Hwf'.
    pose proof (merge_prev_extra up _ _ _ _ _ Hwf Hr Hfree Hex) as Hex'.
    destruct (merge_prev_result_stale _ _ _ _ _ Hwf)
      as (Hs & Hsn & Hsr & _ & _ & Hsp).
    pose proof (wf_second _ _ _ _ _ Hwf)
      as (Hb0 & Hbp & Hbs & Hpnext & Hprev & Hnext & _).
    exists (l1' ++ p :: l2), (merge_prev_result block st), block.
    split_and!; try done.
    + apply (unmap_if_alone_absorbed (l1' ++ p :: l2)); try done.
      * pose proof (wf_nodup _ _ Hwf) as Hnd.
        rewrite elem_of_app, elem_of_cons. intros [?|[?|?]].
        -- apply NoDup_app in Hnd as (_ & Hnd & _). apply (Hnd block); [done|].
           right. left.
        -- done.
        -- apply NoDup_app in Hnd as (_ & _ & Hnd).
           apply NoDup_cons in Hnd as [_ Hnd].
           by apply NoDup_cons in Hnd as [Hnd _].
      * rewrite Hsn, Hnext. destruct l2 as [|n l2]; [by left|right]. simpl.
        assert (n ∈ l1' ++ p :: n :: l2) as Hin.
        { apply elem_of_app. right. right. left. }
        apply (wf_elem _ _ _ Hwf' Hin).
      * rewrite Hsp. case_decide; [by left|right]. split; [apply elem_of_mid|].
        rewrite Hsr, <-Hr.
        pose proof (merge_prev_result_p region_id block st) as Hp.
        rewrite Hprev in Hp. apply Hp; [done|].
        rewrite Hnext. destruct l2 as [|n l2]; [done|]. simpl.
        intros ->. pose proof (wf_nodup _ _ Hwf) as Hnd.
        apply NoDup_app in Hnd as (_ & _ & Hnd).
        apply NoDup_cons in Hnd as [Hnd _]. apply Hnd. right. left.
      * by destruct l1'.
    + intros a. rewrite !elem_of_app, !elem_of_cons. tauto.
    + by left.
  - pose proof (merge_prev_skip_extra up _ _ _ _ Hwf Habs Hfree Hex) as Hex'.
    rewrite (unmap_if_alone_effect _ _ _ ok _ Hwf).
    destruct (alone st block) eqn:Halone.
    + eexists (l1 ++ l2), _, _. split; [done|]. split_and!.
      * split; [by apply unlink_unmap_wf|by apply unlink_extra].
      * destruct (unmap_result_globals block ok (unlink_result block st))
          as (_ & _ & ? & ? & ?). done.
      * intros a. rewrite !elem_of_app, !elem_of_cons. tauto.
      * intros x Hx. by apply unmap_result_mapped_le in Hx.
      * destruct ok; [by left|right]. unfold unmap_result.
        cbn [trace heap emit mapped]. split_and!; try done.
        -- pose proof (wf_nodup _ _ Hwf) as Hnd.
           apply NoDup_app in Hnd as (_ & Hnd1 & Hnd2).
           apply NoDup_cons in Hnd2 as [Hnd2 _].
           rewrite elem_of_app. intros [?|?]; [|done].
           apply (Hnd1 block); [done|left].
        -- unfold unlink_result. cbn [heap].
           rewrite lookup_insert_is_Some'. by left.
        -- by rewrite unlink_result_free.
      * done.
    + exists (l1 ++ block :: l2), st, block. split_and!; try done. by left.
Qed.

Lemma merge_block_inv up l1 block l2 ok st :
  wf (l1 ++ block :: l2) st →
  extra up (touching block) (heap st) (l1 ++ block :: l2) →
  fld free (heap st) block = true →
  ∃ l' st' r,
    merge_block block ok st = Done (r, st') ∧
    inv up l' st' ∧ same_globals st st' ∧
    (∀ a, a ∈ l' → a ∈ l1 ++ block :: l2) ∧
    (∀ x, mapped st' x = true → mapped st x = true) ∧
    unmap_report ok block r l' st st' ∧
    st' = merge_block_result ok block st.
Proof.
  intros Hwf Hex Hfree.
  destruct (merge_with_next_inv up _ _ _ _ Hwf Hex)
    as (l2' & st1 & Hrun & Hwf1 & Hex1 & Hf1 & Hg1 & Hm1 & Ht1 & Hsub & Hs1).
  rewrite Hfree in Hf1.
  destruct (merge_prev_unmap_inv up _ _ _ ok _ Hwf1 Hex1 Hf1)
    as (l' & st' & r & Hrun' & Hinv & Hg & Hsub' & Hm & Hrep & Hs').
  exists l', st', r. split_and!; try done.
  - unfold merge_block. by rewrite (bind_Done _ _ _ _ _ Hrun).
  - destruct Hg1 as (? & ? & ?), Hg as (? & ? & ?).
    unfold same_globals. split_and!; congruence.
  - intros a Ha. specialize (Hsub' a Ha).
    rewrite !elem_of_app, !elem_of_cons in *. naive_solver.
  - intros x Hx. rewrite <-Hm1. auto.
  - unfold unmap_report in *. rewrite <-Ht1, <-Hm1. exact Hrep.
  - unfold merge_block_result. cbn zeta. by rewrite <-Hs1.
Qed.

(** [free] on a pointer to a tracked block. *)
Lemma free_inv up l ok block st :
  inv up l st → block ∈ l →
  ∃ l' st',
    free_ ok (block + sizeof_mem_block) st = Done (tt, st') ∧
    inv up l' st' ∧ same_globals st st' ∧
    (∀ a, a ∈ l' → a ∈ l) ∧
    (∀ x, mapped st' x = true → mapped st x = true) ∧
    ∃ r, merge_block block ok (mark true block st) = Done (r, st') ∧
         unmap_report ok block r l' st st' ∧
         st' = free_result ok block st.
Proof.
  intros [Hwf Hex] Hin.
  apply list_elem_of_split in Hin as (l1 & l2 & ->).
  pose proof (wf_block_ok _ _ _ _ Hwf) as [Hhdr Hpos Hsize Htop Hmap Hreg].
  unfold free_, sizeof_mem_block.
  rewrite decide_False by (unfold NULL; lia).
  replace (block + 100 - 100) with block by lia.
  rewrite wrap64_small by lia.
  assert (block ≠ NULL) as Hb0 by (unfold NULL; lia).
  rewrite (bind_Done _ _ _ _ _ (store_free_effect true block st Hb0 Hhdr)).
  destruct (merge_block_inv up l1 block l2 ok (mark true block st))
    as (l' & st' & r & Hrun & Hinv & Hg & Hsub & Hm & Hrep & Hs').
  - by apply mark_wf.
  - by apply mark_extra_free.
  - apply mark_free.
  - exists l', st'. split_and!; try done.
    + rewrite (bind_Done _ _ _ _ _ Hrun). done.
    + by exists r.
Qed.

(** * The fit strategies on a well-formed list *)

(** On a well-formed list the three walks are folds over the chain. *)
Definition fits (h : gmap Z mem_block) (sz a : Z) : bool :=
  (sz <=? fld size h a) && fld free h a.

Fixpoint first_fit_list (h : gmap Z mem_block) (sz : Z) (l : list Z) : Z :=
  match l with
  | [] => NULL
  | a :: l' => if fits h sz a then a else first_fit_list h sz l'
  end.

Fixpoint worst_fit_list (h : gmap Z mem_block) (sz : Z) (l : list Z)
    (worst worst_size : Z) : Z :=
  match l with
  | [] => worst
  | a :: l' =>
      if fits h sz a then
        let diff := to_ssize (wrap64 (fld size h a - sz)) in
        if worst_size <? diff then worst_fit_list h sz l' a diff
        else worst_fit_list h sz l' worst worst_size
      else worst_fit_list h sz l' worst worst_size
  end.

Fixpoint best_fit_list (h : gmap Z mem_block) (sz : Z) (l : list Z)
    (best best_size : Z) : Z :=
  match l with
  | [] => best
  | a :: l' =>
      if fits h sz a then
        let diff := to_ssize (wrap64 (fld size h a - sz)) in
        if wrap64 diff <? best_size
        then best_fit_list h sz l' a (wrap64 diff)
        else best_fit_list h sz l' best best_size
      else best_fit_list h sz l' best best_size
  end.

Lemma wf_length l st : wf l st → (length l ≤ base.size (heap st))%nat.
Proof.
  intros Hwf.
  rewrite <-(size_list_to_set (C := gset Z) l) by apply (wf_nodup _ _ Hwf).
  rewrite <-size_dom. apply subseteq_size.
  intros a Ha. apply elem_of_list_to_set in Ha. apply elem_of_dom.
  apply (wf_elem _ _ _ Hwf Ha).
Qed.

Lemma first_fit_loop_spec l1 rest fuel sz st :
  wf (l1 ++ rest) st → (length rest ≤ fuel)%nat →
  first_fit_loop fuel sz (default NULL (head rest)) st
  = Done (first_fit_list (heap st) sz rest, st).
Proof.
  revert l1 fuel. induction rest as [|a rest IH]; intros l1 fuel Hwf Hfuel.
  { by destruct fuel. }
  pose proof (wf_block_ok _ _ _ _ Hwf) as [Hhdr Hpos _ _ _ _].
  pose proof (wf_nonnull _ _ _ _ Hwf) as Hnn.
  pose proof (wf_next _ _ _ _ Hwf) as Hnext.
  destruct fuel as [|fuel]; [simpl in Hfuel; lia|].
  change (default NULL (head (a :: rest))) with a.
  cbn [first_fit_loop first_fit_list].
  rewrite decide_False by done.
  rewrite bind_load by done. unfold fits.
  destruct (sz <=? fld size (heap st) a) eqn:Hle; cbn [andb].
  - rewrite bind_load by done.
    destruct (fld free (heap st) a) eqn:Hf; [done|].
    rewrite bind_load by done. rewrite Hnext.
    rewrite app_cons_assoc in Hwf. apply (IH _ _ Hwf). simpl in Hfuel. lia.
  - rewrite bind_ret. rewrite bind_load by done. rewrite Hnext.
    rewrite app_cons_assoc in Hwf. apply (IH _ _ Hwf). simpl in Hfuel. lia.
Qed.

Lemma worst_fit_loop_spec l1 rest fuel sz worst ws st :
  wf (l1 ++ rest) st → (length rest ≤ fuel)%nat →
  worst_fit_loop fuel sz (default NULL (head rest)) worst ws st
  = Done (worst_fit_list (heap st) sz rest worst ws, st).
Proof.
  revert l1 fuel worst ws.
  induction rest as [|a rest IH]; intros l1 fuel worst ws Hwf Hfuel.
  { by destruct fuel. }
  pose proof (wf_block_ok _ _ _ _ Hwf) as [Hhdr Hpos _ _ _ _].
  pose proof (wf_nonnull _ _ _ _ Hwf) as Hnn.
  pose proof (wf_next _ _ _ _ Hwf) as Hnext.
  destruct fuel as [|fuel]; [simpl in Hfuel; lia|].
  change (default NULL (head (a :: rest))) with a.
  cbn [worst_fit_loop worst_fit_list].
  rewrite decide_False by done.
  rewrite bind_load by done. unfold fits.
  rewrite app_cons_assoc in Hwf. simpl in Hfuel.
  destruct (sz <=? fld size (heap st) a) eqn:Hle; cbn [andb].
  - rewrite bind_load by done. rewrite bind_load by done. rewrite Hnext.
    destruct (fld free (heap st) a) eqn:Hf.
    + cbn zeta. case_match; apply (IH _ _ _ _ Hwf); lia.
    + apply (IH _ _ _ _ Hwf); lia.
  - rewrite bind_ret. rewrite bind_load by done. rewrite Hnext.
    apply (IH _ _ _ _ Hwf); lia.
Qed.

Lemma best_fit_loop_spec l1 rest fuel sz best bs st :
  wf (l1 ++ rest) st → (length rest ≤ fuel)%nat →
  best_fit_loop fuel sz (default NULL (head rest)) best bs st
  = Done (best_fit_list (heap st) sz rest best bs, st).
Proof.
  revert l1 fuel best bs.
  induction rest as [|a rest IH]; intros l1 fuel best bs Hwf Hfuel.
  { by destruct fuel. }
  pose proof (wf_block_ok _ _ _ _ Hwf) as [Hhdr Hpos _ _ _ _].
  pose proof (wf_nonnull _ _ _ _ Hwf) as Hnn.
  pose proof (wf_next _ _ _ _ Hwf) as Hnext.
  destruct fuel as [|fuel]; [simpl in Hfuel; lia|].
  change (default NULL (head (a :: rest))) with a.
  cbn [best_fit_loop best_fit_list].
  rewrite decide_False by done.
  rewrite bind_load by done. unfold fits.
  rewrite app_cons_assoc in Hwf. simpl in Hfuel.
  destruct (sz <=? fld size (heap st) a) eqn:Hle; cbn [andb].
  - rewrite bind_load by done. rewrite bind_load by done. rewrite Hnext.
    destruct (fld free (heap st) a) eqn:Hf.
    + cbn zeta. case_match; apply (IH _ _ _ _ Hwf); lia.
    + apply (IH _ _ _ _ Hwf); lia.
  - rewrite bind_ret. rewrite bind_load by done. rewrite Hnext.
    apply (IH _ _ _ _ Hwf); lia.
Qed.

Lemma first_fit_spec l sz st :
  wf l st → first_fit sz st = Done (first_fit_list (heap st) sz l, st).
Proof.
  intros Hwf. unfold first_fit. rewrite !bind_get.
  rewrite (wf_head _ _ Hwf).
  apply (first_fit_loop_spec []); [done|by apply wf_length].
Qed.

Lemma worst_fit_spec l sz st :
  wf l st →
  worst_fit sz st = Done (worst_fit_list (heap st) sz l NULL INT_MIN, st).
Proof.
  intros Hwf. unfold worst_fit. rewrite !bind_get.
  rewrite (wf_head _ _ Hwf).
  apply (worst_fit_loop_spec []); [done|by apply wf_length].
Qed.

Lemma best_fit_spec l sz st :
  wf l st →
  best_fit sz st = Done (best_fit_list (heap st) sz l NULL INT_MAX, st).
Proof.
  intros Hwf. unfold best_fit. rewrite !bind_get.
  rewrite (wf_head _ _ Hwf).
  apply (best_fit_loop_spec []); [done|by apply wf_length].
Qed.

(** Whatever a walk returns is its starting candidate or a fitting
    block of the list. *)
Lemma first_fit_list_fits h sz l :
  first_fit_list h sz l = NULL ∨
  (first_fit_list h sz l ∈ l ∧ fits h sz (first_fit_list h sz l) = true).
Proof.
  induction l as [|a l IH]; [by left|]. simpl.
  destruct (fits h sz a) eqn:E.
  - right. split; [left|done].
  - destruct IH as [?|[? ?]]; [by left|right]. split; [by right|done].
Qed.

Lemma worst_fit_list_fits h sz l w ws :
  worst_fit_list h sz l w ws = w ∨
  (worst_fit_list h sz l w ws ∈ l ∧
   fits h sz (worst_fit_list h sz l w ws) = true).
Proof.
  revert w ws. induction l as [|a l IH]; intros w ws; [by left|]. simpl.
  destruct (fits h sz a) eqn:E; [case_match|].
  - destruct (IH a (to_ssize (wrap64 (fld size h a - sz)))) as [->|[? ?]];
      right; (split; [|done]); [left|by right].
  - destruct (IH w ws) as [?|[? ?]]; [by left|right]. split; [by right|done].
  - destruct (IH w ws) as [?|[? ?]]; [by left|right]. split; [by right|done].
Qed.

Lemma best_fit_list_fits h sz l b bs :
  best_fit_list h sz l b bs = b ∨
  (best_fit_list h sz l b bs ∈ l ∧
   fits h sz (best_fit_list h sz l b bs) = true).
Proof.
  revert b bs. induction l as [|a l IH]; intros b bs; [by left|]. simpl.
  destruct (fits h sz a) eqn:E; [case_match|].
  - destruct (IH a (wrap64 (to_ssize (wrap64 (fld size h a - sz)))))
      as [->|[? ?]];
      right; (split; [|done]); [left|by right].
  - destruct (IH b bs) as [?|[? ?]]; [by left|right]. split; [by right|done].
  - destruct (IH b bs) as [?|[? ?]]; [by left|right]. split; [by right|done].
Qed.

(** * reuse and malloc on a well-formed list *)

(** The three tests of [split_block]. *)
Definition can_split (st : state) (block sz : Z) : bool :=
  negb (sz <? sizeof_mem_block + BLOCK_ALIGN) &&
  fld free (heap st) block &&
  negb (wrap64 (fld size (heap st) block - sz) <? 104).

Lemma split_block_refuses block sz st :
  block ≠ NULL → is_Some (heap st !! block) →
  can_split st block sz = false →
  split_block block sz st = Done (NULL, st).
Proof.
  intros Hb Hs Hc. unfold split_block, can_split in *. cbn zeta.
  destruct (sz <? sizeof_mem_block + BLOCK_ALIGN); [done|].
  rewrite bind_load by done.
  destruct (fld free (heap st) block); [|done]. cbn [negb andb] in *.
  rewrite bind_load by done.
  destruct (wrap64 (fld size (heap st) block - sz) <? 104); done.
Qed.

Lemma can_split_true st block sz :
  0 ≤ sz ≤ fld size (heap st) block → fld size (heap st) block < 2 ^ 64 →
  can_split st block sz = true →
  104 ≤ sz ∧ sz + 104 ≤ fld size (heap st) block ∧
  fld free (heap st) block = true.
Proof.
  intros Hsz Hlt Hc. unfold can_split in Hc.
  apply andb_true_iff in Hc as [Hc H3].
  apply andb_true_iff in Hc as [H1 H2].
  apply negb_true_iff, Z.ltb_ge in H1.
  apply negb_true_iff, Z.ltb_ge in H3.
  rewrite wrap64_small in H3 by lia.
  unfold sizeof_mem_block, BLOCK_ALIGN in H1. split_and!; [lia..|done].
Qed.

Definition maybe_split (st : state) (block sz : Z) : state :=
  if can_split st block sz then split_result block sz st else st.

Lemma split_block_wf_effect l1 block l2 st sz :
  wf (l1 ++ block :: l2) st →
  0 ≤ sz ≤ fld size (heap st) block →
  split_block block sz st =
  Done (if can_split st block sz then block + sz else NULL,
        maybe_split st block sz).
Proof.
  intros Hwf Hsz. unfold maybe_split.
  pose proof (wf_block_ok _ _ _ _ Hwf) as [Hhdr Hpos Hsize Htop Hmap Hreg].
  destruct (can_split st block sz) eqn:Hc.
  - apply can_split_true in Hc as (? & ? & ?); [|done|lia].
    by eapply split_block_effect.
  - apply split_block_refuses; [by eapply wf_nonnull|done..].
Qed.

(** The strategy named by [ALLOCATOR_ALGORITHM], as [reuse] dispatches
    on it. *)
Definition pick (e : env) (h : gmap Z mem_block) (sz : Z) (l : list Z) : Z :=
  let algo := default "first_fit" (ALLOCATOR_ALGORITHM e) in
  if String.eqb algo "first_fit" then first_fit_list h sz l
  else if String.eqb algo "best_fit" then best_fit_list h sz l NULL INT_MAX
  else if String.eqb algo "worst_fit" then worst_fit_list h sz l NULL INT_MIN
  else NULL.

Lemma pick_fits e h sz l :
  pick e h sz l = NULL ∨ (pick e h sz l ∈ l ∧ fits h sz (pick e h sz l) = true).
Proof.
  unfold pick. cbn zeta. repeat case_match; try by left.
  - apply first_fit_list_fits.
  - apply best_fit_list_fits.
  - apply worst_fit_list_fits.
Qed.

Lemma fits_size h sz a : fits h sz a = true → sz ≤ fld size h a ∧ fld free h a = true.
Proof.
  unfold fits. intros [H1 H2]%andb_true_iff. apply Z.leb_le in H1. done.
Qed.

Lemma reuse_effect e l sz st :
  wf l st → 0 ≤ sz →
  reuse e sz st =
  Done (pick e (heap st) sz l,
        if nonnull (pick e (heap st) sz l)
        then maybe_split st (pick e (heap st) sz l) sz else st).
Proof.
  intros Hwf Hsz. unfold reuse. cbn zeta.
  assert ((if String.eqb (default "first_fit" (ALLOCATOR_ALGORITHM e))
                         "first_fit"
           then first_fit sz
           else if String.eqb (default "first_fit" (ALLOCATOR_ALGORITHM e))
                              "best_fit"
           then best_fit sz
           else if String.eqb (default "first_fit" (ALLOCATOR_ALGORITHM e))
                              "worst_fit"
           then worst_fit sz else ret NULL) st
          = Done (pick e (heap st) sz l, st)) as Hfit.
  { unfold pick. cbn zeta. repeat case_match; try done.
    - by apply first_fit_spec.
    - by apply best_fit_spec.
    - by apply worst_fit_spec. }
  rewrite (bind_Done _ _ _ _ _ Hfit).
  pose proof (pick_fits e (heap st) sz l) as Hpick.
  set (c := pick e (heap st) sz l) in *. clearbody c.
  destruct Hpick as [->|[Hin Hf]]; [done|].
  apply fits_size in Hf as [Hle _].
  apply list_elem_of_split in Hin as (l1 & l2 & ->).
  pose proof (wf_nonnull _ _ _ _ Hwf) as Hnn.
  rewrite (nonnull_true _ Hnn).
  rewrite bind_assoc.
  rewrite (bind_Done _ _ _ _ _ (split_block_wf_effect _ _ _ _ _ Hwf
                                   (conj Hsz Hle))).
  done.
Qed.

(** ** The sizes malloc computes *)

(** A page size the arithmetic of [malloc] is meant for: a power of two
    (it divides 2^64) that holds at least a minimal block. *)
Definition pagesize_ok (p : Z) : Prop := 104 ≤ p ∧ 2 ^ 64 mod p = 0.

Lemma aligned_size_range sz : 0 ≤ aligned_size sz < 2 ^ 64.
Proof.
  unfold aligned_size, total_size. case_decide; apply wrap64_range.
Qed.

(** As long as the rounded sum does not wrap around, the aligned size
    has room for the header and the request. *)
Lemma aligned_size_covers sz :
  sz + 107 < 2 ^ 64 → sz + sizeof_mem_block ≤ aligned_size sz.
Proof.
  intros Hlt. pose proof (aligned_size_range sz) as [Ha0 _].
  destruct (decide (sz + 100 < 0)) as [Hneg|Hpos].
  { unfold sizeof_mem_block. lia. }
  clear Ha0. unfold aligned_size, total_size, sizeof_mem_block, ALIGN_SIZE.
  rewrite (wrap64_small (sz + 100)) by lia.
  pose proof (Z.mod_pos_bound (sz + 100) 8 ltac:(lia)) as Hm.
  case_decide; [rewrite wrap64_small by lia|]; lia.
Qed.

(** The debug fill of [malloc(sz)], when it is configured, stays inside
    the block: the request is small enough for the aligned size not to
    wrap around. *)
Definition fill_fits (e : env) (sz : Z) : Prop :=
  ALLOCATOR_SCRIBBLE e = false ∨ sz + 107 < 2 ^ 64.

Lemma region_size_range p sz :
  pagesize_ok p →
  region_size p sz = 0 ∨
  (aligned_size sz ≤ region_size p sz ∧ 104 ≤ region_size p sz ∧
   region_size p sz < 2 ^ 64).
Proof.
  intros [Hp Hdiv]. unfold region_size, num_pages.
  pose proof (aligned_size_range sz) as Ha.
  set (a := aligned_size sz) in *. clearbody a.
  assert (2 ^ 64 = p * (2 ^ 64 / p)) as HK.
  { rewrite (Z.div_mod (2 ^ 64) p) at 1 by lia. rewrite Hdiv. lia. }
  set (K := 2 ^ 64 / p) in *.
  pose proof (Z.div_mod a p ltac:(lia)) as Hdm.
  pose proof (Z.mod_pos_bound a p ltac:(lia)) as Hmod.
  assert (0 ≤ a / p) as Hq by (apply Z.div_pos; lia).
  assert (a / p < K) as HqK by nia.
  case_decide as Hrem.
  - rewrite (wrap64_small (a / p + 1)) by nia.
    destruct (decide ((a / p + 1) * p = 2 ^ 64)) as [Heq|Hne].
    + left. rewrite Heq. unfold wrap64. by rewrite Z.mod_same.
    + right. rewrite wrap64_small by nia. nia.
  - destruct (decide (a = 0)) as [->|Ha0].
    + left. by rewrite Z.div_0_l by lia.
    + right. rewrite wrap64_small by nia.
      assert (1 ≤ a / p) by nia. nia.
Qed.

(** ** Taking a block from the list *)

Definition scribble (e : env) (ptr sz : Z) (st : state) : state :=
  if ALLOCATOR_SCRIBBLE e then emit (Memset ptr 170 sz) st else st.

Lemma scribble_effect {B} e ptr sz (k : unit → M B) st :
  ptr ≠ NULL →
  ALLOCATOR_SCRIBBLE e = false ∨ range_mapped st ptr sz = true →
  ((if ALLOCATOR_SCRIBBLE e then memset ptr 170 sz else ret tt) ≫= k) st
  = k tt (scribble e ptr sz st).
Proof.
  intros Hp Hfill. unfold scribble.
  destruct (ALLOCATOR_SCRIBBLE e); [|done].
  destruct Hfill as [?|Hfill]; [done|].
  by rewrite (bind_Done _ _ _ _ _ (memset_ok ptr 170 sz st
                                     (or_intror (conj Hp Hfill)))).
Qed.

(** The bytes behind the header of a block that holds the aligned size
    of a request are mapped, as far as the request goes. *)
Lemma fill_in_block e sz c st st' :
  fill_fits e sz → block_ok st c →
  aligned_size sz ≤ fld size (heap st) c → mapped st' = mapped st →
  ALLOCATOR_SCRIBBLE e = false ∨
  range_mapped st' (c + sizeof_mem_block) sz = true.
Proof.
  intros [?|Hlt] [_ Hpos _ Htop Hmap _] Hle Hm; [by left|right].
  pose proof (aligned_size_covers sz Hlt). unfold sizeof_mem_block in *.
  apply range_mapped_true; [lia|]. intros x Hx. rewrite Hm. apply Hmap. lia.
Qed.

Definition take (e : env) (c sz : Z) (st : state) : state :=
  scribble e (c + sizeof_mem_block) sz (mark false c st).

Lemma maybe_split_header st c sz a :
  is_Some (heap st !! a) → is_Some (heap (maybe_split st c sz) !! a).
Proof.
  unfold maybe_split. case_match; [|done]. intros.
  apply split_result_is_Some. by left.
Qed.

Lemma malloc_reuse_effect e os l sz st :
  wf l st → pick e (heap st) (aligned_size sz) l ≠ NULL →
  fill_fits e sz →
  malloc e os sz st =
  Done (pick e (heap st) (aligned_size sz) l + sizeof_mem_block,
        take e (pick e (heap st) (aligned_size sz) l) sz
          (maybe_split st (pick e (heap st) (aligned_size sz) l)
             (aligned_size sz))).
Proof.
  intros Hwf Hc Hfill. unfold malloc. cbn zeta.
  pose proof (aligned_size_range sz) as [Ha _].
  rewrite (bind_Done _ _ _ _ _ (reuse_effect e l _ st Hwf Ha)).
  destruct (pick_fits e (heap st) (aligned_size sz) l) as [?|[Hin Hfit]];
    [done|].
  set (c := pick e (heap st) (aligned_size sz) l) in *. clearbody c.
  rewrite (nonnull_true c Hc).
  apply fits_size in Hfit as [Hle _].
  pose proof (wf_elem _ _ _ Hwf Hin) as Hbok.
  pose proof Hbok as [Hhdr Hpos Hsize Htop _ _].
  rewrite (bind_Done _ _ _ _ _ (store_free_effect false c _ Hc
             (maybe_split_header st c _ c Hhdr))).
  rewrite (wrap64_small (c + sizeof_mem_block))
    by (unfold sizeof_mem_block; lia).
  rewrite scribble_effect; [done|unfold NULL, sizeof_mem_block; lia|].
  apply (fill_in_block e sz c st); [done..|].
  unfold mark, maybe_split. by destruct (can_split st c (aligned_size sz)).
Qed.

(** ** Mapping a fresh region *)

(** What the kernel guarantees of the address it returns. *)
Definition fresh_region (st : state) (a len : Z) : Prop :=
  0 < a ∧ a + len < 2 ^ 64 ∧ ∀ x, a ≤ x < a + len → mapped st x = false.

Definition append_result (a rs : Z) (st : state) : state :=
  let h := heap st in
  let empty := bool_decide (g_head st = NULL) && bool_decide (g_tail st = NULL) in
  let tl := g_tail st in
  let h1 := if empty then h else <[tl := with_next a (cur h tl)]> h in
  let h2 := <[a := MemBlock (snprintf32 "Allocation " (g_allocations st))
                    rs true (g_regions st) NULL
                    (if empty then NULL else tl)]> h1 in
  State h2 (λ x, in_range a rs x || mapped st x)
        (if empty then a else g_head st) a
        (wrap64 (g_allocations st + 1)) (wrap64 (g_regions st + 1))
        (g_splits st) (trace st).

Global Arguments append_result : simpl never.

Lemma bind_mmap {B} len a (k : Z → M B) st :
  len ≠ 0 →
  (mmap len (Some a) ≫= k) st
  = k a (set_mapped (λ x, in_range a len x || mapped st x) st).
Proof. intros. unfold mmap, mbind, M_bind. by rewrite decide_False. Qed.

Lemma mmap_fails {B} len os (k : Z → M B) st :
  len = 0 ∨ os = None → (mmap len os ≫= k) st = k MAP_FAILED st.
Proof.
  intros H. unfold mmap, mbind, M_bind. case_decide; [done|].
  by destruct H as [?| ->].
Qed.

Lemma in_range_true a len x : a ≤ x < a + len → in_range a len x = true.
Proof. unfold in_range. intros. apply andb_true_iff. lia. Qed.

Lemma wf_fresh l st a rs b :
  wf l st → fresh_region st a rs → 0 < rs → b ∈ l →
  b + fld size (heap st) b ≤ a ∨ a + rs ≤ b.
Proof.
  intros Hwf (Ha & Htop & Hfr) Hrs Hb.
  pose proof (wf_elem _ _ _ Hwf Hb) as [_ Hpos Hsize _ Hmap _].
  destruct (decide (b + fld size (heap st) b ≤ a)); [by left|].
  destruct (decide (a + rs ≤ b)); [by right|]. exfalso.
  destruct (decide (a ≤ b)).
  - specialize (Hfr b ltac:(lia)). specialize (Hmap b ltac:(lia)). congruence.
  - specialize (Hfr a ltac:(lia)). specialize (Hmap a ltac:(lia)). congruence.
Qed.

Lemma wf_empty_globals l st :
  wf l st →
  bool_decide (g_head st = NULL) && bool_decide (g_tail st = NULL)
  = bool_decide (l = []).
Proof.
  intros Hwf. rewrite (wf_head _ _ Hwf), (wf_tail _ _ Hwf).
  destruct l as [|a l]; [done|]. simpl head. cbn [default].
  assert (a ≠ NULL) by apply (wf_nonnull [] a l st Hwf).
  rewrite (bool_decide_eq_false_2 (a = NULL)) by done.
  by rewrite (bool_decide_eq_false_2 (a :: l = [])).
Qed.

(** ** The fresh region joins the list *)

Lemma append_result_new {A} (f : mem_block → A) a rs st :
  fld f (heap (append_result a rs st)) a =
  f (MemBlock (snprintf32 "Allocation " (g_allocations st)) rs true
       (g_regions st) NULL
       (if bool_decide (g_head st = NULL) && bool_decide (g_tail st = NULL)
        then NULL else g_tail st)).
Proof. unfold append_result. cbn [heap]. by fsimpl. Qed.

Lemma append_result_other a rs st b :
  b ≠ a → is_Some (heap st !! b) →
  same_attrs (heap st) (heap (append_result a rs st)) b ∧
  fld prev (heap (append_result a rs st)) b = fld prev (heap st) b ∧
  (b ≠ g_tail st →
   fld next (heap (append_result a rs st)) b = fld next (heap st) b).
Proof.
  intros Hb Hs. unfold append_result, same_attrs. cbn [heap].
  case_match.
  - fsimpl. rewrite !lookup_insert_is_Some'. auto 10.
  - destruct (decide (g_tail st = b)) as [<-|Hne].
    + fsimpl. rewrite !lookup_insert_is_Some'. split_and!; auto 10. done.
    + fsimpl. rewrite !lookup_insert_is_Some'. auto 10.
Qed.

Lemma append_result_tail a rs st :
  bool_decide (g_head st = NULL) && bool_decide (g_tail st = NULL) = false →
  g_tail st ≠ a →
  fld next (heap (append_result a rs st)) (g_tail st) = a.
Proof.
  intros He Hne. unfold append_result. cbn [heap]. rewrite He. by fsimpl.
Qed.

Lemma append_result_wf l a rs st :
  wf l st → fresh_region st a rs → 104 ≤ rs →
  g_regions st + 1 < 2 ^ 64 →
  wf (l ++ [a]) (append_result a rs st).
Proof.
  intros Hwf Hfr Hrs Hg.
  pose proof (wf_regions _ _ Hwf) as Hg0.
  pose proof (wf_empty_globals _ _ Hwf) as Hempty.
  assert (∀ b, b ∈ l → b ≠ a ∧ is_Some (heap st !! b) ∧ block_ok st b ∧
                       (b + fld size (heap st) b ≤ a ∨ a + rs ≤ b)) as Hel.
  { intros b Hb. pose proof (wf_elem _ _ _ Hwf Hb) as Hok.
    pose proof (wf_fresh _ _ _ _ _ Hwf Hfr ltac:(lia) Hb) as Hd.
    pose proof (bo_size _ _ Hok).
    split_and!; [|apply Hok|done|done]. intros ->. lia. }
  destruct Hfr as (Ha0 & Htop & Hfr).
  assert (g_regions (append_result a rs st) = g_regions st + 1) as Hg'.
  { unfold append_result. cbn [g_regions]. apply wrap64_small. lia. }
  rewrite <-(app_nil_r l) in Hwf.
  apply (wf_splice l [] [a] [] st); try done.
  - intros b Hb. rewrite app_nil_r in Hb.
    destruct (Hel b Hb) as (? & ? & _). by apply append_result_other.
  - intros b Hb.
    destruct (Hel b Hb) as (? & ? & _). by apply append_result_other.
  - intros b Hb Hlast.
    destruct (Hel b Hb) as (? & ? & _). apply append_result_other; [done..|].
    rewrite (wf_tail _ _ Hwf). rewrite !app_nil_r.
    destruct (last l); simpl; [congruence|].
    intros ->. pose proof (bo_pos _ _ (wf_elem _ _ _ Hwf
      ltac:(rewrite app_nil_r; exact Hb))). done.
  - intros b Hb. by apply elem_of_nil in Hb.
  - intros b Hb. by apply elem_of_nil in Hb.
  - intros b x Hb Hx. rewrite app_nil_r in Hb.
    destruct (Hel b Hb) as (? & ? & Hok & _).
    unfold append_result. cbn [mapped].
    rewrite (bo_mapped _ _ Hok x Hx). apply orb_true_r.
  - lia.
  - repeat constructor; set_solver.
  - intros b Hb Hb'. apply list_elem_of_singleton in Hb as ->.
    rewrite app_nil_r in Hb'. by destruct (Hel a Hb') as (? & _).
  - repeat constructor.
    + unfold append_result. cbn [heap]. rewrite lookup_insert_is_Some'.
      by left.
    + done.
    + by rewrite append_result_new.
    + rewrite append_result_new. cbn. lia.
    + rewrite append_result_new. cbn. intros x Hx.
      unfold append_result. cbn [mapped].
      rewrite in_range_true by done. done.
    + rewrite append_result_new. cbn. lia.
    + rewrite append_result_new, Hg'. cbn. lia.
  - cbn [head]. rewrite option_list_None, app_nil_r.
    destruct (last l) as [t|] eqn:Ht; [|done].
    rewrite option_list_Some. cbn [app adjacent]. split; [|done].
    assert (t ∈ l) as Htin by (by apply last_Some_elem_of).
    destruct (Hel t Htin) as (? & ? & _).
    assert (l ≠ []) as Hne by (intros ->; by apply elem_of_nil in Htin).
    rewrite (bool_decide_eq_false_2 (l = [])) in Hempty by done.
    assert (g_tail st = t) as Htl.
    { rewrite (wf_tail _ _ Hwf), app_nil_r, Ht. done. }
    split.
    + rewrite <-Htl. apply append_result_tail; [done|congruence].
    + rewrite append_result_new. cbn. by rewrite Hempty.
  - cbn [head]. rewrite option_list_None, app_nil_r.
    destruct (last l) as [t|] eqn:Ht; [|done].
    rewrite option_list_Some. cbn [app adjacent]. split; [|done].
    assert (t ∈ l) as Htin by (by apply last_Some_elem_of).
    destruct (Hel t Htin) as (? & ? & Hok & _).
    destruct (append_result_other a rs st t) as ((_ & _ & Hr & _) & _);
      [done..|].
    unfold pair_wf. rewrite Hr, append_result_new. cbn.
    pose proof (bo_region _ _ Hok). lia.
  - intros -> b [= <-]. rewrite append_result_new. cbn.
    by rewrite Hempty.
  - intros _ b. rewrite last_snoc. intros [= <-].
    by rewrite append_result_new.
  - unfold append_result. cbn [g_head]. rewrite Hempty. cbn [app].
    rewrite app_nil_r in Hwf. rewrite (wf_head _ _ Hwf).
    destruct l; [done|]. by rewrite bool_decide_eq_false_2.
  - unfold append_result. cbn [g_tail app]. by rewrite last_snoc.
  - intros x y Hx Hy Hxy. apply list_elem_of_singleton in Hx as ->.
    assert (y ∈ l) as Hy'.
    { set_solver. }
    destruct (Hel y Hy') as (? & ? & _ & Hd).
    destruct (append_result_other a rs st y) as ((_ & Hs & _) & _); [done..|].
    unfold disjoint. rewrite Hs, append_result_new. cbn. lia.
Qed.

Lemma malloc_fresh_effect e l a sz st :
  let rs := region_size (pagesize e) sz in
  wf l st → pick e (heap st) (aligned_size sz) l = NULL →
  fresh_region st a rs → 104 ≤ rs → aligned_size sz ≤ rs →
  g_regions st + 1 < 2 ^ 64 → fill_fits e sz →
  malloc e (Some a) sz st =
  Done (a + sizeof_mem_block,
        take e a sz (maybe_split (append_result a rs st) a (aligned_size sz))).
Proof.
  intros rs. assert (region_size (pagesize e) sz = rs) as Hrs_eq by done.
  clearbody rs. intros Hwf Hc Hfr Hrs Has Hg Hfill.
  pose proof (append_result_wf _ _ _ _ Hwf Hfr Hrs Hg) as Hwf'.
  pose proof (aligned_size_range sz) as [Ha _].
  unfold malloc. cbn zeta.
  rewrite (bind_Done _ _ _ _ _ (reuse_effect e l _ st Hwf Ha)).
  rewrite Hc, nonnull_NULL, Hrs_eq.
  rewrite bind_mmap by lia.
  pose proof (wf_empty_globals _ _ Hwf) as Hempty.
  assert (a ≠ NULL ∧ a ≠ MAP_FAILED ∧ 0 < a ∧ a + sizeof_mem_block < 2 ^ 64)
    as (Hnn & Hnf & Hpos & Htop).
  { destruct Hfr as (? & ? & _). unfold NULL, MAP_FAILED, sizeof_mem_block.
    lia. }
  assert (l ≠ [] → g_tail st ≠ NULL ∧ g_tail st ≠ a ∧
                   is_Some (heap st !! g_tail st)) as Htail.
  { intros Hne. rewrite (wf_tail _ _ Hwf).
    destruct (last l) as [t|] eqn:Ht; [|by apply last_None in Ht].
    apply last_Some_elem_of in Ht. cbn [default].
    pose proof (wf_elem _ _ _ Hwf Ht) as Hok.
    pose proof (wf_fresh _ _ _ _ _ Hwf Hfr ltac:(lia) Ht).
    pose proof (bo_size _ _ Hok). pose proof (bo_pos _ _ Hok).
    unfold id. split_and!; [unfold NULL; lia|lia|apply Hok]. }
  assert (in_range a rs a = true ∧ in_range a rs (a + sizeof_mem_block - 1) = true)
    as [Hm1 Hm2].
  { unfold sizeof_mem_block. split; apply in_range_true; lia. }
  rewrite decide_False by done.
  revert Hwf'. unfold append_result. cbn zeta. rewrite Hempty. clear Hwf Hc Hfr.
  open_state st. intros Hwf'.
  assert (writable (State h (λ x, in_range a rs x || m x) hd tl ga gr gs tr) a)
    as Hw.
  { split; [done|right]. cbn [mapped]. by rewrite Hm1, Hm2. }
  destruct (bool_decide (l = [])) eqn:Hl.
  - steps_with ltac:(rewrite Hempty).
    lazymatch goal with
    | |- (_ ≫= _) ?S = _ =>
        lazymatch type of Hwf' with
        | wf _ ?S' =>
            replace S with S' by (apply state_eq; try done; heap_eq);
            set (st' := S') in *
        end
    end.
    assert (fld size (heap st') a = rs) as Hsz
      by (unfold st'; cbn [heap]; by rewrite fld_insert_eq).
    assert (is_Some (heap st' !! a)) as Hhdr
      by (unfold st'; cbn [heap]; rewrite lookup_insert_is_Some'; by left).
    clearbody st'.
    rewrite (bind_Done _ _ _ _ _ (split_block_wf_effect l a [] st' _ Hwf'
               ltac:(rewrite Hsz; done))).
    rewrite (bind_Done _ _ _ _ _ (store_free_effect false a _ Hnn
               (maybe_split_header st' a _ a Hhdr))).
    unfold sizeof_mem_block in *. rewrite wrap64_small by (unfold NULL in *; lia).
    rewrite scribble_effect; [done|unfold NULL in *; lia|].
    apply (fill_in_block e sz a st');
      [done|apply (wf_block_ok _ _ _ _ Hwf')|by rewrite Hsz|].
    unfold mark, maybe_split. by destruct (can_split st' a (aligned_size sz)).
  - apply bool_decide_eq_false in Hl. destruct (Htail Hl) as (Ht1 & Ht2 & Ht3).
    steps_with ltac:(rewrite Hempty).
    lazymatch goal with
    | |- (_ ≫= _) ?S = _ =>
        lazymatch type of Hwf' with
        | wf _ ?S' =>
            replace S with S' by (apply state_eq; try done; heap_eq);
            set (st' := S') in *
        end
    end.
    assert (fld size (heap st') a = rs) as Hsz
      by (unfold st'; cbn [heap]; by rewrite fld_insert_eq).
    assert (is_Some (heap st' !! a)) as Hhdr
      by (unfold st'; cbn [heap]; rewrite lookup_insert_is_Some'; by left).
    clearbody st'.
    rewrite (bind_Done _ _ _ _ _ (split_block_wf_effect l a [] st' _ Hwf'
               ltac:(rewrite Hsz; done))).
    rewrite (bind_Done _ _ _ _ _ (store_free_effect false a _ Hnn
               (maybe_split_header st' a _ a Hhdr))).
    unfold sizeof_mem_block in *. rewrite wrap64_small by (unfold NULL in *; lia).
    rewrite scribble_effect; [done|unfold NULL in *; lia|].
    apply (fill_in_block e sz a st');
      [done|apply (wf_block_ok _ _ _ _ Hwf')|by rewrite Hsz|].
    unfold mark, maybe_split. by destruct (can_split st' a (aligned_size sz)).
Qed.

Lemma malloc_fails_effect e l os sz st :
  wf l st → pick e (heap st) (aligned_size sz) l = NULL →
  region_size (pagesize e) sz = 0 ∨ os = None →
  malloc e os sz st = Done (NULL, emit (Perror "mmap") st).
Proof.
  intros Hwf Hc Hos.
  pose proof (aligned_size_range sz) as [Ha _].
  unfold malloc. cbn zeta.
  rewrite (bind_Done _ _ _ _ _ (reuse_effect e l _ st Hwf Ha)).
  rewrite Hc, nonnull_NULL. by rewrite mmap_fails.
Qed.

Lemma append_result_extra up l a rs st :
  wf l st → extra up never (heap st) l →
  fresh_region st a rs → 104 ≤ rs →
  (up = true → ∀ b, b ∈ l → b + fld size (heap st) b ≤ a) →
  extra up never (heap (append_result a rs st)) (l ++ [a]).
Proof.
  intros Hwf Hex Hfr Hrs Hup.
  assert (∀ b, b ∈ l → same_attrs (heap st) (heap (append_result a rs st)) b)
    as Hattr.
  { intros b Hb. pose proof (wf_elem _ _ _ Hwf Hb) as Hok.
    pose proof (wf_fresh _ _ _ _ _ Hwf Hfr ltac:(lia) Hb).
    pose proof (bo_size _ _ Hok).
    apply append_result_other; [lia|apply Hok]. }
  apply (extra_splice up never never l [] [a] [] (heap st)).
  - by rewrite app_nil_r.
  - intros b Hb. rewrite app_nil_r in Hb. by apply Hattr.
  - done.
  - cbn [head]. rewrite option_list_None, app_nil_r.
    destruct (last l) as [t|] eqn:Ht; [|done].
    rewrite option_list_Some. unfold extra. cbn [app adjacent].
    split; [|done].
    assert (t ∈ l) as Htin by (by apply last_Some_elem_of).
    destruct (Hattr t Htin) as (_ & Hs & Hr & _).
    pose proof (bo_region _ _ (wf_elem _ _ _ Hwf Htin)).
    split.
    + right. unfold pair_nf. rewrite Hr, append_result_new. cbn. lia.
    + intros ->. rewrite Hs. by apply Hup.
Qed.

Lemma scribble_inv up e p n l st : inv up l st → inv up l (scribble e p n st).
Proof.
  intros [Hwf Hex]. unfold scribble. destruct (ALLOCATOR_SCRIBBLE e); [|done].
  split; [|done]. eapply wf_shape; [done| |done..]. by intros a.
Qed.

Lemma extra_never_touching up c h l :
  extra up never h l → extra up (touching c) h l.
Proof.
  unfold extra. apply adjacent_impl. intros x y _ _ [[[]|Hnf] Hup].
  split; [by right|done].
Qed.

(** Taking a free block of the list: it is split when the rest can stand
    as a block of its own, and marked as used. *)
Lemma take_inv up e l1 c l2 sz asz st :
  inv up (l1 ++ c :: l2) st →
  fld free (heap st) c = true → 0 ≤ asz ≤ fld size (heap st) c →
  let st' := take e c sz (maybe_split st c asz) in
  let l' := if can_split st c asz
            then l1 ++ c :: (c + asz) :: l2 else l1 ++ c :: l2 in
  inv up l' st' ∧ fld free (heap st') c = false ∧
  fld size (heap st') c = (if can_split st c asz then asz
                           else fld size (heap st) c).
Proof.
  intros [Hwf Hex] Hfree Hsz. cbn zeta. unfold take, maybe_split.
  pose proof (bo_top _ _ (wf_block_ok _ _ _ _ Hwf)) as Htop.
  pose proof (bo_pos _ _ (wf_block_ok _ _ _ _ Hwf)) as Hpos.
  destruct (can_split st c asz) eqn:Hc.
  - apply can_split_true in Hc as (H1 & H2 & _); [|done|lia].
    split_and!.
    + apply scribble_inv. split.
      * apply mark_wf. by apply split_result_wf.
      * apply mark_extra_used. by apply split_extra.
    + unfold scribble. destruct (ALLOCATOR_SCRIBBLE e); apply mark_free.
    + assert (fld size (heap (mark false c (split_result c asz st))) c = asz)
        as Hs.
      { rewrite (mark_fld size) by done. by apply split_result_block. }
      unfold scribble. by destruct (ALLOCATOR_SCRIBBLE e).
  - split_and!.
    + apply scribble_inv. split.
      * by apply mark_wf.
      * apply mark_extra_used. by apply extra_never_touching.
    + unfold scribble. destruct (ALLOCATOR_SCRIBBLE e); apply mark_free.
    + assert (fld size (heap (mark false c st)) c = fld size (heap st) c)
        as Hs by (by rewrite (mark_fld size)).
      unfold scribble. by destruct (ALLOCATOR_SCRIBBLE e).
Qed.

(** * The list that a walk from the head meets *)

Lemma walk_spec l1 l2 st fuel :
  wf (l1 ++ l2) st → (length l2 ≤ fuel)%nat →
  walk fuel (heap st) (default NULL (head l2)) = l2.
Proof.
  revert l1 fuel. induction l2 as [|x l2 IH]; intros l1 fuel Hwf Hlen.
  - destruct fuel; [done|]. cbn. by rewrite decide_True.
  - destruct fuel as [|fuel]; [cbn in Hlen; lia|].
    pose proof (wf_nonnull _ _ _ _ Hwf) as Hnn.
    pose proof (wf_next _ _ _ _ Hwf) as Hnext.
    destruct (bo_header _ _ (wf_block_ok _ _ _ _ Hwf)) as [b Hb].
    cbn [walk head default]. unfold id. rewrite decide_False by done. rewrite Hb.
    unfold fld, cur in Hnext. rewrite Hb in Hnext. cbn in Hnext.
    rewrite Hnext. f_equal. apply (IH (l1 ++ [x])).
    + by rewrite <-app_assoc.
    + cbn in Hlen. lia.
Qed.

Lemma wf_blocks_eq l st : wf l st → blocks st = l.
Proof.
  intros Hwf. unfold blocks. rewrite (wf_head _ _ Hwf).
  apply (walk_spec [] l); [done|by apply wf_length].
Qed.

(** * malloc keeps the invariant *)

Lemma emit_inv up ev l st : inv up l st → inv up l (emit ev st).
Proof.
  intros [Hwf Hex]. split; [|done].
  eapply wf_shape; [done| |done..]. by intros a.
Qed.

(** What a call of [malloc] is made with: a page size the arithmetic
    is meant for, a region counter that does not wrap around, a debug
    fill that stays inside the block ([fill_fits]: the fill is off, or
    the request is below 2^64 - 107), and a kernel that maps fresh
    memory, above every tracked block when [up] is set. *)
Definition alloc_ok (up : bool) (l : list Z) (st : state)
    (e : env) (os : option Z) (sz : Z) : Prop :=
  pagesize_ok (pagesize e) ∧ g_regions st + 1 < 2 ^ 64 ∧ fill_fits e sz ∧
  ∀ a, os = Some a →
       fresh_region st a (region_size (pagesize e) sz) ∧
       (up = true → ∀ b, b ∈ l → b + fld size (heap st) b ≤ a).

Lemma take_mapped e c sz asz st :
  mapped (take e c sz (maybe_split st c asz)) = mapped st.
Proof.
  unfold take, scribble, maybe_split.
  destruct (ALLOCATOR_SCRIBBLE e), (can_split st c asz); done.
Qed.

(** Where the memory of a region asked from the kernel lies. *)
Definition asked (e : env) (os : option Z) (sz x : Z) : bool :=
  match os with
  | Some a => in_range a (region_size (pagesize e) sz) x
  | None => false
  end.

Lemma malloc_inv up e os sz l st :
  inv up l st → alloc_ok up l st e os sz →
  ∃ r l' st',
    malloc e os sz st = Done (r, st') ∧ inv up l' st' ∧
    (∀ x, mapped st' x = true → mapped st x = true ∨ asked e os sz x = true) ∧
    (r = NULL ∨
     (r - sizeof_mem_block ∈ l' ∧ 0 < r - sizeof_mem_block ∧ r < 2 ^ 64 ∧
      fld free (heap st') (r - sizeof_mem_block) = false ∧
      aligned_size sz ≤ fld size (heap st') (r - sizeof_mem_block))).
Proof.
  intros Hinv (Hps & Hg & Hfill & Hos). pose proof Hinv as [Hwf Hex].
  pose proof (aligned_size_range sz) as [Ha0 Ha1].
  destruct (decide (pick e (heap st) (aligned_size sz) l = NULL)) as [Hc|Hc].
  - destruct os as [a|]; cycle 1.
    { exists NULL, l, (emit (Perror "mmap") st). split_and!.
      - apply (malloc_fails_effect e l); auto.
      - by apply emit_inv.
      - intros x. cbn. auto.
      - by left. }
    destruct (Hos a eq_refl) as [Hfr Hup].
    destruct (region_size_range (pagesize e) sz Hps) as [H0|(H1 & H2 & H3)].
    { exists NULL, l, (emit (Perror "mmap") st). split_and!.
      - apply (malloc_fails_effect e l); auto.
      - by apply emit_inv.
      - intros x. cbn. auto.
      - by left. }
    set (rs := region_size (pagesize e) sz) in *.
    pose proof (append_result_wf _ _ _ _ Hwf Hfr H2 Hg) as Hwf'.
    pose proof (append_result_extra up _ _ _ _ Hwf Hex Hfr H2 Hup) as Hex'.
    assert (fld size (heap (append_result a rs st)) a = rs) as Hsz
      by (by rewrite append_result_new).
    assert (fld free (heap (append_result a rs st)) a = true) as Hfree
      by (by rewrite append_result_new).
    destruct (take_inv up e l a [] sz (aligned_size sz)
                (append_result a rs st) (conj Hwf' Hex') Hfree
                ltac:(rewrite Hsz; lia)) as (Hinv' & Hf' & Hs').
    subst rs. eexists _, _, _. split_and!.
    + apply (malloc_fresh_effect e l); done.
    + exact Hinv'.
    + intros x. rewrite take_mapped. unfold append_result. cbn.
      intros [?|?]%orb_true_iff; auto.
    + right. replace (a + sizeof_mem_block - sizeof_mem_block) with a by lia.
      destruct Hfr as (? & ? & _). unfold sizeof_mem_block.
      split_and!; [|lia|lia|done|].
      * case_match; set_solver.
      * rewrite Hs'. case_match; lia.
  - destruct (pick_fits e (heap st) (aligned_size sz) l) as [?|[Hin Hfit]];
      [done|].
    pose proof (malloc_reuse_effect e os l sz st Hwf Hc Hfill) as Hm.
    set (c := pick e (heap st) (aligned_size sz) l) in *. clearbody c.
    apply fits_size in Hfit as [Hle Hfree].
    pose proof (wf_elem _ _ _ Hwf Hin) as Hok.
    apply list_elem_of_split in Hin as (l1 & l2 & ->).
    destruct (take_inv up e l1 c l2 sz (aligned_size sz) st Hinv Hfree
                ltac:(lia)) as (Hinv' & Hf' & Hs').
    eexists _, _, _. split_and!.
    + exact Hm.
    + exact Hinv'.
    + intros x. rewrite take_mapped. auto.
    + right. replace (c + sizeof_mem_block - sizeof_mem_block) with c by lia.
      pose proof (bo_pos _ _ Hok). pose proof (bo_top _ _ Hok).
      pose proof (bo_size _ _ Hok). unfold sizeof_mem_block.
      split_and!; [|lia|lia|done|].
      * case_match; set_solver.
      * rewrite Hs'. case_match; lia.
Qed.

(** ** malloc_name and calloc *)

Definition rename (nm : string) (b : Z) (st : state) : state :=
  set_heap (<[b := with_name nm (cur (heap st) b)]> (heap st)) st.

Global Arguments rename : simpl never.

Lemma rename_fld {A} (f : mem_block → A) nm b st a :
  (∀ x, f (with_name nm x) = f x) →
  fld f (heap (rename nm b st)) a = fld f (heap st) a.
Proof.
  intros Hf. unfold rename. cbn [heap set_heap]. rewrite fld_insert.
  case_decide; subst; [apply Hf|done].
Qed.

Lemma rename_inv up nm b l st : inv up l st → inv up l (rename nm b st).
Proof.
  intros [Hwf Hex]. split.
  - eapply wf_shape; [done| |done..]. intros a.
    rewrite !rename_fld by done. split_and!; try done.
    unfold rename. cbn [heap set_heap]. rewrite lookup_insert_is_Some'. auto.
  - revert Hex. unfold extra. apply adjacent_impl.
    intros x y _ _ [Hnf Hup]. split.
    + destruct Hnf as [[]|Hnf]. right. unfold pair_nf in *.
      by rewrite !rename_fld.
    + by rewrite rename_fld.
Qed.

Lemma malloc_name_effect e os sz nm r st st' :
  malloc e os sz st = Done (r, st') →
  (r = NULL ∨ (0 < r - sizeof_mem_block ∧ r < 2 ^ 64 ∧
               is_Some (heap st' !! (r - sizeof_mem_block)))) →
  (String.length nm < 32)%nat →
  malloc_name e os sz nm st =
  Done (r, if decide (r = NULL) then st'
           else rename nm (r - sizeof_mem_block) st').
Proof.
  intros Hm Hr Hnm. unfold malloc_name.
  rewrite (bind_Done _ _ _ _ _ Hm).
  destruct (decide (r = NULL)) as [->|Hnull]; [done|].
  destruct Hr as [?|(Hpos & Htop & Hhdr)]; [done|].
  cbn zeta. unfold sizeof_mem_block in *. rewrite wrap64_small by lia.
  rewrite decide_True by done.
  rewrite bind_store by (apply writable_header; [unfold NULL; lia|done]).
  done.
Qed.

Lemma calloc_effect e os nmemb sz r st st' :
  malloc e os (wrap64 (nmemb * sz)) st = Done (r, st') →
  wrap64 (nmemb * sz) = 0 ∨
  (r ≠ NULL ∧ range_mapped st' r (wrap64 (nmemb * sz)) = true) →
  calloc e os nmemb sz st =
  Done (r, emit (Memset r 0 (wrap64 (nmemb * sz))) st').
Proof.
  intros Hm Hr. unfold calloc. rewrite (bind_Done _ _ _ _ _ Hm).
  by rewrite (bind_Done _ _ _ _ _ (memset_ok r 0 _ st' Hr)).
Qed.

(** The missing test in [calloc]: a failed [malloc] is handed to
    [memset] as it is. *)
Lemma calloc_crashes e os nmemb sz st st' :
  malloc e os (wrap64 (nmemb * sz)) st = Done (NULL, st') →
  wrap64 (nmemb * sz) ≠ 0 →
  calloc e os nmemb sz st = Crash.
Proof.
  intros Hm Hn. unfold calloc. rewrite (bind_Done _ _ _ _ _ Hm).
  unfold mbind, M_bind, memset. rewrite decide_False by done.
  by rewrite decide_True.
Qed.

(** * Sequences of calls *)

Inductive op : Type :=
  | Malloc (e : env) (os : option Z) (sz : Z)
  | MallocName (e : env) (os : option Z) (sz : Z) (nm : string)
  | Calloc (e : env) (os : option Z) (nmemb sz : Z)
  | Realloc (e : env) (os : option Z) (ok : bool) (ptr sz : Z)
  | Free (ok : bool) (ptr : Z).

Definition run (o : op) : M Z :=
  match o with
  | Malloc e os sz => malloc e os sz
  | MallocName e os sz nm => malloc_name e os sz nm
  | Calloc e os nmemb sz => calloc e os nmemb sz
  | Realloc e os ok ptr sz => realloc e os ok ptr sz
  | Free ok ptr => free_ ok ptr;; ret NULL
  end.

(** The calls that sequences of operations are made of.  A release,
    or a [realloc], names a block of the list (or NULL).  An allocation
    comes with what [alloc_ok] asks for, and writes inside the block it
    gets: the name given to [malloc_name] has less than 32 characters,
    so that [strcpy] stays inside the array [name]; the zero fill of
    [calloc] and the copy of [realloc] are for a size below 2^64 - 107,
    for which the block has room. *)
Definition op_ok (up : bool) (st : state) (o : op) : Prop :=
  match o with
  | Malloc e os sz => alloc_ok up (blocks st) st e os sz
  | MallocName e os sz nm =>
      alloc_ok up (blocks st) st e os sz ∧ (String.length nm < 32)%nat
  | Calloc e os nmemb sz =>
      alloc_ok up (blocks st) st e os (wrap64 (nmemb * sz)) ∧
      wrap64 (nmemb * sz) + 107 < 2 ^ 64
  | Realloc e os ok ptr sz =>
      (ptr = NULL ∨ ptr - sizeof_mem_block ∈ blocks st) ∧
      alloc_ok up (blocks st) st e os sz ∧
      (ptr = NULL ∨ sz + 107 < 2 ^ 64)
  | Free ok ptr => ptr = NULL ∨ ptr - sizeof_mem_block ∈ blocks st
  end.

Inductive reachable (up : bool) : state → Prop :=
  | reach_init : reachable up initial_state
  | reach_step st o r st' :
      reachable up st → op_ok up st o → run o st = Done (r, st') →
      reachable up st'.

Lemma inv_initial up : inv up [] initial_state.
Proof. split; [apply wf_initial|done]. Qed.

Definition op_asked (o : op) (x : Z) : bool :=
  match o with
  | Malloc e os sz => asked e os sz x
  | MallocName e os sz _ => asked e os sz x
  | Calloc e os nmemb sz => asked e os (wrap64 (nmemb * sz)) x
  | Realloc e os _ _ sz => asked e os sz x
  | Free _ _ => false
  end.

Lemma run_inv up o l st r st' :
  inv up l st → op_ok up st o → run o st = Done (r, st') →
  (∃ l', inv up l' st') ∧
  (∀ x, mapped st' x = true → mapped st x = true ∨ op_asked o x = true).
Proof.
  intros Hinv Hok Hrun. pose proof (wf_blocks_eq _ _ (proj1 Hinv)) as Hl.
  destruct o as [e os sz|e os sz nm|e os nmemb sz|e os ok ptr sz|ok ptr];
    cbn [run op_ok op_asked] in *; rewrite ?Hl in Hok.
  - destruct (malloc_inv up e os sz l st Hinv Hok)
      as (r' & l' & st'' & Hm & Hinv' & Hmap & _).
    rewrite Hm in Hrun. injection Hrun as _ <-. eauto.
  - destruct Hok as [Hok _].
    destruct (malloc_inv up e os sz l st Hinv Hok)
      as (r' & l' & st'' & Hm & Hinv' & Hmap & Hr).
    unfold malloc_name in Hrun.
    rewrite (bind_Done _ _ _ _ _ Hm) in Hrun.
    case_decide as Hnull.
    { injection Hrun as _ <-. eauto. }
    destruct Hr as [?|(Hin & Hpos & Htop & _)]; [done|].
    cbn zeta in Hrun. unfold sizeof_mem_block in *.
    rewrite wrap64_small in Hrun by lia.
    case_decide; [|done].
    rewrite bind_store in Hrun.
    + injection Hrun as _ <-. split; [|done].
      exists l'. by apply (rename_inv up nm (r' - 100)).
    + apply writable_header; [unfold NULL; lia|].
      apply (wf_elem _ _ _ (proj1 Hinv') Hin).
  - destruct Hok as [Hok _].
    destruct (malloc_inv up e os (wrap64 (nmemb * sz)) l st Hinv Hok)
      as (r' & l' & st'' & Hm & Hinv' & Hmap & _).
    unfold calloc in Hrun.
    rewrite (bind_Done _ _ _ _ _ Hm) in Hrun.
    apply bind_inv in Hrun as (u & s & Hset & Hret).
    apply memset_inv in Hset as ->. injection Hret as _ <-.
    split; [|done]. exists l'. by apply emit_inv.
  - destruct Hok as (Hptr & Hok & _). unfold realloc in Hrun.
    destruct (malloc_inv up e os sz l st Hinv Hok)
      as (r' & l' & st'' & Hm & Hinv' & Hmap & _).
    case_decide as Hnull.
    { rewrite Hm in Hrun. injection Hrun as _ <-. eauto. }
    destruct Hptr as [?|Hin]; [done|].
    case_decide as Hzero.
    + destruct (free_inv up l ok (ptr - sizeof_mem_block) st Hinv Hin)
        as (lf & stf & Hf & Hinvf & _ & _ & Hmapf & _).
      replace (ptr - sizeof_mem_block + sizeof_mem_block) with ptr in Hf
        by lia.
      rewrite (bind_Done _ _ _ _ _ Hf) in Hrun.
      injection Hrun as _ <-. eauto.
    + rewrite (bind_Done _ _ _ _ _ Hm) in Hrun.
      apply bind_inv in Hrun as (u & s & Hcpy & Hret).
      apply memcpy_inv in Hcpy as ->. injection Hret as _ <-.
      split; [|done]. exists l'. by apply emit_inv.
  - destruct Hok as [->|Hin].
    { unfold free_ in Hrun. rewrite decide_True in Hrun by done.
      injection Hrun as _ <-. eauto. }
    destruct (free_inv up l ok (ptr - sizeof_mem_block) st Hinv Hin)
      as (l' & st'' & Hf & Hinv' & _ & _ & Hmap & _).
    replace (ptr - sizeof_mem_block + sizeof_mem_block) with ptr in Hf by lia.
    rewrite (bind_Done _ _ _ _ _ Hf) in Hrun.
    injection Hrun as _ <-. eauto.
Qed.

Lemma reachable_inv up st : reachable up st → ∃ l, inv up l st.
Proof.
  induction 1 as [|st o r st' _ [l IH] Hok Hrun].
  - exists []. apply inv_initial.
  - by eapply (run_inv up o l st).
Qed.

(** * Playing a sequence of calls *)

(** A decision procedure for [op_ok] along a concrete sequence of calls:
    [regs] lists the regions the kernel handed out so far, an
    over-approximation of what is mapped. *)
Definition within (regs : list (Z * Z)) (x : Z) : bool :=
  existsb (λ r, in_range r.1 r.2 x) regs.

Definition apart (a len : Z) (r : Z * Z) : bool :=
  (a + len <=? r.1) || (r.1 + r.2 <=? a).

Definition alloc_okb (up : bool) (regs : list (Z * Z)) (st : state)
    (e : env) (os : option Z) (sz : Z) : bool :=
  (104 <=? pagesize e) && (2 ^ 64 mod pagesize e =? 0) &&
  (g_regions st + 1 <? 2 ^ 64) &&
  (negb (ALLOCATOR_SCRIBBLE e) || (sz + 107 <? 2 ^ 64)) &&
  match os with
  | None => true
  | Some a =>
      let rs := region_size (pagesize e) sz in
      (0 <? a) && (a + rs <? 2 ^ 64) && forallb (apart a rs) regs &&
      (negb up ||
       forallb (λ b, b + fld size (heap st) b <=? a) (blocks st))
  end.

Definition op_okb (up : bool) (regs : list (Z * Z)) (st : state)
    (o : op) : bool :=
  match o with
  | Malloc e os sz => alloc_okb up regs st e os sz
  | MallocName e os sz nm =>
      alloc_okb up regs st e os sz && (String.length nm <? 32)%nat
  | Calloc e os nmemb sz =>
      alloc_okb up regs st e os (wrap64 (nmemb * sz))
      && (wrap64 (nmemb * sz) + 107 <? 2 ^ 64)
  | Realloc e os _ ptr sz =>
      ((ptr =? NULL) || existsb (Z.eqb (ptr - sizeof_mem_block)) (blocks st))
      && alloc_okb up regs st e os sz
      && ((ptr =? NULL) || (sz + 107 <? 2 ^ 64))
  | Free _ ptr =>
      (ptr =? NULL) || existsb (Z.eqb (ptr - sizeof_mem_block)) (blocks st)
  end.

Definition region_of (e : env) (os : option Z) (sz : Z) : list (Z * Z) :=
  match os with
  | Some a => [(a, region_size (pagesize e) sz)]
  | None => []
  end.

Definition op_regs (o : op) : list (Z * Z) :=
  match o with
  | Malloc e os sz => region_of e os sz
  | MallocName e os sz _ => region_of e os sz
  | Calloc e os nmemb sz => region_of e os (wrap64 (nmemb * sz))
  | Realloc e os _ _ sz => region_of e os sz
  | Free _ _ => []
  end.

Fixpoint play (up : bool) (regs : list (Z * Z)) (st : state)
    (ops : list op) : option state :=
  match ops with
  | [] => Some st
  | o :: ops' =>
      if op_okb up regs st o then
        match run o st with
        | Done (_, st') => play up (op_regs o ++ regs) st' ops'
        | _ => None
        end
      else None
  end.

(** The state after a sequence of calls from the start of the process. *)
Definition final (up : bool) (ops : list op) : state :=
  default initial_state (play up [] initial_state ops).

Lemma alloc_okb_sound up regs st e os sz :
  (∀ x, mapped st x = true → within regs x = true) →
  alloc_okb up regs st e os sz = true →
  alloc_ok up (blocks st) st e os sz.
Proof.
  intros Hb Hc. unfold alloc_okb in Hc.
  apply andb_true_iff in Hc as [Hc Hos].
  apply andb_true_iff in Hc as [Hc Hfill].
  apply andb_true_iff in Hc as [Hc Hg].
  apply andb_true_iff in Hc as [Hp1 Hp2].
  apply Z.leb_le in Hp1. apply Z.eqb_eq in Hp2. apply Z.ltb_lt in Hg.
  split_and!; [done..| |].
  { apply orb_true_iff in Hfill as [H%negb_true_iff|H%Z.ltb_lt];
      [by left|by right]. }
  intros a ->. cbn zeta in Hos.
  apply andb_true_iff in Hos as [Hos Hup].
  apply andb_true_iff in Hos as [Hos Hreg].
  apply andb_true_iff in Hos as [Ha Htop].
  apply Z.ltb_lt in Ha, Htop. split.
  - split_and!; [done..|]. intros x Hx.
    destruct (mapped st x) eqn:Hm; [|done]. exfalso.
    apply Hb in Hm. unfold within in Hm.
    apply existsb_exists in Hm as (r & Hr & Hin).
    rewrite forallb_forall in Hreg. specialize (Hreg r Hr).
    unfold apart, in_range in *.
    apply andb_true_iff in Hin as [H1%Z.leb_le H2%Z.ltb_lt].
    apply orb_true_iff in Hreg as [H%Z.leb_le|H%Z.leb_le]; lia.
  - intros -> b Hb'. cbn in Hup. rewrite forallb_forall in Hup.
    apply Z.leb_le, Hup. by apply list_elem_of_In.
Qed.

Lemma tracked_sound st ptr :
  (ptr =? NULL) || existsb (Z.eqb (ptr - sizeof_mem_block)) (blocks st) = true →
  ptr = NULL ∨ ptr - sizeof_mem_block ∈ blocks st.
Proof.
  intros [H%Z.eqb_eq|H]%orb_true_iff; [by left|right].
  apply existsb_exists in H as (b & Hin & ->%Z.eqb_eq).
  by apply list_elem_of_In.
Qed.

Lemma op_okb_sound up regs st o :
  (∀ x, mapped st x = true → within regs x = true) →
  op_okb up regs st o = true → op_ok up st o.
Proof.
  intros Hb. destruct o; cbn [op_okb op_ok]; try by apply alloc_okb_sound.
  - intros [H1 H2%Nat.ltb_lt]%andb_true_iff. split; [|done].
    by apply (alloc_okb_sound up regs).
  - intros [H1 H2%Z.ltb_lt]%andb_true_iff. split; [|done].
    by apply (alloc_okb_sound up regs).
  - intros [[H1 H2]%andb_true_iff H3]%andb_true_iff.
    split_and!; [by apply tracked_sound|by apply (alloc_okb_sound up regs)|].
    apply orb_true_iff in H3 as [H%Z.eqb_eq|H%Z.ltb_lt]; [by left|by right].
  - apply tracked_sound.
Qed.

Lemma op_asked_regs o x : op_asked o x = true → within (op_regs o) x = true.
Proof.
  destruct o as [e [a|] sz|e [a|] sz nm|e [a|] nmemb sz|e [a|] ok ptr sz
                |ok ptr];
    cbn; try done; intros ->; done.
Qed.

Lemma play_reachable up ops : ∀ regs st st',
  reachable up st → (∀ x, mapped st x = true → within regs x = true) →
  play up regs st ops = Some st' → reachable up st'.
Proof.
  induction ops as [|o ops IH]; intros regs st st' Hreach Hb Hplay.
  - cbn in Hplay. congruence.
  - cbn [play] in Hplay.
    destruct (op_okb up regs st o) eqn:Hok; [|done].
    apply (op_okb_sound _ _ _ _ Hb) in Hok.
    destruct (run o st) as [[r s1]| |] eqn:Hrun; try done.
    destruct (reachable_inv _ _ Hreach) as [l Hinv].
    destruct (run_inv up o l st r s1 Hinv Hok Hrun) as [_ Hmap].
    apply (IH (op_regs o ++ regs) s1); [by eapply reach_step| |done].
    intros x Hx. unfold within. rewrite existsb_app.
    apply orb_true_iff. destruct (Hmap x Hx) as [?|?].
    + right. by apply Hb.
    + left. by apply op_asked_regs.
Qed.

Definition plays (up : bool) (ops : list op) : bool :=
  match play up [] initial_state ops with Some _ => true | None => false end.

Lemma final_reachable up ops : plays up ops = true → reachable up (final up ops).
Proof.
  unfold plays, final.
  destruct (play up [] initial_state ops) as [st|] eqn:Hst; [|done].
  intros _. by apply (play_reachable up ops [] initial_state); [constructor| |].
Qed.

(** * What a caller can observe of the list *)

(** The list is a doubly-linked chain from [g_head] to [g_tail]. *)
Definition chain (st : state) : Prop :=
  let l := blocks st in
  NoDup l ∧
  g_head st = default NULL (head l) ∧ g_tail st = default NULL (last l) ∧
  adjacent (link (heap st)) l ∧
  (∀ a, head l = Some a → fld prev (heap st) a = NULL) ∧
  (∀ a, last l = Some a → fld next (heap st) a = NULL).

(** Regions follow each other in the order they were mapped, and the
    blocks of one region lie side by side, lowest address first. *)
Definition region_ordered (st : state) : Prop :=
  adjacent (pair_wf (heap st)) (blocks st).

(** Addresses increase strictly along the list. *)
Definition address_ordered (st : state) : Prop :=
  adjacent Z.lt (blocks st).

(** [g_head] is the lowest and [g_tail] the highest tracked address. *)
Definition head_lowest_tail_highest (st : state) : Prop :=
  ∀ b, b ∈ blocks st → g_head st ≤ b ≤ g_tail st.

(** No two blocks of one region that touch are both free. *)
Definition no_free_neighbours (st : state) : Prop :=
  ∀ x y, x ∈ blocks st → y ∈ blocks st →
    y = x + fld size (heap st) x →
    fld region_id (heap st) x = fld region_id (heap st) y →
    ¬ (fld free (heap st) x = true ∧ fld free (heap st) y = true).

Lemma reachable_blocks up st :
  reachable up st → inv up (blocks st) st.
Proof.
  intros [l Hinv]%reachable_inv.
  by rewrite (wf_blocks_eq _ _ (proj1 Hinv)).
Qed.

Lemma wf_chain l st : wf l st → chain st.
Proof.
  intros Hwf. unfold chain. rewrite (wf_blocks_eq _ _ Hwf). cbn zeta.
  destruct Hwf. split_and!; done.
Qed.

(** ** Order of addresses *)

Lemma adjacent_lt_head (x : Z) l :
  adjacent Z.lt (x :: l) → ∀ y, y ∈ l → x < y.
Proof.
  revert x. induction l as [|z l IH]; intros x Hadj y Hy.
  - by apply elem_of_nil in Hy.
  - destruct Hadj as [Hxz Hadj]. apply elem_of_cons in Hy as [->|Hy]; [done|].
    specialize (IH z Hadj y Hy). lia.
Qed.

Lemma adjacent_lt_last (l : list Z) x :
  adjacent Z.lt (l ++ [x]) → ∀ y, y ∈ l → y < x.
Proof.
  induction l as [|z l IH]; intros Hadj y Hy.
  - by apply elem_of_nil in Hy.
  - rewrite <-app_comm_cons in Hadj.
    apply elem_of_cons in Hy as [->|Hy].
    + apply (adjacent_lt_head _ _ Hadj). set_solver.
    + apply adjacent_cons in Hadj as [_ Hadj]. by apply IH.
Qed.

Lemma extra_address_ordered l st :
  wf l st → extra true never (heap st) l → adjacent Z.lt l.
Proof.
  intros Hwf. unfold extra.
  apply adjacent_impl. intros x y Hx _ [_ Hup].
  pose proof (bo_size _ _ (wf_elem _ _ _ Hwf Hx)).
  specialize (Hup eq_refl). lia.
Qed.

Lemma ordered_ends l st :
  wf l st → adjacent Z.lt l → ∀ b, b ∈ l → g_head st ≤ b ≤ g_tail st.
Proof.
  intros Hwf Hadj b Hb. rewrite (wf_head _ _ Hwf), (wf_tail _ _ Hwf). split.
  - destruct l as [|x l]; [by apply elem_of_nil in Hb|]. cbn.
    apply elem_of_cons in Hb as [->|Hb]; [done|].
    pose proof (adjacent_lt_head _ _ Hadj b Hb). lia.
  - destruct l as [|x l _] using rev_ind; [by apply elem_of_nil in Hb|].
    rewrite last_snoc. cbn.
    apply elem_of_app in Hb as [Hb|Hb%list_elem_of_singleton]; [|lia].
    pose proof (adjacent_lt_last _ _ Hadj b Hb). lia.
Qed.

(** ** Blocks of one region *)

Lemma region_mono h x l :
  adjacent (pair_wf h) (x :: l) →
  ∀ y, y ∈ l → fld region_id h x ≤ fld region_id h y.
Proof.
  revert x. induction l as [|z l IH]; intros x Hadj y Hy.
  - by apply elem_of_nil in Hy.
  - destruct Hadj as [[Hxz _] Hadj].
    apply elem_of_cons in Hy as [->|Hy]; [done|].
    specialize (IH z Hadj y Hy). lia.
Qed.

(** Within a region the blocks after [x] start at or above its end, and
    only its successor starts exactly there. *)
Lemma region_after h x l :
  adjacent (pair_wf h) (x :: l) →
  (∀ b, b ∈ x :: l → 0 < fld size h b) →
  ∀ y, y ∈ l → fld region_id h y = fld region_id h x →
  x + fld size h x ≤ y ∧ (y = x + fld size h x → head l = Some y).
Proof.
  revert x. induction l as [|z l IH]; intros x Hadj Hpos y Hy Hreg.
  - by apply elem_of_nil in Hy.
  - pose proof Hadj as [[Hxz Htouch] Hadj'].
    apply elem_of_cons in Hy as [->|Hy].
    { split; [|done]. rewrite Htouch by done. lia. }
    pose proof (region_mono _ _ _ Hadj' y Hy) as Hzy.
    assert (fld region_id h x = fld region_id h z) as Hxz' by lia.
    specialize (Htouch Hxz').
    destruct (IH z Hadj' ltac:(intros; apply Hpos; set_solver) y Hy
                ltac:(lia)) as [Hle _].
    pose proof (Hpos z ltac:(set_solver)). split; [lia|]. intros ->. lia.
Qed.

Lemma inv_no_free_neighbours up l st : inv up l st → no_free_neighbours st.
Proof.
  intros [Hwf Hex] x y. rewrite (wf_blocks_eq _ _ Hwf).
  intros Hx Hy Hxy Hreg.
  assert (∀ b, b ∈ l → 0 < fld size (heap st) b) as Hpos.
  { intros b Hb. pose proof (bo_size _ _ (wf_elem _ _ _ Hwf Hb)). lia. }
  pose proof (Hpos x Hx) as Hposx.
  apply list_elem_of_split in Hx as (l1 & l2 & ->).
  pose proof (wf_pairs _ _ Hwf) as Hpairs.
  apply elem_of_app in Hy as [Hy|Hy].
  - exfalso. apply list_elem_of_split in Hy as (l1a & l1b & ->).
    rewrite <-app_assoc, <-app_comm_cons in Hpairs.
    apply adjacent_app in Hpairs as (_ & Hpairs & _).
    destruct (region_after (heap st) y (l1b ++ x :: l2) Hpairs
                ltac:(intros; apply Hpos; set_solver) x ltac:(set_solver)
                ltac:(done)) as [Hle _].
    pose proof (Hpos y ltac:(set_solver)). lia.
  - apply elem_of_cons in Hy as [->|Hy]; [lia|].
    apply adjacent_app in Hpairs as (_ & Hpairs & _).
    destruct (region_after (heap st) x l2 Hpairs
                ltac:(intros; apply Hpos; set_solver) y Hy ltac:(done))
      as [_ Hhead].
    specialize (Hhead Hxy).
    apply extra_around in Hex as [_ Hn]. destruct (Hn y Hhead) as [Hnf _].
    destruct Hnf as [[]|Hnf]. by apply Hnf.
Qed.

(** * One more call after a sequence *)

Lemma play_last up ops o : ∀ regs st s2,
  reachable up st → (∀ x, mapped st x = true → within regs x = true) →
  play up regs st (ops ++ [o]) = Some s2 →
  ∃ s1, play up regs st ops = Some s1 ∧ op_ok up s1 o.
Proof.
  induction ops as [|o' ops IH]; intros regs st s2 Hreach Hb Hplay.
  - cbn [app play] in *. exists st. split; [done|].
    destruct (op_okb up regs st o) eqn:Hok; [|done].
    by apply (op_okb_sound up regs).
  - cbn [app play] in *.
    destruct (op_okb up regs st o') eqn:Hok; [|done].
    apply (op_okb_sound _ _ _ _ Hb) in Hok.
    destruct (run o' st) as [[r s1]| |] eqn:Hrun; try done.
    destruct (reachable_inv _ _ Hreach) as [l Hinv].
    destruct (run_inv up o' l st r s1 Hinv Hok Hrun) as [_ Hmap].
    apply (IH (op_regs o' ++ regs) s1 s2); [by eapply reach_step| |done].
    intros x Hx. unfold within. rewrite existsb_app.
    apply orb_true_iff. destruct (Hmap x Hx) as [?|?].
    + right. by apply Hb.
    + left. by apply op_asked_regs.
Qed.

(** A call that the play of a sequence accepts at its end is a call the
    program may make in the state the sequence leaves. *)
Lemma plays_op_ok up ops o :
  plays up (ops ++ [o]) = true → op_ok up (final up ops) o.
Proof.
  unfold plays, final.
  destruct (play up [] initial_state (ops ++ [o])) as [s2|] eqn:Hplay;
    [|done].
  intros _.
  destruct (play_last up ops o [] initial_state s2) as (s1 & -> & Hok);
    [constructor|done|done|done].
Qed.

(** * The three ways of malloc *)

(** [malloc] reuses a block, or fails to map, or carves a fresh region;
    the state it leaves is known in each case. *)
Lemma malloc_cases up e os sz l st :
  inv up l st → alloc_ok up l st e os sz →
  (pick e (heap st) (aligned_size sz) l ≠ NULL ∧
   pick e (heap st) (aligned_size sz) l ∈ l ∧
   fits (heap st) (aligned_size sz) (pick e (heap st) (aligned_size sz) l)
   = true ∧
   malloc e os sz st =
   Done (pick e (heap st) (aligned_size sz) l + sizeof_mem_block,
         take e (pick e (heap st) (aligned_size sz) l) sz
           (maybe_split st (pick e (heap st) (aligned_size sz) l)
              (aligned_size sz)))) ∨
  (pick e (heap st) (aligned_size sz) l = NULL ∧
   (os = None ∨ region_size (pagesize e) sz = 0) ∧
   malloc e os sz st = Done (NULL, emit (Perror "mmap") st)) ∨
  (pick e (heap st) (aligned_size sz) l = NULL ∧
   ∃ a, os = Some a ∧ 104 ≤ region_size (pagesize e) sz ∧
        aligned_size sz ≤ region_size (pagesize e) sz ∧
        fresh_region st a (region_size (pagesize e) sz) ∧ a ∉ l ∧
        (up = true → ∀ b, b ∈ l → b + fld size (heap st) b ≤ a) ∧
        malloc e os sz st =
        Done (a + sizeof_mem_block,
              take e a sz
                (maybe_split (append_result a (region_size (pagesize e) sz) st)
                   a (aligned_size sz)))).
Proof.
  intros [Hwf Hex] (Hps & Hg & Hfill & Hos).
  destruct (decide (pick e (heap st) (aligned_size sz) l = NULL)) as [Hc|Hc].
  - right. destruct os as [a|]; cycle 1.
    { left. split_and!; [done|by left|].
      apply (malloc_fails_effect e l); auto. }
    destruct (Hos a eq_refl) as [Hfr Hup].
    destruct (region_size_range (pagesize e) sz Hps) as [H0|(H1 & H2 & H3)].
    { left. split_and!; [done|by right|].
      apply (malloc_fails_effect e l); auto. }
    right. split; [done|]. exists a. split_and!; try done.
    + intros Hin. pose proof (wf_fresh _ _ _ _ _ Hwf Hfr ltac:(lia) Hin).
      pose proof (bo_size _ _ (wf_elem _ _ _ Hwf Hin)). lia.
    + by apply (malloc_fresh_effect e l).
  - left. destruct (pick_fits e (heap st) (aligned_size sz) l)
      as [?|[Hin Hfit]]; [done|].
    split_and!; try done. by apply malloc_reuse_effect.
Qed.

(** * The bytes the list covers *)

(** The bytes of a block, header included. *)
Definition inside (h : gmap Z mem_block) (b x : Z) : Prop :=
  b ≤ x < b + fld size h b.

Definition covered_by (l : list Z) (h : gmap Z mem_block) (x : Z) : Prop :=
  ∃ b, b ∈ l ∧ inside h b x.

(** A byte of some block of the list. *)
Definition covered (st : state) (x : Z) : Prop :=
  covered_by (blocks st) (heap st) x.

(** ** The three statements of merge_block, one after the other *)

(** The state after the first statement. *)
Definition merged_next (st : state) (block : Z) : state :=
  if absorbs_next st block then merge_next_result block st else st.

(** The released block is neither absorbed by its predecessor nor left
    with a neighbour of its region: the [if]/[else if] chain unlinks it
    and calls [munmap]. *)
Definition left_alone (st : state) (block : Z) : bool :=
  negb (absorbed_by_prev (merged_next (mark true block st) block) block) &&
  alone (merged_next (mark true block st) block) block.

Lemma free_result_merged ok block st :
  free_result ok block st
  = (if absorbed_by_prev (merged_next (mark true block st) block) block
     then merge_prev_result block (merged_next (mark true block st) block)
     else if alone (merged_next (mark true block st) block) block
          then unmap_result block ok
                 (unlink_result block
                    (merged_next (mark true block st) block))
          else merged_next (mark true block st) block).
Proof. reflexivity. Qed.

Lemma merged_next_stage l1 block l2 st :
  wf (l1 ++ block :: l2) st →
  ∃ l2', wf (l1 ++ block :: l2') (merged_next st block) ∧
    fld free (heap (merged_next st block)) block = fld free (heap st) block ∧
    mapped (merged_next st block) = mapped st ∧
    trace (merged_next st block) = trace st ∧
    (∀ a, a ∈ l1 ++ l2' →
          a ∈ l1 ++ l2 ∧
          fld size (heap (merged_next st block)) a = fld size (heap st) a) ∧
    (∀ x, inside (heap (merged_next st block)) block x →
          covered_by (block :: l2) (heap st) x).
Proof.
  intros Hwf. unfold merged_next.
  destruct (absorbs_next st block) eqn:Habs; cycle 1.
  { exists l2. split_and!; try done.
    intros x Hx. exists block. split; [left|done]. }
  destruct (absorbs_next_true _ _ _ _ Hwf Habs) as (n & l2' & -> & Hfn & Hrn).
  exists l2'.
  destruct (wf_second _ _ _ _ _ Hwf)
    as (Hn0 & Hnb & Hns & Hnext & _ & Hnn & Hpair & Hnok).
  assert (fld next (heap st) block ≠ block) as Hne1 by (by rewrite Hnext).
  assert (fld next (heap st) (fld next (heap st) block) ≠ block) as Hne2.
  { rewrite Hnext, Hnn. destruct l2' as [|m l2']; cbn.
    - apply not_eq_sym, (wf_nonnull _ _ _ _ Hwf).
    - intros <-. pose proof (wf_nodup _ _ Hwf) as Hnd.
      apply NoDup_app in Hnd as (_ & _ & Hnd).
      apply NoDup_cons in Hnd as [Hnin _]. apply Hnin. right. left. }
  split_and!.
  - by apply (merge_next_result_wf _ _ n).
  - by apply (merge_next_result_free l1 block n l2').
  - done.
  - done.
  - intros a Ha. split.
    + rewrite !elem_of_app, !elem_of_cons in *. tauto.
    + by destruct (merge_next_outer_attrs _ _ _ _ _ a Hwf Ha) as (_ & ? & _).
  - intros x Hx. unfold inside in Hx.
    rewrite (merge_next_result_block size) in Hx by done. cbn in Hx.
    rewrite Hnext in Hx. destruct Hpair as [_ Hadj].
    specialize (Hadj (eq_sym Hrn)).
    destruct (decide (x < block + fld size (heap st) block)).
    + exists block. split; [left|]. unfold inside. lia.
    + exists n. split; [right; left|]. unfold inside. lia.
Qed.

Lemma release_stage l1 block l2 ok s :
  wf (l1 ++ block :: l2) s →
  let s' := if absorbed_by_prev s block then merge_prev_result block s
            else if alone s block
                 then unmap_result block ok (unlink_result block s)
                 else s in
  ∃ l', wf l' s' ∧
    (∀ a, a ∈ l' → a ∈ l1 ++ block :: l2) ∧
    (∀ b x, b ∈ l' → inside (heap s') b x →
            covered_by (l1 ++ block :: l2) (heap s) x) ∧
    (∀ x, mapped s x = true →
          mapped s' x = true ∨ inside (heap s) block x) ∧
    (block ∈ l' → fld free (heap s') block = fld free (heap s) block) ∧
    (absorbed_by_prev s block = false → alone s block = true →
     block ∉ l' ∧ ∀ b, b ∈ l' → ¬ inside (heap s') b block).
Proof.
  intros Hwf. cbn zeta.
  pose proof (wf_nodup _ _ Hwf) as Hnd.
  assert (block ∉ l1 ++ l2) as Hnin.
  { apply NoDup_app in Hnd as (_ & Hd1 & Hd2). apply NoDup_cons in Hd2 as [? _].
    rewrite elem_of_app. intros [H1|H2]; [|done].
    apply (Hd1 _ H1). left. }
  destruct (absorbed_by_prev s block) eqn:Habs.
  - destruct (absorbed_by_prev_true _ _ _ _ Hwf Habs)
      as (l1' & p & -> & Hfp & Hrp).
    rewrite <-app_assoc in Hwf, Hnin. cbn [app] in Hwf, Hnin.
    destruct (wf_second _ _ _ _ _ Hwf)
      as (Hb0 & Hbp & Hbs & Hpn & Hprev & Hnext & Hpair & _).
    assert (fld prev (heap s) block ≠ block) as Hpb by (by rewrite Hprev).
    assert (fld next (heap s) block ≠ fld prev (heap s) block) as Hnp.
    { rewrite Hprev, Hnext. destruct l2 as [|m l2']; cbn.
      - apply not_eq_sym, (wf_nonnull _ _ _ _ Hwf).
      - intros ->. apply NoDup_app in Hnd as (_ & Hd & _). apply (Hd p).
        + apply elem_of_app. right. left.
        + right. left. }
    exists (l1' ++ p :: l2). split_and!.
    + by apply (merge_prev_result_wf _ _ block).
    + intros a. rewrite <-app_assoc. cbn [app].
      rewrite !elem_of_app, !elem_of_cons. tauto.
    + intros b x Hb Hx. rewrite <-app_assoc. cbn [app].
      apply elem_of_app in Hb as [Hb|[->|Hb]%elem_of_cons].
      * destruct (merge_prev_outer_attrs _ _ _ _ _ b Hwf) as (_ & Hs & _).
        { apply elem_of_app. by left. }
        exists b. split; [apply elem_of_app; by left|].
        unfold inside in *. by rewrite Hs in Hx.
      * unfold inside in Hx.
        pose proof (merge_prev_result_p size block s Hpb Hnp) as Hsz.
        rewrite Hprev in Hsz. cbn in Hsz. rewrite Hsz in Hx.
        destruct Hpair as [_ Hadj]. specialize (Hadj Hrp).
        destruct (decide (x < p + fld size (heap s) p)).
        -- exists p. split; [apply elem_of_app; right; left|].
           unfold inside. lia.
        -- exists block. split; [apply elem_of_app; right; right; left|].
           unfold inside. lia.
      * destruct (merge_prev_outer_attrs _ _ _ _ _ b Hwf) as (_ & Hs & _).
        { apply elem_of_app. by right. }
        exists b. split; [apply elem_of_app; right; right; by right|].
        unfold inside in *. by rewrite Hs in Hx.
    + intros x Hx. by left.
    + intros Hin. exfalso. apply Hnin.
      rewrite !elem_of_app, !elem_of_cons in *. tauto.
    + done.
  - destruct (alone s block) eqn:Hal.
    + pose proof (wf_block_ok _ _ _ _ Hwf) as Hbok.
      assert (fld size (heap (unlink_result block s)) block
              = fld size (heap s) block) as Hsz.
      { unfold unlink_result. cbn [heap]. by rewrite fld_insert_eq. }
      exists (l1 ++ l2). split_and!.
      * by apply unlink_unmap_wf.
      * intros a. rewrite !elem_of_app, !elem_of_cons. tauto.
      * intros b x Hb Hx.
        destruct (unlink_unmap_outer_attrs _ _ _ ok _ b Hwf Hb)
          as (_ & Hs & _).
        exists b. split.
        -- rewrite !elem_of_app, !elem_of_cons in *. tauto.
        -- unfold inside in *. by rewrite Hs in Hx.
      * intros x Hx.
        destruct (in_range block (fld size (heap s) block) x) eqn:Hr.
        -- right. unfold in_range in Hr.
           apply andb_true_iff in Hr as [H1%Z.leb_le H2%Z.ltb_lt].
           unfold inside. lia.
        -- left. rewrite unmap_result_mapped by (by rewrite Hsz). done.
      * intros Hin. by destruct (Hnin Hin).
      * intros _ _. split; [done|]. intros b Hb Hx.
        destruct (unlink_unmap_outer_attrs _ _ _ ok _ b Hwf Hb)
          as (_ & Hs & _).
        unfold inside in Hx. rewrite Hs in Hx.
        assert (b ≠ block) as Hne by (intros ->; done).
        assert (b ∈ l1 ++ block :: l2) as Hb'
          by (rewrite !elem_of_app, !elem_of_cons in *; tauto).
        assert (block ∈ l1 ++ block :: l2) as Hblock
          by (apply elem_of_app; right; left).
        pose proof (bo_size _ _ Hbok).
        destruct (wf_disjoint _ _ Hwf b block Hb' Hblock Hne); lia.
    + exists (l1 ++ block :: l2). split_and!; try done.
      * intros b x Hb Hx. by exists b.
      * intros x Hx. by left.
Qed.

(** What a release does to the list, to the bytes it covers and to what
    is mapped. *)
Lemma free_stages l1 block l2 ok st :
  wf (l1 ++ block :: l2) st →
  ∃ l', wf l' (free_result ok block st) ∧
    (∀ a, a ∈ l' → a ∈ l1 ++ block :: l2) ∧
    (∀ b x, b ∈ l' → inside (heap (free_result ok block st)) b x →
            covered_by (l1 ++ block :: l2) (heap st) x) ∧
    (∀ x, mapped st x = true →
          mapped (free_result ok block st) x = true ∨
          covered_by (l1 ++ block :: l2) (heap st) x) ∧
    (block ∈ l' → fld free (heap (free_result ok block st)) block = true) ∧
    (left_alone st block = true →
     block ∉ l' ∧
     ∀ b, b ∈ l' → ¬ inside (heap (free_result ok block st)) b block).
Proof.
  intros Hwf. rewrite free_result_merged.
  pose proof (mark_wf true block _ _ Hwf) as Hwf0.
  destruct (merged_next_stage _ _ _ _ Hwf0)
    as (l2' & Hwf1 & Hf1 & Hm1 & _ & Hs1 & Hin1).
  rewrite mark_free in Hf1.
  set (s1 := merged_next (mark true block st) block) in *.
  destruct (release_stage _ _ _ ok _ Hwf1)
    as (l' & Hwf' & Hsub & Hins & Hmap & Hfree & Halone).
  cbn zeta in *.
  assert (∀ x, covered_by (l1 ++ block :: l2') (heap s1) x →
               covered_by (l1 ++ block :: l2) (heap st) x) as Hcov.
  { intros x (b & Hb & Hx).
    destruct (decide (b = block)) as [->|Hne].
    - destruct (Hin1 x Hx) as (b0 & Hb0 & Hx0). exists b0. split.
      + apply elem_of_app. by right.
      + unfold inside in *. by rewrite (mark_fld size) in Hx0.
    - assert (b ∈ l1 ++ l2') as Hb'
        by (rewrite !elem_of_app, !elem_of_cons in *; tauto).
      destruct (Hs1 b Hb') as [Hb2 Hsz]. exists b. split.
      + rewrite !elem_of_app, !elem_of_cons in *. tauto.
      + unfold inside in *. rewrite Hsz in Hx.
        by rewrite (mark_fld size) in Hx. }
  exists l'. split_and!.
  - done.
  - intros a Ha. specialize (Hsub a Ha).
    destruct (decide (a = block)) as [->|Hne].
    + apply elem_of_app. right. left.
    + assert (a ∈ l1 ++ l2') as Ha'
        by (rewrite !elem_of_app, !elem_of_cons in *; tauto).
      destruct (Hs1 a Ha') as [Ha2 _].
      rewrite !elem_of_app, !elem_of_cons in *. tauto.
  - intros b x Hb Hx. apply Hcov. by apply (Hins b).
  - intros x Hx.
    assert (mapped s1 = mapped st) as Hm1' by (rewrite Hm1; reflexivity).
    destruct (Hmap x) as [?|Hx']; [by rewrite Hm1'|by left|right].
    apply Hcov. exists block. split; [apply elem_of_app; right; left|done].
  - intros Hin. rewrite (Hfree Hin). done.
  - unfold left_alone. fold s1.
    intros [Ha%negb_true_iff Hb]%andb_true_iff. by apply Halone.
Qed.

(** * The claims of the specification *)

(** The environment of the examples: no [ALLOCATOR_ALGORITHM] (first
    fit), no scribbling, pages of 4096 bytes. *)
Definition env0 : env := Env None false 4096.

(** ** C1: order of the list *)

(** Two regions, the second mapped below the first, as a kernel that
    hands out addresses downwards does. *)
Definition two_regions : list op :=
  [Malloc env0 (Some 1000000) 40; Malloc env0 (Some 500000) 5000].

(** C1, as stated, fails: after [malloc(40)] and [malloc(5000)] with the
    second region mapped below the first, the list runs 1000000,
    1000144, 500000, 505104: it is not ordered by address, the head is
    not the lowest block and the tail is not the highest. *)
Lemma C1_counterexample :
  reachable false (final false two_regions) ∧
  blocks (final false two_regions) = [1000000; 1000144; 500000; 505104] ∧
  g_head (final false two_regions) = 1000000 ∧
  g_tail (final false two_regions) = 505104 ∧
  ¬ address_ordered (final false two_regions) ∧
  ¬ head_lowest_tail_highest (final false two_regions).
Proof.
  assert (blocks (final false two_regions)
          = [1000000; 1000144; 500000; 505104]) as Hb
    by (vm_compute; reflexivity).
  assert (g_head (final false two_regions) = 1000000) as Hh
    by (vm_compute; reflexivity).
  split; [apply final_reachable; vm_compute; reflexivity|].
  split; [exact Hb|]. split; [exact Hh|].
  split; [vm_compute; reflexivity|]. split.
  - unfold address_ordered. rewrite Hb. cbn. lia.
  - unfold head_lowest_tail_highest. rewrite Hb, Hh. intros H.
    assert (1000000 ≤ 500000) as Hle; [|lia].
    apply H. do 2 apply list_elem_of_further. apply list_elem_of_here.
Qed.

(** C1, amended: after every sequence of allocations and releases the
    list is a doubly-linked chain from the head to the tail, in which
    regions come in the order they were mapped and the blocks of one
    region lie side by side in increasing address; the whole list is
    strictly ordered by address, with the head lowest and the tail
    highest, when every region was mapped above the blocks tracked at
    that time ([up = true]).  Sequences are made of the calls of
    [op_ok]. *)
Theorem C1_chain_and_order up st :
  reachable up st →
  chain st ∧ region_ordered st ∧
  (up = true → address_ordered st ∧ head_lowest_tail_highest st).
Proof.
  intros [l [Hwf Hex]]%reachable_inv. split_and!.
  - by eapply wf_chain.
  - unfold region_ordered. rewrite (wf_blocks_eq _ _ Hwf). apply Hwf.
  - intros ->. pose proof (extra_address_ordered _ _ Hwf Hex) as Hord.
    unfold address_ordered, head_lowest_tail_highest.
    rewrite (wf_blocks_eq _ _ Hwf). split; [done|].
    by apply ordered_ends.
Qed.

(** Two regions mapped upwards, one block released. *)
Definition two_regions_up : list op :=
  [Malloc env0 (Some 1000000) 40; Malloc env0 (Some 2000000) 5000;
   Free true 1000100].

(** C1, amended, at the state after two regions were mapped upwards and
    a block released. *)
Lemma C1_witness :
  chain (final true two_regions_up) ∧
  region_ordered (final true two_regions_up) ∧
  (true = true → address_ordered (final true two_regions_up) ∧
                 head_lowest_tail_highest (final true two_regions_up)).
Proof.
  apply (C1_chain_and_order true (final true two_regions_up)).
  apply final_reachable. vm_compute. reflexivity.
Defined.

(** ** C2: no two free neighbours *)

(** C2: in every state reached by a sequence of calls ([op_ok]), no
    two blocks of one region that touch are both free.  Every release
    of a tracked block returns in a state where this holds again, and
    the released block is marked free there unless it left the list
    (absorbed by its predecessor, or unlinked with its region); every
    allocation whose debug fill stays inside its block returns in such
    a state too. *)
Theorem C2_no_free_neighbours up st :
  reachable up st →
  no_free_neighbours st ∧
  (∀ ok ptr, op_ok up st (Free ok ptr) →
     ∃ st', free_ ok ptr st = Done (tt, st') ∧ no_free_neighbours st' ∧
            (ptr ≠ NULL →
             ptr - sizeof_mem_block ∉ blocks st' ∨
             fld free (heap st') (ptr - sizeof_mem_block) = true)) ∧
  (∀ e os sz, op_ok up st (Malloc e os sz) →
     ∃ r st', malloc e os sz st = Done (r, st') ∧ no_free_neighbours st').
Proof.
  intros Hinv%reachable_blocks. split_and!.
  - by eapply inv_no_free_neighbours.
  - intros ok ptr [->|Hin].
    + exists st. split_and!; [done| |done]. by eapply inv_no_free_neighbours.
    + destruct (free_inv up _ ok _ st Hinv Hin)
        as (l' & st' & Hf & Hinv' & _ & _ & _ & r & _ & _ & Hst').
      replace (ptr - sizeof_mem_block + sizeof_mem_block) with ptr in Hf
        by lia.
      exists st'. split_and!; [done|by eapply inv_no_free_neighbours|].
      intros _. pose proof Hin as Hin'.
      apply list_elem_of_split in Hin' as (l1 & l2 & Hl).
      destruct Hinv as [Hwf _]. rewrite Hl in Hwf.
      destruct (free_stages _ _ _ ok _ Hwf) as (l'' & Hwf'' & _ & _ & _ & Hfree & _).
      rewrite <-Hst' in Hwf'', Hfree. rewrite (wf_blocks_eq _ _ Hwf'').
      destruct (decide (ptr - sizeof_mem_block ∈ l'')); [right|left]; auto.
  - intros e os sz Hok.
    destruct (malloc_inv up e os sz _ st Hinv Hok)
      as (r & l' & st' & Hm & Hinv' & _).
    exists r, st'. split; [done|]. by eapply inv_no_free_neighbours.
Qed.

(** Three blocks of one region, the outer two released. *)
Definition three_blocks : list op :=
  [Malloc env0 (Some 1000000) 40; Malloc env0 None 40; Malloc env0 None 40;
   Free true 1000100; Free true 1000388].

(** C2 at the state after three allocations and two releases. *)
Lemma C2_witness :
  no_free_neighbours (final false three_blocks) ∧
  (∀ ok ptr, op_ok false (final false three_blocks) (Free ok ptr) →
     ∃ st', free_ ok ptr (final false three_blocks) = Done (tt, st') ∧
            no_free_neighbours st' ∧
            (ptr ≠ NULL →
             ptr - sizeof_mem_block ∉ blocks st' ∨
             fld free (heap st') (ptr - sizeof_mem_block) = true)) ∧
  (∀ e os sz, op_ok false (final false three_blocks) (Malloc e os sz) →
     ∃ r st', malloc e os sz (final false three_blocks) = Done (r, st') ∧
              no_free_neighbours st').
Proof.
  apply (C2_no_free_neighbours false (final false three_blocks)).
  apply final_reachable. vm_compute. reflexivity.
Defined.

(** What a call returned, and the state it left. *)
Definition returned {A} (o : outcome (A * state)) : option A :=
  match o with Done (a, _) => Some a | _ => None end.

Definition state_after {A} (o : outcome (A * state)) : state :=
  match o with Done (_, st) => st | _ => initial_state end.

(** ** C5: realloc *)

Definition one_block : list op := [Malloc env0 (Some 1000000) 40].

(** [realloc(p, 200)] for the [p] that [malloc(40)] returned. *)
Definition grown : outcome (Z * state) :=
  realloc env0 None true 1000100 200 (final false one_block).

(** C5 fails on the code: [p = malloc(40)] has a block of 144 bytes, 44
    of them usable; [realloc(p, 200)] returns a new block and copies 200
    bytes out of [p], past the end of its block, and the block of [p]
    is still marked as used afterwards: it is never released. *)
Theorem C5_realloc_overreads_and_keeps_original :
  reachable false (final false one_block) ∧
  blocks (final false one_block) = [1000000; 1000144] ∧
  fld size (heap (final false one_block)) 1000000 = 144 ∧
  returned grown = Some 1000244 ∧
  trace (state_after grown) = [Memcpy 1000244 1000100 200] ∧
  blocks (state_after grown) = [1000000; 1000144; 1000448] ∧
  fld free (heap (state_after grown)) 1000000 = false.
Proof.
  split; [apply final_reachable; vm_compute; reflexivity|].
  repeat split; vm_compute; reflexivity.
Qed.

(** ** C6: best fit *)

Definition env_best : env := Env (Some "best_fit") false 4096.

(** A block of 4 GiB and a small one in one region; the large one is
    released. *)
Definition large_block_released : list op :=
  [Malloc env_best (Some 2000000) (2 ^ 32); Malloc env_best None 40;
   Free true 2000100].

(** C6 fails on the code: the list holds one free block of 4294967400
    bytes, which is enough for a request of 5104, and [best_fit(5104)]
    still returns no candidate: the difference 4294962296 is not below
    the starting value [INT_MAX] of [best_size]. *)
Theorem C6_best_fit_misses_large_block :
  reachable false (final false large_block_released) ∧
  blocks (final false large_block_released)
  = [2000000; 4296967400; 4296967544] ∧
  fld free (heap (final false large_block_released)) 2000000 = true ∧
  fld size (heap (final false large_block_released)) 2000000 = 4294967400 ∧
  fits (heap (final false large_block_released)) 5104 2000000 = true ∧
  returned (best_fit 5104 (final false large_block_released)) = Some NULL.
Proof.
  split; [apply final_reachable; vm_compute; reflexivity|].
  repeat split; vm_compute; reflexivity.
Qed.

(** ** C8: a mapping that fails *)

(** C8 holds for [malloc] and [malloc_name] and fails for [calloc]: when
    no block can be reused and the kernel maps nothing, [malloc] and
    [malloc_name] report the failure and return NULL in a state whose
    list is untouched, and [calloc], for a product that is not zero,
    hands the NULL to [memset]: an invalid access. *)
Theorem C8_failed_mapping up st e sz nm nmemb sz' :
  reachable up st →
  pick e (heap st) (aligned_size sz) (blocks st) = NULL →
  pick e (heap st) (aligned_size (wrap64 (nmemb * sz'))) (blocks st) = NULL →
  wrap64 (nmemb * sz') ≠ 0 →
  malloc e None sz st = Done (NULL, emit (Perror "mmap") st) ∧
  malloc_name e None sz nm st = Done (NULL, emit (Perror "mmap") st) ∧
  blocks (emit (Perror "mmap") st) = blocks st ∧
  heap (emit (Perror "mmap") st) = heap st ∧
  calloc e None nmemb sz' st = Crash.
Proof.
  intros [Hwf _]%reachable_blocks Hc Hc' Hn.
  pose proof (malloc_fails_effect e _ None sz st Hwf Hc (or_intror eq_refl))
    as Hm.
  split_and!; [done| |done|done|].
  - unfold malloc_name. rewrite (bind_Done _ _ _ _ _ Hm).
    by rewrite decide_True.
  - eapply calloc_crashes; [|done].
    by apply (malloc_fails_effect e (blocks st)); [| |right].
Qed.

(** C8 at the state after one allocation, for requests of 5000 bytes
    that no free block can hold. *)
Lemma C8_witness :
  malloc env0 None 5000 (final false one_block)
  = Done (NULL, emit (Perror "mmap") (final false one_block)) ∧
  malloc_name env0 None 5000 "buffer" (final false one_block)
  = Done (NULL, emit (Perror "mmap") (final false one_block)) ∧
  blocks (emit (Perror "mmap") (final false one_block))
  = blocks (final false one_block) ∧
  heap (emit (Perror "mmap") (final false one_block))
  = heap (final false one_block) ∧
  calloc env0 None 50 100 (final false one_block) = Crash.
Proof.
  apply (C8_failed_mapping false (final false one_block) env0 5000 "buffer"
           50 100).
  - apply final_reachable. vm_compute. reflexivity.
  - vm_compute. reflexivity.
  - vm_compute. reflexivity.
  - vm_compute. discriminate.
Defined.

(** ** C4: what a split leaves *)

Lemma take_unsplit e c sz st :
  can_split st c (aligned_size sz) = false →
  heap (take e c sz (maybe_split st c (aligned_size sz)))
  = <[c := with_free false (cur (heap st) c)]> (heap st).
Proof.
  intros Hc. unfold take, maybe_split, scribble, mark. rewrite Hc.
  by destruct (ALLOCATOR_SCRIBBLE e).
Qed.

(** The scenario of the specification: A and B are allocated, A is
    released. *)
Definition first_released (e : env) : list op :=
  [Malloc e (Some 1000000) 40; Malloc e None 40; Free true 1000100].

Lemma first_released_blocks :
  blocks (final false (first_released env0)) = [1000000; 1000144; 1000288].
Proof. vm_compute. reflexivity. Qed.

(** C4, as stated, fails for a target larger than the block: the rest
    that would be left is below the threshold (it is negative), and
    [split_block] does not refuse, because the difference is taken in
    [size_t] and wraps around.  For A's released block of 144 bytes and
    a target of 200, [split_block] returns 1000200, an address inside
    the block of B, where it has set up a free block of 2^64 - 56
    bytes, and A's block is given 200 bytes. *)
Lemma C4_counterexample :
  reachable false (final false (first_released env0)) ∧
  fld free (heap (final false (first_released env0))) 1000000 = true ∧
  fld size (heap (final false (first_released env0))) 1000000 = 144 ∧
  returned (split_block 1000000 200 (final false (first_released env0)))
  = Some 1000200 ∧
  fld size
    (heap (state_after (split_block 1000000 200
                          (final false (first_released env0))))) 1000000
  = 200 ∧
  fld size
    (heap (state_after (split_block 1000000 200
                          (final false (first_released env0))))) 1000200
  = 2 ^ 64 - 56 ∧
  fld free
    (heap (state_after (split_block 1000000 200
                          (final false (first_released env0))))) 1000200
  = true.
Proof.
  split; [apply final_reachable; vm_compute; reflexivity|].
  repeat split; vm_compute; reflexivity.
Qed.

(** C4, amended: for a tracked block and a target that is not larger
    than the block, [split_block] refuses, returning NULL and changing
    nothing, when the block is not free or the rest would be below 104
    bytes; when it does split, the new free block is the rest and has
    at least 104 bytes; and a candidate that cannot be split is
    returned by [reuse] as it is, so that [malloc], called with a debug
    fill that stays inside the block, takes it whole, at its original
    size. *)
Theorem C4_split_minimality up st block sz :
  reachable up st → block ∈ blocks st →
  0 ≤ sz ≤ fld size (heap st) block →
  (fld free (heap st) block = false ∨ fld size (heap st) block - sz < 104 →
   split_block block sz st = Done (NULL, st)) ∧
  (∃ r st',
     split_block block sz st = Done (r, st') ∧
     (r = NULL ∧ st' = st ∨
      r = block + sz ∧ fld free (heap st') r = true ∧
      fld size (heap st') r = fld size (heap st) block - sz ∧
      104 ≤ fld size (heap st') r ∧ fld size (heap st') block = sz)) ∧
  (∀ e, pick e (heap st) sz (blocks st) = block →
        can_split st block sz = false →
        reuse e sz st = Done (block, st)) ∧
  (∀ e os n, aligned_size n = sz → fill_fits e n →
        pick e (heap st) sz (blocks st) = block →
        can_split st block sz = false →
        ∃ st', malloc e os n st = Done (block + sizeof_mem_block, st') ∧
               blocks st' = blocks st ∧
               fld free (heap st') block = false ∧
               fld size (heap st') block = fld size (heap st) block).
Proof.
  intros [Hwf Hex]%reachable_blocks Hin Hsz.
  pose proof (wf_elem _ _ _ Hwf Hin) as Hok.
  pose proof (bo_top _ _ Hok) as Htop. pose proof (bo_pos _ _ Hok) as Hpos.
  assert (block ≠ NULL) as Hnn by (unfold NULL; lia).
  pose proof Hin as Hin'.
  apply list_elem_of_split in Hin' as (l1 & l2 & Hl).
  rewrite Hl in Hwf, Hex.
  pose proof (split_block_wf_effect _ _ _ _ sz Hwf Hsz) as Hsplit.
  split_and!.
  - intros Hor. apply split_block_refuses; [done|apply Hok|].
    unfold can_split. rewrite wrap64_small by lia.
    destruct Hor as [->|Hlt].
    + by rewrite andb_false_r.
    + apply andb_false_iff. right. apply negb_false_iff, Z.ltb_lt. lia.
  - eexists _, _. split; [exact Hsplit|]. unfold maybe_split.
    destruct (can_split st block sz) eqn:Hc; [right|by left].
    apply can_split_true in Hc as (H1 & H2 & Hfree); [|done|lia].
    assert (block ≠ block + sz) as Hne by lia.
    rewrite !(split_result_new _ _ _ _ Hne), split_result_block. cbn.
    split_and!; [done|done|done|lia|done].
  - intros e He Hc. rewrite (reuse_effect e _ sz st Hwf (proj1 Hsz)).
    rewrite <-Hl, He, (nonnull_true _ Hnn). unfold maybe_split.
    by rewrite Hc.
  - intros e os n <- Hfill He Hc.
    assert (pick e (heap st) (aligned_size n) (l1 ++ block :: l2) ≠ NULL)
      as Hp by (rewrite <-Hl, He; done).
    pose proof (malloc_reuse_effect e os _ n st Hwf Hp Hfill) as Hm.
    rewrite <-Hl, He in Hm. eexists. split; [exact Hm|].
    destruct (take_inv up e l1 block l2 n (aligned_size n) st
                (conj Hwf Hex)) as ([Hwf' _] & Hf & Hs).
    { destruct (pick_fits e (heap st) (aligned_size n) (blocks st))
        as [Hnull|[_ Hfit]]; rewrite He in *; [done|].
      by apply fits_size in Hfit as [_ ?]. }
    { done. }
    rewrite Hc in Hwf', Hs. split_and!; [|done|done].
    by rewrite (wf_blocks_eq _ _ Hwf').
Qed.

(** C4, amended, at A's released block of 144 bytes and a target of 104: the rest
    of 40 bytes is too small. *)
Lemma C4_witness :
  (fld free (heap (final false (first_released env0))) 1000000 = false ∨
   fld size (heap (final false (first_released env0))) 1000000 - 104 < 104 →
   split_block 1000000 104 (final false (first_released env0))
   = Done (NULL, final false (first_released env0))) ∧
  (∃ r st',
     split_block 1000000 104 (final false (first_released env0))
     = Done (r, st') ∧
     (r = NULL ∧ st' = final false (first_released env0) ∨
      r = 1000000 + 104 ∧ fld free (heap st') r = true ∧
      fld size (heap st') r
      = fld size (heap (final false (first_released env0))) 1000000 - 104 ∧
      104 ≤ fld size (heap st') r ∧ fld size (heap st') 1000000 = 104)) ∧
  (∀ e, pick e (heap (final false (first_released env0))) 104
          (blocks (final false (first_released env0))) = 1000000 →
        can_split (final false (first_released env0)) 1000000 104 = false →
        reuse e 104 (final false (first_released env0))
        = Done (1000000, final false (first_released env0))) ∧
  (∀ e os n, aligned_size n = 104 → fill_fits e n →
        pick e (heap (final false (first_released env0))) 104
          (blocks (final false (first_released env0))) = 1000000 →
        can_split (final false (first_released env0)) 1000000 104 = false →
        ∃ st', malloc e os n (final false (first_released env0))
               = Done (1000000 + sizeof_mem_block, st') ∧
               blocks st' = blocks (final false (first_released env0)) ∧
               fld free (heap st') 1000000 = false ∧
               fld size (heap st') 1000000
               = fld size (heap (final false (first_released env0))) 1000000).
Proof.
  apply (C4_split_minimality false (final false (first_released env0))
           1000000 104).
  - apply final_reachable. vm_compute. reflexivity.
  - rewrite first_released_blocks. apply list_elem_of_here.
  - replace (fld size (heap (final false (first_released env0))) 1000000)
      with 144 by (vm_compute; reflexivity).
    lia.
Defined.

(** ** C9: which block is reused *)

Definition env_worst : env := Env (Some "worst_fit") false 4096.

Lemma first_fit_list_first h sz l1 a l2 :
  (∀ b, b ∈ l1 → fits h sz b = false) → fits h sz a = true →
  first_fit_list h sz (l1 ++ a :: l2) = a.
Proof.
  intros Hl1 Ha. induction l1 as [|x l1 IH]; cbn.
  - by rewrite Ha.
  - rewrite (Hl1 x) by apply list_elem_of_here. apply IH.
    intros b Hb. apply Hl1. by apply list_elem_of_further.
Qed.

Lemma worst_fit_list_none h sz l w ws :
  (∀ b, b ∈ l → fits h sz b = false) → worst_fit_list h sz l w ws = w.
Proof.
  revert w ws. induction l as [|x l IH]; intros w ws Hl; cbn; [done|].
  rewrite (Hl x) by apply list_elem_of_here. apply IH.
  intros b Hb. apply Hl. by apply list_elem_of_further.
Qed.

Lemma worst_fit_list_sole h sz l1 a l2 :
  (∀ b, b ∈ l1 → fits h sz b = false) →
  (∀ b, b ∈ l2 → fits h sz b = false) →
  fits h sz a = true → fld size h a - sz < 2 ^ 63 →
  worst_fit_list h sz (l1 ++ a :: l2) NULL INT_MIN = a.
Proof.
  intros Hl1 Hl2 Ha Hlt. induction l1 as [|x l1 IH]; cbn.
  - rewrite Ha. apply fits_size in Ha as [Hle _].
    rewrite wrap64_small by lia. unfold to_ssize.
    assert (fld size h a - sz <? 2 ^ 63 = true) as -> by (apply Z.ltb_lt; lia).
    assert (INT_MIN <? fld size h a - sz = true) as ->
      by (apply Z.ltb_lt; unfold INT_MIN; lia).
    by apply worst_fit_list_none.
  - rewrite (Hl1 x) by apply list_elem_of_here. apply IH.
    intros b Hb. apply Hl1. by apply list_elem_of_further.
Qed.

(** C9: a request, made with a debug fill that stays inside the block,
    is served from block A and returns A's data address, under first
    fit when A is the first block of the list that is free and large
    enough (as in the scenario: A, B allocated, A released), and under
    worst fit when A is the only such block. *)
Theorem C9_reuse_of_released_block up st e os sz l1 A l2 :
  reachable up st → blocks st = l1 ++ A :: l2 → fill_fits e sz →
  fits (heap st) (aligned_size sz) A = true →
  (∀ b, b ∈ l1 → fits (heap st) (aligned_size sz) b = false) →
  default "first_fit" (ALLOCATOR_ALGORITHM e) = "first_fit" ∨
  (default "first_fit" (ALLOCATOR_ALGORITHM e) = "worst_fit" ∧
   (∀ b, b ∈ l2 → fits (heap st) (aligned_size sz) b = false) ∧
   fld size (heap st) A - aligned_size sz < 2 ^ 63) →
  ∃ st', malloc e os sz st = Done (A + sizeof_mem_block, st') ∧
         fld free (heap st') A = false.
Proof.
  intros [Hwf Hex]%reachable_blocks Hl Hfill Hfit Hl1 Halgo.
  rewrite Hl in Hwf, Hex.
  assert (pick e (heap st) (aligned_size sz) (l1 ++ A :: l2) = A) as Hpick.
  { unfold pick. cbn zeta. destruct Halgo as [->|(-> & Hl2 & Hlt)]; cbn.
    - by apply first_fit_list_first.
    - by apply worst_fit_list_sole. }
  pose proof (wf_nonnull _ _ _ _ Hwf) as Hnn.
  pose proof (malloc_reuse_effect e os _ sz st Hwf) as Hm.
  rewrite Hpick in Hm. eexists. split; [by apply Hm|].
  pose proof (aligned_size_range sz) as [Ha0 _].
  pose proof Hfit as [Hle Hfree]%fits_size.
  by destruct (take_inv up e l1 A l2 sz (aligned_size sz) st (conj Hwf Hex)
                 Hfree (conj Ha0 Hle)) as (_ & Hf & _).
Qed.

(** A region filled up to the two blocks of the scenario: after
    [malloc(3708)], A and B are the last 288 bytes of the page, and
    the release of A leaves one free block. *)
Definition sole_candidate : list op :=
  [Malloc env_worst (Some 1000000) 3708; Malloc env_worst None 40;
   Malloc env_worst None 40; Free true 1003908].

(** C9 at the scenario under first fit, and under worst fit where A is
    the only free block: both requests are served from A. *)
Lemma C9_witness :
  (∃ st', malloc env0 None 40 (final false (first_released env0))
          = Done (1000000 + sizeof_mem_block, st') ∧
          fld free (heap st') 1000000 = false) ∧
  (∃ st', malloc env_worst None 40 (final false sole_candidate)
          = Done (1003808 + sizeof_mem_block, st') ∧
          fld free (heap st') 1003808 = false).
Proof.
  split.
  - apply (C9_reuse_of_released_block false
             (final false (first_released env0))
             env0 None 40 [] 1000000 [1000144; 1000288]).
    + apply final_reachable. vm_compute. reflexivity.
    + exact first_released_blocks.
    + left. reflexivity.
    + vm_compute. reflexivity.
    + intros b Hb. by apply elem_of_nil in Hb.
    + left. reflexivity.
  - apply (C9_reuse_of_released_block false (final false sole_candidate)
             env_worst None 40 [1000000] 1003808 [1003952]).
    + apply final_reachable. vm_compute. reflexivity.
    + vm_compute. reflexivity.
    + left. reflexivity.
    + vm_compute. reflexivity.
    + intros b Hb. apply list_elem_of_singleton in Hb. subst b.
      vm_compute. reflexivity.
    + right. split_and!.
      * reflexivity.
      * intros b Hb. apply list_elem_of_singleton in Hb. subst b.
        vm_compute. reflexivity.
      * replace (fld size (heap (final false sole_candidate)) 1003808)
          with 144 by (vm_compute; reflexivity).
        replace (aligned_size 40) with 144 by (vm_compute; reflexivity).
        lia.
Defined.

(** ** C10: a request of zero bytes *)

Lemma aligned_size_zero : aligned_size 0 = 104.
Proof. reflexivity. Qed.

Lemma region_size_zero p : 104 ≤ p < 2 ^ 64 → region_size p 0 = p.
Proof.
  intros Hp. unfold region_size, num_pages. rewrite aligned_size_zero.
  destruct (decide (p = 104)) as [->|Hne]; [reflexivity|].
  rewrite Z.mod_small, Z.div_small by lia.
  rewrite decide_True by done. rewrite Z.add_0_l.
  rewrite (wrap64_small 1) by lia. rewrite Z.mul_1_l.
  apply wrap64_small; lia.
Qed.

Lemma take_trace e c sz asz st :
  trace (take e c sz (maybe_split st c asz))
  = (if ALLOCATOR_SCRIBBLE e then [Memset (c + sizeof_mem_block) 170 sz]
     else []) ++ trace st.
Proof.
  unfold take, scribble, maybe_split.
  destruct (ALLOCATOR_SCRIBBLE e), (can_split st c asz); done.
Qed.

Lemma cannot_split_small st c :
  fld free (heap st) c = true → 104 ≤ fld size (heap st) c < 2 ^ 64 →
  can_split st c 104 = false → fld size (heap st) c < 208.
Proof.
  intros Hf Hs Hc. unfold can_split in Hc. rewrite Hf in Hc.
  rewrite wrap64_small in Hc by lia. cbn in Hc.
  apply negb_false_iff, Z.ltb_lt in Hc. lia.
Qed.

(** C10, as stated, fails: after A and B were allocated and A released,
    [malloc(0)] reuses A's block, which is too small to be split, and
    the block it returns has 144 bytes, not 104. *)
Lemma C10_counterexample :
  reachable false (final false (first_released env0)) ∧
  returned (malloc env0 None 0 (final false (first_released env0)))
  = Some 1000100 ∧
  fld size
    (heap (state_after (malloc env0 None 0
                          (final false (first_released env0))))) 1000000
  = 144.
Proof.
  split; [apply final_reachable; vm_compute; reflexivity|].
  split; vm_compute; reflexivity.
Qed.

(** C10, amended: [malloc(0)] asks for 104 bytes, header included. It
    returns NULL exactly when the strategy finds no block of 104 bytes
    and the kernel maps nothing; otherwise it returns the data address
    of a used block of at least 104 bytes, and the debug fill, when
    configured, is a [memset] of zero bytes. The block has exactly 104
    bytes when it is split off a block of 208 bytes or more; a smaller
    block, reused or freshly mapped, is taken whole. *)
Theorem C10_malloc_zero up st e os :
  reachable up st → op_ok up st (Malloc e os 0) → pagesize e < 2 ^ 31 →
  aligned_size 0 = 104 ∧
  ∃ r st',
    malloc e os 0 st = Done (r, st') ∧
    (r = NULL ↔
     pick e (heap st) (aligned_size 0) (blocks st) = NULL ∧ os = None) ∧
    (r ≠ NULL →
     r - sizeof_mem_block ∈ blocks st' ∧
     fld free (heap st') (r - sizeof_mem_block) = false ∧
     104 ≤ fld size (heap st') (r - sizeof_mem_block) ∧
     trace st'
     = (if ALLOCATOR_SCRIBBLE e then [Memset r 170 0] else []) ++ trace st ∧
     (fld size (heap st') (r - sizeof_mem_block) = 104 ∨
      fld size (heap st') (r - sizeof_mem_block) < 208 ∧
      (r - sizeof_mem_block ∈ blocks st →
       fld size (heap st') (r - sizeof_mem_block)
       = fld size (heap st) (r - sizeof_mem_block)) ∧
      (r - sizeof_mem_block ∉ blocks st →
       fld size (heap st') (r - sizeof_mem_block) = pagesize e))).
Proof.
  intros Hinv%reachable_blocks Hok Hps. split; [reflexivity|].
  cbn [op_ok] in Hok. destruct Hok as (Hpok & Hg & Hfill & Hos).
  pose proof Hinv as [Hwf Hex]. set (l := blocks st) in *.
  assert (region_size (pagesize e) 0 = pagesize e) as Hrs.
  { apply region_size_zero. destruct Hpok. lia. }
  rewrite Hrs in Hos.
  destruct (decide (pick e (heap st) (aligned_size 0) l = NULL)) as [Hc|Hc].
  - destruct os as [a|]; cycle 1.
    { eexists _, _. split; [by apply (malloc_fails_effect e l); auto|].
      split; [split; done|done]. }
    destruct (Hos a eq_refl) as [Hfr Hup]. destruct Hpok as [Hp104 _].
    pose proof (append_result_wf _ _ _ _ Hwf Hfr Hp104 Hg) as Hwf'.
    pose proof (append_result_extra up _ _ _ _ Hwf Hex Hfr Hp104 Hup) as Hex'.
    set (st1 := append_result a (pagesize e) st) in *.
    assert (fld size (heap st1) a = pagesize e) as Hsz
      by (unfold st1; by rewrite append_result_new).
    assert (fld free (heap st1) a = true) as Hfree
      by (unfold st1; by rewrite append_result_new).
    assert (a ∉ l) as Hnin.
    { intros Hin. pose proof (wf_fresh _ _ _ _ _ Hwf Hfr ltac:(lia) Hin).
      pose proof (bo_size _ _ (wf_elem _ _ _ Hwf Hin)). lia. }
    destruct (take_inv up e l a [] 0 104 st1 (conj Hwf' Hex') Hfree
                ltac:(rewrite Hsz; lia)) as ([Hwf2 _] & Hf2 & Hs2).
    cbn zeta in Hwf2, Hf2, Hs2.
    eexists _, _. split.
    { apply (malloc_fresh_effect e l); rewrite ?Hrs; try done;
        cbn; lia. }
    rewrite Hrs, aligned_size_zero. fold st1.
    destruct Hfr as (Hpos & _).
    split; [split; [unfold NULL, sizeof_mem_block; lia|by intros [_ [=]]]|].
    intros _.
    replace (a + sizeof_mem_block - sizeof_mem_block) with a by lia.
    rewrite (wf_blocks_eq _ _ Hwf2), Hf2, Hs2, take_trace.
    split_and!; [|done| | |].
    + case_match; rewrite !elem_of_app, !elem_of_cons; auto.
    + case_match; lia.
    + unfold st1, append_result. done.
    + destruct (can_split st1 a 104) eqn:Hcs; [by left|right].
      apply cannot_split_small in Hcs; [|done|rewrite Hsz; lia].
      split_and!; [lia|done|done].
  - destruct (pick_fits e (heap st) (aligned_size 0) l) as [?|[Hin Hfit]];
      [done|].
    pose proof (malloc_reuse_effect e os l 0 st Hwf Hc Hfill) as Hm.
    rewrite aligned_size_zero in *.
    set (c := pick e (heap st) 104 l) in *. clearbody c.
    apply fits_size in Hfit as [Hle Hfree].
    pose proof (wf_elem _ _ _ Hwf Hin) as Hbok.
    pose proof (bo_top _ _ Hbok). pose proof (bo_pos _ _ Hbok).
    pose proof Hin as Hin'.
    apply list_elem_of_split in Hin' as (l1 & l2 & Hl).
    rewrite Hl in Hinv.
    destruct (take_inv up e l1 c l2 0 104 st Hinv Hfree ltac:(lia))
      as ([Hwf2 _] & Hf2 & Hs2).
    cbn zeta in Hwf2, Hf2, Hs2.
    eexists _, _. split; [exact Hm|].
    split; [split; [unfold NULL, sizeof_mem_block; lia|by intros [? _]]|].
    intros _.
    replace (c + sizeof_mem_block - sizeof_mem_block) with c by lia.
    rewrite (wf_blocks_eq _ _ Hwf2), Hf2, Hs2, take_trace.
    split_and!; [|done| |done|].
    + case_match; rewrite !elem_of_app, !elem_of_cons; auto.
    + case_match; lia.
    + destruct (can_split st c 104) eqn:Hcs; [by left|right].
      apply cannot_split_small in Hcs; [|done|lia].
      split_and!; [lia|done|done].
Qed.

(** C10, amended, at the state where A was released: the kernel maps
    nothing, A's block is found, and the call does not return NULL. *)
Lemma C10_witness :
  aligned_size 0 = 104 ∧
  ∃ r st',
    malloc env0 None 0 (final false (first_released env0)) = Done (r, st') ∧
    (r = NULL ↔
     pick env0 (heap (final false (first_released env0))) (aligned_size 0)
       (blocks (final false (first_released env0))) = NULL ∧
     @None Z = None) ∧
    (r ≠ NULL →
     r - sizeof_mem_block ∈ blocks st' ∧
     fld free (heap st') (r - sizeof_mem_block) = false ∧
     104 ≤ fld size (heap st') (r - sizeof_mem_block) ∧
     trace st'
     = (if ALLOCATOR_SCRIBBLE env0 then [Memset r 170 0] else [])
       ++ trace (final false (first_released env0)) ∧
     (fld size (heap st') (r - sizeof_mem_block) = 104 ∨
      fld size (heap st') (r - sizeof_mem_block) < 208 ∧
      (r - sizeof_mem_block ∈ blocks (final false (first_released env0)) →
       fld size (heap st') (r - sizeof_mem_block)
       = fld size (heap (final false (first_released env0)))
           (r - sizeof_mem_block)) ∧
      (r - sizeof_mem_block ∉ blocks (final false (first_released env0)) →
       fld size (heap st') (r - sizeof_mem_block) = pagesize env0))).
Proof.
  apply (C10_malloc_zero false (final false (first_released env0)) env0 None).
  - apply final_reachable. vm_compute. reflexivity.
  - apply (plays_op_ok false (first_released env0) (Malloc env0 None 0)).
    vm_compute. reflexivity.
  - cbn. lia.
Defined.

(** ** C3: releasing two neighbours *)

Lemma mark_free_ne v b st a :
  a ≠ b → fld free (heap (mark v b st)) a = fld free (heap st) a.
Proof. intros. unfold mark. cbn [heap set_heap]. by rewrite fld_insert_ne. Qed.

Lemma mark_is_Some v b st a :
  is_Some (heap st !! a) → is_Some (heap (mark v b st) !! a).
Proof.
  intros. unfold mark. cbn [heap set_heap]. rewrite lookup_insert_is_Some'.
  by right.
Qed.

(** The two orders of merging meet in one state. *)
Lemma merged_agree A B st :
  B ≠ A → fld next (heap st) A = B → fld prev (heap st) B = A →
  fld next (heap st) B ≠ A → fld next (heap st) B ≠ B →
  merge_prev_result B (mark true B (mark true A st))
  = merge_next_result A (mark true A (mark true B st)).
Proof.
  intros HBA HnA HpB H1 H2. open_state st.
  unfold merge_prev_result, merge_next_result, mark.
  cbn [heap set_heap mapped g_head g_tail g_allocations g_regions g_splits
       trace].
  fsimpl. rewrite !(fld_insert_ne next h B _ A) by done.
  rewrite ?HpB, ?HnA. fsimpl. rewrite ?HpB, ?HnA. fsimpl.
  set (nB := fld next h B) in *.
  destruct (decide (nB = NULL)) as [Hnull|Hnull];
    apply state_eq; try done; heap_eq.
Qed.

Section release_two.
Context (l1 : list Z) (A B : Z) (l2 : list Z) (st : state).
Hypothesis Hwf : wf (l1 ++ A :: B :: l2) st.
Hypothesis Hreg : fld region_id (heap st) A = fld region_id (heap st) B.
Hypothesis HfA : fld free (heap st) A = false.
Hypothesis HfB : fld free (heap st) B = false.
Hypothesis Hp : ∀ p, last l1 = Some p →
  ¬ (fld region_id (heap st) p = fld region_id (heap st) A ∧
     fld free (heap st) p = true).
Hypothesis Hn : ∀ n, head l2 = Some n →
  ¬ (fld region_id (heap st) n = fld region_id (heap st) B ∧
     fld free (heap st) n = true).
Hypothesis Hpart :
  (∃ p, last l1 = Some p ∧
        fld region_id (heap st) p = fld region_id (heap st) A) ∨
  (∃ n, head l2 = Some n ∧
        fld region_id (heap st) n = fld region_id (heap st) B).

Let pA := default NULL (last l1).
Let nB := default NULL (head l2).

Lemma two_facts :
  A ≠ NULL ∧ B ≠ NULL ∧ B ≠ A ∧
  fld next (heap st) A = B ∧ fld prev (heap st) B = A ∧
  fld next (heap st) B = nB ∧ fld prev (heap st) A = pA ∧
  nB ≠ A ∧ nB ≠ B ∧ pA ≠ A ∧ pA ≠ B ∧
  (pA = NULL ∨ nB = NULL ∨ pA ≠ nB).
Proof using All.
  pose proof (wf_nonnull _ _ _ _ Hwf) as HA0.
  pose proof (wf_prev _ _ _ _ Hwf) as HprevA.
  pose proof (wf_second _ _ _ _ _ Hwf)
    as (HB0 & HBA & _ & HnextA & HprevB & HnextB & _).
  pose proof (wf_nodup _ _ Hwf) as Hnd.
  apply NoDup_app in Hnd as (_ & Hnd1 & Hnd2).
  apply NoDup_cons in Hnd2 as [HA2 Hnd2].
  apply NoDup_cons in Hnd2 as [HB2 _].
  assert (∀ p, last l1 = Some p → p ≠ A ∧ p ≠ B ∧ p ∉ l2) as Hlast.
  { intros p Hl%last_Some_elem_of. specialize (Hnd1 p Hl).
    rewrite !not_elem_of_cons in Hnd1. tauto. }
  assert (∀ n, head l2 = Some n → n ≠ A ∧ n ≠ B ∧ n ∈ l2) as Hhead.
  { intros n Hh%head_Some_elem_of. split_and!; [| |done].
    - intros ->. apply HA2. by right.
    - by intros ->. }
  split; [exact HA0|]. split; [exact HB0|]. split; [exact HBA|].
  split; [exact HnextA|]. split; [exact HprevB|]. split; [exact HnextB|].
  split; [exact HprevA|]. split_and!.
  - unfold nB. destruct (head l2) as [n|]; [by apply Hhead|done].
  - unfold nB. destruct (head l2) as [n|]; [by apply Hhead|done].
  - unfold pA. destruct (last l1) as [p|]; [by apply Hlast|done].
  - unfold pA. destruct (last l1) as [p|]; [by apply Hlast|done].
  - unfold pA, nB. destruct (last l1) as [p|] eqn:E1; [|by left].
    destruct (head l2) as [n|] eqn:E2; [|right; by left].
    right. right. cbn. intros ->.
    destruct (Hlast n eq_refl) as (_ & _ & Hnot).
    destruct (Hhead n eq_refl) as (_ & _ & Hin). done.
Qed.

Lemma outer_prev_kept :
  nonnull pA && fld free (heap st) pA &&
  bool_decide (fld region_id (heap st) pA = fld region_id (heap st) A)
  = false.
Proof using All.
  unfold pA. destruct (last l1) as [p|] eqn:E; [|done]. cbn.
  destruct (nonnull p); [|done]. cbn.
  destruct (fld free (heap st) p) eqn:Hf; [|done]. cbn.
  apply bool_decide_eq_false. intros Hr. by apply (Hp p).
Qed.

Lemma outer_next_kept :
  nonnull nB && fld free (heap st) nB &&
  bool_decide (fld region_id (heap st) nB = fld region_id (heap st) B)
  = false.
Proof using All.
  unfold nB. destruct (head l2) as [n|] eqn:E; [|done]. cbn.
  destruct (nonnull n); [|done]. cbn.
  destruct (fld free (heap st) n) eqn:Hf; [|done]. cbn.
  apply bool_decide_eq_false. intros Hr. by apply (Hn n).
Qed.

(** Releasing the first of the two merges nothing. *)
Lemma release_first ok : free_result ok A st = mark true A st.
Proof using All.
  destruct two_facts
    as (HA0 & HB0 & HBA & HnA & HpB & HnB & HpA & H1 & H2 & H3 & H4 & _).
  unfold free_result, merge_block_result. cbn zeta.
  assert (absorbs_next (mark true A st) A = false) as ->.
  { unfold absorbs_next. cbn zeta. rewrite !(mark_fld next) by done.
    rewrite HnA, mark_free_ne, HfB by done. by rewrite andb_false_r. }
  assert (absorbed_by_prev (mark true A st) A = false) as ->.
  { unfold absorbed_by_prev. cbn zeta.
    rewrite !(mark_fld prev), !(mark_fld region_id) by done.
    rewrite HpA, mark_free_ne by done. apply outer_prev_kept. }
  assert (alone (mark true A st) A = false) as ->; [|done].
  unfold alone. cbn zeta.
  rewrite !(mark_fld next), !(mark_fld region_id) by done.
  rewrite HnA, (nonnull_true _ HB0), <-Hreg.
  by rewrite bool_decide_eq_true_2.
Qed.

(** Releasing the second of the two merges nothing either. *)
Lemma release_second ok : free_result ok B st = mark true B st.
Proof using All.
  destruct two_facts
    as (HA0 & HB0 & HBA & HnA & HpB & HnB & HpA & H1 & H2 & H3 & H4 & _).
  unfold free_result, merge_block_result. cbn zeta.
  assert (absorbs_next (mark true B st) B = false) as ->.
  { unfold absorbs_next. cbn zeta.
    rewrite !(mark_fld next), !(mark_fld region_id) by done.
    rewrite HnB, mark_free_ne by done. apply outer_next_kept. }
  assert (absorbed_by_prev (mark true B st) B = false) as ->.
  { unfold absorbed_by_prev. cbn zeta. rewrite !(mark_fld prev) by done.
    rewrite HpB, mark_free_ne, HfA by done. by rewrite andb_false_r. }
  assert (alone (mark true B st) B = false) as ->; [|done].
  unfold alone. cbn zeta.
  rewrite !(mark_fld prev), !(mark_fld region_id) by done.
  rewrite HpB, (nonnull_true _ HA0).
  rewrite (bool_decide_eq_true_2 _ Hreg). cbn.
  by rewrite andb_false_r.
Qed.

Lemma outer_headers :
  (pA = NULL ∨ is_Some (heap st !! pA)) ∧ (nB = NULL ∨ is_Some (heap st !! nB)).
Proof using All.
  split.
  - unfold pA. destruct (last l1) as [p|] eqn:E; [right|by left].
    apply last_Some_elem_of in E.
    apply (wf_elem _ _ _ Hwf). apply elem_of_app. by left.
  - unfold nB. destruct (head l2) as [n|] eqn:E; [right|by left].
    apply head_Some_elem_of in E.
    apply (wf_elem _ _ _ Hwf). rewrite elem_of_app, !elem_of_cons. auto.
Qed.

(** Releasing the second after the first: the first absorbs it. *)
Lemma release_second_after_first ok :
  free_result ok B (mark true A st)
  = merge_prev_result B (mark true B (mark true A st)).
Proof using All.
  destruct two_facts
    as (HA0 & HB0 & HBA & HnA & HpB & HnB & HpA & H1 & H2 & H3 & H4 & _).
  unfold free_result, merge_block_result. cbn zeta.
  assert (absorbs_next (mark true B (mark true A st)) B = false) as ->.
  { unfold absorbs_next. cbn zeta.
    rewrite !(mark_fld next), !(mark_fld region_id) by done.
    rewrite HnB, !mark_free_ne by done. apply outer_next_kept. }
  assert (absorbed_by_prev (mark true B (mark true A st)) B = true) as ->;
    [|done].
  unfold absorbed_by_prev. cbn zeta.
  rewrite !(mark_fld prev), !(mark_fld region_id) by done.
  rewrite HpB, (nonnull_true _ HA0), mark_free_ne, mark_free by done.
  by rewrite (bool_decide_eq_true_2 _ Hreg).
Qed.

(** Releasing the first after the second: it absorbs the second, and
    nothing more happens. *)
Lemma release_first_after_second ok :
  free_result ok A (mark true B st)
  = merge_next_result A (mark true A (mark true B st)).
Proof using All.
  destruct two_facts
    as (HA0 & HB0 & HBA & HnA & HpB & HnB & HpA & H1 & H2 & H3 & H4 & _).
  destruct outer_headers as [HpS HnS].
  unfold free_result, merge_block_result. cbn zeta.
  set (s2 := mark true A (mark true B st)).
  assert (fld next (heap s2) A = B) as HnA2
    by (unfold s2; by rewrite !(mark_fld next)).
  assert (fld next (heap s2) B = nB) as HnB2
    by (unfold s2; by rewrite !(mark_fld next)).
  assert (fld prev (heap s2) A = pA) as HpA2
    by (unfold s2; by rewrite !(mark_fld prev)).
  assert (∀ a, fld region_id (heap s2) a = fld region_id (heap st) a) as Hr2
    by (intros a; unfold s2; by rewrite !(mark_fld region_id)).
  assert (∀ a, a ≠ A → a ≠ B → fld free (heap s2) a = fld free (heap st) a)
    as Hf2 by (intros a ??; unfold s2; by rewrite !mark_free_ne).
  assert (∀ a, is_Some (heap st !! a) → is_Some (heap s2 !! a)) as HS2
    by (intros a ?; unfold s2; by do 2 apply mark_is_Some).
  assert (absorbs_next s2 A = true) as ->.
  { unfold absorbs_next. cbn zeta. rewrite HnA2, (nonnull_true _ HB0), !Hr2.
    unfold s2. rewrite mark_free_ne, mark_free by done.
    by rewrite bool_decide_eq_true_2. }
  set (s3 := merge_next_result A s2).
  assert (fld prev (heap s3) A = pA ∧ fld next (heap s3) A = nB ∧
          fld region_id (heap s3) A = fld region_id (heap st) A)
    as (HpA3 & HnA3 & HrA3).
  { unfold s3. rewrite !merge_next_result_block; rewrite ?HnA2, ?HnB2; try done.
    cbn. rewrite <-(Hr2 A). split_and!; done. }
  assert (∀ a, a ≠ A → a ≠ B → is_Some (heap st !! a) →
               fld region_id (heap s3) a = fld region_id (heap st) a ∧
               fld free (heap s3) a = fld free (heap st) a) as Hother.
  { intros a ?? Hs.
    destruct (merge_next_result_other A s2 a) as ((_ & _ & Hr & Hf) & _);
      [done|by rewrite HnA2|by apply HS2|].
    fold s3 in Hr, Hf. rewrite Hr, Hf, Hr2, Hf2 by done. done. }
  assert (absorbed_by_prev s3 A = false) as ->.
  { unfold absorbed_by_prev. cbn zeta. rewrite HpA3, HrA3.
    destruct HpS as [->|HpS]; [done|].
    destruct (Hother pA) as [-> ->]; [done..|]. apply outer_prev_kept. }
  assert (alone s3 A = false) as ->; [|done].
  unfold alone. cbn zeta. rewrite HpA3, HnA3, HrA3.
  destruct Hpart as [(p & Hl & Hr)|(n & Hh & Hr)].
  - assert (pA = p) as Hpp by (unfold pA; by rewrite Hl).
    destruct HpS as [HpS|HpS].
    { exfalso. rewrite Hpp in HpS. subst p.
      apply last_Some_elem_of in Hl.
      pose proof (bo_pos _ _ (wf_elem _ _ _ Hwf
        ltac:(apply elem_of_app; left; exact Hl))). unfold NULL in *. lia. }
    destruct (Hother pA) as [-> _]; [done..|]. rewrite Hpp, Hr.
    rewrite (bool_decide_eq_true_2
               (fld region_id (heap st) A = fld region_id (heap st) A))
      by done.
    assert (nonnull p = true) as ->.
    { apply nonnull_true. apply last_Some_elem_of in Hl.
      pose proof (bo_pos _ _ (wf_elem _ _ _ Hwf
        ltac:(apply elem_of_app; left; exact Hl))). unfold NULL. lia. }
    cbn. by rewrite andb_false_r.
  - assert (nB = n) as Hnn by (unfold nB; by rewrite Hh).
    assert (n ∈ l1 ++ A :: B :: l2) as Hin.
    { apply head_Some_elem_of in Hh. rewrite elem_of_app, !elem_of_cons. auto. }
    pose proof (bo_pos _ _ (wf_elem _ _ _ Hwf Hin)) as Hpos.
    destruct (Hother nB) as [-> _]; [done..| |].
    { rewrite Hnn. apply (wf_elem _ _ _ Hwf Hin). }
    rewrite Hnn, Hr, <-Hreg.
    rewrite (bool_decide_eq_true_2
               (fld region_id (heap st) A = fld region_id (heap st) A))
      by done.
    rewrite nonnull_true by (unfold NULL; lia). done.
Qed.

End release_two.

(** The scenario of the counterexample: A and B fill their region. *)
Definition region_filled : list op :=
  [Malloc env0 (Some 1000000) 40; Malloc env0 None 3852].

(** C3, as stated, fails: A (144 bytes) and B (3952 bytes) touch and
    make up one region of 4096 bytes. Released in the order A, B they
    leave one free block of 4096 bytes; released in the order B, A the
    region is unmapped and no block is left at all. *)
Lemma C3_counterexample :
  reachable false (final false region_filled) ∧
  blocks (final false region_filled) = [1000000; 1000144] ∧
  fld size (heap (final false region_filled)) 1000000 = 144 ∧
  fld size (heap (final false region_filled)) 1000144 = 3952 ∧
  fld region_id (heap (final false region_filled)) 1000000
  = fld region_id (heap (final false region_filled)) 1000144 ∧
  fld free (heap (final false region_filled)) 1000000 = false ∧
  fld free (heap (final false region_filled)) 1000144 = false ∧
  returned ((free_ true 1000100;; free_ true 1000244)
              (final false region_filled)) = Some tt ∧
  blocks (state_after ((free_ true 1000100;; free_ true 1000244)
                         (final false region_filled))) = [1000000] ∧
  returned ((free_ true 1000244;; free_ true 1000100)
              (final false region_filled)) = Some tt ∧
  blocks (state_after ((free_ true 1000244;; free_ true 1000100)
                         (final false region_filled))) = [].
Proof.
  split; [apply final_reachable; vm_compute; reflexivity|].
  repeat split; vm_compute; reflexivity.
Qed.

(** C3, amended: let A and B be neighbours of one region, both in use,
    with no free block of that region next to them, and not making up
    the whole region between them. Releasing them in either order
    returns, and leads to one and the same state: B is gone from the
    list, A is free with the sum of the two sizes, and the other blocks
    are as they were. *)
Theorem C3_release_two up st l1 A B l2 ok1 ok2 ok3 ok4 :
  reachable up st → blocks st = l1 ++ A :: B :: l2 →
  fld region_id (heap st) A = fld region_id (heap st) B →
  fld free (heap st) A = false → fld free (heap st) B = false →
  (∀ p, last l1 = Some p →
        ¬ (fld region_id (heap st) p = fld region_id (heap st) A ∧
           fld free (heap st) p = true)) →
  (∀ n, head l2 = Some n →
        ¬ (fld region_id (heap st) n = fld region_id (heap st) B ∧
           fld free (heap st) n = true)) →
  (∃ p, last l1 = Some p ∧
        fld region_id (heap st) p = fld region_id (heap st) A) ∨
  (∃ n, head l2 = Some n ∧
        fld region_id (heap st) n = fld region_id (heap st) B) →
  ∃ st',
    (free_ ok1 (A + sizeof_mem_block);; free_ ok2 (B + sizeof_mem_block)) st
    = Done (tt, st') ∧
    (free_ ok3 (B + sizeof_mem_block);; free_ ok4 (A + sizeof_mem_block)) st
    = Done (tt, st') ∧
    blocks st' = l1 ++ A :: l2 ∧
    fld free (heap st') A = true ∧
    fld size (heap st') A = fld size (heap st) A + fld size (heap st) B ∧
    (∀ a, a ∈ l1 ++ l2 →
          fld free (heap st') a = fld free (heap st) a ∧
          fld size (heap st') a = fld size (heap st) a).
Proof.
  intros Hinv%reachable_blocks Hl Hreg HfA HfB Hp Hn Hpart.
  rewrite Hl in Hinv. pose proof Hinv as [Hwf Hex].
  destruct (two_facts l1 A B l2 st Hwf Hreg HfA HfB Hp Hn Hpart)
    as (HA0 & HB0 & HBA & HnA & HpB & HnB & HpA & H1 & H2 & H3 & H4 & _).
  assert (A ∈ l1 ++ A :: B :: l2) as HinA by apply elem_of_mid.
  assert (B ∈ l1 ++ A :: B :: l2) as HinB.
  { rewrite elem_of_app, !elem_of_cons. auto. }
  set (s2 := mark true B (mark true A st)).
  assert (wf (l1 ++ A :: B :: l2) s2) as Hwf2 by (by do 2 apply mark_wf).
  assert (fld region_id (heap s2) A = fld region_id (heap s2) B) as Hreg2
    by (unfold s2; by rewrite !(mark_fld region_id)).
  pose proof (merge_prev_result_wf _ _ _ _ _ Hwf2 Hreg2) as Hwf3.
  assert (fld prev (heap s2) B = A) as HpB2
    by (unfold s2; by rewrite !(mark_fld prev)).
  assert (fld next (heap s2) B = default NULL (head l2)) as HnB2
    by (unfold s2; by rewrite !(mark_fld next)).
  exists (merge_prev_result B s2). split_and!.
  - destruct (free_inv up _ ok1 A st Hinv HinA)
      as (lA & sA & Hf1 & HinvA & _ & _ & _ & _ & _ & _ & HsA).
    rewrite (release_first l1 A B l2 st Hwf Hreg HfA HfB Hp Hn Hpart ok1) in HsA.
    rewrite (bind_Done _ _ _ _ _ Hf1).
    assert (lA = l1 ++ A :: B :: l2) as ->.
    { rewrite <-(wf_blocks_eq _ _ (proj1 HinvA)). subst sA.
      apply wf_blocks_eq. by apply mark_wf. }
    destruct (free_inv up _ ok2 B sA HinvA HinB)
      as (lB & sB & Hf2 & _ & _ & _ & _ & _ & _ & _ & HsB).
    rewrite Hf2. subst sA sB.
    by rewrite (release_second_after_first l1 A B l2 st Hwf Hreg HfA HfB Hp Hn Hpart ok2).
  - destruct (free_inv up _ ok3 B st Hinv HinB)
      as (lB & sB & Hf1 & HinvB & _ & _ & _ & _ & _ & _ & HsB).
    rewrite (release_second l1 A B l2 st Hwf Hreg HfA HfB Hp Hn Hpart ok3) in HsB.
    rewrite (bind_Done _ _ _ _ _ Hf1).
    assert (lB = l1 ++ A :: B :: l2) as ->.
    { rewrite <-(wf_blocks_eq _ _ (proj1 HinvB)). subst sB.
      apply wf_blocks_eq. by apply mark_wf. }
    destruct (free_inv up _ ok4 A sB HinvB HinA)
      as (lA & sA & Hf2 & _ & _ & _ & _ & _ & _ & _ & HsA).
    rewrite Hf2. subst sA sB.
    rewrite (release_first_after_second l1 A B l2 st Hwf Hreg HfA HfB Hp Hn Hpart ok4).
    unfold s2.
    rewrite (merged_agree A B st HBA HnA HpB); [done|by rewrite HnB..].
  - by apply wf_blocks_eq.
  - pose proof (merge_prev_result_p free B s2) as Hfp.
    rewrite HpB2, HnB2 in Hfp. rewrite Hfp; [|done|exact H1].
    cbn. fold (fld free (heap s2) A). unfold s2.
    by rewrite mark_free_ne, mark_free.
  - pose proof (merge_prev_result_p size B s2) as Hsp.
    rewrite HpB2, HnB2 in Hsp. rewrite Hsp; [|done|exact H1].
    cbn. unfold s2. by rewrite !(mark_fld size).
  - intros a Ha.
    assert (a ≠ A ∧ a ≠ B ∧ is_Some (heap st !! a)) as (HaA & HaB & HaS).
    { pose proof (wf_nodup _ _ Hwf) as Hnd.
      apply NoDup_app in Hnd as (_ & Hnd1 & Hnd2).
      apply NoDup_cons in Hnd2 as [HA2 Hnd2].
      apply NoDup_cons in Hnd2 as [HB2 _].
      assert (a ∈ l1 ++ A :: B :: l2) as Hin.
      { rewrite !elem_of_app, !elem_of_cons in *. tauto. }
      split_and!; [| |apply (wf_elem _ _ _ Hwf Hin)].
      - intros ->. apply elem_of_app in Ha as [Ha|Ha].
        + apply (Hnd1 A Ha). left.
        + apply HA2. by right.
      - intros ->. apply elem_of_app in Ha as [Ha|Ha].
        + apply (Hnd1 B Ha). right. left.
        + by apply HB2. }
    destruct (merge_prev_result_other B s2 a) as ((_ & Hs & _ & Hf) & _);
      [by rewrite HpB2|done|unfold s2; by do 2 apply mark_is_Some|].
    rewrite Hs, Hf. unfold s2.
    by rewrite !(mark_fld size), !mark_free_ne.
Qed.

(** Three blocks in use at the start of one region. *)
Definition three_used : list op :=
  [Malloc env0 (Some 1000000) 40; Malloc env0 None 40; Malloc env0 None 40].

(** C3, amended, at the first two of three blocks in use. *)
Lemma C3_witness :
  ∃ st',
    (free_ true (1000000 + sizeof_mem_block);;
     free_ true (1000144 + sizeof_mem_block)) (final false three_used)
    = Done (tt, st') ∧
    (free_ true (1000144 + sizeof_mem_block);;
     free_ true (1000000 + sizeof_mem_block)) (final false three_used)
    = Done (tt, st') ∧
    blocks st' = [] ++ 1000000 :: [1000288; 1000432] ∧
    fld free (heap st') 1000000 = true ∧
    fld size (heap st') 1000000
    = fld size (heap (final false three_used)) 1000000
      + fld size (heap (final false three_used)) 1000144 ∧
    (∀ a, a ∈ [] ++ [1000288; 1000432] →
          fld free (heap st') a = fld free (heap (final false three_used)) a ∧
          fld size (heap st') a = fld size (heap (final false three_used)) a).
Proof.
  apply (C3_release_two false (final false three_used)
           [] 1000000 1000144 [1000288; 1000432] true true true true).
  - apply final_reachable. vm_compute. reflexivity.
  - vm_compute. reflexivity.
  - vm_compute. reflexivity.
  - vm_compute. reflexivity.
  - vm_compute. reflexivity.
  - intros p Hlast. discriminate Hlast.
  - intros n Hhead [_ Hfree]. injection Hhead as <-.
    vm_compute in Hfree. discriminate Hfree.
  - right. exists 1000288. split; [reflexivity|]. vm_compute. reflexivity.
Defined.

(** * The three strategies, by what they select *)

(** The surplus of a block over a request. *)
Definition surplus (h : gmap Z mem_block) (sz b : Z) : Z := fld size h b - sz.

(** ** first_fit *)

Lemma first_fit_list_split h sz l :
  (first_fit_list h sz l = NULL ∧ ∀ b, b ∈ l → fits h sz b = false) ∨
  (∃ l1 l2, l = l1 ++ first_fit_list h sz l :: l2 ∧
            fits h sz (first_fit_list h sz l) = true ∧
            ∀ b, b ∈ l1 → fits h sz b = false).
Proof.
  induction l as [|x l IH]; cbn.
  - left. split; [done|]. intros b Hb. by apply elem_of_nil in Hb.
  - destruct (fits h sz x) eqn:Hx.
    + right. exists [], l. split_and!; [done..|].
      intros b Hb. by apply elem_of_nil in Hb.
    + destruct IH as [[Hn Hall]|(l1 & l2 & Hl & Hf & Hl1)].
      * left. split; [done|]. intros b [->|Hb]%elem_of_cons; auto.
      * right. exists (x :: l1), l2. split_and!; [|done|].
        -- cbn. by rewrite <-Hl.
        -- intros b [->|Hb]%elem_of_cons; auto.
Qed.

(** [first_fit(size)] changes nothing and returns the first block of the
    list that is free and has at least [size] bytes; it returns NULL
    exactly when the list has no such block. *)
Theorem first_fit_selects_first up st sz :
  reachable up st →
  ∃ r, first_fit sz st = Done (r, st) ∧
       ((r = NULL ∧ ∀ b, b ∈ blocks st → fits (heap st) sz b = false) ∨
        (∃ l1 l2, blocks st = l1 ++ r :: l2 ∧ r ≠ NULL ∧
                  fits (heap st) sz r = true ∧
                  ∀ b, b ∈ l1 → fits (heap st) sz b = false)).
Proof.
  intros [Hwf _]%reachable_blocks.
  exists (first_fit_list (heap st) sz (blocks st)).
  split; [by apply first_fit_spec|].
  destruct (first_fit_list_split (heap st) sz (blocks st))
    as [?|(l1 & l2 & Hl & Hf & Hl1)]; [by left|right].
  exists l1, l2. split_and!; try done.
  rewrite Hl in Hwf. by apply wf_nonnull in Hwf.
Qed.

Lemma first_fit_selects_first_witness :
  ∃ r, first_fit 144 (final false (first_released env0))
       = Done (r, final false (first_released env0)) ∧
       ((r = NULL ∧
         ∀ b, b ∈ blocks (final false (first_released env0)) →
              fits (heap (final false (first_released env0))) 144 b = false) ∨
        (∃ l1 l2, blocks (final false (first_released env0)) = l1 ++ r :: l2 ∧
                  r ≠ NULL ∧
                  fits (heap (final false (first_released env0))) 144 r = true ∧
                  ∀ b, b ∈ l1 →
                       fits (heap (final false (first_released env0))) 144 b
                       = false)).
Proof.
  apply (first_fit_selects_first false (final false (first_released env0)) 144).
  apply final_reachable. vm_compute. reflexivity.
Defined.

(** ** worst_fit *)

Lemma worst_fit_list_max h sz l :
  (∀ b, b ∈ l → fits h sz b = true → surplus h sz b < 2 ^ 63) →
  ∀ w ws,
  (worst_fit_list h sz l w ws = w ∧
   ∀ b, b ∈ l → fits h sz b = true → surplus h sz b ≤ ws) ∨
  (∃ l1 l2, l = l1 ++ worst_fit_list h sz l w ws :: l2 ∧
     fits h sz (worst_fit_list h sz l w ws) = true ∧
     ws < surplus h sz (worst_fit_list h sz l w ws) ∧
     (∀ b, b ∈ l1 → fits h sz b = true →
           surplus h sz b < surplus h sz (worst_fit_list h sz l w ws)) ∧
     (∀ b, b ∈ l2 → fits h sz b = true →
           surplus h sz b ≤ surplus h sz (worst_fit_list h sz l w ws))).
Proof.
  induction l as [|x l IH]; intros Hb w ws; cbn.
  - left. split; [done|]. intros b Hin. by apply elem_of_nil in Hin.
  - assert (∀ b, b ∈ l → fits h sz b = true → surplus h sz b < 2 ^ 63)
      as Hb' by (intros b ?; apply Hb; by right).
    destruct (fits h sz x) eqn:Hx; cycle 1.
    { destruct (IH Hb' w ws) as [[Hw Hall]|(l1 & l2 & Hl & Hf & Hws & H1 & H2)].
      - left. split; [done|]. intros b [->|Hin]%elem_of_cons ?; [congruence|auto].
      - right. exists (x :: l1), l2. split_and!; try done.
        + cbn. by rewrite <-Hl.
        + intros b [->|Hin]%elem_of_cons ?; [congruence|auto]. }
    pose proof (Hb x ltac:(left) Hx) as Hlt.
    pose proof Hx as [Hle _]%fits_size. unfold surplus in *.
    rewrite wrap64_small by lia. unfold to_ssize.
    assert (fld size h x - sz <? 2 ^ 63 = true) as -> by (apply Z.ltb_lt; lia).
    destruct (ws <? fld size h x - sz) eqn:Hcmp.
    + apply Z.ltb_lt in Hcmp.
      destruct (IH Hb' x (fld size h x - sz))
        as [[Hw Hall]|(l1 & l2 & Hl & Hf & Hws & H1 & H2)].
      * right. rewrite Hw. exists [], l. split_and!; try done.
        intros b Hin. by apply elem_of_nil in Hin.
      * right. exists (x :: l1), l2. split_and!; try done.
        -- cbn. by rewrite <-Hl.
        -- lia.
        -- intros b [->|Hin]%elem_of_cons ?; [lia|auto].
    + apply Z.ltb_ge in Hcmp.
      destruct (IH Hb' w ws) as [[Hw Hall]|(l1 & l2 & Hl & Hf & Hws & H1 & H2)].
      * left. split; [done|]. intros b [->|Hin]%elem_of_cons ?; [lia|auto].
      * right. exists (x :: l1), l2. split_and!; try done.
        -- cbn. by rewrite <-Hl.
        -- intros b [->|Hin]%elem_of_cons ?; [lia|auto].
Qed.

(** [worst_fit(size)] changes nothing and, when no block exceeds the
    request by 2^63 bytes or more (the difference is held in an
    [ssize_t]), returns the largest free block of at least [size] bytes,
    the first of them in the list when several are as large; NULL
    exactly when no block fits. *)
Theorem worst_fit_selects_largest up st sz :
  reachable up st →
  (∀ b, b ∈ blocks st → fits (heap st) sz b = true →
        surplus (heap st) sz b < 2 ^ 63) →
  ∃ r, worst_fit sz st = Done (r, st) ∧
       ((r = NULL ∧ ∀ b, b ∈ blocks st → fits (heap st) sz b = false) ∨
        (∃ l1 l2, blocks st = l1 ++ r :: l2 ∧ r ≠ NULL ∧
           fits (heap st) sz r = true ∧
           (∀ b, b ∈ l1 → fits (heap st) sz b = true →
                 fld size (heap st) b < fld size (heap st) r) ∧
           (∀ b, b ∈ l2 → fits (heap st) sz b = true →
                 fld size (heap st) b ≤ fld size (heap st) r))).
Proof.
  intros [Hwf _]%reachable_blocks Hb.
  exists (worst_fit_list (heap st) sz (blocks st) NULL INT_MIN).
  split; [by apply worst_fit_spec|].
  destruct (worst_fit_list_max (heap st) sz (blocks st) Hb NULL INT_MIN)
    as [[Hn Hall]|(l1 & l2 & Hl & Hf & _ & H1 & H2)].
  - left. split; [done|]. intros b Hin.
    destruct (fits (heap st) sz b) eqn:Hfb; [|done].
    specialize (Hall b Hin Hfb). apply fits_size in Hfb as [? _].
    unfold surplus, INT_MIN in Hall. lia.
  - right. exists l1, l2. unfold surplus in *. split_and!; try done.
    + rewrite Hl in Hwf. by apply wf_nonnull in Hwf.
    + intros b Hin Hfb. specialize (H1 b Hin Hfb). lia.
    + intros b Hin Hfb. specialize (H2 b Hin Hfb). lia.
Qed.

Lemma worst_fit_selects_largest_witness :
  ∃ r, worst_fit 144 (final false (first_released env0))
       = Done (r, final false (first_released env0)) ∧
       ((r = NULL ∧
         ∀ b, b ∈ blocks (final false (first_released env0)) →
              fits (heap (final false (first_released env0))) 144 b = false) ∨
        (∃ l1 l2, blocks (final false (first_released env0)) = l1 ++ r :: l2 ∧
           r ≠ NULL ∧
           fits (heap (final false (first_released env0))) 144 r = true ∧
           (∀ b, b ∈ l1 →
                 fits (heap (final false (first_released env0))) 144 b = true →
                 fld size (heap (final false (first_released env0))) b
                 < fld size (heap (final false (first_released env0))) r) ∧
           (∀ b, b ∈ l2 →
                 fits (heap (final false (first_released env0))) 144 b = true →
                 fld size (heap (final false (first_released env0))) b
                 ≤ fld size (heap (final false (first_released env0))) r))).
Proof.
  apply (worst_fit_selects_largest false (final false (first_released env0))
           144).
  - apply final_reachable. vm_compute. reflexivity.
  - rewrite first_released_blocks. intros b Hb _.
    repeat (apply elem_of_cons in Hb as [->|Hb]);
      [vm_compute; reflexivity..|].
    apply elem_of_nil in Hb. destruct Hb.
Defined.

(** ** best_fit *)

Lemma best_fit_list_min h sz l :
  (∀ b, b ∈ l → fits h sz b = true → surplus h sz b < INT_MAX) →
  ∀ best bs,
  (best_fit_list h sz l best bs = best ∧
   ∀ b, b ∈ l → fits h sz b = true → bs ≤ surplus h sz b) ∨
  (∃ l1 l2, l = l1 ++ best_fit_list h sz l best bs :: l2 ∧
     fits h sz (best_fit_list h sz l best bs) = true ∧
     surplus h sz (best_fit_list h sz l best bs) < bs ∧
     (∀ b, b ∈ l1 → fits h sz b = true →
           surplus h sz (best_fit_list h sz l best bs) < surplus h sz b) ∧
     (∀ b, b ∈ l2 → fits h sz b = true →
           surplus h sz (best_fit_list h sz l best bs) ≤ surplus h sz b)).
Proof.
  induction l as [|x l IH]; intros Hb best bs; cbn.
  - left. split; [done|]. intros b Hin. by apply elem_of_nil in Hin.
  - assert (∀ b, b ∈ l → fits h sz b = true → surplus h sz b < INT_MAX)
      as Hb' by (intros b ?; apply Hb; by right).
    destruct (fits h sz x) eqn:Hx; cycle 1.
    { destruct (IH Hb' best bs)
        as [[Hw Hall]|(l1 & l2 & Hl & Hf & Hws & H1 & H2)].
      - left. split; [done|].
        intros b [->|Hin]%elem_of_cons ?; [congruence|auto].
      - right. exists (x :: l1), l2. split_and!; try done.
        + cbn. by rewrite <-Hl.
        + intros b [->|Hin]%elem_of_cons ?; [congruence|auto]. }
    pose proof (Hb x ltac:(left) Hx) as Hlt.
    pose proof Hx as [Hle _]%fits_size. unfold surplus, INT_MAX in *.
    rewrite (wrap64_small (fld size h x - sz)) by lia. unfold to_ssize.
    assert (fld size h x - sz <? 2 ^ 63 = true) as -> by (apply Z.ltb_lt; lia).
    rewrite (wrap64_small (fld size h x - sz)) by lia.
    destruct (fld size h x - sz <? bs) eqn:Hcmp.
    + apply Z.ltb_lt in Hcmp.
      destruct (IH Hb' x (fld size h x - sz))
        as [[Hw Hall]|(l1 & l2 & Hl & Hf & Hws & H1 & H2)].
      * right. rewrite Hw. exists [], l. split_and!; try done.
        intros b Hin. by apply elem_of_nil in Hin.
      * right. exists (x :: l1), l2. split_and!; try done.
        -- cbn. by rewrite <-Hl.
        -- lia.
        -- intros b [->|Hin]%elem_of_cons ?; [lia|auto].
    + apply Z.ltb_ge in Hcmp.
      destruct (IH Hb' best bs)
        as [[Hw Hall]|(l1 & l2 & Hl & Hf & Hws & H1 & H2)].
      * left. split; [done|]. intros b [->|Hin]%elem_of_cons ?; [lia|auto].
      * right. exists (x :: l1), l2. split_and!; try done.
        -- cbn. by rewrite <-Hl.
        -- intros b [->|Hin]%elem_of_cons ?; [lia|auto].
Qed.

(** [best_fit(size)] changes nothing and, as long as every block that
    fits exceeds the request by less than [INT_MAX] bytes, returns the
    smallest free block of at least [size] bytes, the first of them in
    the list when several are as small; NULL exactly when no block
    fits. *)
Theorem best_fit_selects_smallest up st sz :
  reachable up st →
  (∀ b, b ∈ blocks st → fits (heap st) sz b = true →
        surplus (heap st) sz b < INT_MAX) →
  ∃ r, best_fit sz st = Done (r, st) ∧
       ((r = NULL ∧ ∀ b, b ∈ blocks st → fits (heap st) sz b = false) ∨
        (∃ l1 l2, blocks st = l1 ++ r :: l2 ∧ r ≠ NULL ∧
           fits (heap st) sz r = true ∧
           (∀ b, b ∈ l1 → fits (heap st) sz b = true →
                 fld size (heap st) r < fld size (heap st) b) ∧
           (∀ b, b ∈ l2 → fits (heap st) sz b = true →
                 fld size (heap st) r ≤ fld size (heap st) b))).
Proof.
  intros [Hwf _]%reachable_blocks Hb.
  exists (best_fit_list (heap st) sz (blocks st) NULL INT_MAX).
  split; [by apply best_fit_spec|].
  destruct (best_fit_list_min (heap st) sz (blocks st) Hb NULL INT_MAX)
    as [[Hn Hall]|(l1 & l2 & Hl & Hf & _ & H1 & H2)].
  - left. split; [done|]. intros b Hin.
    destruct (fits (heap st) sz b) eqn:Hfb; [|done].
    specialize (Hall b Hin Hfb). specialize (Hb b Hin Hfb). lia.
  - right. exists l1, l2. unfold surplus in *. split_and!; try done.
    + rewrite Hl in Hwf. by apply wf_nonnull in Hwf.
    + intros b Hin Hfb. specialize (H1 b Hin Hfb). lia.
    + intros b Hin Hfb. specialize (H2 b Hin Hfb). lia.
Qed.

Lemma best_fit_selects_smallest_witness :
  ∃ r, best_fit 144 (final false (first_released env0))
       = Done (r, final false (first_released env0)) ∧
       ((r = NULL ∧
         ∀ b, b ∈ blocks (final false (first_released env0)) →
              fits (heap (final false (first_released env0))) 144 b = false) ∨
        (∃ l1 l2, blocks (final false (first_released env0)) = l1 ++ r :: l2 ∧
           r ≠ NULL ∧
           fits (heap (final false (first_released env0))) 144 r = true ∧
           (∀ b, b ∈ l1 →
                 fits (heap (final false (first_released env0))) 144 b = true →
                 fld size (heap (final false (first_released env0))) r
                 < fld size (heap (final false (first_released env0))) b) ∧
           (∀ b, b ∈ l2 →
                 fits (heap (final false (first_released env0))) 144 b = true →
                 fld size (heap (final false (first_released env0))) r
                 ≤ fld size (heap (final false (first_released env0))) b))).
Proof.
  apply (best_fit_selects_smallest false (final false (first_released env0))
           144).
  - apply final_reachable. vm_compute. reflexivity.
  - rewrite first_released_blocks. intros b Hb _.
    repeat (apply elem_of_cons in Hb as [->|Hb]);
      [vm_compute; reflexivity..|].
    apply elem_of_nil in Hb. destruct Hb.
Defined.

(** * An unknown strategy *)

Definition known_algorithm (s : string) : bool :=
  String.eqb s "first_fit" || String.eqb s "best_fit"
  || String.eqb s "worst_fit".

Lemma pick_unknown e h sz l s :
  ALLOCATOR_ALGORITHM e = Some s → known_algorithm s = false →
  pick e h sz l = NULL.
Proof.
  intros He Hk. unfold pick, known_algorithm in *. rewrite He. cbn.
  apply orb_false_iff in Hk as [Hk H3].
  apply orb_false_iff in Hk as [H1 H2]. by rewrite H1, H2, H3.
Qed.

(** When [ALLOCATOR_ALGORITHM] names none of the three strategies,
    [reuse] returns NULL without touching the list, whatever free
    blocks there are; [malloc] then never hands out a block of the
    list: it maps a fresh region or fails. *)
Theorem unknown_algorithm_never_reuses up st e os sz s :
  reachable up st → op_ok up st (Malloc e os sz) →
  ALLOCATOR_ALGORITHM e = Some s → known_algorithm s = false →
  reuse e (aligned_size sz) st = Done (NULL, st) ∧
  ∃ r st', malloc e os sz st = Done (r, st') ∧
           (r = NULL ∨ r - sizeof_mem_block ∉ blocks st) ∧
           (r = NULL ↔ os = None ∨ region_size (pagesize e) sz = 0).
Proof.
  intros Hinv%reachable_blocks Hok He Hk. cbn [op_ok] in Hok.
  pose proof (pick_unknown e (heap st) (aligned_size sz) (blocks st) s He Hk)
    as Hpick.
  split.
  - pose proof (aligned_size_range sz) as [Ha _].
    rewrite (reuse_effect e _ _ st (proj1 Hinv) Ha). by rewrite Hpick.
  - destruct (malloc_cases up e os sz _ st Hinv Hok)
      as [(Hc & _)|[(_ & Hfail & Hm)|(_ & a & -> & H1 & _ & Hfr & Hnin & _ & Hm)]];
      [done| |].
    + eexists _, _. split; [exact Hm|]. split; [by left|done].
    + eexists _, _. split; [exact Hm|].
      replace (a + sizeof_mem_block - sizeof_mem_block) with a by lia.
      split; [by right|]. destruct Hfr as (Hpos & _).
      unfold NULL, sizeof_mem_block. split; [lia|].
      intros [?|?]; [done|lia].
Qed.

Definition env_typo : env := Env (Some "bestfit") false 4096.

Lemma unknown_algorithm_never_reuses_witness :
  reuse env_typo (aligned_size 40) (final false (first_released env0))
  = Done (NULL, final false (first_released env0)) ∧
  ∃ r st', malloc env_typo (Some 2000000) 40 (final false (first_released env0))
           = Done (r, st') ∧
           (r = NULL ∨
            r - sizeof_mem_block ∉ blocks (final false (first_released env0))) ∧
           (r = NULL ↔ Some 2000000 = None ∨ region_size (pagesize env_typo) 40 = 0).
Proof.
  apply (unknown_algorithm_never_reuses false
           (final false (first_released env0)) env_typo (Some 2000000) 40
           "bestfit").
  - apply final_reachable. vm_compute. reflexivity.
  - apply (plays_op_ok false (first_released env0)
             (Malloc env_typo (Some 2000000) 40)).
    vm_compute. reflexivity.
  - reflexivity.
  - reflexivity.
Defined.

(** * The sizes malloc computes *)

(** As long as the sum does not wrap around, the size [malloc] works
    with is the request plus the header, rounded up to the next
    multiple of 8. *)
Theorem aligned_size_rounds_up sz :
  0 ≤ sz → sz + 107 < 2 ^ 64 →
  aligned_size sz mod 8 = 0 ∧
  sz + sizeof_mem_block ≤ aligned_size sz < sz + sizeof_mem_block + 8.
Proof.
  intros H0 Hlt. unfold aligned_size, total_size, sizeof_mem_block, ALIGN_SIZE.
  rewrite (wrap64_small (sz + 100)) by lia.
  pose proof (Z.div_mod (sz + 100) 8 ltac:(lia)) as Hdm.
  pose proof (Z.mod_pos_bound (sz + 100) 8 ltac:(lia)) as Hm.
  case_decide as Hrem.
  - rewrite wrap64_small by lia. split; [|lia].
    replace (sz + 100 + 8 - (sz + 100) mod 8)
      with (((sz + 100) / 8 + 1) * 8) by lia.
    apply Z.mod_mul. lia.
  - split; [|lia]. destruct (decide ((sz + 100) mod 8 = 0)); [done|].
    by exfalso.
Qed.

Lemma aligned_size_rounds_up_witness :
  aligned_size 40 mod 8 = 0 ∧
  40 + sizeof_mem_block ≤ aligned_size 40 < 40 + sizeof_mem_block + 8.
Proof. apply (aligned_size_rounds_up 40); lia. Defined.

(** The size of a fresh region is the aligned size rounded up to whole
    pages, as long as that does not wrap around. *)
Theorem region_size_whole_pages p sz :
  0 < p → aligned_size sz + p ≤ 2 ^ 64 →
  region_size p sz mod p = 0 ∧
  aligned_size sz ≤ region_size p sz < aligned_size sz + p.
Proof.
  intros Hp Hlt. unfold region_size, num_pages.
  pose proof (aligned_size_range sz) as [Ha0 _].
  set (a := aligned_size sz) in *. clearbody a.
  pose proof (Z.div_mod a p ltac:(lia)) as Hdm.
  pose proof (Z.mod_pos_bound a p ltac:(lia)) as Hm.
  assert (0 ≤ a / p) as Hq by (apply Z.div_pos; lia).
  case_decide as Hrem.
  - rewrite (wrap64_small (a / p + 1)) by nia.
    rewrite wrap64_small by nia. split; [apply Z.mod_mul; lia|nia].
  - assert (a mod p = 0) as Hz.
    { destruct (decide (a mod p = 0)); [done|by exfalso]. }
    rewrite wrap64_small by nia. split; [apply Z.mod_mul; lia|nia].
Qed.

Lemma region_size_whole_pages_witness :
  region_size 4096 5000 mod 4096 = 0 ∧
  aligned_size 5000 ≤ region_size 4096 5000 < aligned_size 5000 + 4096.
Proof.
  apply (region_size_whole_pages 4096 5000); [lia|].
  vm_compute. discriminate.
Defined.

(** ** Requests close to the largest size *)

Lemma aligned_size_wraps sz :
  2 ^ 64 - 100 ≤ sz < 2 ^ 64 → aligned_size sz ≤ 104.
Proof.
  intros Hsz. unfold aligned_size, total_size, sizeof_mem_block, ALIGN_SIZE.
  assert (wrap64 (sz + 100) = sz + 100 - 2 ^ 64) as ->.
  { unfold wrap64. symmetry. apply (Z.mod_unique _ _ 1); lia. }
  pose proof (Z.mod_pos_bound (sz + 100 - 2 ^ 64) 8 ltac:(lia)) as Hm.
  pose proof (Z.div_mod (sz + 100 - 2 ^ 64) 8 ltac:(lia)) as Hdm.
  case_decide; [|lia]. rewrite wrap64_small by lia. lia.
Qed.

(** For a request within 100 bytes of the largest [size_t], made with
    the debug fill off, the sum with the header size wraps around and
    [malloc] looks for at most 104 bytes: it does not refuse the
    request. When the strategy finds a free block it is handed out, and
    whatever block is returned is smaller than what was asked for.
    (With the debug fill on, the fill of [size] bytes would leave the
    block; [op_ok] excludes such a call.) *)
Theorem malloc_size_wraps up st e os sz :
  reachable up st → op_ok up st (Malloc e os sz) →
  ALLOCATOR_SCRIBBLE e = false →
  2 ^ 64 - 100 ≤ sz < 2 ^ 64 →
  aligned_size sz ≤ 104 ∧
  ∃ r st',
    malloc e os sz st = Done (r, st') ∧
    (r = NULL → pick e (heap st) (aligned_size sz) (blocks st) = NULL) ∧
    (r ≠ NULL →
     r - sizeof_mem_block ∈ blocks st' ∧
     fld free (heap st') (r - sizeof_mem_block) = false ∧
     fld size (heap st') (r - sizeof_mem_block) - sizeof_mem_block < sz).
Proof.
  intros Hinv%reachable_blocks Hok _ Hsz. cbn [op_ok] in Hok.
  split; [by apply aligned_size_wraps|].
  destruct (malloc_inv up e os sz _ st Hinv Hok)
    as (r & l' & st' & Hm & [Hwf' _] & _ & Hr).
  exists r, st'. split; [done|]. split.
  - intros ->.
    destruct (malloc_cases up e os sz _ st Hinv Hok)
      as [(_ & Hin & _ & Hm')|[(? & _)|(? & _)]]; [|done..].
    rewrite Hm in Hm'. injection Hm' as Hnull _.
    pose proof (bo_pos _ _ (wf_elem _ _ _ (proj1 Hinv) Hin)).
    unfold NULL, sizeof_mem_block in Hnull. lia.
  - intros Hnn. destruct Hr as [?|(Hin & Hpos & _ & Hfree & _)]; [done|].
    rewrite (wf_blocks_eq _ _ Hwf'). split_and!; [done..|].
    pose proof (bo_top _ _ (wf_elem _ _ _ Hwf' Hin)).
    unfold sizeof_mem_block in *. lia.
Qed.

Lemma malloc_size_wraps_witness :
  aligned_size (2 ^ 64 - 1) ≤ 104 ∧
  ∃ r st',
    malloc env0 None (2 ^ 64 - 1) (final false (first_released env0))
    = Done (r, st') ∧
    (r = NULL →
     pick env0 (heap (final false (first_released env0)))
       (aligned_size (2 ^ 64 - 1))
       (blocks (final false (first_released env0))) = NULL) ∧
    (r ≠ NULL →
     r - sizeof_mem_block ∈ blocks st' ∧
     fld free (heap st') (r - sizeof_mem_block) = false ∧
     fld size (heap st') (r - sizeof_mem_block) - sizeof_mem_block
     < 2 ^ 64 - 1).
Proof.
  apply (malloc_size_wraps false (final false (first_released env0)) env0 None
           (2 ^ 64 - 1)).
  - apply final_reachable. vm_compute. reflexivity.
  - apply (plays_op_ok false (first_released env0)
             (Malloc env0 None (2 ^ 64 - 1))).
    vm_compute. reflexivity.
  - reflexivity.
  - lia.
Defined.

(** * Blocks do not overlap *)

(** In every state reached by a sequence of calls ([op_ok]: names
    shorter than 32 characters, fills and copies that stay inside
    their block), each block of the list has a header, at least 104
    bytes, lies in mapped memory below 2^64 and carries the number of a
    region mapped so far; two blocks of the list share no byte. *)
Theorem tracked_blocks_apart up st :
  reachable up st →
  (∀ b, b ∈ blocks st →
        is_Some (heap st !! b) ∧ 0 < b ∧ 104 ≤ fld size (heap st) b ∧
        b + fld size (heap st) b ≤ 2 ^ 64 ∧
        0 ≤ fld region_id (heap st) b < g_regions st ∧
        ∀ x, inside (heap st) b x → mapped st x = true) ∧
  (∀ b1 b2 x, b1 ∈ blocks st → b2 ∈ blocks st →
        inside (heap st) b1 x → inside (heap st) b2 x → b1 = b2).
Proof.
  intros [Hwf _]%reachable_blocks. split.
  - intros b Hb. destruct (wf_elem _ _ _ Hwf Hb) as [H1 H2 H3 H4 H5 H6].
    split_and!; solve [done | apply H6 | intros x Hx; by apply H5].
  - intros b1 b2 x H1 H2 Hx1 Hx2. destruct (decide (b1 = b2)); [done|].
    unfold inside in *.
    destruct (wf_disjoint _ _ Hwf b1 b2 H1 H2 ltac:(done)); lia.
Qed.

Lemma tracked_blocks_apart_witness :
  (∀ b, b ∈ blocks (final false three_blocks) →
        is_Some (heap (final false three_blocks) !! b) ∧ 0 < b ∧
        104 ≤ fld size (heap (final false three_blocks)) b ∧
        b + fld size (heap (final false three_blocks)) b ≤ 2 ^ 64 ∧
        0 ≤ fld region_id (heap (final false three_blocks)) b
        < g_regions (final false three_blocks) ∧
        ∀ x, inside (heap (final false three_blocks)) b x →
             mapped (final false three_blocks) x = true) ∧
  (∀ b1 b2 x, b1 ∈ blocks (final false three_blocks) →
        b2 ∈ blocks (final false three_blocks) →
        inside (heap (final false three_blocks)) b1 x →
        inside (heap (final false three_blocks)) b2 x → b1 = b2).
Proof.
  apply (tracked_blocks_apart false (final false three_blocks)).
  apply final_reachable. vm_compute. reflexivity.
Defined.

(** * What an allocation leaves alone *)

Lemma scribble_heap e p n st : heap (scribble e p n st) = heap st.
Proof. unfold scribble. by destruct (ALLOCATOR_SCRIBBLE e). Qed.

Lemma take_frame up e l1 c l2 sz asz s b :
  inv up (l1 ++ c :: l2) s → fld free (heap s) c = true →
  0 ≤ asz ≤ fld size (heap s) c → b ∈ l1 ++ l2 →
  b ∈ blocks (take e c sz (maybe_split s c asz)) ∧
  same_attrs (heap s) (heap (take e c sz (maybe_split s c asz))) b.
Proof.
  intros Hinv Hfree Hsz Hb. pose proof Hinv as [Hwf _].
  destruct (take_inv up e l1 c l2 sz asz s Hinv Hfree Hsz) as ([Hwf' _] & _).
  cbn zeta in Hwf'. rewrite (wf_blocks_eq _ _ Hwf').
  destruct (wf_outer l1 [c] l2 s b Hwf Hb) as (Hnc & _ & Hok).
  assert (b ≠ c) as Hbc by (intros ->; apply Hnc; left).
  pose proof (bo_top _ _ (wf_block_ok _ _ _ _ Hwf)) as Htop.
  pose proof (bo_pos _ _ (wf_block_ok _ _ _ _ Hwf)) as Hpos.
  split.
  - case_match; rewrite !elem_of_app, !elem_of_cons in *; tauto.
  - unfold take. rewrite scribble_heap. unfold maybe_split.
    destruct (can_split s c asz) eqn:Hc.
    + apply can_split_true in Hc as (H1 & H2 & _); [|done|lia].
      pose proof (split_outer_attrs _ _ _ _ asz b Hwf H1 H2 Hb) as Hs.
      eapply same_attrs_trans; [exact Hs|].
      apply mark_attrs; [done|apply Hs].
    + apply mark_attrs; [done|apply Hok].
Qed.

(** [malloc] never hands out a block that is in use, and leaves every
    other block of the list in the list, with its size, its region and
    its used or free mark. *)
Theorem malloc_keeps_other_blocks up st e os sz :
  reachable up st → op_ok up st (Malloc e os sz) →
  ∃ r st',
    malloc e os sz st = Done (r, st') ∧
    (r - sizeof_mem_block ∈ blocks st →
     fld free (heap st) (r - sizeof_mem_block) = true) ∧
    (∀ b, b ∈ blocks st → b ≠ r - sizeof_mem_block →
          b ∈ blocks st' ∧ same_attrs (heap st) (heap st') b).
Proof.
  intros Hinv%reachable_blocks Hok. cbn [op_ok] in Hok.
  pose proof Hinv as [Hwf Hex].
  pose proof (aligned_size_range sz) as [Ha0 _].
  destruct (malloc_cases up e os sz _ st Hinv Hok)
    as [(Hc & Hin & Hfit & Hm)|[(_ & _ & Hm)|
        (_ & a & -> & H1 & H2 & Hfr & Hnin & Hup & Hm)]].
  - set (c := pick e (heap st) (aligned_size sz) (blocks st)) in *.
    clearbody c. apply fits_size in Hfit as [Hle Hfree].
    eexists _, _. split; [exact Hm|].
    replace (c + sizeof_mem_block - sizeof_mem_block) with c by lia.
    split; [done|]. intros b Hb Hbc.
    apply list_elem_of_split in Hin as (l1 & l2 & Hl).
    rewrite Hl in Hinv, Hb.
    apply (take_frame up e l1 c l2); [done|done|lia|].
    rewrite !elem_of_app, !elem_of_cons in *. tauto.
  - eexists _, _. split; [exact Hm|]. split.
    + intros Hin. pose proof (bo_pos _ _ (wf_elem _ _ _ Hwf Hin)).
      unfold NULL, sizeof_mem_block in *. lia.
    + intros b Hb _. split; [done|].
      apply same_attrs_refl, (wf_elem _ _ _ Hwf Hb).
  - eexists _, _. split; [exact Hm|].
    replace (a + sizeof_mem_block - sizeof_mem_block) with a by lia.
    split; [done|]. intros b Hb Hba.
    destruct Hok as (_ & Hg & _).
    pose proof (append_result_wf _ _ _ _ Hwf Hfr H1 Hg) as Hwf1.
    pose proof (append_result_extra up _ _ _ _ Hwf Hex Hfr H1 Hup) as Hex1.
    set (rs := region_size (pagesize e) sz) in *.
    destruct (append_result_other a rs st b Hba
                (bo_header _ _ (wf_elem _ _ _ Hwf Hb))) as [Hs1 _].
    destruct (take_frame up e (blocks st) a [] sz (aligned_size sz)
                (append_result a rs st) b (conj Hwf1 Hex1)) as [Hin2 Hs2].
    + by rewrite append_result_new.
    + rewrite append_result_new. cbn. lia.
    + by rewrite app_nil_r.
    + split; [done|]. by eapply same_attrs_trans.
Qed.

Lemma malloc_keeps_other_blocks_witness :
  ∃ r st',
    malloc env0 None 40 (final false (first_released env0)) = Done (r, st') ∧
    (r - sizeof_mem_block ∈ blocks (final false (first_released env0)) →
     fld free (heap (final false (first_released env0)))
       (r - sizeof_mem_block) = true) ∧
    (∀ b, b ∈ blocks (final false (first_released env0)) →
          b ≠ r - sizeof_mem_block →
          b ∈ blocks st' ∧
          same_attrs (heap (final false (first_released env0))) (heap st') b).
Proof.
  apply (malloc_keeps_other_blocks false (final false (first_released env0))
           env0 None 40).
  - apply final_reachable. vm_compute. reflexivity.
  - apply (plays_op_ok false (first_released env0) (Malloc env0 None 40)).
    vm_compute. reflexivity.
Defined.

(** The area [malloc] returns: [size] bytes behind the header of a used
    block of the list, inside that block, in mapped memory, and in no
    other block of the list. *)
Theorem malloc_area up st e os sz :
  reachable up st → op_ok up st (Malloc e os sz) →
  0 ≤ sz → sz + 107 < 2 ^ 64 →
  ∃ r st',
    malloc e os sz st = Done (r, st') ∧
    (r ≠ NULL →
     r - sizeof_mem_block ∈ blocks st' ∧
     fld free (heap st') (r - sizeof_mem_block) = false ∧
     ∀ x, r ≤ x < r + sz →
          inside (heap st') (r - sizeof_mem_block) x ∧
          mapped st' x = true ∧
          ∀ b, b ∈ blocks st' → inside (heap st') b x →
               b = r - sizeof_mem_block).
Proof.
  intros Hinv%reachable_blocks Hok H0 Hlt. cbn [op_ok] in Hok.
  destruct (malloc_inv up e os sz _ st Hinv Hok)
    as (r & l' & st' & Hm & [Hwf' _] & _ & Hr).
  exists r, st'. split; [done|]. intros Hnn.
  destruct Hr as [?|(Hin & Hpos & _ & Hfree & Hsize)]; [done|].
  rewrite (wf_blocks_eq _ _ Hwf'). split_and!; [done..|].
  pose proof (aligned_size_covers sz Hlt) as Hal.
  intros x Hx.
  assert (inside (heap st') (r - sizeof_mem_block) x) as Hins.
  { unfold inside, sizeof_mem_block in *. lia. }
  split_and!; [done| |].
  - by apply (bo_mapped _ _ (wf_elem _ _ _ Hwf' Hin)).
  - intros b Hb Hxb. destruct (decide (b = r - sizeof_mem_block)); [done|].
    unfold inside in *.
    destruct (wf_disjoint _ _ Hwf' b _ Hb Hin ltac:(done)); lia.
Qed.

Lemma malloc_area_witness :
  ∃ r st',
    malloc env0 None 40 (final false (first_released env0)) = Done (r, st') ∧
    (r ≠ NULL →
     r - sizeof_mem_block ∈ blocks st' ∧
     fld free (heap st') (r - sizeof_mem_block) = false ∧
     ∀ x, r ≤ x < r + 40 →
          inside (heap st') (r - sizeof_mem_block) x ∧
          mapped st' x = true ∧
          ∀ b, b ∈ blocks st' → inside (heap st') b x →
               b = r - sizeof_mem_block).
Proof.
  apply (malloc_area false (final false (first_released env0)) env0 None 40).
  - apply final_reachable. vm_compute. reflexivity.
  - apply (plays_op_ok false (first_released env0) (Malloc env0 None 40)).
    vm_compute. reflexivity.
  - lia.
  - lia.
Defined.

(** * What a release leaves alone *)

Lemma free_result_frame l1 block l2 ok st b :
  wf (l1 ++ block :: l2) st → b ∈ l1 ++ l2 →
  fld free (heap st) b = false →
  ∃ l', wf l' (free_result ok block st) ∧ b ∈ l' ∧
        same_attrs (heap st) (heap (free_result ok block st)) b.
Proof.
  intros Hwf Hb Hused.
  destruct (wf_outer l1 [block] l2 st b Hwf Hb) as (Hnb & _ & Hok).
  assert (b ≠ block) as Hbb by (intros ->; apply Hnb; left).
  unfold free_result, merge_block_result. cbn zeta.
  set (s0 := mark true block st).
  assert (wf (l1 ++ block :: l2) s0) as Hwf0 by (by apply mark_wf).
  assert (same_attrs (heap st) (heap s0) b) as Hs0
    by (apply mark_attrs; [done|apply Hok]).
  (* first statement of merge_block *)
  assert (∃ l2', wf (l1 ++ block :: l2')
                    (if absorbs_next s0 block
                     then merge_next_result block s0 else s0) ∧
                 b ∈ l1 ++ l2' ∧
                 same_attrs (heap st)
                   (heap (if absorbs_next s0 block
                          then merge_next_result block s0 else s0)) b)
    as (l2' & Hwf1 & Hb1 & Hs1).
  { destruct (absorbs_next s0 block) eqn:Habs; [|by exists l2].
    destruct (absorbs_next_true _ _ _ _ Hwf0 Habs) as (n & l2' & -> & Hfn & Hr).
    assert (b ≠ n) as Hbn.
    { intros ->. destruct Hs0 as (_ & _ & _ & Hf). congruence. }
    assert (b ∈ l1 ++ l2') as Hb'.
    { rewrite !elem_of_app, !elem_of_cons in *. tauto. }
    exists l2'. split_and!; [by apply (merge_next_result_wf _ _ n)|done|].
    eapply same_attrs_trans; [exact Hs0|].
    by apply (merge_next_outer_attrs l1 block n l2'). }
  set (s1 := if absorbs_next s0 block then merge_next_result block s0 else s0)
    in *.
  clearbody s1.
  (* second and third statement *)
  destruct (absorbed_by_prev s1 block) eqn:Habs.
  - destruct (absorbed_by_prev_true _ _ _ _ Hwf1 Habs)
      as (l1' & p & -> & Hfp & Hr).
    assert (b ≠ p) as Hbp.
    { intros ->. destruct Hs1 as (_ & _ & _ & Hf). congruence. }
    rewrite <-app_assoc in Hwf1. cbn [app] in Hwf1.
    assert (b ∈ l1' ++ l2') as Hb'.
    { rewrite !elem_of_app, !elem_of_cons, elem_of_nil in *. tauto. }
    exists (l1' ++ p :: l2'). split_and!.
    + by apply merge_prev_result_wf.
    + rewrite !elem_of_app, !elem_of_cons in *. tauto.
    + eapply same_attrs_trans; [exact Hs1|].
      by apply (merge_prev_outer_attrs l1' p block l2').
  - destruct (alone s1 block) eqn:Halone.
    + exists (l1 ++ l2'). split_and!; [by apply unlink_unmap_wf|done|].
      eapply same_attrs_trans; [exact Hs1|].
      by apply (unlink_unmap_outer_attrs l1 block l2').
    + exists (l1 ++ block :: l2'). split_and!; [done| |done].
      rewrite !elem_of_app, !elem_of_cons in *. tauto.
Qed.

(** [free] of a block of the list returns, whether [munmap] succeeds or
    not. It adds no block to the list, maps no memory and leaves the
    three counters; every other block that is in use stays in the list,
    in use, with its size and region. *)
Theorem free_keeps_used_blocks up st ok block :
  reachable up st → block ∈ blocks st →
  ∃ st',
    free_ ok (block + sizeof_mem_block) st = Done (tt, st') ∧
    (∀ b, b ∈ blocks st' → b ∈ blocks st) ∧
    (∀ x, mapped st' x = true → mapped st x = true) ∧
    same_globals st st' ∧
    (∀ b, b ∈ blocks st → b ≠ block → fld free (heap st) b = false →
          b ∈ blocks st' ∧ same_attrs (heap st) (heap st') b).
Proof.
  intros Hinv%reachable_blocks Hin.
  destruct (free_inv up _ ok block st Hinv Hin)
    as (l' & st' & Hf & [Hwf' _] & Hg & Hsub & Hmap & _ & _ & _ & Hst').
  exists st'. rewrite (wf_blocks_eq _ _ Hwf'). split_and!; try done.
  intros b Hb Hbb Hused. pose proof Hinv as [Hwf _].
  apply list_elem_of_split in Hin as (l1 & l2 & Hl). rewrite Hl in Hwf, Hb.
  destruct (free_result_frame l1 block l2 ok st b Hwf) as (l'' & Hwf'' & ? & ?).
  { rewrite !elem_of_app, !elem_of_cons in *. tauto. }
  { done. }
  rewrite <-Hst' in *.
  rewrite <-(wf_blocks_eq _ _ Hwf'), (wf_blocks_eq _ _ Hwf''). done.
Qed.

Lemma free_keeps_used_blocks_witness :
  ∃ st',
    free_ true (1000144 + sizeof_mem_block) (final false three_used)
    = Done (tt, st') ∧
    (∀ b, b ∈ blocks st' → b ∈ blocks (final false three_used)) ∧
    (∀ x, mapped st' x = true → mapped (final false three_used) x = true) ∧
    same_globals (final false three_used) st' ∧
    (∀ b, b ∈ blocks (final false three_used) → b ≠ 1000144 →
          fld free (heap (final false three_used)) b = false →
          b ∈ blocks st' ∧
          same_attrs (heap (final false three_used)) (heap st') b).
Proof.
  apply (free_keeps_used_blocks false (final false three_used) true 1000144).
  - apply final_reachable. vm_compute. reflexivity.
  - replace (blocks (final false three_used))
      with [1000000; 1000144; 1000288; 1000432] by (vm_compute; reflexivity).
    apply list_elem_of_further, list_elem_of_here.
Defined.

(** * A fresh region *)

(** Whether the region leaves a rest that is worth a block. *)
Definition leaves_rest (asz rs : Z) : bool :=
  (104 <=? asz) && (asz + 104 <=? rs).

Lemma can_split_fresh a rs asz st :
  0 ≤ asz ≤ rs → rs < 2 ^ 64 →
  can_split (append_result a rs st) a asz = leaves_rest asz rs.
Proof.
  intros Hle Hlt. unfold can_split, leaves_rest.
  rewrite !append_result_new. cbn [free size]. rewrite wrap64_small by lia.
  unfold sizeof_mem_block, BLOCK_ALIGN. rewrite andb_true_r.
  f_equal.
  - destruct (asz <? 100 + 4) eqn:E1, (104 <=? asz) eqn:E2; try done;
      [apply Z.ltb_lt in E1; apply Z.leb_le in E2; lia
      |apply Z.ltb_ge in E1; apply Z.leb_gt in E2; lia].
  - destruct (rs - asz <? 104) eqn:E1, (asz + 104 <=? rs) eqn:E2; try done;
      [apply Z.ltb_lt in E1; apply Z.leb_le in E2; lia
      |apply Z.ltb_ge in E1; apply Z.leb_gt in E2; lia].
Qed.

Lemma take_fld {A} (f : mem_block → A) e c sz st a :
  (∀ v b, f (with_free v b) = f b) →
  fld f (heap (take e c sz st)) a = fld f (heap st) a.
Proof.
  intros Hf. unfold take. rewrite scribble_heap. by apply mark_fld.
Qed.

Lemma take_globals e c sz asz st :
  g_regions (take e c sz (maybe_split st c asz)) = g_regions st ∧
  g_allocations (take e c sz (maybe_split st c asz)) = g_allocations st.
Proof.
  unfold take, scribble, maybe_split.
  destruct (ALLOCATOR_SCRIBBLE e), (can_split st c asz); done.
Qed.

(** The state after [malloc] carved a fresh region at [a]. *)
Definition fresh_state (e : env) (a sz : Z) (st : state) : state :=
  take e a sz
    (maybe_split (append_result a (region_size (pagesize e) sz) st) a
       (aligned_size sz)).

Lemma fresh_state_facts up e l a sz st :
  inv up l st →
  fresh_region st a (region_size (pagesize e) sz) →
  104 ≤ region_size (pagesize e) sz →
  aligned_size sz ≤ region_size (pagesize e) sz →
  g_regions st + 1 < 2 ^ 64 →
  (up = true → ∀ b, b ∈ l → b + fld size (heap st) b ≤ a) →
  inv up (l ++ a :: (if leaves_rest (aligned_size sz)
                          (region_size (pagesize e) sz)
                     then [a + aligned_size sz] else []))
      (fresh_state e a sz st) ∧
  fld free (heap (fresh_state e a sz st)) a = false ∧
  fld region_id (heap (fresh_state e a sz st)) a = g_regions st ∧
  fld size (heap (fresh_state e a sz st)) a
  = (if leaves_rest (aligned_size sz) (region_size (pagesize e) sz)
     then aligned_size sz else region_size (pagesize e) sz) ∧
  fld name (heap (fresh_state e a sz st)) a
  = snprintf32 "Allocation " (g_allocations st) ∧
  (leaves_rest (aligned_size sz) (region_size (pagesize e) sz) = true →
   fld free (heap (fresh_state e a sz st)) (a + aligned_size sz) = true ∧
   fld region_id (heap (fresh_state e a sz st)) (a + aligned_size sz)
   = g_regions st ∧
   fld size (heap (fresh_state e a sz st)) (a + aligned_size sz)
   = region_size (pagesize e) sz - aligned_size sz ∧
   fld name (heap (fresh_state e a sz st)) (a + aligned_size sz)
   = snprintf32 "Split block " (g_splits st)) ∧
  (∀ x, mapped (fresh_state e a sz st) x
        = in_range a (region_size (pagesize e) sz) x || mapped st x) ∧
  g_regions (fresh_state e a sz st) = g_regions st + 1 ∧
  g_allocations (fresh_state e a sz st) = wrap64 (g_allocations st + 1).
Proof.
  intros [Hwf Hex] Hfr Hrs Has Hg Hup.
  pose proof (aligned_size_range sz) as [Ha0 _].
  set (rs := region_size (pagesize e) sz) in *.
  set (asz := aligned_size sz) in *.
  pose proof (append_result_wf _ _ _ _ Hwf Hfr Hrs Hg) as Hwf1.
  pose proof (append_result_extra up _ _ _ _ Hwf Hex Hfr Hrs Hup) as Hex1.
  assert (rs < 2 ^ 64) as Hlt by (destruct Hfr as (? & ? & _); lia).
  pose proof (can_split_fresh a rs asz st (conj Ha0 Has) Hlt) as Hcs.
  unfold fresh_state. fold rs asz.
  set (sA := append_result a rs st) in *.
  assert (fld size (heap sA) a = rs) as HszA
    by (unfold sA; by rewrite append_result_new).
  assert (fld free (heap sA) a = true) as HfA
    by (unfold sA; by rewrite append_result_new).
  destruct (take_inv up e l a [] sz asz sA (conj Hwf1 Hex1) HfA
              ltac:(rewrite HszA; lia)) as (Hinv' & Hf' & Hs').
  cbn zeta in Hinv', Hf', Hs'. rewrite Hcs in Hinv', Hs'.
  assert (g_regions sA = g_regions st + 1 ∧
          g_allocations sA = wrap64 (g_allocations st + 1)) as [HgA HaA].
  { unfold sA, append_result. cbn. split; [|done].
    apply wrap64_small. pose proof (wf_regions _ _ Hwf). lia. }
  destruct (take_globals e a sz asz sA) as [Hg' Ha'].
  assert (∀ x, mapped (take e a sz (maybe_split sA a asz)) x
               = in_range a rs x || mapped st x) as Hmap'
    by (intros x; by rewrite take_mapped).
  assert (fld region_id (heap (take e a sz (maybe_split sA a asz))) a
          = g_regions st ∧
          fld name (heap (take e a sz (maybe_split sA a asz))) a
          = snprintf32 "Allocation " (g_allocations st)) as [Hr' Hn'].
  { rewrite !take_fld by done. unfold maybe_split.
    destruct (can_split sA a asz).
    - rewrite !split_result_block. cbn.
      fold (fld region_id (heap sA) a). fold (fld name (heap sA) a).
      unfold sA. by rewrite !append_result_new.
    - unfold sA. by rewrite !append_result_new. }
  rewrite Hg', Ha', HgA, HaA. rewrite HszA in Hs'.
  destruct (leaves_rest asz rs) eqn:Hrest.
  - split_and!; try done. intros _.
    apply andb_true_iff in Hrest as [H1%Z.leb_le H2%Z.leb_le].
    assert (a ≠ a + asz) as Hne by lia.
    unfold take. rewrite scribble_heap, mark_free_ne by lia.
    rewrite !(mark_fld _ false a) by done.
    unfold maybe_split. rewrite Hcs.
    rewrite !(split_result_new _ _ _ _ Hne). cbn.
    rewrite HszA. unfold sA. rewrite append_result_new. cbn.
    unfold append_result. cbn. done.
  - split_and!; try done.
Qed.

(** When no block can be reused and the kernel maps a region at [a],
    [malloc] returns [a + 100]. The region is linked behind the old
    tail, whatever its address: its first block, named after the
    allocation counter and numbered with the region counter, is in use;
    when the region leaves at least 104 bytes behind an allocation of
    at least 104, the rest follows as a free block of the same region,
    named after the split counter, and otherwise the block keeps the
    whole region. *)
Theorem malloc_links_region_at_tail up st e a sz :
  reachable up st → op_ok up st (Malloc e (Some a) sz) →
  pick e (heap st) (aligned_size sz) (blocks st) = NULL →
  region_size (pagesize e) sz ≠ 0 →
  ∃ st',
    malloc e (Some a) sz st = Done (a + sizeof_mem_block, st') ∧
    blocks st'
    = blocks st ++ a :: (if leaves_rest (aligned_size sz)
                               (region_size (pagesize e) sz)
                         then [a + aligned_size sz] else []) ∧
    fld free (heap st') a = false ∧
    fld region_id (heap st') a = g_regions st ∧
    fld size (heap st') a
    = (if leaves_rest (aligned_size sz) (region_size (pagesize e) sz)
       then aligned_size sz else region_size (pagesize e) sz) ∧
    fld name (heap st') a = snprintf32 "Allocation " (g_allocations st) ∧
    (leaves_rest (aligned_size sz) (region_size (pagesize e) sz) = true →
     fld free (heap st') (a + aligned_size sz) = true ∧
     fld region_id (heap st') (a + aligned_size sz) = g_regions st ∧
     fld size (heap st') (a + aligned_size sz)
     = region_size (pagesize e) sz - aligned_size sz ∧
     fld name (heap st') (a + aligned_size sz)
     = snprintf32 "Split block " (g_splits st)) ∧
    (∀ x, mapped st' x
          = in_range a (region_size (pagesize e) sz) x || mapped st x) ∧
    g_regions st' = g_regions st + 1 ∧
    g_allocations st' = wrap64 (g_allocations st + 1).
Proof.
  intros Hinv%reachable_blocks Hok Hpick Hrs. cbn [op_ok] in Hok.
  destruct (malloc_cases up e (Some a) sz _ st Hinv Hok)
    as [(? & _)|[(_ & [?|?] & _)|
        (_ & a' & [= <-] & H1 & H2 & Hfr & _ & Hup & Hm)]]; [done..|].
  destruct Hok as (_ & Hg & _).
  destruct (fresh_state_facts up e _ a sz st Hinv Hfr H1 H2 Hg Hup)
    as ([Hwf' _] & Hrest).
  exists (fresh_state e a sz st). split; [exact Hm|].
  split; [by apply wf_blocks_eq|exact Hrest].
Qed.

Lemma malloc_links_region_at_tail_witness :
  ∃ st',
    malloc env0 (Some 500000) 5000 (final false one_block)
    = Done (500000 + sizeof_mem_block, st') ∧
    blocks st'
    = blocks (final false one_block)
      ++ 500000 :: (if leaves_rest (aligned_size 5000)
                         (region_size (pagesize env0) 5000)
                    then [500000 + aligned_size 5000] else []) ∧
    fld free (heap st') 500000 = false ∧
    fld region_id (heap st') 500000 = g_regions (final false one_block) ∧
    fld size (heap st') 500000
    = (if leaves_rest (aligned_size 5000) (region_size (pagesize env0) 5000)
       then aligned_size 5000 else region_size (pagesize env0) 5000) ∧
    fld name (heap st') 500000
    = snprintf32 "Allocation " (g_allocations (final false one_block)) ∧
    (leaves_rest (aligned_size 5000) (region_size (pagesize env0) 5000) = true →
     fld free (heap st') (500000 + aligned_size 5000) = true ∧
     fld region_id (heap st') (500000 + aligned_size 5000)
     = g_regions (final false one_block) ∧
     fld size (heap st') (500000 + aligned_size 5000)
     = region_size (pagesize env0) 5000 - aligned_size 5000 ∧
     fld name (heap st') (500000 + aligned_size 5000)
     = snprintf32 "Split block " (g_splits (final false one_block))) ∧
    (∀ x, mapped st' x
          = in_range 500000 (region_size (pagesize env0) 5000) x
            || mapped (final false one_block) x) ∧
    g_regions st' = g_regions (final false one_block) + 1 ∧
    g_allocations st' = wrap64 (g_allocations (final false one_block) + 1).
Proof.
  apply (malloc_links_region_at_tail false (final false one_block) env0
           500000 5000).
  - apply final_reachable. vm_compute. reflexivity.
  - apply (plays_op_ok false one_block (Malloc env0 (Some 500000) 5000)).
    vm_compute. reflexivity.
  - vm_compute. reflexivity.
  - vm_compute. discriminate.
Defined.

(** ** Releasing the block of a fresh region again *)

Lemma fresh_state_frame up e l a sz st b :
  inv up l st →
  fresh_region st a (region_size (pagesize e) sz) →
  104 ≤ region_size (pagesize e) sz →
  aligned_size sz ≤ region_size (pagesize e) sz →
  g_regions st + 1 < 2 ^ 64 →
  (up = true → ∀ b, b ∈ l → b + fld size (heap st) b ≤ a) →
  b ∈ l → same_attrs (heap st) (heap (fresh_state e a sz st)) b.
Proof.
  intros [Hwf Hex] Hfr H1 H2 Hg Hup Hb.
  pose proof (aligned_size_range sz) as [Ha0 _].
  pose proof (append_result_wf _ _ _ _ Hwf Hfr H1 Hg) as Hwf1.
  pose proof (append_result_extra up _ _ _ _ Hwf Hex Hfr H1 Hup) as Hex1.
  set (rs := region_size (pagesize e) sz) in *.
  assert (b ≠ a) as Hba.
  { intros ->. pose proof (wf_fresh _ _ _ _ _ Hwf Hfr ltac:(lia) Hb).
    pose proof (bo_size _ _ (wf_elem _ _ _ Hwf Hb)). lia. }
  destruct (append_result_other a rs st b Hba
              (bo_header _ _ (wf_elem _ _ _ Hwf Hb))) as [Hs1 _].
  destruct (take_frame up e l a [] sz (aligned_size sz)
              (append_result a rs st) b (conj Hwf1 Hex1)) as [_ Hs2].
  - by rewrite append_result_new.
  - rewrite append_result_new. cbn. lia.
  - by rewrite app_nil_r.
  - by eapply same_attrs_trans.
Qed.

Lemma unmap_result_mapped_all block ok st x :
  mapped (unmap_result block ok st) x
  = (if ok then negb (in_range block (fld size (heap st) block) x) else true)
    && mapped st x.
Proof. unfold unmap_result. by destruct ok. Qed.

(** The last block of the list, alone in its region, is unlinked by a
    release: the list is what it was before the region came. *)
Lemma release_last_of_region l a s ok :
  wf (l ++ [a]) s →
  (∀ p, p ∈ l → fld region_id (heap s) p ≠ fld region_id (heap s) a) →
  absorbed_by_prev s a = false ∧ alone s a = true ∧
  wf l (unmap_result a ok (unlink_result a s)).
Proof.
  intros Hwf Hreg.
  pose proof (wf_prev _ _ _ _ Hwf) as Hprev.
  pose proof (wf_next _ _ _ _ Hwf) as Hnext. cbn in Hnext.
  assert (nonnull (fld prev (heap s) a) &&
          bool_decide (fld region_id (heap s) (fld prev (heap s) a)
                       = fld region_id (heap s) a) = false) as Hp.
  { rewrite Hprev. destruct (last l) as [p|] eqn:E; [|done]. cbn.
    rewrite bool_decide_eq_false_2; [by rewrite andb_false_r|].
    apply Hreg. by apply last_Some_elem_of. }
  assert (alone s a = true) as Halone.
  { unfold alone. cbn zeta. rewrite Hnext, nonnull_NULL. cbn [negb orb andb].
    destruct (nonnull (fld prev (heap s) a)); [|done]. cbn in *.
    by rewrite Hp. }
  split_and!; [|done|].
  - unfold absorbed_by_prev. cbn zeta.
    destruct (nonnull (fld prev (heap s) a)); [|done]. cbn in *.
    by rewrite Hp, andb_false_r.
  - rewrite <-(app_nil_r l) at 1. by apply unlink_unmap_wf.
Qed.

Lemma release_fresh up e l a sz st ok :
  inv up l st →
  fresh_region st a (region_size (pagesize e) sz) →
  104 ≤ region_size (pagesize e) sz →
  aligned_size sz ≤ region_size (pagesize e) sz →
  g_regions st + 1 < 2 ^ 64 →
  (up = true → ∀ b, b ∈ l → b + fld size (heap st) b ≤ a) →
  ∃ s1,
    free_result ok a (fresh_state e a sz st)
    = unmap_result a ok (unlink_result a s1) ∧
    wf l (unmap_result a ok (unlink_result a s1)) ∧
    wf (l ++ [a]) s1 ∧
    fld size (heap s1) a = region_size (pagesize e) sz ∧
    (∀ x, mapped s1 x
          = in_range a (region_size (pagesize e) sz) x || mapped st x) ∧
    trace s1 = trace (fresh_state e a sz st) ∧
    (∀ b, b ∈ l → same_attrs (heap st) (heap s1) b).
Proof.
  intros Hinv Hfr H1 H2 Hg Hup. pose proof Hinv as [Hwf _].
  destruct (fresh_state_facts up e l a sz st Hinv Hfr H1 H2 Hg Hup)
    as ([Hwf' _] & Hfa & Hra & Hsa & _ & Hrest & Hmap & _).
  pose proof (fresh_state_frame up e l a sz st) as Hframe.
  set (s' := fresh_state e a sz st) in *.
  set (rs := region_size (pagesize e) sz) in *.
  set (asz := aligned_size sz) in *.
  unfold free_result, merge_block_result. cbn zeta.
  set (s0 := mark true a s').
  assert (∀ b, b ∈ l → b ≠ a) as Hne.
  { intros b Hb ->. pose proof (wf_fresh _ _ _ _ _ Hwf Hfr ltac:(lia) Hb).
    pose proof (bo_size _ _ (wf_elem _ _ _ Hwf Hb)). lia. }
  assert (∀ b, b ∈ l → same_attrs (heap st) (heap s0) b) as Hframe0.
  { intros b Hb. pose proof (Hframe b Hinv Hfr H1 H2 Hg Hup Hb) as Hs.
    eapply same_attrs_trans; [exact Hs|].
    apply mark_attrs; [by apply Hne|apply Hs]. }
  assert (fld region_id (heap s0) a = g_regions st) as Hra0
    by (unfold s0; by rewrite (mark_fld region_id)).
  assert (trace s0 = trace s' ∧ mapped s0 = mapped s') as [Ht0 Hm0] by done.
  assert (∃ s1,
            (if absorbs_next s0 a then merge_next_result a s0 else s0) = s1 ∧
            wf (l ++ [a]) s1 ∧ fld size (heap s1) a = rs ∧
            fld region_id (heap s1) a = g_regions st ∧
            mapped s1 = mapped s' ∧ trace s1 = trace s' ∧
            ∀ b, b ∈ l → same_attrs (heap st) (heap s1) b)
    as (s1 & -> & Hwf1 & Hs1 & Hr1 & Hm1 & Ht1 & Hframe1).
  { destruct (leaves_rest asz rs) eqn:Hlr.
    - destruct (Hrest eq_refl) as (Hfn & Hrn & Hsn & _).
      assert (wf (l ++ a :: [a + asz]) s0) as Hwf0 by (by apply mark_wf).
      pose proof (wf_second _ _ _ _ _ Hwf0)
        as (Hn0 & Hna & _ & Hnext & _ & Hnn & _).
      cbn in Hnn.
      assert (fld region_id (heap s0) (a + asz) = fld region_id (heap s0) a)
        as Hreq.
      { unfold s0. rewrite !(mark_fld region_id) by done. congruence. }
      assert (absorbs_next s0 a = true) as ->.
      { unfold absorbs_next. cbn zeta. rewrite Hnext, (nonnull_true _ Hn0).
        unfold s0 at 1. rewrite mark_free_ne, Hfn by done.
        by rewrite bool_decide_eq_true_2. }
      exists (merge_next_result a s0). split_and!; try done.
      + by apply (merge_next_result_wf l a (a + asz) []).
      + rewrite merge_next_result_block; rewrite ?Hnext, ?Hnn; try done.
        * cbn. fold (fld size (heap s0) a). unfold s0.
          rewrite !(mark_fld size) by done. lia.
        * apply not_eq_sym, (wf_nonnull _ _ _ _ Hwf0).
      + rewrite merge_next_result_block; rewrite ?Hnext, ?Hnn; try done.
        apply not_eq_sym, (wf_nonnull _ _ _ _ Hwf0).
      + intros b Hb. eapply same_attrs_trans; [by apply Hframe0|].
        apply (merge_next_outer_attrs l a (a + asz) []); [done|].
        by rewrite app_nil_r.
    - assert (wf (l ++ [a]) s0) as Hwf0 by (by apply mark_wf).
      pose proof (wf_next _ _ _ _ Hwf0) as Hnext. cbn in Hnext.
      assert (absorbs_next s0 a = false) as ->.
      { unfold absorbs_next. cbn zeta. by rewrite Hnext. }
      exists s0. split_and!; try done.
      unfold s0. by rewrite (mark_fld size). }
  destruct (release_last_of_region l a s1 ok Hwf1) as (-> & -> & Hwf2).
  { intros p Hp. destruct (Hframe1 p Hp) as (_ & _ & -> & _).
    pose proof (bo_region _ _ (wf_elem _ _ _ Hwf Hp)). lia. }
  exists s1. split_and!; try done.
  intros x. by rewrite Hm1.
Qed.

(** An allocation that needs a fresh region, followed by the release
    of its block: [malloc] returns [a + 100] and [free] returns, and
    the list is again what it was before, each of its blocks with the
    size, region and mark it had. When [munmap] succeeds, what is
    mapped is what was mapped before; when it fails, [perror] reports
    it and the region stays mapped. *)
Theorem malloc_free_round_trip up st e a sz ok :
  reachable up st → op_ok up st (Malloc e (Some a) sz) →
  pick e (heap st) (aligned_size sz) (blocks st) = NULL →
  region_size (pagesize e) sz ≠ 0 →
  ∃ st' st'',
    malloc e (Some a) sz st = Done (a + sizeof_mem_block, st') ∧
    free_ ok (a + sizeof_mem_block) st' = Done (tt, st'') ∧
    blocks st'' = blocks st ∧
    g_head st'' = g_head st ∧ g_tail st'' = g_tail st ∧
    (∀ b, b ∈ blocks st → same_attrs (heap st) (heap st'') b) ∧
    (ok = true → ∀ x, mapped st'' x = mapped st x) ∧
    (ok = false →
     trace st'' = Perror "munmap" :: trace st' ∧
     ∀ x, mapped st'' x = mapped st' x).
Proof.
  intros Hinv%reachable_blocks Hok Hpick Hrs. cbn [op_ok] in Hok.
  destruct (malloc_cases up e (Some a) sz _ st Hinv Hok)
    as [(? & _)|[(_ & [?|?] & _)|
        (_ & a' & [= <-] & H1 & H2 & Hfr & _ & Hup & Hm)]]; [done..|].
  pose proof Hok as (_ & Hg & _). pose proof Hinv as [Hwf _].
  destruct (fresh_state_facts up e _ a sz st Hinv Hfr H1 H2 Hg Hup)
    as (Hinv' & _ & _ & _ & _ & _ & Hmap' & _).
  destruct (release_fresh up e _ a sz st ok Hinv Hfr H1 H2 Hg Hup)
    as (s1 & Hres & Hwf2 & Hwf1 & Hs1 & Hm1 & Ht1 & Hframe1).
  assert (a ∈ blocks st ++ a :: (if leaves_rest (aligned_size sz)
                                      (region_size (pagesize e) sz)
                                 then [a + aligned_size sz] else []))
    as Hin by apply elem_of_mid.
  destruct (free_inv up _ ok a _ Hinv' Hin)
    as (l'' & st'' & Hf & _ & _ & _ & _ & _ & _ & _ & Hst'').
  rewrite Hres in Hst''.
  exists (fresh_state e a sz st), st''. split; [exact Hm|].
  split; [exact Hf|]. subst st''.
  pose proof (wf_nonnull _ _ _ _ Hwf1) as Ha0.
  pose proof (wf_next _ _ _ _ Hwf1) as Hnext. cbn in Hnext.
  pose proof (wf_prev _ _ _ _ Hwf1) as Hprev.
  assert (fld prev (heap s1) a ≠ a) as Hpa.
  { rewrite Hprev. destruct (last (blocks st)) as [p|] eqn:E; [|done]. cbn.
    intros ->. apply last_Some_elem_of in E.
    pose proof (wf_nodup _ _ Hwf1) as Hnd.
    apply NoDup_app in Hnd as (_ & Hnd & _). apply (Hnd a E). left. }
  split_and!.
  - by apply wf_blocks_eq.
  - by rewrite (wf_head _ _ Hwf2), (wf_head _ _ Hwf).
  - by rewrite (wf_tail _ _ Hwf2), (wf_tail _ _ Hwf).
  - intros b Hb. eapply same_attrs_trans; [by apply Hframe1|].
    apply (unlink_unmap_outer_attrs (blocks st) a []); [done|].
    by rewrite app_nil_r.
  - intros -> x. rewrite unmap_result_mapped_all.
    rewrite unlink_result_size;
      [|apply (wf_elem _ _ _ Hwf1), elem_of_mid|by rewrite Hnext|done].
    rewrite Hs1. unfold unlink_result. cbn [mapped]. rewrite Hm1.
    destruct (in_range a (region_size (pagesize e) sz) x) eqn:Hr; [|done].
    cbn. symmetry. destruct Hfr as (_ & _ & Hfr). apply Hfr.
    unfold in_range in Hr.
    apply andb_true_iff in Hr as [?%Z.leb_le ?%Z.ltb_lt]. lia.
  - intros ->. split.
    + unfold unmap_result, unlink_result. cbn. by rewrite Ht1.
    + intros x. rewrite unmap_result_mapped_all. cbn.
      unfold unlink_result. cbn [mapped]. by rewrite Hm1, Hmap'.
Qed.

Lemma malloc_free_round_trip_witness :
  ∃ st' st'',
    malloc env0 (Some 500000) 5000 (final false one_block)
    = Done (500000 + sizeof_mem_block, st') ∧
    free_ true (500000 + sizeof_mem_block) st' = Done (tt, st'') ∧
    blocks st'' = blocks (final false one_block) ∧
    g_head st'' = g_head (final false one_block) ∧
    g_tail st'' = g_tail (final false one_block) ∧
    (∀ b, b ∈ blocks (final false one_block) →
          same_attrs (heap (final false one_block)) (heap st'') b) ∧
    (true = true → ∀ x, mapped st'' x = mapped (final false one_block) x) ∧
    (true = false →
     trace st'' = Perror "munmap" :: trace st' ∧
     ∀ x, mapped st'' x = mapped st' x).
Proof.
  apply (malloc_free_round_trip false (final false one_block) env0
           500000 5000 true).
  - apply final_reachable. vm_compute. reflexivity.
  - apply (plays_op_ok false one_block (Malloc env0 (Some 500000) 5000)).
    vm_compute. reflexivity.
  - vm_compute. reflexivity.
  - vm_compute. discriminate.
Defined.

(** * malloc_name *)

(** [malloc_name(size, name)], for a name of less than 32 characters,
    returns what [malloc(size)] returns. When that is NULL nothing more
    happens; otherwise the state is that of [malloc] with the name of
    the returned block replaced: the list, the sizes, regions and marks
    of all blocks and the names of the other blocks are the same. *)
Theorem malloc_name_names_block up st e os sz nm :
  reachable up st → op_ok up st (MallocName e os sz nm) →
  (String.length nm < 32)%nat →
  ∃ r st1 st',
    malloc e os sz st = Done (r, st1) ∧
    malloc_name e os sz nm st = Done (r, st') ∧
    (r = NULL → st' = st1) ∧
    (r ≠ NULL →
     fld name (heap st') (r - sizeof_mem_block) = nm ∧
     blocks st' = blocks st1 ∧
     ∀ b, fld size (heap st') b = fld size (heap st1) b ∧
          fld free (heap st') b = fld free (heap st1) b ∧
          fld region_id (heap st') b = fld region_id (heap st1) b ∧
          (b ≠ r - sizeof_mem_block →
           fld name (heap st') b = fld name (heap st1) b)).
Proof.
  intros Hinv%reachable_blocks Hok Hnm. cbn [op_ok] in Hok.
  destruct Hok as [Hok _].
  destruct (malloc_inv up e os sz _ st Hinv Hok)
    as (r & l' & st1 & Hm & Hinv1 & _ & Hr).
  exists r, st1, (if decide (r = NULL) then st1
                  else rename nm (r - sizeof_mem_block) st1).
  split; [done|]. split.
  - apply malloc_name_effect; [done| |done].
    destruct Hr as [?|(Hin & ? & ? & _)]; [by left|right].
    split_and!; [done..|]. apply (wf_elem _ _ _ (proj1 Hinv1) Hin).
  - split; intros Hnull.
    + by rewrite decide_True.
    + rewrite decide_False by done.
      pose proof (rename_inv up nm (r - sizeof_mem_block) _ _ Hinv1)
        as [Hwf' _].
      split_and!.
      * unfold rename. cbn [heap set_heap]. by rewrite fld_insert_eq.
      * by rewrite (wf_blocks_eq _ _ Hwf'), (wf_blocks_eq _ _ (proj1 Hinv1)).
      * intros b. rewrite !rename_fld by done. split_and!; try done.
        intros Hb. unfold rename. cbn [heap set_heap].
        by rewrite fld_insert_ne.
Qed.

Lemma malloc_name_names_block_witness :
  ∃ r st1 st',
    malloc env0 None 40 (final false (first_released env0)) = Done (r, st1) ∧
    malloc_name env0 None 40 "buffer" (final false (first_released env0))
    = Done (r, st') ∧
    (r = NULL → st' = st1) ∧
    (r ≠ NULL →
     fld name (heap st') (r - sizeof_mem_block) = "buffer" ∧
     blocks st' = blocks st1 ∧
     ∀ b, fld size (heap st') b = fld size (heap st1) b ∧
          fld free (heap st') b = fld free (heap st1) b ∧
          fld region_id (heap st') b = fld region_id (heap st1) b ∧
          (b ≠ r - sizeof_mem_block →
           fld name (heap st') b = fld name (heap st1) b)).
Proof.
  apply (malloc_name_names_block false (final false (first_released env0))
           env0 None 40 "buffer").
  - apply final_reachable. vm_compute. reflexivity.
  - apply (plays_op_ok false (first_released env0)
             (MallocName env0 None 40 "buffer")).
    vm_compute. reflexivity.
  - cbn. lia.
Defined.

(** * print_memory *)

(** What [print_memory] writes to standard output, line by line, with
    the arguments of the format strings in place of their text. *)
Inductive line : Type :=
  | Title
  | RegionLine (id addr : Z)
  | BlockLine (start stop : Z) (nm : string) (sz : Z) (is_free : bool).

(** The [while (current_block != NULL)] loop; [out] is what was written
    so far.  In the condition of the [if], the right operand of [||]
    compares two pointers and reads no header, so evaluating it always
    is not observable. *)
Fixpoint print_memory_loop (fuel : nat) (current_block current_region : Z)
    (out : list line) : M (list line) :=
  if decide (current_block = NULL) then ret out else
  match fuel with
  | O => load region_id current_block;; hang
  | S fuel' =>
      rid ← load region_id current_block;
      creg ← load region_id current_region;
      hd ← get g_head;
      let starts :=
        negb (bool_decide (rid = creg)) || bool_decide (current_block = hd) in
      let out1 :=
        if starts then out ++ [RegionLine rid current_block] else out in
      sz ← load size current_block;
      nm ← load name current_block;
      fr ← load free current_block;
      let out2 :=
        out1 ++ [BlockLine current_block (wrap64 (current_block + sz))
                           nm sz fr] in
      n ← load next current_block;
      print_memory_loop fuel' n
        (if starts then current_block else current_region) out2
  end.

Definition print_memory : M (list line) :=
  current_block ← get g_head;
  current_region ← get g_head;
  fuel ← get (λ st, base.size (heap st));
  print_memory_loop fuel current_block current_region [Title].

(** ** The report, block by block *)

Definition block_line (h : gmap Z mem_block) (b : Z) : line :=
  BlockLine b (wrap64 (b + fld size h b)) (fld name h b) (fld size h b)
            (fld free h b).

(** A block opens a region in the list: it is the head, or its
    predecessor is of another region. *)
Definition starts_region (st : state) (b : Z) : bool :=
  bool_decide (b = g_head st) ||
  negb (bool_decide (fld region_id (heap st) (fld prev (heap st) b)
                     = fld region_id (heap st) b)).

Definition entry (st : state) (b : Z) : list line :=
  (if starts_region st b then [RegionLine (fld region_id (heap st) b) b]
   else []) ++ [block_line (heap st) b].

Definition region_ids (out : list line) : list Z :=
  omap (λ x, match x with RegionLine id _ => Some id | _ => None end) out.

Definition block_lines (out : list line) : list line :=
  omap (λ x, match x with BlockLine _ _ _ _ _ => Some x | _ => None end) out.

Lemma wf_head_not_later l1 a l2 st :
  wf (l1 ++ a :: l2) st → l1 ≠ [] → a ≠ g_head st.
Proof.
  intros Hwf Hne Heq. rewrite (wf_head _ _ Hwf) in Heq.
  destruct l1 as [|x l1]; [done|]. cbn in Heq. subst x.
  pose proof (wf_nodup _ _ Hwf) as Hnd. cbn in Hnd.
  apply NoDup_cons in Hnd as [Hnin _]. apply Hnin.
  apply elem_of_app. right. left.
Qed.

Lemma print_memory_loop_spec l1 rest fuel c out st :
  wf (l1 ++ rest) st → (length rest ≤ fuel)%nat →
  (l1 = [] ∧ c = g_head st) ∨
  (c ∈ l1 ∧ fld region_id (heap st) c
            = fld region_id (heap st) (default NULL (last l1))) →
  print_memory_loop fuel (default NULL (head rest)) c out st
  = Done (out ++ flat_map (entry st) rest, st).
Proof.
  revert l1 fuel c out.
  induction rest as [|a rest IH]; intros l1 fuel c out Hwf Hfuel Hc.
  { destruct fuel; cbn; by rewrite app_nil_r. }
  pose proof (wf_block_ok _ _ _ _ Hwf) as [Hhdr Hpos _ _ _ _].
  pose proof (wf_nonnull _ _ _ _ Hwf) as Hnn.
  pose proof (wf_next _ _ _ _ Hwf) as Hnext.
  pose proof (wf_prev _ _ _ _ Hwf) as Hprev.
  destruct fuel as [|fuel]; [simpl in Hfuel; lia|].
  change (default NULL (head (a :: rest))) with a.
  cbn [print_memory_loop flat_map].
  rewrite decide_False by done.
  rewrite bind_load by done.
  assert (c ≠ NULL ∧ is_Some (heap st !! c)) as [Hcn Hch].
  { destruct Hc as [[-> ->]|[Hin _]].
    - rewrite (wf_head _ _ Hwf). by cbn.
    - assert (c ∈ l1 ++ a :: rest) as Hin' by (apply elem_of_app; by left).
      destruct (wf_elem _ _ _ Hwf Hin') as [? ? _ _ _ _].
      split; [unfold NULL; lia|done]. }
  rewrite bind_load by done. rewrite bind_get.
  rewrite !bind_load by done. rewrite Hnext.
  assert (wf ((l1 ++ [a]) ++ rest) st) as Hwf'.
  { by rewrite <-app_assoc. }
  simpl in Hfuel.
  assert ((if negb (bool_decide (fld region_id (heap st) a
                                 = fld region_id (heap st) c))
              || bool_decide (a = g_head st)
           then out ++ [RegionLine (fld region_id (heap st) a) a] else out)
          ++ [block_line (heap st) a]
          = out ++ entry st a) as Hout.
  { unfold entry, starts_region. rewrite Hprev.
    destruct Hc as [[-> ->]|[Hin Hreg]].
    - rewrite (wf_head _ _ Hwf). cbn [app head default].
      rewrite !(bool_decide_eq_true_2 (a = a)) by done.
      rewrite orb_true_r. cbn [orb]. by rewrite <-app_assoc.
    - assert (l1 ≠ []) as Hne by (intros ->; by apply elem_of_nil in Hin).
      pose proof (wf_head_not_later _ _ _ _ Hwf Hne) as Hnh.
      rewrite !(bool_decide_eq_false_2 (a = g_head st)) by done.
      rewrite orb_false_r. cbn [orb]. rewrite Hreg.
      destruct (decide (fld region_id (heap st) a
                        = fld region_id (heap st) (default NULL (last l1))))
        as [E|E].
      + rewrite (bool_decide_eq_true_2 _ E).
        rewrite (bool_decide_eq_true_2 _ (eq_sym E)). done.
      + rewrite (bool_decide_eq_false_2 _ E).
        rewrite (bool_decide_eq_false_2
                   (fld region_id (heap st) (default NULL (last l1))
                    = fld region_id (heap st) a)) by congruence.
        cbn. by rewrite <-app_assoc. }
  unfold block_line in Hout. rewrite Hout.
  rewrite (IH (l1 ++ [a]) fuel _ (out ++ entry st a) Hwf'); [|lia|].
  - by rewrite <-app_assoc.
  - right. rewrite last_snoc. cbn [default].
    destruct Hc as [[-> ->]|[Hin Hreg]].
    + rewrite (wf_head _ _ Hwf). cbn [app head default].
      rewrite (bool_decide_eq_true_2 (a = a)) by done.
      rewrite orb_true_r. split; [set_solver|done].
    + assert (l1 ≠ []) as Hne by (intros ->; by apply elem_of_nil in Hin).
      pose proof (wf_head_not_later _ _ _ _ Hwf Hne) as Hnh.
      rewrite (bool_decide_eq_false_2 (a = g_head st)) by done.
      rewrite orb_false_r.
      destruct (decide (fld region_id (heap st) a
                        = fld region_id (heap st) c)) as [E|E].
      * rewrite (bool_decide_eq_true_2 _ E). cbn [negb].
        split; [set_solver|done].
      * rewrite (bool_decide_eq_false_2 _ E). cbn [negb].
        split; [set_solver|done].
Qed.

Lemma print_memory_spec l st :
  wf l st →
  print_memory st = Done (Title :: flat_map (entry st) l, st).
Proof.
  intros Hwf. unfold print_memory. rewrite !bind_get.
  rewrite (wf_head _ _ Hwf) at 1.
  rewrite (print_memory_loop_spec [] l); [done|done|by apply wf_length|].
  by left.
Qed.

(** For the state after any sequence of calls, [print_memory] returns,
    changes nothing, and writes the title followed by the blocks of the
    list in list order, one line each (start address, end address, name,
    size, mark); the line of a block is preceded by a region line (region
    id, address of the block) exactly when the block is the head or its
    predecessor has another region id. *)
Theorem print_memory_report up st :
  reachable up st →
  print_memory st = Done (Title :: flat_map (entry st) (blocks st), st).
Proof.
  intros Hinv%reachable_blocks. apply print_memory_spec, Hinv.
Qed.

Lemma print_memory_report_witness :
  print_memory (final false two_regions)
  = Done (Title :: flat_map (entry (final false two_regions))
                            (blocks (final false two_regions)),
          final false two_regions).
Proof.
  apply (print_memory_report false).
  apply final_reachable. vm_compute. reflexivity.
Defined.

(** ** One region line per region *)

Lemma region_ids_app o1 o2 :
  region_ids (o1 ++ o2) = region_ids o1 ++ region_ids o2.
Proof. apply omap_app. Qed.

Lemma region_ids_entry st b :
  region_ids (entry st b)
  = if starts_region st b then [fld region_id (heap st) b] else [].
Proof. unfold entry. by destruct (starts_region st b). Qed.

Lemma block_lines_entries st l :
  block_lines (flat_map (entry st) l) = map (block_line (heap st)) l.
Proof.
  induction l as [|b l IH]; [done|]. cbn [flat_map map].
  unfold block_lines in *. rewrite omap_app, IH. unfold entry.
  by destruct (starts_region st b).
Qed.

Lemma region_ids_entries l1 rest st :
  wf (l1 ++ rest) st →
  NoDup (region_ids (flat_map (entry st) rest)) ∧
  (∀ id, id ∈ region_ids (flat_map (entry st) rest) →
     (∃ b, b ∈ rest ∧ fld region_id (heap st) b = id) ∧
     ∀ p, last l1 = Some p → fld region_id (heap st) p < id) ∧
  (∀ b, b ∈ rest →
     fld region_id (heap st) b ∈ region_ids (flat_map (entry st) rest) ∨
     ∃ p, last l1 = Some p ∧
          fld region_id (heap st) b = fld region_id (heap st) p).
Proof.
  revert l1. induction rest as [|a rest IH]; intros l1 Hwf.
  { cbn. split_and!; [constructor|..];
      intros ? H; by apply elem_of_nil in H. }
  assert (wf ((l1 ++ [a]) ++ rest) st) as Hwf' by (by rewrite <-app_assoc).
  destruct (IH _ Hwf') as (Hnd & Hids & Hcov).
  pose proof (wf_prev _ _ _ _ Hwf) as Hprev.
  assert (∀ id, id ∈ region_ids (flat_map (entry st) rest) → fld region_id (heap st) a < id)
    as Hgt.
  { intros id Hid. destruct (Hids id Hid) as [_ H]. apply H.
    by rewrite last_snoc. }
  assert (∀ p, last l1 = Some p → fld region_id (heap st) p ≤ fld region_id (heap st) a) as Hle.
  { intros p Hp. pose proof (wf_pairs _ _ Hwf) as H.
    apply adjacent_mid in H as (_ & _ & H & _). by apply (H p Hp). }
  cbn [flat_map]. rewrite region_ids_app, region_ids_entry.
  destruct (starts_region st a) eqn:Hst.
  - assert (∀ p, last l1 = Some p → fld region_id (heap st) p < fld region_id (heap st) a) as Hlt.
    { intros p Hp. specialize (Hle p Hp).
      unfold starts_region in Hst. rewrite Hprev, Hp in Hst. cbn in Hst.
      assert (l1 ≠ []) as Hne by (intros ->; done).
      rewrite (bool_decide_eq_false_2 (a = g_head st)) in Hst
        by apply (wf_head_not_later _ _ _ _ Hwf Hne).
      cbn in Hst. apply negb_true_iff, bool_decide_eq_false in Hst.
      lia. }
    cbn [app]. split_and!.
    + apply NoDup_cons. split; [|done].
      intros Hin. specialize (Hgt _ Hin). lia.
    + intros id [->|Hid]%elem_of_cons.
      * split; [exists a; split; [left|done]|done].
      * destruct (Hids id Hid) as [(b & Hb & Hreg) _].
        split; [exists b; split; [by right|done]|].
        intros p Hp. specialize (Hlt p Hp). specialize (Hgt id Hid). lia.
    + intros b [->|Hb]%elem_of_cons; [left; left|].
      destruct (Hcov b Hb) as [?|(p & Hp & Hreg)]; [left; by right|].
      rewrite last_snoc in Hp. injection Hp as <-. left.
      rewrite Hreg. left.
  - assert (∃ p, last l1 = Some p ∧ fld region_id (heap st) p = fld region_id (heap st) a) as (p & Hp & Hpa).
    { unfold starts_region in Hst. apply orb_false_iff in Hst as [Hh Hr].
      apply bool_decide_eq_false in Hh.
      apply negb_false_iff, bool_decide_eq_true in Hr.
      destruct (last l1) as [p|] eqn:Hp.
      - exists p. split; [done|]. by rewrite Hprev in Hr.
      - apply last_None in Hp. subst l1. destruct Hh.
        by rewrite (wf_head _ _ Hwf). }
    cbn [app]. split_and!; [done|..].
    + intros id Hid. destruct (Hids id Hid) as [(b & Hb & Hreg) _].
      split; [exists b; split; [by right|done]|].
      intros p' Hp'. rewrite Hp in Hp'. injection Hp' as <-.
      specialize (Hgt id Hid). lia.
    + intros b [->|Hb]%elem_of_cons; [right; by exists p|].
      destruct (Hcov b Hb) as [?|(q & Hq & Hreg)]; [by left|].
      rewrite last_snoc in Hq. injection Hq as <-. right. exists p.
      split; [done|]. congruence.
Qed.

(** In the output of [print_memory], for the state after any sequence of
    calls, every region that has a block in the list has exactly one
    region line, and every region line is of such a region; the block
    lines are those of the blocks of the list, in list order. *)
Theorem print_memory_one_line_per_region up st :
  reachable up st →
  ∃ out,
    print_memory st = Done (out, st) ∧
    NoDup (region_ids out) ∧
    (∀ id, id ∈ region_ids out ↔
           ∃ b, b ∈ blocks st ∧ fld region_id (heap st) b = id) ∧
    block_lines out = map (block_line (heap st)) (blocks st).
Proof.
  intros Hinv%reachable_blocks. destruct Hinv as [Hwf _].
  exists (Title :: flat_map (entry st) (blocks st)).
  split; [by apply print_memory_spec|].
  destruct (region_ids_entries [] (blocks st) st Hwf) as (Hnd & Hids & Hcov).
  change (region_ids (Title :: ?o)) with (region_ids o).
  split_and!; [done| |].
  - intros id. split.
    + intros Hid. by destruct (Hids id Hid) as [? _].
    + intros (b & Hb & <-). by destruct (Hcov b Hb) as [?|(p & [=] & _)].
  - change (block_lines (Title :: ?o)) with (block_lines o).
    apply block_lines_entries.
Qed.

Lemma print_memory_one_line_per_region_witness :
  ∃ out,
    print_memory (final false two_regions)
    = Done (out, final false two_regions) ∧
    NoDup (region_ids out) ∧
    (∀ id, id ∈ region_ids out ↔
           ∃ b, b ∈ blocks (final false two_regions) ∧
                fld region_id (heap (final false two_regions)) b = id) ∧
    block_lines out
    = map (block_line (heap (final false two_regions)))
          (blocks (final false two_regions)).
Proof.
  apply (print_memory_one_line_per_region false).
  apply final_reachable. vm_compute. reflexivity.
Defined.

(** * calloc *)

(** [calloc(nmemb, size)] whose product, with the header and the
    rounding, does not wrap around: the call to [malloc] returns; when
    its result [r] is not NULL, [calloc] returns [r], the block of [r]
    is in the list and in use, and the one thing done after [malloc] is
    a zero fill of [nmemb * size] bytes from [r], which ends inside the
    block. *)
Theorem calloc_fill_inside_block up st e os nmemb sz :
  reachable up st → op_ok up st (Calloc e os nmemb sz) →
  0 ≤ nmemb → 0 ≤ sz → nmemb * sz + 107 < 2 ^ 64 →
  ∃ r st1,
    malloc e os (nmemb * sz) st = Done (r, st1) ∧
    (r ≠ NULL →
     ∃ st', calloc e os nmemb sz st = Done (r, st') ∧
       st' = emit (Memset r 0 (nmemb * sz)) st1 ∧
       r - sizeof_mem_block ∈ blocks st' ∧
       fld free (heap st') (r - sizeof_mem_block) = false ∧
       r + nmemb * sz
       ≤ r - sizeof_mem_block + fld size (heap st') (r - sizeof_mem_block)).
Proof.
  intros Hinv%reachable_blocks Hok H0 H1 Hlt. cbn [op_ok] in Hok.
  assert (wrap64 (nmemb * sz) = nmemb * sz) as Hw by (apply wrap64_small; nia).
  rewrite Hw in Hok. destruct Hok as [Hok _].
  destruct (malloc_inv up e os (nmemb * sz) _ st Hinv Hok)
    as (r & l' & st1 & Hm & Hinv1 & _ & Hr).
  exists r, st1. split; [done|]. intros Hnn.
  destruct Hr as [?|(Hin & _ & _ & Hfree & Hsize)]; [done|].
  pose proof (aligned_size_covers (nmemb * sz) Hlt) as Hcov.
  pose proof (wf_elem _ _ _ (proj1 Hinv1) Hin) as [_ _ _ Htop Hmap _].
  exists (emit (Memset r 0 (nmemb * sz)) st1). split_and!; [|done|..].
  - pose proof (calloc_effect e os nmemb sz r st st1) as Hc.
    rewrite Hw in Hc. apply Hc; [done|]. right. split; [done|].
    unfold sizeof_mem_block in *.
    apply range_mapped_true; [lia|]. intros x Hx. apply Hmap. lia.
  - change (blocks (emit ?ev st1)) with (blocks st1).
    by rewrite (wf_blocks_eq _ _ (proj1 Hinv1)).
  - done.
  - cbn [emit heap]. unfold sizeof_mem_block in *. lia.
Qed.

Lemma calloc_fill_inside_block_witness :
  ∃ r st1,
    malloc env0 None (5 * 8) (final false (first_released env0))
    = Done (r, st1) ∧
    (r ≠ NULL →
     ∃ st', calloc env0 None 5 8 (final false (first_released env0))
            = Done (r, st') ∧
       st' = emit (Memset r 0 (5 * 8)) st1 ∧
       r - sizeof_mem_block ∈ blocks st' ∧
       fld free (heap st') (r - sizeof_mem_block) = false ∧
       r + 5 * 8
       ≤ r - sizeof_mem_block + fld size (heap st') (r - sizeof_mem_block)).
Proof.
  apply (calloc_fill_inside_block false (final false (first_released env0))
           env0 None 5 8).
  - apply final_reachable. vm_compute. reflexivity.
  - apply (plays_op_ok false (first_released env0) (Calloc env0 None 5 8)).
    vm_compute. reflexivity.
  - lia.
  - lia.
  - lia.
Defined.

(** * A reused block *)

Lemma can_split_free st c asz :
  fld free (heap st) c = true → 0 ≤ asz ≤ fld size (heap st) c →
  fld size (heap st) c < 2 ^ 64 →
  can_split st c asz = leaves_rest asz (fld size (heap st) c).
Proof.
  intros Hf Hle Hlt. unfold can_split, leaves_rest.
  rewrite Hf, wrap64_small by lia.
  unfold sizeof_mem_block, BLOCK_ALIGN. rewrite andb_true_r.
  f_equal.
  - destruct (asz <? 100 + 4) eqn:E1, (104 <=? asz) eqn:E2; try done;
      [apply Z.ltb_lt in E1; apply Z.leb_le in E2; lia
      |apply Z.ltb_ge in E1; apply Z.leb_gt in E2; lia].
  - destruct (fld size (heap st) c - asz <? 104) eqn:E1,
             (asz + 104 <=? fld size (heap st) c) eqn:E2; try done;
      [apply Z.ltb_lt in E1; apply Z.leb_le in E2; lia
      |apply Z.ltb_ge in E1; apply Z.leb_gt in E2; lia].
Qed.

Lemma take_g_splits e c sz asz st :
  g_splits (take e c sz (maybe_split st c asz))
  = if can_split st c asz then wrap64 (g_splits st + 1) else g_splits st.
Proof.
  unfold take, scribble, maybe_split.
  destruct (ALLOCATOR_SCRIBBLE e), (can_split st c asz); done.
Qed.

(** When the strategy finds a block [c], [malloc] returns [c + 100] and
    maps nothing. The block is marked used and keeps its name and its
    region; the allocation and region counters stay. When the aligned
    size is at least 104 and the block exceeds it by at least 104 bytes,
    the block is cut down to the aligned size and the rest follows it in
    the list as a free block of the same region, named after the split
    counter; otherwise the block is handed out at its whole size and the
    list is as before. *)
Theorem malloc_reuses_picked_block up st e os sz c :
  reachable up st → op_ok up st (Malloc e os sz) →
  pick e (heap st) (aligned_size sz) (blocks st) = c → c ≠ NULL →
  ∃ l1 l2 st',
    blocks st = l1 ++ c :: l2 ∧
    fld free (heap st) c = true ∧
    aligned_size sz ≤ fld size (heap st) c ∧
    malloc e os sz st = Done (c + sizeof_mem_block, st') ∧
    (∀ x, mapped st' x = mapped st x) ∧
    g_regions st' = g_regions st ∧
    g_allocations st' = g_allocations st ∧
    fld free (heap st') c = false ∧
    fld name (heap st') c = fld name (heap st) c ∧
    fld region_id (heap st') c = fld region_id (heap st) c ∧
    (leaves_rest (aligned_size sz) (fld size (heap st) c) = true →
     blocks st' = l1 ++ c :: (c + aligned_size sz) :: l2 ∧
     fld size (heap st') c = aligned_size sz ∧
     fld size (heap st') (c + aligned_size sz)
     = fld size (heap st) c - aligned_size sz ∧
     fld free (heap st') (c + aligned_size sz) = true ∧
     fld region_id (heap st') (c + aligned_size sz)
     = fld region_id (heap st) c ∧
     fld name (heap st') (c + aligned_size sz)
     = snprintf32 "Split block " (g_splits st) ∧
     g_splits st' = wrap64 (g_splits st + 1)) ∧
    (leaves_rest (aligned_size sz) (fld size (heap st) c) = false →
     blocks st' = l1 ++ c :: l2 ∧
     fld size (heap st') c = fld size (heap st) c ∧
     g_splits st' = g_splits st).
Proof.
  intros Hinv%reachable_blocks Hok Hpick Hc. cbn [op_ok] in Hok.
  destruct (malloc_cases up e os sz _ st Hinv Hok)
    as [(_ & Hin & Hfits & Hm)|[(Hp & _)|(Hp & _)]]; [|congruence..].
  rewrite Hpick in Hin, Hfits, Hm.
  apply list_elem_of_split in Hin as (l1 & l2 & Hl).
  unfold fits in Hfits. apply andb_true_iff in Hfits as [Hle%Z.leb_le Hfree].
  pose proof (aligned_size_range sz) as [Ha0 _].
  set (asz := aligned_size sz) in *.
  rewrite Hl in Hinv. pose proof Hinv as [Hwf _].
  pose proof (bo_top _ _ (wf_block_ok _ _ _ _ Hwf)) as Htop.
  pose proof (bo_pos _ _ (wf_block_ok _ _ _ _ Hwf)) as Hpos.
  destruct (take_inv up e l1 c l2 sz asz st Hinv Hfree (conj Ha0 Hle))
    as ([Hwf' _] & Hf' & Hs').
  cbn zeta in Hwf', Hf', Hs'.
  pose proof (can_split_free st c asz Hfree (conj Ha0 Hle) ltac:(lia)) as Hcs.
  destruct (take_globals e c sz asz st) as [Hg' Hal'].
  pose proof (take_g_splits e c sz asz st) as Hsp'.
  rewrite Hcs in Hwf', Hs', Hsp'.
  exists l1, l2, (take e c sz (maybe_split st c asz)).
  assert (fld name (heap (take e c sz (maybe_split st c asz))) c
          = fld name (heap st) c ∧
          fld region_id (heap (take e c sz (maybe_split st c asz))) c
          = fld region_id (heap st) c) as [Hn' Hr'].
  { rewrite !take_fld by done. unfold maybe_split.
    destruct (can_split st c asz); [|done].
    by rewrite !split_result_block. }
  split_and!; try done.
  - intros x. by rewrite take_mapped.
  - intros Hrest. rewrite Hrest in Hwf', Hs', Hsp'.
    assert (can_split st c asz = true) as Hct by (by rewrite Hcs).
    apply andb_true_iff in Hrest as [H1%Z.leb_le H2%Z.leb_le].
    assert (c ≠ c + asz) as Hne by lia.
    split_and!; [by apply wf_blocks_eq|done|..|done].
    all: unfold take; rewrite scribble_heap.
    all: try (rewrite mark_free_ne by lia).
    all: try (rewrite (mark_fld _ false c) by done).
    all: unfold maybe_split; rewrite Hct.
    all: by rewrite (split_result_new _ _ _ _ Hne).
  - intros Hrest. rewrite Hrest in Hwf', Hs', Hsp'.
    split_and!; [by apply wf_blocks_eq|done..].
Qed.

Lemma malloc_reuses_picked_block_witness :
  ∃ l1 l2 st',
    blocks (final false three_blocks) = l1 ++ 1000288 :: l2 ∧
    fld free (heap (final false three_blocks)) 1000288 = true ∧
    aligned_size 300 ≤ fld size (heap (final false three_blocks)) 1000288 ∧
    malloc env0 None 300 (final false three_blocks)
    = Done (1000288 + sizeof_mem_block, st') ∧
    (∀ x, mapped st' x = mapped (final false three_blocks) x) ∧
    g_regions st' = g_regions (final false three_blocks) ∧
    g_allocations st' = g_allocations (final false three_blocks) ∧
    fld free (heap st') 1000288 = false ∧
    fld name (heap st') 1000288
    = fld name (heap (final false three_blocks)) 1000288 ∧
    fld region_id (heap st') 1000288
    = fld region_id (heap (final false three_blocks)) 1000288 ∧
    (leaves_rest (aligned_size 300)
       (fld size (heap (final false three_blocks)) 1000288) = true →
     blocks st' = l1 ++ 1000288 :: (1000288 + aligned_size 300) :: l2 ∧
     fld size (heap st') 1000288 = aligned_size 300 ∧
     fld size (heap st') (1000288 + aligned_size 300)
     = fld size (heap (final false three_blocks)) 1000288 - aligned_size 300 ∧
     fld free (heap st') (1000288 + aligned_size 300) = true ∧
     fld region_id (heap st') (1000288 + aligned_size 300)
     = fld region_id (heap (final false three_blocks)) 1000288 ∧
     fld name (heap st') (1000288 + aligned_size 300)
     = snprintf32 "Split block " (g_splits (final false three_blocks)) ∧
     g_splits st' = wrap64 (g_splits (final false three_blocks) + 1)) ∧
    (leaves_rest (aligned_size 300)
       (fld size (heap (final false three_blocks)) 1000288) = false →
     blocks st' = l1 ++ 1000288 :: l2 ∧
     fld size (heap st') 1000288
     = fld size (heap (final false three_blocks)) 1000288 ∧
     g_splits st' = g_splits (final false three_blocks)).
Proof.
  apply (malloc_reuses_picked_block false (final false three_blocks)
           env0 None 300 1000288).
  - apply final_reachable. vm_compute. reflexivity.
  - apply (plays_op_ok false three_blocks (Malloc env0 None 300)).
    vm_compute. reflexivity.
  - vm_compute. reflexivity.
  - unfold NULL. lia.
Defined.

(** * A release into the predecessor *)

Lemma absorbs_next_mark l1 block l2 st :
  wf (l1 ++ block :: l2) st →
  absorbs_next (mark true block st) block = absorbs_next st block.
Proof.
  intros Hwf. unfold absorbs_next. cbn zeta.
  rewrite !(mark_fld next), !(mark_fld region_id) by done.
  destruct (decide (fld next (heap st) block = block)) as [E|E].
  - exfalso. pose proof (wf_next _ _ _ _ Hwf) as Hn. rewrite E in Hn.
    destruct l2 as [|n l2]; cbn in Hn.
    + by apply (wf_nonnull _ _ _ _ Hwf).
    + destruct (wf_second _ _ _ _ _ Hwf) as (_ & Hne & _). by apply Hne.
  - by rewrite mark_free_ne.
Qed.

(** The state between the first and the second statement of
    [merge_block], for a block whose predecessor is free and of its
    region. *)
Lemma merged_next_facts l1 p block l2 st :
  wf (l1 ++ p :: block :: l2) st →
  fld free (heap st) p = true →
  fld region_id (heap st) p = fld region_id (heap st) block →
  let s0 := mark true block st in
  let s1 := if absorbs_next st block then merge_next_result block s0
            else s0 in
  wf (l1 ++ p :: block :: (if absorbs_next st block then tail l2 else l2)) s1 ∧
  fld free (heap s1) p = true ∧
  fld region_id (heap s1) p = fld region_id (heap st) p ∧
  fld region_id (heap s1) block = fld region_id (heap st) block ∧
  fld size (heap s1) p = fld size (heap st) p ∧
  fld size (heap s1) block
  = fld size (heap st) block
    + (if absorbs_next st block
       then fld size (heap st) (fld next (heap st) block) else 0) ∧
  mapped s1 = mapped st ∧ trace s1 = trace st.
Proof.
  intros Hwf Hfp Hreg s0 s1.
  assert (wf (l1 ++ p :: block :: l2) s0) as Hwf0 by (by apply mark_wf).
  destruct (wf_second _ _ _ _ _ Hwf) as (Hb0 & Hbp & Hbs & _).
  assert (p ≠ NULL) as Hp0 by apply (wf_nonnull _ _ _ _ Hwf).
  assert (is_Some (heap st !! p)) as Hps
    by apply (bo_header _ _ (wf_block_ok _ _ _ _ Hwf)).
  rewrite (app_cons_assoc l1 p) in Hwf, Hwf0.
  pose proof (absorbs_next_mark _ _ _ _ Hwf) as Hsame.
  subst s1. destruct (absorbs_next st block) eqn:Habs.
  - fold s0 in Hsame.
    destruct (absorbs_next_true _ _ _ _ Hwf0 Hsame) as (n & l2' & -> & Hfn & Hrn).
    cbn [tail].
    destruct (wf_second _ _ _ _ _ Hwf0) as (Hn0 & Hnb & Hns & Hnext & _ & Hnn & _).
    destruct (wf_second _ _ _ _ _ Hwf) as (_ & _ & _ & Hnext' & _).
    assert (p ≠ n) as Hpn.
    { intros ->. pose proof (wf_nodup _ _ Hwf) as Hnd.
      apply NoDup_app in Hnd as (_ & Hnd & _). apply (Hnd n).
      - apply elem_of_app. right. left.
      - right. left. }
    pose proof (merge_next_result_wf _ _ _ _ _ Hwf0 Hrn) as Hwf1.
    rewrite <-(app_cons_assoc l1 p) in Hwf1.
    destruct (merge_next_result_other block s0 p) as ((_ & Hsz & Hrg & Hfr) & _).
    { by intros ->. }
    { by rewrite Hnext. }
    { by apply mark_is_Some. }
    assert (fld next (heap s0) block ≠ block) as Hne1 by (by rewrite Hnext).
    assert (fld next (heap s0) (fld next (heap s0) block) ≠ block) as Hne2.
    { rewrite Hnext, Hnn. destruct l2' as [|m l2']; cbn.
      - done.
      - intros <-. pose proof (wf_nodup _ _ Hwf) as Hnd.
        apply NoDup_app in Hnd as (_ & _ & Hnd).
        apply NoDup_cons in Hnd as [Hnin _]. apply Hnin. right. left. }
    split_and!; try done.
    + rewrite Hfr. unfold s0. rewrite mark_free_ne by (by intros ->). done.
    + rewrite Hrg. unfold s0. by rewrite mark_fld.
    + rewrite (merge_next_result_block region_id) by done. cbn.
      fold (fld region_id (heap s0) block). unfold s0. by rewrite mark_fld.
    + rewrite Hsz. unfold s0. by rewrite mark_fld.
    + rewrite (merge_next_result_block size) by done. cbn.
      rewrite Hnext, Hnext'. unfold s0. by rewrite !(mark_fld size).
  - rewrite <-(app_cons_assoc l1 p) in Hwf0. unfold s0.
    rewrite mark_free_ne by (by intros ->).
    rewrite !(mark_fld region_id), !(mark_fld size) by done.
    split_and!; try done. lia.
Qed.

(** [free] of a block whose predecessor in the list is free and of the
    same region: the predecessor takes the bytes of the block, and of
    the successor too when that one is free and of the region. Nothing
    is unmapped and nothing is reported, whatever is left of the region:
    when these were its last blocks in use, the region stays mapped and
    in the list as one free block. *)
Theorem free_into_predecessor_keeps_region up st ok l1 p block l2 :
  reachable up st → blocks st = l1 ++ p :: block :: l2 →
  fld free (heap st) p = true →
  fld region_id (heap st) p = fld region_id (heap st) block →
  ∃ st',
    free_ ok (block + sizeof_mem_block) st = Done (tt, st') ∧
    (∀ x, mapped st' x = mapped st x) ∧
    trace st' = trace st ∧
    blocks st' = l1 ++ p :: (if absorbs_next st block then tail l2 else l2) ∧
    fld free (heap st') p = true ∧
    fld region_id (heap st') p = fld region_id (heap st) p ∧
    fld size (heap st') p
    = fld size (heap st) p + fld size (heap st) block
      + (if absorbs_next st block
         then fld size (heap st) (fld next (heap st) block) else 0).
Proof.
  intros Hinv%reachable_blocks Hl Hfp Hreg.
  assert (block ∈ blocks st) as Hin.
  { rewrite Hl. apply elem_of_app. right. right. left. }
  destruct (free_inv up _ ok block st Hinv Hin)
    as (l' & st' & Hfree & _ & _ & _ & _ & r & _ & _ & ->).
  exists (free_result ok block st). split; [done|].
  destruct Hinv as [Hwf _]. rewrite Hl in Hwf.
  destruct (merged_next_facts _ _ _ _ _ Hwf Hfp Hreg)
    as (Hwf1 & Hf1 & Hrp1 & Hrb1 & Hsp1 & Hsb1 & Hm1 & Ht1).
  cbn zeta in *.
  unfold free_result, merge_block_result.
  rewrite (absorbs_next_mark (l1 ++ [p]) block l2 st)
    by (by rewrite <-app_cons_assoc).
  set (s1 := if absorbs_next st block
             then merge_next_result block (mark true block st)
             else mark true block st) in *.
  set (l2' := if absorbs_next st block then tail l2 else l2) in *.
  assert (p ≠ NULL) as Hp0 by apply (wf_nonnull _ _ _ _ Hwf1).
  destruct (wf_second _ _ _ _ _ Hwf1) as (Hb0 & Hbp & Hbs & Hpn & Hprev & Hnext & _).
  assert (absorbed_by_prev s1 block = true) as Habs.
  { unfold absorbed_by_prev. cbn zeta. rewrite Hprev, Hf1, Hrp1, Hrb1, Hreg.
    rewrite bool_decide_eq_true_2 by done.
    unfold nonnull. by destruct (Z.eqb_spec p NULL). }
  rewrite Habs.
  assert (fld next (heap s1) block ≠ fld prev (heap s1) block) as Hnp.
  { rewrite Hprev, Hnext. destruct l2' as [|m l2'']; cbn; [done|].
    intros <-. pose proof (wf_nodup _ _ Hwf1) as Hnd.
    apply NoDup_app in Hnd as (_ & _ & Hnd).
    apply NoDup_cons in Hnd as [Hnin _]. apply Hnin. right. left. }
  assert (fld prev (heap s1) block ≠ block) as Hpb by (by rewrite Hprev).
  pose proof (merge_prev_result_wf _ _ _ _ _ Hwf1 ltac:(congruence)) as Hwf2.
  pose proof (merge_prev_result_p free block s1 Hpb Hnp) as Hf2.
  pose proof (merge_prev_result_p region_id block s1 Hpb Hnp) as Hr2.
  pose proof (merge_prev_result_p size block s1 Hpb Hnp) as Hs2.
  rewrite Hprev in Hf2, Hr2, Hs2. cbn in Hf2, Hr2, Hs2.
  fold (fld free (heap s1) p) in Hf2.
  fold (fld region_id (heap s1) p) in Hr2.
  split_and!.
  - intros x. change (mapped (merge_prev_result block s1)) with (mapped s1).
    by rewrite Hm1.
  - change (trace (merge_prev_result block s1)) with (trace s1). done.
  - by apply wf_blocks_eq.
  - by rewrite Hf2.
  - by rewrite Hr2.
  - rewrite Hs2, Hsp1, Hsb1. lia.
Qed.

(** [malloc(40)], a [malloc(3852)] that takes the rest of the page, and
    the release of the first block. *)
Definition region_filled_first_released : list op :=
  [Malloc env0 (Some 1000000) 40; Malloc env0 None 3852; Free true 1000100].

Lemma free_into_predecessor_keeps_region_witness :
  ∃ st',
    free_ true (1000144 + sizeof_mem_block)
      (final false region_filled_first_released) = Done (tt, st') ∧
    (∀ x, mapped st' x = mapped (final false region_filled_first_released) x) ∧
    trace st' = trace (final false region_filled_first_released) ∧
    blocks st'
    = [] ++ 1000000 ::
        (if absorbs_next (final false region_filled_first_released) 1000144
         then tail [] else []) ∧
    fld free (heap st') 1000000 = true ∧
    fld region_id (heap st') 1000000
    = fld region_id (heap (final false region_filled_first_released)) 1000000 ∧
    fld size (heap st') 1000000
    = fld size (heap (final false region_filled_first_released)) 1000000
      + fld size (heap (final false region_filled_first_released)) 1000144
      + (if absorbs_next (final false region_filled_first_released) 1000144
         then fld size (heap (final false region_filled_first_released))
                (fld next (heap (final false region_filled_first_released))
                   1000144)
         else 0).
Proof.
  apply (free_into_predecessor_keeps_region false
           (final false region_filled_first_released) true [] 1000000 1000144 []).
  - apply final_reachable. vm_compute. reflexivity.
  - vm_compute. reflexivity.
  - vm_compute. reflexivity.
  - vm_compute. reflexivity.
Defined.

(** * What later calls can reach *)

(** What an allocation adds to the bytes the list covers lies in the
    region the kernel mapped for it, and it unmaps nothing. *)
Lemma malloc_later up e os sz l st :
  inv up l st → alloc_ok up l st e os sz →
  ∃ r l' st',
    malloc e os sz st = Done (r, st') ∧ inv up l' st' ∧
    (∀ b x, b ∈ l' → inside (heap st') b x →
            covered_by l (heap st) x ∨ asked e os sz x = true) ∧
    (∀ x, mapped st x = true → mapped st' x = true) ∧
    (r = NULL ∨ r - sizeof_mem_block ∈ l').
Proof.
  intros Hinv Hok. pose proof Hinv as [Hwf Hex].
  pose proof (aligned_size_range sz) as [Ha0 _].
  destruct (malloc_cases up e os sz l st Hinv Hok)
    as [(Hp & Hin & Hfit & Hm)|[(Hp & _ & Hm)|(Hp & a & -> & H1 & H2 & Hfr
                                                & Hnin & Hup & Hm)]].
  - set (c := pick e (heap st) (aligned_size sz) l) in *. clearbody c.
    set (asz := aligned_size sz) in *.
    apply fits_size in Hfit as [Hle Hfree].
    pose proof (wf_elem _ _ _ Hwf Hin) as Hbok.
    pose proof (bo_top _ _ Hbok) as Htop. pose proof (bo_pos _ _ Hbok) as Hpos.
    apply list_elem_of_split in Hin as (l1 & l2 & ->).
    destruct (take_inv up e l1 c l2 sz asz st Hinv Hfree (conj Ha0 Hle))
      as (Hinv' & _ & Hs').
    cbn zeta in Hinv', Hs'.
    eexists _, _, _. split_and!; [exact Hm|exact Hinv'| | |].
    + intros b x Hb Hx. left.
      assert (b ∈ l1 ++ l2 ∨ b = c ∨
              (can_split st c asz = true ∧ b = c + asz)) as Hcases.
      { destruct (can_split st c asz);
          rewrite !elem_of_app, !elem_of_cons in *; naive_solver. }
      destruct Hcases as [Hb'|[->|[Hct ->]]].
      * destruct (take_frame up e l1 c l2 sz asz st b Hinv Hfree
                    (conj Ha0 Hle) Hb') as (_ & _ & Hsz & _).
        exists b. split.
        -- rewrite !elem_of_app, !elem_of_cons in *. tauto.
        -- unfold inside in *. by rewrite Hsz in Hx.
      * exists c. split; [apply elem_of_app; right; left|].
        unfold inside in *. rewrite Hs' in Hx.
        destruct (can_split st c asz); lia.
      * exists c. split; [apply elem_of_app; right; left|].
        apply can_split_true in Hct as (Hc1 & Hc2 & _); [|done|lia].
        assert (c ≠ c + asz) as Hne by lia.
        assert (can_split st c asz = true) as Hct.
        { unfold can_split. rewrite Hfree, wrap64_small by lia.
          unfold sizeof_mem_block, BLOCK_ALIGN.
          apply andb_true_iff. split; [apply andb_true_iff; split|].
          - apply negb_true_iff, Z.ltb_ge. lia.
          - done.
          - apply negb_true_iff, Z.ltb_ge. lia. }
        unfold inside in *. unfold take in Hx.
        rewrite scribble_heap, (mark_fld size) in Hx by done.
        unfold maybe_split in Hx. rewrite Hct in Hx.
        rewrite (split_result_new _ _ _ _ Hne) in Hx. cbn in Hx. lia.
    + intros x Hx. by rewrite take_mapped.
    + right. replace (c + sizeof_mem_block - sizeof_mem_block) with c by lia.
      destruct (can_split st c asz);
        rewrite !elem_of_app, !elem_of_cons; tauto.
  - exists NULL, l, (emit (Perror "mmap") st). split_and!.
    + exact Hm.
    + by apply emit_inv.
    + intros b x Hb Hx. left. by exists b.
    + done.
    + by left.
  - destruct Hok as (_ & Hg & _).
    destruct (fresh_state_facts up e l a sz st Hinv Hfr H1 H2 Hg Hup)
      as (Hinv' & _ & _ & HsA & _ & Hrest & Hmap & _).
    eexists (a + sizeof_mem_block), _, (fresh_state e a sz st).
    split_and!; [exact Hm|exact Hinv'| | |].
    + intros b x Hb Hx.
      apply elem_of_app in Hb as [Hb|[->|Hb]%elem_of_cons].
      * left. exists b. split; [done|].
        destruct (fresh_state_frame up e l a sz st b Hinv Hfr H1 H2 Hg Hup Hb)
          as (_ & Hsz & _).
        unfold inside in *. by rewrite Hsz in Hx.
      * right. cbn [asked]. apply in_range_true.
        unfold inside in Hx. rewrite HsA in Hx.
        destruct (leaves_rest (aligned_size sz) (region_size (pagesize e) sz));
          lia.
      * right. cbn [asked]. apply in_range_true.
        destruct (leaves_rest (aligned_size sz) (region_size (pagesize e) sz))
          eqn:Hlr; [|by apply elem_of_nil in Hb].
        apply list_elem_of_singleton in Hb. subst b.
        destruct (Hrest eq_refl) as (_ & _ & Hsz & _).
        unfold inside in Hx. rewrite Hsz in Hx. lia.
    + intros x Hx. rewrite Hmap, Hx. apply orb_true_r.
    + right. replace (a + sizeof_mem_block - sizeof_mem_block) with a by lia.
      apply elem_of_app. right. left.
Qed.

Lemma asked_fresh up l st e os sz x :
  alloc_ok up l st e os sz → asked e os sz x = true → mapped st x = false.
Proof.
  intros (_ & _ & _ & Hos) Hx. destruct os as [a|]; [|done].
  destruct (Hos a eq_refl) as [(_ & _ & Hfr) _]. apply Hfr.
  cbn in Hx. unfold in_range in Hx.
  apply andb_true_iff in Hx as [H1%Z.leb_le H2%Z.ltb_lt]. lia.
Qed.

(** A byte that is mapped and belongs to no block of the list. *)
Definition leaked (st : state) (x : Z) : Prop :=
  mapped st x = true ∧ ¬ covered st x.

Lemma leaked_same st st' x :
  leaked st x → blocks st' = blocks st → mapped st' = mapped st →
  (∀ b, fld size (heap st') b = fld size (heap st) b) →
  leaked st' x.
Proof.
  intros [Hm Hc] Hb Hmap Hs. split; [by rewrite Hmap|].
  intros (b & Hin & Hx). apply Hc. exists b. rewrite <-Hb. split; [done|].
  unfold inside in *. by rewrite <-Hs.
Qed.

Lemma malloc_leaked up e os sz st r st' x :
  inv up (blocks st) st → alloc_ok up (blocks st) st e os sz →
  malloc e os sz st = Done (r, st') → leaked st x →
  leaked st' x ∧ (r = NULL ∨ r - sizeof_mem_block ∈ blocks st') ∧
  ∃ l', inv up l' st'.
Proof.
  intros Hinv Hok Hm [Hmap Hcov].
  destruct (malloc_later up e os sz _ st Hinv Hok)
    as (r' & l' & st'' & Hm' & Hinv' & Hins & Hmon & Hr).
  rewrite Hm in Hm'. injection Hm' as <- <-.
  rewrite (wf_blocks_eq _ _ (proj1 Hinv')). split_and!; [|done|by exists l'].
  split; [by apply Hmon|]. intros (b & Hb & Hx).
  rewrite (wf_blocks_eq _ _ (proj1 Hinv')) in Hb.
  destruct (Hins b x Hb Hx) as [?|Hask]; [done|].
  by rewrite (asked_fresh _ _ _ _ _ _ _ Hok Hask) in Hmap.
Qed.

Lemma free_leaked up ok block st st' x :
  inv up (blocks st) st → block ∈ blocks st →
  free_ ok (block + sizeof_mem_block) st = Done (tt, st') → leaked st x →
  leaked st' x.
Proof.
  intros Hinv Hin Hf [Hmap Hcov].
  destruct (free_inv up _ ok block st Hinv Hin)
    as (l' & st'' & Hf' & _ & _ & _ & _ & r & _ & _ & Hst').
  rewrite Hf in Hf'. injection Hf' as <-.
  pose proof Hin as Hin'. apply list_elem_of_split in Hin' as (l1 & l2 & Hl).
  destruct Hinv as [Hwf _]. unfold covered in Hcov. rewrite Hl in Hwf, Hcov.
  destruct (free_stages _ _ _ ok _ Hwf) as (l'' & Hwf'' & _ & Hins & Hm & _).
  rewrite <-Hst' in Hwf'', Hins, Hm. split.
  - by destruct (Hm x Hmap).
  - intros (b & Hb & Hx). rewrite (wf_blocks_eq _ _ Hwf'') in Hb.
    apply Hcov. by apply (Hins b).
Qed.

(** No call unmaps a leaked byte or brings it back under a block of
    the list, and the pointer a call returns is that of a block of the
    list. *)
Lemma run_leaked up o st r st' x :
  inv up (blocks st) st → op_ok up st o → run o st = Done (r, st') →
  leaked st x →
  leaked st' x ∧ (r = NULL ∨ r - sizeof_mem_block ∈ blocks st').
Proof.
  intros Hinv Hok Hrun Hleak.
  destruct o as [e os sz|e os sz nm|e os nmemb sz|e os ok ptr sz|ok ptr];
    cbn [run op_ok] in *.
  - by destruct (malloc_leaked up e os sz st r st' x Hinv Hok Hrun Hleak)
      as (? & ? & _).
  - destruct Hok as [Hok _]. unfold malloc_name in Hrun.
    apply bind_inv in Hrun as (r1 & s1 & Hm & Hrun).
    destruct (malloc_leaked up e os sz st r1 s1 x Hinv Hok Hm Hleak)
      as (Hleak1 & Hr1 & l1 & Hinv1).
    case_decide as Hnull.
    { injection Hrun as <- <-. split; [done|by left]. }
    apply bind_inv in Hrun as (u & s2 & Hst & Hret).
    injection Hret as <- <-.
    case_decide; [|done].
    apply store_inv in Hst as (_ & [= _ ->]).
    split.
    + apply (leaked_same s1); [done|..].
      * pose proof (rename_inv up nm (wrap64 (r1 - sizeof_mem_block)) _ _
                      Hinv1) as [Hwf2 _].
        unfold rename in Hwf2.
        by rewrite (wf_blocks_eq _ _ Hwf2), (wf_blocks_eq _ _ (proj1 Hinv1)).
      * done.
      * intros b. cbn [heap set_heap]. rewrite fld_insert.
        case_decide; [subst b|done]. done.
    + destruct Hr1 as [?|Hr1]; [done|right].
      pose proof (rename_inv up nm (wrap64 (r1 - sizeof_mem_block)) _ _
                    Hinv1) as [Hwf2 _].
      unfold rename in Hwf2.
      rewrite (wf_blocks_eq _ _ Hwf2), <-(wf_blocks_eq _ _ (proj1 Hinv1)).
      done.
  - destruct Hok as [Hok _]. unfold calloc in Hrun.
    apply bind_inv in Hrun as (r1 & s1 & Hm & Hrun).
    destruct (malloc_leaked up e os _ st r1 s1 x Hinv Hok Hm Hleak)
      as (Hleak1 & Hr1 & _).
    apply bind_inv in Hrun as (u & s2 & Hset & Hret).
    apply memset_inv in Hset as ->. injection Hret as <- <-.
    split; [|done]. by apply (leaked_same s1).
  - destruct Hok as (Hptr & Hok & _). unfold realloc in Hrun.
    case_decide as Hnull.
    { by destruct (malloc_leaked up e os sz st r st' x Hinv Hok Hrun Hleak)
        as (? & ? & _). }
    destruct Hptr as [?|Hin]; [done|].
    case_decide as Hzero.
    + apply bind_inv in Hrun as ([] & s1 & Hf & Hret).
      injection Hret as <- <-. split; [|by left].
      apply (free_leaked up ok (ptr - sizeof_mem_block) st); [done..| |done].
      by replace (ptr - sizeof_mem_block + sizeof_mem_block) with ptr by lia.
    + apply bind_inv in Hrun as (r1 & s1 & Hm & Hrun).
      destruct (malloc_leaked up e os sz st r1 s1 x Hinv Hok Hm Hleak)
        as (Hleak1 & Hr1 & _).
      apply bind_inv in Hrun as (u & s2 & Hcpy & Hret).
      apply memcpy_inv in Hcpy as ->. injection Hret as <- <-.
      split; [|done]. by apply (leaked_same s1).
  - apply bind_inv in Hrun as ([] & s1 & Hf & Hret).
    injection Hret as <- <-. split; [|by left].
    destruct Hok as [->|Hin].
    { unfold free_ in Hf. rewrite decide_True in Hf by done.
      by injection Hf as <-. }
    apply (free_leaked up ok (ptr - sizeof_mem_block) st); [done..| |done].
    by replace (ptr - sizeof_mem_block + sizeof_mem_block) with ptr by lia.
Qed.

(** The states a program can get to from [st]. *)
Inductive later (up : bool) (st : state) : state → Prop :=
  | later_now : later up st st
  | later_step s o r s' :
      later up st s → op_ok up s o → run o s = Done (r, s') →
      later up st s'.

Lemma later_reachable up st st' :
  reachable up st → later up st st' → reachable up st'.
Proof.
  intros Hreach. induction 1 as [|s o r s' _ IH Hok Hrun]; [done|].
  by eapply reach_step.
Qed.

Lemma later_leaked up st st' x :
  reachable up st → leaked st x → later up st st' → leaked st' x.
Proof.
  intros Hreach Hleak. induction 1 as [|s o r s' Hl IH Hok Hrun]; [done|].
  pose proof (later_reachable _ _ _ Hreach Hl) as Hs.
  by destruct (run_leaked up o s r s' x (reachable_blocks _ _ Hs) Hok Hrun IH).
Qed.

(** * C7: munmap fails *)

(** [free(p)] for the only block of the list, with a [munmap] that
    fails. *)
Definition release_fails : outcome (unit * state) :=
  free_ false 1000100 (final false one_block).

(** C7, as stated, fails: when the release of the only block finds the
    whole region free and [munmap] fails, [perror] reports it and
    [merge_block] returns NULL, but the list is empty afterwards: the
    block, free and still mapped, is not tracked any more. *)
Lemma C7_counterexample :
  reachable false (final false one_block) ∧
  returned release_fails = Some tt ∧
  returned (merge_block 1000000 false
              (mark true 1000000 (final false one_block))) = Some NULL ∧
  trace (state_after release_fails) = [Perror "munmap"] ∧
  blocks (state_after release_fails) = [] ∧
  g_head (state_after release_fails) = NULL ∧
  fld free (heap (state_after release_fails)) 1000000 = true ∧
  fld size (heap (state_after release_fails)) 1000000 = 4096.
Proof.
  split; [apply final_reachable; vm_compute; reflexivity|].
  repeat split; vm_compute; reflexivity.
Qed.

Lemma merged_next_trace l1 block l2 st :
  wf (l1 ++ block :: l2) st →
  trace (merged_next (mark true block st) block) = trace st ∧
  mapped (merged_next (mark true block st) block) = mapped st.
Proof.
  intros Hwf. unfold merged_next.
  by destruct (absorbs_next (mark true block st) block).
Qed.

Lemma free_result_trace l1 block l2 st :
  wf (l1 ++ block :: l2) st →
  trace (free_result false block st)
  = (if left_alone st block then [Perror "munmap"] else []) ++ trace st.
Proof.
  intros Hwf. destruct (merged_next_trace _ _ _ _ Hwf) as [Ht _].
  rewrite free_result_merged. unfold left_alone.
  destruct (absorbed_by_prev _ block); [done|]. cbn [negb andb].
  destruct (alone _ block); [|done].
  unfold unmap_result, unlink_result. cbn. by rewrite Ht.
Qed.

(** C7, amended: a release whose [munmap] fails does not crash.  When
    the released block, after it absorbed a free successor of its
    region, is not absorbed by its predecessor and has no neighbour of
    its region left ([left_alone]), [perror] reports the failure and
    [merge_block] returns NULL; the memory stays mapped and the block
    keeps its header, marked free, but it was unlinked before the call
    of [munmap]: it is not in the list, and in no state the program
    gets to later is it in the list or is its address returned by a
    call.  In every other case no region is unmapped: [merge_block]
    returns the block and reports nothing. *)
Theorem C7_unmap_failure up st block :
  reachable up st → block ∈ blocks st →
  ∃ r st',
    merge_block block false (mark true block st) = Done (r, st') ∧
    free_ false (block + sizeof_mem_block) st = Done (tt, st') ∧
    (left_alone st block = false → r = block ∧ trace st' = trace st) ∧
    (left_alone st block = true →
     r = NULL ∧ trace st' = Perror "munmap" :: trace st ∧
     block ∉ blocks st' ∧ is_Some (heap st' !! block) ∧
     fld free (heap st') block = true ∧ mapped st' = mapped st ∧
     ∀ st'', later up st' st'' →
       block ∉ blocks st'' ∧
       ∀ o r' s, op_ok up st'' o → run o st'' = Done (r', s) →
                 r' ≠ block + sizeof_mem_block).
Proof.
  intros Hreach Hin. pose proof (reachable_blocks _ _ Hreach) as Hinv.
  destruct (free_inv up _ false block st Hinv Hin)
    as (l' & st' & Hf & [Hwf' _] & _ & _ & _ & r & Hm & Hrep & Hst').
  exists r, st'. split_and!; [done..| |].
  all: pose proof Hin as Hin';
    apply list_elem_of_split in Hin' as (l1 & l2 & Hl);
    pose proof (proj1 Hinv) as Hwf; rewrite Hl in Hwf;
    pose proof (free_result_trace _ _ _ _ Hwf) as Htr;
    rewrite <-Hst' in Htr.
  - intros Hla. rewrite Hla in Htr. cbn in Htr.
    destruct Hrep as [?|(_ & _ & Ht & _)]; [done|].
    rewrite Htr in Ht. apply (f_equal length) in Ht. cbn in Ht. lia.
  - intros Hla. rewrite Hla in Htr. cbn in Htr.
    destruct Hrep as [[_ Ht]|(_ & -> & _ & Hnin & Hhdr & Hfree & Hmap)].
    { rewrite Htr in Ht. apply (f_equal length) in Ht. cbn in Ht. lia. }
    rewrite (wf_blocks_eq _ _ Hwf'). split_and!; [done..|].
    pose proof (wf_block_ok _ _ _ _ Hwf) as Hbok.
    pose proof (bo_size _ _ Hbok) as Hsize. pose proof (bo_pos _ _ Hbok) as Hpos.
    assert (reachable up st') as Hreach'.
    { apply (reach_step up st (Free false (block + sizeof_mem_block))
               NULL st'); [done| |].
      - right. by replace (block + sizeof_mem_block - sizeof_mem_block)
          with block by lia.
      - cbn [run]. by rewrite (bind_Done _ _ _ _ _ Hf). }
    assert (leaked st' block) as Hleak.
    { split.
      - rewrite Hmap. apply (bo_mapped _ _ Hbok). lia.
      - destruct (free_stages _ _ _ false _ Hwf)
          as (l'' & Hwf'' & _ & _ & _ & _ & Halone).
        rewrite <-Hst' in Hwf'', Halone.
        destruct (Halone Hla) as [_ Hout].
        intros (b & Hb & Hx). rewrite (wf_blocks_eq _ _ Hwf'') in Hb.
        by apply (Hout b). }
    intros st'' Hlater.
    pose proof (later_reachable _ _ _ Hreach' Hlater) as Hreach''.
    pose proof (later_leaked _ _ _ _ Hreach' Hleak Hlater) as Hleak''.
    assert (∀ s, reachable up s → leaked s block → block ∉ blocks s)
      as Hout.
    { intros s Hs [_ Hcov] Hb. apply Hcov. exists block. split; [done|].
      pose proof (bo_size _ _ (wf_elem _ _ _
                                 (proj1 (reachable_blocks _ _ Hs)) Hb)).
      unfold inside. lia. }
    split; [by apply Hout|].
    intros o r' s Hok Hrun.
    destruct (run_leaked up o st'' r' s block
                (reachable_blocks _ _ Hreach'') Hok Hrun Hleak'')
      as [Hleak3 Hr].
    assert (reachable up s) as Hs by (by eapply reach_step).
    destruct Hr as [->|Hr].
    + unfold NULL, sizeof_mem_block. lia.
    + intros ->. apply (Hout s Hs Hleak3).
      by replace (block + sizeof_mem_block - sizeof_mem_block) with block
        in Hr by lia.
Qed.

(** C7, amended, at the release of the only allocation: the block
    absorbs the free rest of its page and is left alone. *)
Lemma C7_witness :
  left_alone (final false one_block) 1000000 = true ∧
  ∃ r st',
    merge_block 1000000 false (mark true 1000000 (final false one_block))
    = Done (r, st') ∧
    free_ false (1000000 + sizeof_mem_block) (final false one_block)
    = Done (tt, st') ∧
    (left_alone (final false one_block) 1000000 = false →
     r = 1000000 ∧ trace st' = trace (final false one_block)) ∧
    (left_alone (final false one_block) 1000000 = true →
     r = NULL ∧
     trace st' = Perror "munmap" :: trace (final false one_block) ∧
     1000000 ∉ blocks st' ∧ is_Some (heap st' !! 1000000) ∧
     fld free (heap st') 1000000 = true ∧
     mapped st' = mapped (final false one_block) ∧
     ∀ st'', later false st' st'' →
       1000000 ∉ blocks st'' ∧
       ∀ o r' s, op_ok false st'' o → run o st'' = Done (r', s) →
                 r' ≠ 1000000 + sizeof_mem_block).
Proof.
  split; [vm_compute; reflexivity|].
  apply (C7_unmap_failure false (final false one_block) 1000000).
  - apply final_reachable. vm_compute. reflexivity.
  - replace (blocks (final false one_block)) with [1000000; 1000144]
      by (vm_compute; reflexivity).
    apply list_elem_of_here.
Defined.
